(** * Box Audit: session data model, normalisation and history

    A shallow embedding of [js/data.js] (location normaliser, quantity
    parser, session normalisation, undo/redo history, loading and
    saving) and of the core actions of the application script
    (switchBox, addItem, deleteItem, saveEditedItem, toggleBoxComplete,
    setSecondaryLocation, saveSecondaryLocation, the Enter handler,
    search, CSV export, init), followed by the properties proved about
    them.

    Conventions of the embedding.
    - A JavaScript string is a list of ASCII code units ([str]).  Case
      mapping, [trim] and the regular-expression classes are those of
      JavaScript restricted to ASCII text; the Unicode case mappings and
      Unicode white space are outside the model.
    - [null] is [None]; a value that is "a string or null" is an
      [option str].
    - A Number that holds a quantity or a parsed box number is a
      non-negative integer-valued IEEE double or [Infinity]
      ([Number.t]); rounding to 53 significant bits is written out.
    - The [boxes] object is an association list in enumeration order. *)

From Stdlib Require Import List Ascii String NArith ZArith Bool Lia Arith Permutation.
Import ListNotations.

Set Implicit Arguments.

(* ================================================================== *)
(** * Characters and strings *)

Abbreviation str := (list ascii) (only parsing).

Definition lit (s : string) : str := list_ascii_of_string s.
Coercion lit : string >-> list.

Definition code (c : ascii) : N := N_of_ascii c.

(** [\d] *)
Definition is_digit (c : ascii) : bool :=
  (48 <=? code c)%N && (code c <=? 57)%N.

(** [\s] and the characters removed by [trim], on ASCII:
    TAB, LF, VT, FF, CR and SPACE. *)
Definition is_space (c : ascii) : bool :=
  ((9 <=? code c)%N && (code c <=? 13)%N) || (code c =? 32)%N.

Definition is_lower (c : ascii) : bool :=
  (97 <=? code c)%N && (code c <=? 122)%N.

Definition is_upper (c : ascii) : bool :=
  (65 <=? code c)%N && (code c <=? 90)%N.

(** [[A-Za-z]] *)
Definition is_alpha (c : ascii) : bool := is_upper c || is_lower c.

Definition upper_char (c : ascii) : ascii :=
  if is_lower c then ascii_of_N (code c - 32) else c.

Definition lower_char (c : ascii) : ascii :=
  if is_upper c then ascii_of_N (code c + 32) else c.

Definition toUpperCase (s : str) : str := map upper_char s.
Definition toLowerCase (s : str) : str := map lower_char s.

Fixpoint dropWhile (p : ascii -> bool) (s : str) : str :=
  match s with
  | c :: r => if p c then dropWhile p r else s
  | [] => []
  end.

Fixpoint takeWhile (p : ascii -> bool) (s : str) : str :=
  match s with
  | c :: r => if p c then c :: takeWhile p r else []
  | [] => []
  end.

Definition trimStart (s : str) : str := dropWhile is_space s.
Definition trimEnd (s : str) : str := rev (dropWhile is_space (rev s)).
Definition trim (s : str) : str := trimEnd (trimStart s).

Definition str_eqb (a b : str) : bool :=
  if list_eq_dec ascii_dec a b then true else false.

(** JavaScript truthiness of a value that is a string or null. *)
Definition truthy (v : option str) : bool :=
  match v with
  | Some (_ :: _) => true
  | _ => false
  end.

(** [v || null] on a string-or-null value. *)
Definition or_null (v : option str) : option str :=
  if truthy v then v else None.

(** The property name under which a key value is stored: [obj[null]]
    addresses the property ["null"]. *)
Definition propKey (k : option str) : str :=
  match k with
  | Some s => s
  | None => lit "null"
  end.

(** [String.prototype.padStart(n, '0')] *)
Definition padStart0 (n : nat) (s : str) : str :=
  repeat "0"%char (n - List.length s) ++ s.

(* ================================================================== *)
(** * Numbers *)

Module Number.

(** The Numbers that occur: non-negative integers that are doubles,
    and [Infinity]. *)
Inductive t : Type :=
| Fin (n : N)
| Infinity.

Definition eqb (a b : t) : bool :=
  match a, b with
  | Fin x, Fin y => (x =? y)%N
  | Infinity, Infinity => true
  | _, _ => false
  end.

(** Rounding of a non-negative mathematical integer to the nearest
    double, ties to even; [2^1024] and above overflow. *)
Definition round (n : N) : t :=
  if (n <? 2 ^ 53)%N then Fin n
  else
    let e := (N.log2 n - 52)%N in
    let q := N.shiftr n e in
    let r := (n - N.shiftl q e)%N in
    let half := (2 ^ (e - 1))%N in
    let q' := if (r <? half)%N then q
              else if (half <? r)%N then (q + 1)%N
              else if N.even q then q else (q + 1)%N in
    let v := N.shiftl q' e in
    if (2 ^ 1024 <=? v)%N then Infinity else Fin v.

(** [a + b] *)
Definition add (a b : t) : t :=
  match a, b with
  | Fin x, Fin y => round (x + y)
  | _, _ => Infinity
  end.

(** Truthiness of a Number: zero is falsy. *)
Definition truthy (a : t) : bool :=
  match a with
  | Fin 0 => false
  | _ => true
  end.

Definition digit_char (d : N) : ascii := ascii_of_N (48 + d).

Definition digit_val (c : ascii) : N := (code c - 48)%N.

(** Decimal digits of a natural number, most significant first. *)
Fixpoint digits_fuel (fuel : nat) (n : N) (acc : str) : str :=
  match fuel with
  | O => acc
  | S f =>
      let acc' := digit_char (n mod 10) :: acc in
      if (n <? 10)%N then acc' else digits_fuel f (n / 10) acc'
  end.

Definition decimal (n : N) : str :=
  digits_fuel (S (N.to_nat (N.log2 n))) n [].

(** Value of a run of decimal digits. *)
Definition step (acc : N) (c : ascii) : N := (acc * 10 + digit_val c)%N.

Definition value (ds : str) : N := fold_left step ds 0%N.

(** [parseInt(ds, 10)] on a non-empty run of decimal digits.  (For more
    than 20 significant digits ECMAScript lets an implementation
    replace the digits after the 20th by zeros; the exact value is
    taken here.) *)
Definition parseInt (ds : str) : t := round (value ds).

(** ** Number::toString, radix 10

    For a double [v] the standard picks integers [n], [k], [s] with
    [k >= 1], [10^(k-1) <= s < 10^k], [s * 10^(n-k)] rounding to [v] and
    [k] as small as possible (closest [s] when several).  Below [2^53]
    every integer is a double, so the digits are the decimal expansion
    itself; that case is taken directly. *)

Definition dist (a b : N) : N := if (a <? b)%N then (b - a)%N else (a - b)%N.

(** Candidates [(s, p)], meaning [s * 10^p], with [k] digits. *)
Definition candidates (v : N) (d k : N) : list (N * N) :=
  let p := (d - k)%N in
  let s := (v / 10 ^ p)%N in
  let c1 := [(s, p)] in
  let c2 := if (s + 1 <? 10 ^ k)%N then [((s + 1)%N, p)] else [] in
  let c3 := if (k =? 1)%N then [(1%N, d)] else [] in
  filter (fun c => eqb (round (fst c * 10 ^ snd c)) (Fin v)) (c1 ++ c2 ++ c3).

Definition better (v : N) (a b : N * N) : N * N :=
  let da := dist (fst a * 10 ^ snd a) v in
  let db := dist (fst b * 10 ^ snd b) v in
  if (db <? da)%N then b
  else if (da <? db)%N then a
  else if N.even (fst a) then a else b.

Fixpoint shortest_from (fuel : nat) (v d k : N) : N * N :=
  match fuel with
  | O => (v, 0%N)
  | S f =>
      match candidates v d k with
      | c :: cs => fold_left (better v) cs c
      | [] => shortest_from f v d (k + 1)
      end
  end.

(** [(s, p)] with [s * 10^p] the shortest decimal that rounds to [v]. *)
Definition shortest (v : N) : N * N :=
  let d := N.of_nat (List.length (decimal v)) in
  shortest_from (N.to_nat d) v d 1.

Definition toString (x : t) : str :=
  match x with
  | Infinity => lit "Infinity"
  | Fin v =>
      if (v <? 2 ^ 53)%N then decimal v
      else
        let '(s, p) := shortest v in
        let ds := decimal s in
        let k := List.length ds in
        let n := (N.of_nat k + p)%N in
        if (n <=? 21)%N then ds ++ repeat "0"%char (N.to_nat p)
        else
          match ds with
          | [c] => [c] ++ lit "e+" ++ decimal (n - 1)
          | c :: rest => [c] ++ lit "." ++ rest ++ lit "e+" ++ decimal (n - 1)
          | [] => []
          end
  end.

End Number.

(* ================================================================== *)
(** * Location normaliser (js/data.js) *)

(** A literal pattern prefix under the [i] flag: both sides are
    compared after canonicalisation to upper case. *)
Fixpoint stripPrefixCI (p u : str) : option str :=
  match p, u with
  | [], _ => Some u
  | a :: p', c :: u' =>
      if Ascii.eqb (upper_char a) (upper_char c) then stripPrefixCI p' u'
      else None
  | _ :: _, [] => None
  end.

(** The anchored, case-insensitive shelf patterns of [normalizeBoxNumber]
    and [normalizeShelfLocation]: the literal prefix ([SHELF] or [S]) at
    the start of the text, any white space, a captured run of one or
    more digits, a captured run of letters [A-Za-z], end of text.  The
    result is the two capture groups.  The character classes are
    disjoint, so the greedy match is the only one: all white space, then
    all digits, then letters up to the end of the text. *)
Definition matchPrefixed (prefix u : str) : option (str * str) :=
  match stripPrefixCI prefix u with
  | None => None
  | Some r =>
      let r1 := dropWhile is_space r in
      let num := takeWhile is_digit r1 in
      let letter := dropWhile is_digit r1 in
      match num with
      | [] => None
      | _ :: _ => if forallb is_alpha letter then Some (num, letter) else None
      end
  end.

(** [/\d+/]: the leftmost run of digits. *)
Definition firstDigitRun (u : str) : option str :=
  match dropWhile (fun c => negb (is_digit c)) u with
  | [] => None
  | r => Some (takeWhile is_digit r)
  end.

Definition normalizeBoxNumber (boxNumber : option str) : option str :=
  match boxNumber with
  | None | Some [] => None
  | Some b =>
      let upper := trim (toUpperCase b) in
      match matchPrefixed (lit "SHELF") upper with
      | Some (num, letter) => Some (lit "SHELF " ++ num ++ letter)
      | None =>
          match matchPrefixed (lit "S") upper with
          | Some (num, letter) => Some (lit "SHELF " ++ num ++ letter)
          | None =>
              match firstDigitRun upper with
              | Some numStr =>
                  let num := Number.parseInt numStr in
                  Some (lit "BOX" ++ padStart0 3 (Number.toString num))
              | None => Some upper
              end
          end
      end
  end.

Definition normalizeShelfLocation (value : option str) : option str :=
  match value with
  | None | Some [] => None
  | Some v =>
      let upper := trim (toUpperCase v) in
      match matchPrefixed (lit "SHELF") upper with
      | Some (num, letter) => Some (lit "SHELF " ++ num ++ letter)
      | None =>
          match matchPrefixed (lit "S") upper with
          | Some (num, letter) => Some (lit "SHELF " ++ num ++ letter)
          | None => None
          end
      end
  end.

(* ================================================================== *)
(** * Quantity parser (js/data.js) *)

Definition is_x (c : ascii) : bool :=
  Ascii.eqb c "x"%char || Ascii.eqb c "X"%char.

(** [xPattern]: one or more white space, [x] or [X], a captured run of
    one or more digits, any white space, end of text.  The result is the
    text before the leftmost match and the captured digits.  Read from
    the end of the text: trailing white space, the digits, the [x], and
    the whole run of white space before it (the leftmost match takes all
    of it). *)
Definition matchX (s : str) : option (str * str) :=
  let r0 := dropWhile is_space (rev s) in
  let ds := takeWhile is_digit r0 in
  match ds, dropWhile is_digit r0 with
  | _ :: _, c :: r1 =>
      if is_x c then
        match takeWhile is_space r1 with
        | _ :: _ => Some (rev (dropWhile is_space r1), rev ds)
        | [] => None
        end
      else None
  | _, _ => None
  end.

(** [parenPattern]: any white space, an opening parenthesis, a captured
    run of one or more digits, a closing parenthesis, any white space,
    end of text; read in the same way. *)
Definition matchParen (s : str) : option (str * str) :=
  match dropWhile is_space (rev s) with
  | c :: r0 =>
      if Ascii.eqb c ")"%char then
        let ds := takeWhile is_digit r0 in
        match ds, dropWhile is_digit r0 with
        | _ :: _, o :: r1 =>
            if Ascii.eqb o "("%char
            then Some (rev (dropWhile is_space r1), rev ds)
            else None
        | _, _ => None
        end
      else None
  | [] => None
  end.

Module Parsed.
Record t : Type := mk { name : str; qty : Number.t }.
End Parsed.

(** [x || 1] on a Number. *)
Definition or_one (x : Number.t) : Number.t :=
  if Number.truthy x then x else Number.Fin 1.

(** [parseQuantity] on a string argument. *)
Definition parseQuantity (itemName : str) : Parsed.t :=
  match itemName with
  | [] => Parsed.mk itemName (Number.Fin 1)
  | _ :: _ =>
      let name0 := trim itemName in
      let '(name, qty) :=
        match matchX name0 with
        | Some (before, ds) => (trim before, or_one (Number.parseInt ds))
        | None =>
            match matchParen name0 with
            | Some (before, ds) => (trim before, or_one (Number.parseInt ds))
            | None => (name0, Number.Fin 1)
            end
        end in
      Parsed.mk (match name with [] => itemName | _ :: _ => name end)
                (or_one qty)
  end.

(* ================================================================== *)
(** * Data model *)

Module Item.
(** [id] is [Date.now() + Math.random()], a finite Number that is only
    ever compared with [===]; it is kept as an opaque integer tag.
    [qty] is a Number, or [None] when the property is missing or
    [null]. *)
Record t : Type := mk {
  id : Z;
  name : str;
  qty : option Number.t;
  addedAt : str;
  isDuplicate : bool;
  tags : list str
}.
End Item.

Module BoxData.
Record t : Type := mk {
  items : list Item.t;
  completed : bool;
  completedAt : option str;
  secondaryLocation : option str
}.
End BoxData.

(** A box record as it may come out of storage: [items] is [None] when
    it is not an array, [completed] is [None] when it is not a boolean,
    [secondaryLocation] is [None] when the object has no such own
    property. *)
Module RawBox.
Record t : Type := mk {
  items : option (list Item.t);
  completed : option bool;
  completedAt : option str;
  secondaryLocation : option (option str)
}.

Definition of_box (b : BoxData.t) : t :=
  mk (Some (BoxData.items b)) (Some (BoxData.completed b))
     (BoxData.completedAt b) (Some (BoxData.secondaryLocation b)).
End RawBox.

Definition Boxes := list (str * BoxData.t).

Module Session.
Record t : Type := mk {
  id : option str;
  startedAt : option str;
  boxes : Boxes
}.

Definition with_boxes (s : t) (b : Boxes) : t := mk (id s) (startedAt s) b.
End Session.

(** ** The [boxes] object

    The list is the object in enumeration order.  Every key the program
    looks up or adds is an output of [normalizeBoxNumber] (or the
    property name ["null"]); none is an array index and none names a
    property of [Object.prototype], so a new key is enumerated last and
    a lookup never reaches the prototype. *)

Fixpoint lookup (k : str) (l : Boxes) : option BoxData.t :=
  match l with
  | [] => None
  | (k', v) :: r => if str_eqb k k' then Some v else lookup k r
  end.

(** [boxes[k] = v] *)
Fixpoint assign (k : str) (v : BoxData.t) (l : Boxes) : Boxes :=
  match l with
  | [] => [(k, v)]
  | (k', v') :: r =>
      if str_eqb k k' then (k', v) :: r else (k', v') :: assign k v r
  end.

(** [delete boxes[k]] *)
Definition remove (k : str) (l : Boxes) : Boxes :=
  filter (fun kv => negb (str_eqb k (fst kv))) l.

(* ================================================================== *)
(** * Data shape and normalisation (js/data.js) *)

Definition createEmptyBoxData : BoxData.t :=
  BoxData.mk [] false None None.

Definition ensureBoxDataShape (boxData : option RawBox.t) : BoxData.t :=
  match boxData with
  | None => createEmptyBoxData
  | Some b =>
      BoxData.mk
        (match RawBox.items b with Some l => l | None => [] end)
        (match RawBox.completed b with Some c => c | None => false end)
        (or_null (RawBox.completedAt b))
        (match RawBox.secondaryLocation b with Some v => v | None => None end)
  end.

(** [ensureBoxDataShape] on a record that already has the four fields. *)
Definition repairShape (b : BoxData.t) : BoxData.t :=
  ensureBoxDataShape (Some (RawBox.of_box b)).

Definition ensureBoxExists (boxKey : str) (s : Session.t) : Session.t :=
  match lookup boxKey (Session.boxes s) with
  | None => Session.with_boxes s (assign boxKey createEmptyBoxData (Session.boxes s))
  | Some existing =>
      Session.with_boxes s (assign boxKey (repairShape existing) (Session.boxes s))
  end.

(** [!item.qty] *)
Definition qty_falsy (q : option Number.t) : bool :=
  match q with
  | None => true
  | Some n => negb (Number.truthy n)
  end.

(** [parsed.qty > 1] *)
Definition gt_one (n : Number.t) : bool :=
  match n with
  | Number.Fin v => (1 <? v)%N
  | Number.Infinity => true
  end.

(** [item.qty === 1] *)
Definition qty_is_one (q : option Number.t) : bool :=
  match q with
  | Some n => Number.eqb n (Number.Fin 1)
  | None => false
  end.

(** The body of the inner loop of [normalizeItemQuantities]. *)
Definition normalizeItem (item : Item.t) : Item.t :=
  if qty_is_one (Item.qty item) || qty_falsy (Item.qty item)
  then
    let parsed := parseQuantity (Item.name item) in
    if gt_one (Parsed.qty parsed) then
      Item.mk (Item.id item) (Parsed.name parsed) (Some (Parsed.qty parsed))
              (Item.addedAt item) (Item.isDuplicate item) (Item.tags item)
    else if qty_falsy (Item.qty item) then
      Item.mk (Item.id item) (Item.name item) (Some (Number.Fin 1))
              (Item.addedAt item) (Item.isDuplicate item) (Item.tags item)
    else item
  else item.

Definition normalizeItemQuantities (s : Session.t) : Session.t :=
  Session.with_boxes s
    (map (fun kv =>
            (fst kv,
             BoxData.mk (map normalizeItem (BoxData.items (snd kv)))
                        (BoxData.completed (snd kv))
                        (BoxData.completedAt (snd kv))
                        (BoxData.secondaryLocation (snd kv))))
         (Session.boxes s)).

(** [a || b] on string-or-null values. *)
Definition or_else (a b : option str) : option str :=
  if truthy a then a else b.

(** One iteration of the loop of [normalizeSessionBoxes]. *)
Definition normalizeStep (normalizedBoxes : Boxes) (entry : str * BoxData.t)
  : Boxes :=
  let normalizedKey := propKey (normalizeBoxNumber (Some (fst entry))) in
  let safeBoxData := repairShape (snd entry) in
  match lookup normalizedKey normalizedBoxes with
  | Some existing0 =>
      let existing := repairShape existing0 in
      let items := BoxData.items existing ++ BoxData.items safeBoxData in
      let either := BoxData.completed safeBoxData || BoxData.completed existing in
      let completed := if either then true else BoxData.completed existing in
      let completedAt :=
        if either
        then or_else (BoxData.completedAt existing) (BoxData.completedAt safeBoxData)
        else BoxData.completedAt existing in
      let secondaryLocation :=
        if truthy (BoxData.secondaryLocation safeBoxData)
           && negb (truthy (BoxData.secondaryLocation existing))
        then BoxData.secondaryLocation safeBoxData
        else BoxData.secondaryLocation existing in
      assign normalizedKey
             (BoxData.mk items completed completedAt secondaryLocation)
             normalizedBoxes
  | None =>
      assign normalizedKey
             (BoxData.mk (BoxData.items safeBoxData)
                         (BoxData.completed safeBoxData || false)
                         (or_null (BoxData.completedAt safeBoxData))
                         (or_null (BoxData.secondaryLocation safeBoxData)))
             normalizedBoxes
  end.

Definition normalizeSessionBoxes (s : Session.t) : Session.t :=
  normalizeItemQuantities
    (Session.with_boxes s (fold_left normalizeStep (Session.boxes s) [])).

(* ================================================================== *)
(** * Snapshots *)

(** [JSON.parse(JSON.stringify(x))].  Strings, booleans, [null], arrays
    and finite Numbers come back as they were; [Infinity] is written as
    [null]. *)
Definition jsonNumber (q : option Number.t) : option Number.t :=
  match q with
  | Some Number.Infinity => None
  | _ => q
  end.

Definition jsonItem (i : Item.t) : Item.t :=
  Item.mk (Item.id i) (Item.name i) (jsonNumber (Item.qty i))
          (Item.addedAt i) (Item.isDuplicate i) (Item.tags i).

Definition jsonBox (b : BoxData.t) : BoxData.t :=
  BoxData.mk (map jsonItem (BoxData.items b)) (BoxData.completed b)
             (BoxData.completedAt b) (BoxData.secondaryLocation b).

Definition jsonCopy (s : Session.t) : Session.t :=
  Session.with_boxes s (map (fun kv => (fst kv, jsonBox (snd kv))) (Session.boxes s)).

(* ================================================================== *)
(** * The state of the page *)

(** What the user is told: [alert] and [showSaveError].  Rendering,
    focus and audio are not modelled; storage and [saveToStorage], with
    the save error it can show, are modelled on pages further down. *)
Inductive UIEvent : Type :=
| Alert (msg : str)
| SaveError (msg : str).

(** [js/data.js] holds the session in its variable [currentSession] and
    exports the object that variable holds at load time as
    [window.BoxData.currentSession].  The application script always goes
    through [window.BoxData.currentSession]; [undo], [redo] and the
    loading functions assign a new object to the variable.  [Exported]
    says that the variable still holds the exported object. *)
Inductive Binding : Type :=
| Exported
| Rebound (s : Session.t).

Record World : Type := mkWorld {
  windowSession : Session.t;          (* window.BoxData.currentSession *)
  binding : Binding;                  (* the variable currentSession *)
  history : list Session.t;
  historyIndex : Z;
  maxHistorySize : option N;          (* window.CONFIG?.MAX_HISTORY_SIZE *)
  currentBox : option str;
  editingItemId : option (option str * Z);
  ui : list UIEvent
}.

Definition currentSession (w : World) : Session.t :=
  match binding w with
  | Exported => windowSession w
  | Rebound s => s
  end.

Definition setWindowSession (w : World) (s : Session.t) : World :=
  mkWorld s (binding w) (history w) (historyIndex w) (maxHistorySize w)
          (currentBox w) (editingItemId w) (ui w).

(** [currentSession = s] *)
Definition rebind (w : World) (s : Session.t) : World :=
  mkWorld (windowSession w) (Rebound s) (history w) (historyIndex w)
          (maxHistorySize w) (currentBox w) (editingItemId w) (ui w).

(** A change made in place to the object held by [currentSession]. *)
Definition updateCurrent (f : Session.t -> Session.t) (w : World) : World :=
  match binding w with
  | Exported => setWindowSession w (f (windowSession w))
  | Rebound s => rebind w (f s)
  end.

Definition setHistory (w : World) (h : list Session.t) (i : Z) : World :=
  mkWorld (windowSession w) (binding w) h i (maxHistorySize w)
          (currentBox w) (editingItemId w) (ui w).

Definition setCurrentBox (w : World) (b : option str) : World :=
  mkWorld (windowSession w) (binding w) (history w) (historyIndex w)
          (maxHistorySize w) b (editingItemId w) (ui w).

Definition setEditing (w : World) (e : option (option str * Z)) : World :=
  mkWorld (windowSession w) (binding w) (history w) (historyIndex w)
          (maxHistorySize w) (currentBox w) e (ui w).

Definition report (w : World) (e : UIEvent) : World :=
  mkWorld (windowSession w) (binding w) (history w) (historyIndex w)
          (maxHistorySize w) (currentBox w) (editingItemId w) (ui w ++ [e]).

(** The state when both scripts have been evaluated. *)
Definition initialWorld (cfg : option N) : World :=
  mkWorld (Session.mk None None []) Exported [] (-1) cfg None None [].

(** A call either returns a value or throws; the state reached is kept
    in both cases. *)
Inductive Outcome (A : Type) : Type :=
| Return (w : World) (a : A)
| Throw (w : World).
Arguments Return {A} w a.
Arguments Throw {A} w.

Definition worldOf {A} (o : Outcome A) : World :=
  match o with
  | Return w _ => w
  | Throw w => w
  end.

(* ================================================================== *)
(** * History (js/data.js) *)

(** [window.CONFIG?.MAX_HISTORY_SIZE || 50] *)
Definition historyLimit (cfg : option N) : N :=
  match cfg with
  | Some 0%N | None => 50%N
  | Some n => n
  end.

(** [a.slice(0, e)] *)
Definition slice0 {A} (e : Z) (a : list A) : list A :=
  if (e <? 0)%Z
  then firstn (Z.to_nat (Z.of_nat (List.length a) + e)) a
  else firstn (Z.to_nat e) a.

Definition saveStateToHistory (w : World) : World :=
  let h1 := slice0 (historyIndex w + 1) (history w) in
  let h2 := h1 ++ [jsonCopy (currentSession w)] in
  let i := (Z.of_nat (List.length h2) - 1)%Z in
  if (historyLimit (maxHistorySize w) <? N.of_nat (List.length h2))%N
  then setHistory w (tl h2) (i - 1)
  else setHistory w h2 i.

(** [history[i]] *)
Definition entryAt (h : list Session.t) (i : Z) : option Session.t :=
  if (i <? 0)%Z then None else nth_error h (Z.to_nat i).

(** [JSON.parse(JSON.stringify(undefined))] throws. *)
Definition restore (w : World) (i : Z) : Outcome bool :=
  let w1 := setHistory w (history w) i in
  match entryAt (history w) i with
  | Some e => Return (rebind w1 (jsonCopy e)) true
  | None => Throw w1
  end.

Definition undo (w : World) : Outcome bool :=
  if (0 <? historyIndex w)%Z
  then restore w (historyIndex w - 1)
  else Return w false.

Definition redo (w : World) : Outcome bool :=
  if (historyIndex w <? Z.of_nat (List.length (history w)) - 1)%Z
  then restore w (historyIndex w + 1)
  else Return w false.

(* ================================================================== *)
(** * Core actions (application script) *)

(** The actions are given here on the state of the two scripts: the
    sessions, the history, the active location, the editing mode and
    the messages the action itself shows.  The call of [saveToStorage]
    that ends an action changes storage only, except that it shows a
    save error when the write fails; it is modelled on pages further
    down ([saveToStorage], [OnPage.switchBox]), where the statements
    that depend on it are made. *)

(** [!v] on a string-or-null value. *)
Definition falsy (v : option str) : bool := negb (truthy v).

(** [a === b] on string-or-null values. *)
Definition key_eqb (a b : option str) : bool :=
  match a, b with
  | Some x, Some y => str_eqb x y
  | None, None => true
  | _, _ => false
  end.

(** The boxes reached through [window.BoxData.currentSession.boxes]. *)
Definition windowBoxes (w : World) : Boxes := Session.boxes (windowSession w).

Definition setWindowBoxes (w : World) (b : Boxes) : World :=
  setWindowSession w (Session.with_boxes (windowSession w) b).

Definition setItems (b : BoxData.t) (l : list Item.t) : BoxData.t :=
  BoxData.mk l (BoxData.completed b) (BoxData.completedAt b)
             (BoxData.secondaryLocation b).

Definition switchBox (boxNumber : option str) (w : World) : World :=
  let normalized := normalizeBoxNumber boxNumber in
  if falsy normalized then report w (Alert (lit "Invalid box number"))
  else
    let w1 := setCurrentBox w normalized in
    match lookup (propKey normalized) (windowBoxes w1) with
    | None => updateCurrent (ensureBoxExists (propKey normalized)) w1
    | Some _ => w1
    end.

Definition setSecondaryLocation (value : option str) (w : World) : World :=
  if falsy (currentBox w) then w
  else
    match lookup (propKey (currentBox w)) (windowBoxes w) with
    | None => w
    | Some box =>
        let box' := BoxData.mk (BoxData.items box) (BoxData.completed box)
                               (BoxData.completedAt box) (or_null value) in
        saveStateToHistory
          (setWindowBoxes w (assign (propKey (currentBox w)) box' (windowBoxes w)))
    end.

(** [inputValue] is the text of the secondary-location field. *)
Definition saveSecondaryLocation (inputValue : str) (w : World) : World :=
  if falsy (currentBox w) then w
  else
    match lookup (propKey (currentBox w)) (windowBoxes w) with
    | None => w
    | Some _ =>
        let rawValue := trim inputValue in
        match rawValue with
        | [] => setSecondaryLocation None w
        | _ :: _ =>
            let normalizedShelf := normalizeShelfLocation (Some rawValue) in
            if falsy normalizedShelf
            then report w (SaveError
                   (lit "Secondary location must be a SHELF (e.g., SHELF 2C)."))
            else setSecondaryLocation normalizedShelf w
        end
    end.

(** [now] is [new Date().toISOString()]. *)
Definition toggleBoxComplete (boxNumber : option str) (now : str) (w : World)
  : World :=
  let normalizedBox := propKey (normalizeBoxNumber boxNumber) in
  match lookup normalizedBox (windowBoxes w) with
  | None => w
  | Some box =>
      let completed := negb (BoxData.completed box) in
      let box' := BoxData.mk (BoxData.items box) completed
                             (if completed then Some now else None)
                             (BoxData.secondaryLocation box) in
      saveStateToHistory
        (setWindowBoxes w (assign normalizedBox box' (windowBoxes w)))
  end.

(** The test of the duplicate search in [addItem]. *)
Definition sameName (a b : str) : bool :=
  str_eqb (trim (toLowerCase a)) (trim (toLowerCase b)).

(** [items.splice(i, 1)] at the first index where [p] holds. *)
Fixpoint removeFirst (p : Item.t -> bool) (l : list Item.t) : list Item.t :=
  match l with
  | [] => []
  | i :: r => if p i then r else i :: removeFirst p r
  end.

(** [q || 1] on a quantity. *)
Definition qty_or_one (q : option Number.t) : Number.t :=
  match q with
  | Some n => or_one n
  | None => Number.Fin 1
  end.

(** [now] is [new Date().toISOString()], [newId] is
    [Date.now() + Math.random()], [contextTags] is
    [window.activeContext.tags] when there is an active context. *)
Definition addItem (itemName now : str) (newId : Z)
  (contextTags : option (list str)) (w : World) : Outcome unit :=
  if falsy (currentBox w)
  then Return (report w (Alert (lit "Please enter a box number first"))) tt
  else
    let key := propKey (currentBox w) in
    let w1 := updateCurrent (ensureBoxExists key) w in
    let parsed := parseQuantity itemName in
    match lookup key (windowBoxes w1) with
    | None => Throw w1
    | Some box =>
        let currentItems := BoxData.items box in
        let same := fun item => sameName (Item.name item) (Parsed.name parsed) in
        match find same currentItems with
        | Some existingItem =>
            let merged :=
              Item.mk (Item.id existingItem) (Item.name existingItem)
                      (Some (Number.add (qty_or_one (Item.qty existingItem))
                                        (Parsed.qty parsed)))
                      now (Item.isDuplicate existingItem)
                      (Item.tags existingItem) in
            let items' := removeFirst same currentItems ++ [merged] in
            Return (saveStateToHistory
                      (setWindowBoxes w1 (assign key (setItems box items')
                                                 (windowBoxes w1)))) tt
        | None =>
            let item :=
              Item.mk newId (Parsed.name parsed) (Some (Parsed.qty parsed))
                      now false
                      (match contextTags with Some t => t | None => [] end) in
            Return (saveStateToHistory
                      (setWindowBoxes w1 (assign key
                                                 (setItems box (currentItems ++ [item]))
                                                 (windowBoxes w1)))) tt
        end
    end.

Definition hasId (itemId : Z) (item : Item.t) : bool :=
  (Item.id item =? itemId)%Z.

Definition deleteItem (boxNumber : option str) (itemId : Z) (w : World)
  : World :=
  let normalizedBox := normalizeBoxNumber boxNumber in
  match lookup (propKey normalizedBox) (windowBoxes w) with
  | None => w
  | Some box =>
      let items := BoxData.items box in
      if existsb (hasId itemId) items then
        let items' := removeFirst (hasId itemId) items in
        let boxes1 := assign (propKey normalizedBox) (setItems box items')
                             (windowBoxes w) in
        let boxes2 :=
          match items' with
          | [] => if negb (key_eqb normalizedBox (currentBox w))
                  then remove (propKey normalizedBox) boxes1
                  else boxes1
          | _ :: _ => boxes1
          end in
        saveStateToHistory (setWindowBoxes w boxes2)
      else w
  end.

Definition startEditItem (boxNumber : option str) (itemId : Z) (w : World)
  : Outcome unit :=
  let normalizedBox := normalizeBoxNumber boxNumber in
  let w1 := setEditing w (Some (normalizedBox, itemId)) in
  match lookup (propKey normalizedBox) (windowBoxes w1) with
  | None => Throw w1
  | Some _ => Return w1 tt
  end.

(** The first item for which [p] holds is replaced by its image. *)
Fixpoint updateFirst (p : Item.t -> bool) (f : Item.t -> Item.t)
  (l : list Item.t) : list Item.t :=
  match l with
  | [] => []
  | i :: r => if p i then f i :: r else i :: updateFirst p f r
  end.

Definition saveEditedItem (newName : str) (w : World) : Outcome unit :=
  match editingItemId w with
  | None => Return w tt
  | Some (boxNumber, itemId) =>
      match lookup (propKey boxNumber) (windowBoxes w) with
      | None => Throw w
      | Some box =>
          let items := BoxData.items box in
          let w1 :=
            match find (hasId itemId) items with
            | Some _ =>
                let parsed := parseQuantity (trim newName) in
                let edit := fun item =>
                  Item.mk (Item.id item) (Parsed.name parsed)
                          (Some (Parsed.qty parsed)) (Item.addedAt item)
                          false (Item.tags item) in
                saveStateToHistory
                  (setWindowBoxes w
                     (assign (propKey boxNumber)
                             (setItems box (updateFirst (hasId itemId) edit items))
                             (windowBoxes w)))
            | None => w
            end in
          Return (setEditing w1 None) tt
      end
  end.

(* ================================================================== *)
(** * Loading (js/data.js) *)

Definition markBox (now : str) (b : BoxData.t) : BoxData.t :=
  match BoxData.items b with
  | _ :: _ =>
      if negb (BoxData.completed b)
      then BoxData.mk (BoxData.items b) true
                      (or_else (BoxData.completedAt b) (Some now))
                      (BoxData.secondaryLocation b)
      else b
  | [] => b
  end.

(** [migrationDone] says that storage holds the migration flag; [now] is
    [new Date().toISOString()]. *)
Definition markExistingBoxesAsCompleted (now : str) (migrationDone : bool)
  (w : World) : World :=
  if migrationDone then w
  else
    updateCurrent
      (fun s => Session.with_boxes s
                  (map (fun kv => (fst kv, markBox now (snd kv))) (Session.boxes s)))
      w.

(** The branch of [loadSession] taken when storage holds an object
    [data] with a [boxes] object: the session is replaced by [data],
    every box is shape-repaired, the keys are normalised and the
    one-time completion migration runs.  (The other branches start a new
    session or fall back to the backup; they and the writes to storage
    are modelled by [loadSession] on pages further down.) *)
Definition loadSessionData (data : Session.t) (now : str)
  (migrationDone : bool) (w : World) : World :=
  let w1 := rebind w data in
  let w2 :=
    updateCurrent
      (fun s => Session.with_boxes s
                  (map (fun kv => (fst kv, repairShape (snd kv))) (Session.boxes s)))
      w1 in
  let w3 := updateCurrent normalizeSessionBoxes w2 in
  markExistingBoxesAsCompleted now migrationDone w3.

(** [undo()] called [n] times in a row: the values returned. *)
Fixpoint undoMany (n : nat) (w : World) : list bool * World :=
  match n with
  | O => ([], w)
  | S k =>
      match undo w with
      | Return w' b => (b :: fst (undoMany k w'), snd (undoMany k w'))
      | Throw w' => ([], w')
      end
  end.

(** [record()] after the session has been given the content [s]. *)
Definition recordSession (w : World) (s : Session.t) : World :=
  saveStateToHistory (updateCurrent (fun _ => s) w).

(* ================================================================== *)
(** * Predicates used by the statements *)

(** A text is trimmed when neither end is white space. *)
Definition trimmed (s : str) : Prop :=
  dropWhile is_space s = s /\ dropWhile is_space (rev s) = rev s.

Definition all (p : ascii -> bool) (s : str) : Prop :=
  Forall (fun c => p c = true) s.

Definition none (p : ascii -> bool) (s : str) : Prop :=
  Forall (fun c => p c = false) s.

(** The text has a character that is not white space. *)
Definition nonBlank (s : str) : Prop := exists c, In c s /\ is_space c = false.

(** The shelf pattern in words: the prefix [SHELF] or [S], optional
    white space, digits, then letters. *)
Definition shelfText (u num letter : str) : Prop :=
  exists ws,
    (u = lit "SHELF" ++ ws ++ num ++ letter \/ u = lit "S" ++ ws ++ num ++ letter)
    /\ all is_space ws /\ num <> [] /\ all is_digit num /\ all is_alpha letter.

(** The first run of digits of a text: nothing before it is a digit and
    the run ends where the digits end. *)
Definition firstRun (u ds : str) : Prop :=
  exists pre post,
    u = pre ++ ds ++ post /\ none is_digit pre /\ ds <> [] /\ all is_digit ds
    /\ none is_digit (firstn 1 post).

(** ** The specification's wording, for comparison *)

Module Claimed.

(** The location normaliser as the specification words it: on a
    non-empty text, the shelf pattern first, case-insensitively; then
    the first run of digits, written as [BOX] and the number padded
    with zeros to three digits; otherwise the upper-cased input
    itself.  Empty or null input gives no result. *)
Definition normalizeBoxNumber (boxNumber : option str) : option str :=
  match boxNumber with
  | None | Some [] => None
  | Some b =>
      let u := toUpperCase b in
      let shelf :=
        match matchPrefixed (lit "SHELF") u with
        | Some m => Some m
        | None => matchPrefixed (lit "S") u
        end in
      match shelf with
      | Some (num, letter) => Some (lit "SHELF " ++ num ++ letter)
      | None =>
          match firstDigitRun u with
          | Some ds =>
              Some (lit "BOX" ++ padStart0 3 (Number.decimal (Number.value ds)))
          | None => Some u
          end
      end
  end.

End Claimed.

(** A Number that [toString] prints in plain decimal digits, without
    exponent: every integer below 2^53 is, no Number from 10^21 on is. *)
Definition plainDigits (x : Number.t) : Prop :=
  all is_digit (Number.toString x).

(** A text whose BOX key, if it gets one, holds a number printed in
    plain digits. *)
Definition safeDigits (k : str) : Prop :=
  forall ds, (forall d l, ~ shelfText (trim (toUpperCase k)) d l) ->
             firstRun (trim (toUpperCase k)) ds ->
             plainDigits (Number.parseInt ds).

(** The two trailing quantity forms in words: [<name> x<digits>] (with
    [x] or [X], after at least one white space) and [<name> (<digits>)]. *)
Definition xSuffix (t before ds : str) : Prop :=
  exists ws x,
    t = before ++ ws ++ [x] ++ ds
    /\ ws <> [] /\ all is_space ws /\ is_x x = true
    /\ ds <> [] /\ all is_digit ds.

Definition parenSuffix (t before ds : str) : Prop :=
  t = before ++ lit "(" ++ ds ++ lit ")" /\ ds <> [] /\ all is_digit ds.

(** [a || b] on strings. *)
Definition nonEmptyOr (a b : str) : str :=
  match a with
  | [] => b
  | _ :: _ => a
  end.

(** The completion invariant of a box record: [completedAt] is a
    (non-empty) time stamp when [completed] holds and [null] otherwise. *)
Definition completionOk (b : BoxData.t) : Prop :=
  if BoxData.completed b
  then truthy (BoxData.completedAt b) = true
  else BoxData.completedAt b = None.

(** A property of every box record of a [boxes] object. *)
Definition onBoxes (P : BoxData.t -> Prop) (l : Boxes) : Prop :=
  Forall (fun kv => P (snd kv)) l.

Definition sessionOk (s : Session.t) : Prop :=
  onBoxes completionOk (Session.boxes s).

(** Every box record a state holds: in the exported session, in the
    session of [js/data.js] and in the snapshots. *)
Definition boxOfWorld (w : World) (b : BoxData.t) : Prop :=
  (exists k, In (k, b) (Session.boxes (windowSession w)))
  \/ (exists k, In (k, b) (Session.boxes (currentSession w)))
  \/ (exists s k, In s (history w) /\ In (k, b) (Session.boxes s)).

(** A snapshot is a fixed point of the JSON round trip: a JSON value. *)
Definition jsonStable (s : Session.t) : Prop := jsonCopy s = s.

(** The history is well formed: the index lies between -1 and the last
    position and every snapshot is a JSON value. *)
Definition historyWf (w : World) : Prop :=
  (-1 <= historyIndex w < Z.of_nat (List.length (history w)))%Z
  /\ Forall jsonStable (history w).

(** The history after [k] recordings from the initial state, under the
    limit that the configuration [cfg] gives. *)
Definition recorded (cfg : option N) (k : nat) (w : World) : Prop :=
  maxHistorySize w = cfg
  /\ List.length (history w) = Nat.min k (N.to_nat (historyLimit cfg))
  /\ historyIndex w
     = (Z.of_nat (Nat.min k (N.to_nat (historyLimit cfg))) - 1)%Z.

(** The completion invariant of a state: it holds of every box record
    of the exported session, of the session of [js/data.js] and of the
    snapshots. *)
Definition completionInv (w : World) : Prop :=
  sessionOk (windowSession w)
  /\ sessionOk (currentSession w)
  /\ Forall sessionOk (history w).

(** No quantity of the session is [Infinity]. *)
Definition finiteQuantities (s : Session.t) : Prop :=
  forall k b i, In (k, b) (Session.boxes s) -> In i (BoxData.items b) ->
                Item.qty i <> Some Number.Infinity.

(** The key under which [addItem] compares names: lower-cased and
    trimmed. *)
Definition nameKey (n : str) : str := trim (toLowerCase n).

(** At most one item of a box has a given lower-cased trimmed name. *)
Definition uniqueNames (l : list Item.t) : Prop :=
  NoDup (map (fun i => nameKey (Item.name i)) l).

(** The item [addItem] leaves when it merges into [e]. *)
Definition mergedItem (e : Item.t) (qty : Number.t) (now : str) : Item.t :=
  Item.mk (Item.id e) (Item.name e)
          (Some (Number.add (qty_or_one (Item.qty e)) qty))
          now (Item.isDuplicate e) (Item.tags e).

(** The property name a stored key is re-keyed to. *)
Definition normalizedKey (k : str) : str :=
  propKey (normalizeBoxNumber (Some k)).

(** A key that re-keying leaves alone. *)
Definition canonicalKey (k : str) : Prop := normalizedKey k = k.

(** [completedAt] and [secondaryLocation] are time stamps or shelf keys,
    or null: never the empty string. *)
Definition normalBox (b : BoxData.t) : Prop :=
  or_null (BoxData.completedAt b) = BoxData.completedAt b
  /\ or_null (BoxData.secondaryLocation b) = BoxData.secondaryLocation b.

(** The first of two string-or-null values that is a non-empty string. *)
Definition firstTruthy (a b : option str) : option str :=
  or_else (or_null a) (or_null b).

(** The items stored under keys that are re-keyed to [nk], in
    enumeration order. *)
Definition itemsUnder (nk : str) (l : Boxes) : list Item.t :=
  flat_map (fun kv => if str_eqb (normalizedKey (fst kv)) nk
                      then BoxData.items (snd kv) else []) l.

Definition withNormalizedItems (kv : str * BoxData.t) : str * BoxData.t :=
  (fst kv,
   BoxData.mk (map normalizeItem (BoxData.items (snd kv)))
              (BoxData.completed (snd kv))
              (BoxData.completedAt (snd kv))
              (BoxData.secondaryLocation (snd kv))).

(** The items of the box stored under [k], none when there is no box. *)
Definition itemsAt (k : str) (l : Boxes) : list Item.t :=
  match lookup k l with
  | Some b => BoxData.items b
  | None => []
  end.


(** Names are unique within every box of the exported session. *)
Definition uniqueInWorld (w : World) : Prop :=
  onBoxes (fun b => uniqueNames (BoxData.items b)) (windowBoxes w).

(* ================================================================== *)
(** * Location classes (js/data.js) and recent locations *)

(** [s.startsWith(p)] *)
Fixpoint startsWith (p s : str) : bool :=
  match p, s with
  | [], _ => true
  | a :: p', b :: s' => Ascii.eqb a b && startsWith p' s'
  | _ :: _, [] => false
  end.

Definition isShelfLocation (value : option str) : bool :=
  match value with
  | Some v => startsWith (lit "SHELF ") v
  | None => false
  end.

Definition isBoxLocation (value : option str) : bool :=
  match value with
  | Some v => startsWith (lit "BOX") v
  | None => false
  end.



(** ** Predicates on the history *)

(** The history holds no more snapshots than the configured limit. *)
Definition historyBounded (w : World) : Prop :=
  (N.of_nat (List.length (history w)) <= historyLimit (maxHistorySize w))%N.

(** What an action may do to the history: nothing, one recording, or a
    move of the index to a position of the list. *)
Definition historyStep (w w' : World) : Prop :=
  (history w' = history w /\ historyIndex w' = historyIndex w
   /\ maxHistorySize w' = maxHistorySize w)
  \/ (exists w0, history w0 = history w /\ historyIndex w0 = historyIndex w
                 /\ maxHistorySize w0 = maxHistorySize w
                 /\ history w' = history (saveStateToHistory w0)
                 /\ historyIndex w' = historyIndex (saveStateToHistory w0)
                 /\ maxHistorySize w' = maxHistorySize w)
  \/ (history w' = history w /\ maxHistorySize w' = maxHistorySize w
      /\ (0 <= historyIndex w' < Z.of_nat (List.length (history w)))%Z).

(* ================================================================== *)
(** * Search (application script) *)

(** [s.includes(t)] *)
Fixpoint includes (t s : str) : bool :=
  startsWith t s
  || match s with
     | [] => false
     | _ :: r => includes t r
     end.

(** The entries of the result list of [performSearch]. *)
Inductive SearchResult : Type :=
| LocationResult (location : str)
| ItemResult (name : str) (qty : Number.t) (location : str)
             (secondaryLocation : str).

(** [(window.CONFIG && window.CONFIG.MAX_SEARCH_RESULTS) || 50] *)
Definition maxSearchResults (cfg : option N) : nat :=
  match cfg with
  | Some 0%N | None => 50
  | Some n => N.to_nat n
  end.

(** [v || ''] on a string-or-null value. *)
Definition or_empty (v : option str) : str :=
  match v with
  | Some s => s
  | None => []
  end.

(** The inner loop of [performSearch], over the items of one box; it
    stops with [break] when the list has reached [maxResults]. *)
Fixpoint searchItems (searchTerm boxKey secondary : str) (maxResults : nat)
  (items : list Item.t) (results : list SearchResult) : list SearchResult :=
  match items with
  | [] => results
  | item :: rest =>
      match Item.name item with
      | [] => searchItems searchTerm boxKey secondary maxResults rest results
      | _ :: _ =>
          if includes searchTerm (toLowerCase (Item.name item)) then
            let results' :=
              results ++ [ItemResult (Item.name item) (qty_or_one (Item.qty item))
                                     boxKey secondary] in
            if (maxResults <=? List.length results')%nat then results'
            else searchItems searchTerm boxKey secondary maxResults rest results'
          else searchItems searchTerm boxKey secondary maxResults rest results
      end
  end.

(** The outer loop, over the entries of the [boxes] object. *)
Fixpoint searchBoxes (searchTerm : str) (maxResults : nat) (boxes : Boxes)
  (results : list SearchResult) : list SearchResult :=
  match boxes with
  | [] => results
  | (boxKey, boxData) :: rest =>
      let secondary := or_empty (or_null (BoxData.secondaryLocation boxData)) in
      let locationMatch :=
        includes searchTerm (toLowerCase boxKey)
        || includes searchTerm (toLowerCase secondary) in
      let results1 :=
        if locationMatch && (List.length results <? maxResults)%nat
        then results ++ [LocationResult boxKey]
        else results in
      let results2 :=
        searchItems searchTerm boxKey secondary maxResults
                    (BoxData.items boxData) results1 in
      if (maxResults <=? List.length results2)%nat then results2
      else searchBoxes searchTerm maxResults rest results2
  end.

(** [performSearch]: the list handed to [renderSearchResults], or
    [None] when the term is blank and the results are cleared. *)
Definition performSearch (term : str) (cfg : option N) (w : World)
  : option (list SearchResult) :=
  match toLowerCase (trim term) with
  | [] => None
  | searchTerm =>
      Some (searchBoxes searchTerm (maxSearchResults cfg) (windowBoxes w) [])
  end.

(** An item of the session that the term matches, as a result entry. *)
Definition itemHit (searchTerm : str) (boxes : Boxes) (r : SearchResult) : Prop :=
  exists boxKey boxData item,
    In (boxKey, boxData) boxes
    /\ In item (BoxData.items boxData)
    /\ Item.name item <> []
    /\ includes searchTerm (toLowerCase (Item.name item)) = true
    /\ r = ItemResult (Item.name item) (qty_or_one (Item.qty item)) boxKey
                      (or_empty (or_null (BoxData.secondaryLocation boxData))).

(** A location of the session that the term matches, as a result entry. *)
Definition locationHit (searchTerm : str) (boxes : Boxes) (r : SearchResult) : Prop :=
  exists boxKey boxData,
    In (boxKey, boxData) boxes
    /\ (includes searchTerm (toLowerCase boxKey)
        || includes searchTerm
             (toLowerCase (or_empty (or_null (BoxData.secondaryLocation boxData)))))
       = true
    /\ r = LocationResult boxKey.

(* ================================================================== *)
(** * CSV export (application script) *)

Definition quote : ascii := ascii_of_N 34.
Definition newline : ascii := ascii_of_N 10.

Definition csvHeader : str :=
  lit "Item Name,Box,Qty,Secondary Location,Notes" ++ [newline].

(** [s.replace(q, qq)] for the global pattern that matches every double
    quote [q], [qq] being two of them. *)
Definition doubleQuotes (s : str) : str :=
  flat_map (fun c => if Ascii.eqb c quote then [quote; quote] else [c]) s.

(** [a.join(sep)] *)
Fixpoint join (sep : str) (a : list str) : str :=
  match a with
  | [] => []
  | [x] => x
  | x :: r => x ++ sep ++ join sep r
  end.

(** The Notes column: the tags of the item, when it has any. *)
Definition csvNotes (item : Item.t) : str :=
  match Item.tags item with
  | [] => []
  | _ :: _ => [quote] ++ join (lit ", ") (Item.tags item) ++ [quote]
  end.

(** The columns after the name, up to the end of the line. *)
Definition csvTail (boxNumber secondaryLoc : str) (item : Item.t) : str :=
  lit "," ++ boxNumber ++ lit ","
      ++ Number.toString (qty_or_one (Item.qty item)) ++ lit ","
      ++ [quote] ++ secondaryLoc ++ [quote] ++ lit "," ++ csvNotes item
      ++ [newline].

(** One line of the export. *)
Definition csvRow (boxNumber secondaryLoc : str) (item : Item.t) : str :=
  let name := [quote] ++ doubleQuotes (Item.name item) ++ [quote] in
  name ++ csvTail boxNumber secondaryLoc item.

Definition csvRows (kv : str * BoxData.t) : str :=
  let secondaryLoc := or_empty (or_null (BoxData.secondaryLocation (snd kv))) in
  flat_map (fun item =>
              match Item.name item with
              | [] => []
              | _ :: _ => csvRow (fst kv) secondaryLoc item
              end)
           (BoxData.items (snd kv)).

Definition generateCSV (w : World) : str :=
  match windowBoxes w with
  | [] => csvHeader
  | sessionBoxes => csvHeader ++ flat_map csvRows sessionBoxes
  end.

(** ** Reading a quoted field back

    A reader of one quoted CSV field (RFC 4180): after the opening
    quote, two quotes in a row stand for one quote and a single quote
    ends the field.  The result is the field and the rest of the
    text. *)
Fixpoint readQuotedBody (fuel : nat) (s : str) : option (str * str) :=
  match fuel with
  | O => None
  | S fuel' =>
      match s with
      | [] => None
      | c :: r =>
          if Ascii.eqb c quote then
            match r with
            | c' :: r' =>
                if Ascii.eqb c' quote then
                  match readQuotedBody fuel' r' with
                  | Some (field, rest) => Some (quote :: field, rest)
                  | None => None
                  end
                else Some ([], r)
            | [] => Some ([], [])
            end
          else
            match readQuotedBody fuel' r with
            | Some (field, rest) => Some (c :: field, rest)
            | None => None
            end
      end
  end.

Definition readQuotedField (s : str) : option (str * str) :=
  match s with
  | c :: r => if Ascii.eqb c quote then readQuotedBody (List.length r) r else None
  | [] => None
  end.

(* ================================================================== *)
(** * The location field (js/data.js) *)

(** The class of word characters of the word-boundary assertion:
    letters, digits and the underscore. *)
Definition is_word (c : ascii) : bool :=
  is_alpha c || is_digit c || Ascii.eqb c "_"%char.

Definition wordAt (c : option ascii) : bool :=
  match c with
  | Some c => is_word c
  | None => false
  end.

(** One alternative of the unanchored patterns of [parseLocationInput],
    tried at the start of [s]: a literal prefix under the [i] flag, any
    white space, one or more digits and, when [letters] is set, any
    letters [A-Za-z].  The classes are disjoint and the alternative
    ends there, so the greedy match is the only one.  The result is the
    text matched. *)
Definition prefixedRun (prefix : str) (letters : bool) (s : str) : option str :=
  match stripPrefixCI prefix s with
  | None => None
  | Some r =>
      let ws := takeWhile is_space r in
      let r1 := dropWhile is_space r in
      let num := takeWhile is_digit r1 in
      match num with
      | [] => None
      | _ :: _ =>
          let l := if letters then takeWhile is_alpha (dropWhile is_digit r1)
                   else [] in
          Some (firstn (List.length prefix) s ++ ws ++ num ++ l)
      end
  end.

(** The shelf pattern at the start of [s]: the alternative with [SHELF]
    first, then the one with [S]. *)
Definition shelfAt (s : str) : option str :=
  match prefixedRun (lit "SHELF") true s with
  | Some m => Some m
  | None => prefixedRun (lit "S") true s
  end.

(** The third alternative of the box pattern at the start of [s], a run
    of digits between two word boundaries; [prev] is the character
    before [s].  With a digit at the start of [s] the first boundary
    holds when [prev] is no word character; the second one can only
    hold after the whole run of digits, when the next character is no
    word character. *)
Definition bareNumberAt (prev : option ascii) (s : str) : option str :=
  match takeWhile is_digit s with
  | [] => None
  | num =>
      if negb (wordAt prev) && negb (wordAt (hd_error (dropWhile is_digit s)))
      then Some num
      else None
  end.

(** The box pattern at the start of [s]: [BOX], then [B], then a bare
    number. *)
Definition boxAt (prev : option ascii) (s : str) : option str :=
  match prefixedRun (lit "BOX") false s with
  | Some m => Some m
  | None =>
      match prefixedRun (lit "B") false s with
      | Some m => Some m
      | None => bareNumberAt prev s
      end
  end.

(** [s.match(pattern)[0]] for a pattern without the [g] flag: the match
    that starts leftmost; [prev] is the character before [s]. *)
Fixpoint firstMatch (at_start : option ascii -> str -> option str)
  (prev : option ascii) (s : str) : option str :=
  match at_start prev s with
  | Some m => Some m
  | None =>
      match s with
      | [] => None
      | c :: r => firstMatch at_start (Some c) r
      end
  end.

(** [s.replace(m, by)] for a string [m]: the first occurrence of [m] in
    [s] is replaced. *)
Fixpoint replaceFirst (m by_ s : str) : str :=
  if startsWith m s then by_ ++ skipn (List.length m) s
  else
    match s with
    | [] => []
    | c :: r => c :: replaceFirst m by_ r
    end.

Module Location.
Record t : Type := mk { primary : str; secondary : option str }.
End Location.

Definition parseLocationInput (raw : option str) : option Location.t :=
  match raw with
  | None | Some [] => None
  | Some r =>
      match trim r with
      | [] => None
      | text =>
          let shelfMatch := firstMatch (fun _ => shelfAt) None text in
          let shelf :=
            match shelfMatch with
            | Some m => normalizeShelfLocation (Some m)
            | None => None
            end in
          let remaining :=
            match shelfMatch with
            | Some m => replaceFirst m (lit " ") text
            | None => text
            end in
          let boxMatch := firstMatch boxAt None remaining in
          let box :=
            match boxMatch with
            | Some m => normalizeBoxNumber (Some m)
            | None => None
            end in
          let remaining2 :=
            match boxMatch with
            | Some m => replaceFirst m (lit " ") remaining
            | None => remaining
            end in
          match trim remaining2 with
          | _ :: _ => None
          | [] =>
              if truthy box && truthy shelf
              then Some (Location.mk (or_empty box) shelf)
              else if truthy box then Some (Location.mk (or_empty box) None)
              else if truthy shelf then Some (Location.mk (or_empty shelf) None)
              else None
          end
      end
  end.

(** ** The Enter key in the item field (application script) *)

(** [switchBox(loc.primary)], then [setSecondaryLocation(loc.secondary)]
    when there is one. *)
Definition applyLocation (loc : Location.t) (w : World) : World :=
  let w1 := switchBox (Some (Location.primary loc)) w in
  if truthy (Location.secondary loc)
  then setSecondaryLocation (Location.secondary loc) w1
  else w1.

(** [l && l.primary] on the result of [parseLocationInput]. *)
Definition withPrimary (l : option Location.t) : option Location.t :=
  match l with
  | Some loc => if truthy (Some (Location.primary loc)) then Some loc else None
  | None => None
  end.

(** The branch of [handleInputKeyDown] for the Enter key; [inputValue]
    is the text of the item field, the other arguments are those of
    [addItem]. *)
Definition handleEnter (inputValue now : str) (newId : Z)
  (contextTags : option (list str)) (w : World) : Outcome unit :=
  match trim inputValue with
  | [] => Return w tt
  | value =>
      match editingItemId w with
      | Some _ => saveEditedItem value w
      | None =>
          match withPrimary (parseLocationInput (Some value)) with
          | Some locationInput => Return (applyLocation locationInput w) tt
          | None =>
              if truthy (currentBox w)
              then addItem value now newId contextTags w
              else
                match withPrimary (parseLocationInput (Some (toUpperCase value))) with
                | Some fallback => Return (applyLocation fallback w) tt
                | None =>
                    Return (report w (Alert
                      (lit "Please enter a BOX or SHELF location first"))) tt
                end
          end
      end
  end.

(** [cancelEdit] *)
Definition cancelEdit (w : World) : World := setEditing w None.

(** ** Shapes of location texts *)

(** A shelf text as typed: [SHELF] or [S] in any case, optional white
    space, digits, letters. *)
Definition shelfTyped (t d l : str) : Prop :=
  exists p ws,
    t = p ++ ws ++ d ++ l
    /\ (toUpperCase p = lit "SHELF" \/ toUpperCase p = lit "S")
    /\ all is_space ws /\ d <> [] /\ all is_digit d /\ all is_alpha l.

(** A box text as typed: [BOX] or [B] in any case, optional white space
    and digits; or digits alone. *)
Definition boxTyped (t d : str) : Prop :=
  (exists p ws,
     t = p ++ ws ++ d
     /\ (toUpperCase p = lit "BOX" \/ toUpperCase p = lit "B")
     /\ all is_space ws /\ d <> [] /\ all is_digit d)
  \/ (t = d /\ d <> [] /\ all is_digit d).

(** The key of a box number written with the digits [d]. *)
Definition boxKey (d : str) : str :=
  lit "BOX" ++ padStart0 3 (Number.toString (Number.parseInt d)).

(** The text is empty or starts with white space. *)
Definition spaceStart (s : str) : Prop :=
  match s with
  | [] => True
  | c :: _ => is_space c = true
  end.

(* ================================================================== *)
(** * Persistence (js/data.js) *)

(** What a text held by storage is to the loader.  [Written s] is the
    text [JSON.stringify] gives for the session [s]; [JSON.parse] reads
    it back as the JSON copy of [s].  The other texts are not written
    by the program: the empty text, a text that does not parse, a text
    that parses to a value that is no object (null, a number, a string,
    a boolean) and a text that parses to an object without a [boxes]
    object. *)
Inductive Text : Type :=
| Written (s : Session.t)
| EmptyText
| Unparsable
| NotAnObject
| NoBoxes.

(** The surroundings of a call: whether the Electron bridge is there
    ([window.electronAPI], whose [loadData] and [saveData] return
    promises), whether [localStorage.setItem] succeeds, and the message
    of the error [sessionStorage.setItem] throws when it fails. *)
Record Env : Type := mkEnv {
  electron : bool;
  localWritable : bool;
  backupFailure : option str
}.

Record Page : Type := mkPage {
  world : World;
  localSession : option Text;      (* localStorage, boxAuditSession *)
  sessionBackup : option Text;     (* sessionStorage, boxAuditSession_backup *)
  migrationFlag : bool;            (* localStorage holds the migration flag *)
  saveInProgress : bool;
  savePending : bool;
  timers : nat                     (* calls of saveToStorage scheduled by setTimeout *)
}.

Definition setWorld (p : Page) (w : World) : Page :=
  mkPage w (localSession p) (sessionBackup p) (migrationFlag p)
         (saveInProgress p) (savePending p) (timers p).

Definition setLocal (p : Page) (t : option Text) : Page :=
  mkPage (world p) t (sessionBackup p) (migrationFlag p)
         (saveInProgress p) (savePending p) (timers p).

Definition setBackup (p : Page) (t : option Text) : Page :=
  mkPage (world p) (localSession p) t (migrationFlag p)
         (saveInProgress p) (savePending p) (timers p).

Definition setMigrationFlag (p : Page) : Page :=
  mkPage (world p) (localSession p) (sessionBackup p) true
         (saveInProgress p) (savePending p) (timers p).

Definition setProgress (p : Page) (b : bool) : Page :=
  mkPage (world p) (localSession p) (sessionBackup p) (migrationFlag p)
         b (savePending p) (timers p).

Definition setPending (p : Page) (b : bool) : Page :=
  mkPage (world p) (localSession p) (sessionBackup p) (migrationFlag p)
         (saveInProgress p) b (timers p).

Definition schedule (p : Page) : Page :=
  mkPage (world p) (localSession p) (sessionBackup p) (migrationFlag p)
         (saveInProgress p) (savePending p) (S (timers p)).

(** The page when both scripts have been evaluated, over a storage. *)
Definition initialPage (cfg : option N) (stored backup : option Text)
  (flag : bool) : Page :=
  mkPage (initialWorld cfg) stored backup flag false false 0.

(** The [finally] block of [saveToStorage]. *)
Definition saveFinally (p : Page) : Page :=
  let p1 := setProgress p false in
  if savePending p1 then schedule (setPending p1 false) else p1.

Definition saveToStorage (env : Env) (p : Page) : Page :=
  if saveInProgress p then setPending p true
  else
    let p0 := setProgress p true in
    let dataToSave := Written (currentSession (world p0)) in
    let p1 :=
      if electron env then
        (* the promise [saveData] returns is truthy *)
        if localWritable env then setLocal p0 (Some dataToSave) else p0
      else if localWritable env then
        (* the text read back is the text written *)
        setLocal p0 (Some dataToSave)
      else
        match backupFailure env with
        | None =>
            setWorld (setBackup p0 (Some dataToSave))
              (report (world p0)
                 (SaveError
                    (lit "Data saved to session backup only (Persistence failed).")))
        | Some message =>
            setWorld p0
              (report (world p0) (SaveError (lit "Error saving: " ++ message)))
        end in
    saveFinally p1.

Definition autoSave (env : Env) (p : Page) : Page := saveToStorage env p.

(** [iso.replace(re, '-')] for the global pattern that matches a colon
    or a full stop. *)
Definition dashed (iso : str) : str :=
  map (fun c => if Ascii.eqb c ":"%char || Ascii.eqb c "."%char
                then "-"%char else c) iso.

(** [now] is [new Date().toISOString()]. *)
Definition startNewSession (now : str) (env : Env) (p : Page) : Page :=
  saveToStorage env
    (setWorld p (rebind (world p)
                        (Session.mk (Some (lit "session-" ++ dashed now))
                                    (Some now) []))).

(** A call that returns a value or throws, on pages. *)
Inductive Attempt (A : Type) : Type :=
| Done (p : Page) (a : A)
| Thrown (p : Page).
Arguments Done {A} p a.
Arguments Thrown {A} p.

(** [markedCount > 0]: some box has items and is not completed. *)
Definition someUnmarked (s : Session.t) : bool :=
  existsb (fun kv => match BoxData.items (snd kv) with
                     | [] => false
                     | _ :: _ => negb (BoxData.completed (snd kv))
                     end)
          (Session.boxes s).

(** [markExistingBoxesAsCompleted] with its reads and writes of
    storage; writing the flag throws when [localStorage] cannot be
    written. *)
Definition markExistingBoxes (now : str) (env : Env) (p : Page) : Attempt unit :=
  if migrationFlag p then Done p tt
  else
    let marked := someUnmarked (currentSession (world p)) in
    let p1 := setWorld p (markExistingBoxesAsCompleted now false (world p)) in
    if localWritable env then
      let p2 := setMigrationFlag p1 in
      Done (if marked then saveToStorage env p2 else p2) tt
    else Thrown p1.

(** What the loader has in hand after reading: nothing, a value that is
    no object, an object without [boxes], or a session. *)
Inductive Loaded : Type :=
| NoData
| NonObject
| ObjectWithoutBoxes
| SessionData (s : Session.t).

(** [stored] is truthy. *)
Definition present (t : option Text) : bool :=
  match t with
  | None | Some EmptyText => false
  | Some _ => true
  end.

(** [JSON.parse(stored)]; [None] when it throws. *)
Definition parse (t : Text) : option Loaded :=
  match t with
  | Written s => Some (SessionData (jsonCopy s))
  | EmptyText | Unparsable => None
  | NotAnObject => Some NonObject
  | NoBoxes => Some ObjectWithoutBoxes
  end.

(** The first part of the [try] block of [loadSession]: the Electron
    bridge, whose promise is an object without [boxes], then
    [localStorage], then the backup, which is copied to [localStorage]
    when it is used. *)
Definition readStored (env : Env) (p : Page) : Attempt Loaded :=
  if electron env then Done p ObjectWithoutBoxes
  else
    let read (p' : Page) (stored : option Text) : Attempt Loaded :=
      match stored with
      | Some t =>
          if present stored then
            match parse t with
            | Some v => Done p' v
            | None => Thrown p'
            end
          else Done p' NoData
      | None => Done p' NoData
      end in
    if present (localSession p) then read p (localSession p)
    else if present (sessionBackup p) then
      if localWritable env
      then read (setLocal p (sessionBackup p)) (sessionBackup p)
      else Thrown p
    else Done p NoData.

(** The outcome of [loadSession]: the value returned, or the fact that
    [currentSession] was given a parsed backup that is no session
    object (the call then returns true). *)
Inductive LoadOutcome : Type :=
| LoadReturned (p : Page) (ok : bool)
| LoadNotASession (p : Page).

(** The [catch] block of [loadSession]. *)
Definition loadFromBackup (p : Page) : LoadOutcome :=
  if present (sessionBackup p) then
    match sessionBackup p with
    | Some (Written s) =>
        LoadReturned (setWorld p (rebind (world p) (jsonCopy s))) true
    | Some NotAnObject | Some NoBoxes => LoadNotASession p
    | _ => LoadReturned p false
    end
  else LoadReturned p false.

Definition loadSession (now : str) (env : Env) (p : Page) : LoadOutcome :=
  match readStored env p with
  | Thrown p1 => loadFromBackup p1
  | Done p1 data =>
      let accept (s : Session.t) : LoadOutcome :=
        let p2 := setWorld p1 (loadSessionData s now true (world p1)) in
        let p3 := saveToStorage env p2 in
        match markExistingBoxes now env p3 with
        | Done p4 _ => LoadReturned p4 true
        | Thrown p4 => loadFromBackup p4
        end in
      match data with
      | SessionData s => accept s
      | ObjectWithoutBoxes => accept (Session.mk None (Some now) [])
      | NonObject | NoData => LoadReturned (startNewSession now env p1) false
      end
  end.

Definition pageOf (o : LoadOutcome) : Page :=
  match o with
  | LoadReturned p _ => p
  | LoadNotASession p => p
  end.

(** The part of [init] before the listeners are installed; [now] and
    [now'] are the two readings of the clock. *)
Definition init (now now' : str) (env : Env) (p : Page) : Page :=
  let p1 := pageOf (loadSession now env p) in
  let p2 :=
    if falsy (Session.id (windowSession (world p1)))
    then startNewSession now' env p1
    else p1 in
  match rev (map fst (windowBoxes (world p2))) with
  | [] => p2
  | lastKey :: _ => setWorld p2 (setCurrentBox (world p2) (Some lastKey))
  end.

(** A session that loading gives back as it is: distinct canonical
    keys, records in normal form, quantities settled and finite. *)
Definition settled (s : Session.t) : Prop :=
  NoDup (map fst (Session.boxes s))
  /\ (forall k, In k (map fst (Session.boxes s)) -> canonicalKey k)
  /\ onBoxes normalBox (Session.boxes s)
  /\ (forall k b i, In (k, b) (Session.boxes s) -> In i (BoxData.items b) ->
        normalizeItem i = i)
  /\ finiteQuantities s.

(** No save is running, none is pending. *)
Definition idle (p : Page) : Prop :=
  saveInProgress p = false /\ savePending p = false.

(** The session as the loader leaves it: shape repair and
    normalisation of the JSON copy, then the completion migration
    unless storage holds its flag. *)
Definition asLoaded (s : Session.t) (now : str) (flag : bool) : Session.t :=
  currentSession
    (markExistingBoxesAsCompleted now flag
       (loadSessionData (jsonCopy s) now true (initialWorld None))).

(** What loading and saving leave alone: the exported session object,
    the active location and the history; no save is left running. *)
Definition exportedKept (p p' : Page) : Prop :=
  idle p'
  /\ windowSession (world p') = windowSession (world p)
  /\ currentBox (world p') = currentBox (world p)
  /\ history (world p') = history (world p)
  /\ timers p' = timers p.

(** A character of the ASCII range, on which the embedding's case
    mapping and character classes are those of JavaScript. *)
Definition is_ascii (c : ascii) : bool := (code c <? 128)%N.

(* ================================================================== *)
(** * Merging of boxes re-keyed to one key *)

(** The record [normalizeSessionBoxes] makes of a box that is the first
    one under its new key. *)
Definition firstUnder (b : BoxData.t) : BoxData.t :=
  BoxData.mk (BoxData.items b) (BoxData.completed b)
             (or_null (BoxData.completedAt b))
             (or_null (BoxData.secondaryLocation b)).

(** The record two boxes are merged into: the items of the first
    followed by those of the second, the disjunction of the two flags,
    as [completedAt], when one of the two is completed, the first of the
    two values that is a non-empty string, and as [secondaryLocation]
    the first of the two values that is a non-empty string. *)
Definition mergedBox (existing incoming : BoxData.t) : BoxData.t :=
  BoxData.mk
    (BoxData.items existing ++ BoxData.items incoming)
    (BoxData.completed existing || BoxData.completed incoming)
    (if BoxData.completed existing || BoxData.completed incoming
     then firstTruthy (BoxData.completedAt existing) (BoxData.completedAt incoming)
     else or_null (BoxData.completedAt existing))
    (firstTruthy (BoxData.secondaryLocation existing)
                 (BoxData.secondaryLocation incoming)).

(** The boxes stored under keys that are re-keyed to [nk], in
    enumeration order. *)
Definition boxesUnder (nk : str) (l : Boxes) : list BoxData.t :=
  map snd (filter (fun kv => str_eqb (normalizedKey (fst kv)) nk) l).

(** All of them merged, one after the other, into the first. *)
Definition mergedUnder (nk : str) (l : Boxes) : option BoxData.t :=
  match boxesUnder nk l with
  | [] => None
  | b :: r => Some (fold_left mergedBox r (firstUnder b))
  end.

(* ================================================================== *)
(** * The core actions with their writes to storage *)

Module OnPage.

(** [switchBox] with the call of [saveToStorage] it makes after it has
    created the record of a new location. *)
Definition switchBox (env : Env) (boxNumber : option str) (p : Page) : Page :=
  let normalized := normalizeBoxNumber boxNumber in
  if falsy normalized
  then setWorld p (report (world p) (Alert (lit "Invalid box number")))
  else
    let w1 := setCurrentBox (world p) normalized in
    match lookup (propKey normalized) (windowBoxes w1) with
    | None =>
        saveToStorage env
          (setWorld p (updateCurrent (ensureBoxExists (propKey normalized)) w1))
    | Some _ => setWorld p w1
    end.

End OnPage.

(* ================================================================== *)
(** * The states the page can reach *)

(** One step of the page, on the state of the two scripts.  Every
    function of the application script and of [js/data.js] that changes
    the sessions, the history, the active location or the editing mode,
    or that shows a message, is one of these steps or a sequence of
    them: the core actions, [cancelEdit], the three functions of the
    history, the parts of [loadSession] ([loadSessionData] on the data
    read from storage, whatever they are; the backup taken as it is by
    the [catch] block; the completion migration), [startNewSession],
    the selection of the last key by [init], and the messages of
    [saveToStorage], [importFromCSV] and the Enter handler.  Time
    stamps are ISO strings, hence not empty.  [D] is what is assumed of
    the data read from storage.  (A backup that parses to a value that
    is no session object leaves the variable of [js/data.js] with a
    value that is no session, [LoadNotASession]: the state of the data
    module is then outside the model.) *)
Inductive step (D : Session.t -> Prop) : World -> World -> Prop :=
| step_switchBox b w :
    step D w (switchBox b w)
| step_setSecondaryLocation v w :
    step D w (setSecondaryLocation v w)
| step_saveSecondaryLocation input w :
    step D w (saveSecondaryLocation input w)
| step_toggleBoxComplete b now w :
    now <> [] -> step D w (toggleBoxComplete b now w)
| step_addItem itemName now newId tags w :
    now <> [] -> step D w (worldOf (addItem itemName now newId tags w))
| step_deleteItem b itemId w :
    step D w (deleteItem b itemId w)
| step_startEditItem b itemId w :
    step D w (worldOf (startEditItem b itemId w))
| step_saveEditedItem newName w :
    step D w (worldOf (saveEditedItem newName w))
| step_cancelEdit w :
    step D w (cancelEdit w)
| step_saveStateToHistory w :
    step D w (saveStateToHistory w)
| step_undo w :
    step D w (worldOf (undo w))
| step_redo w :
    step D w (worldOf (redo w))
| step_normalizeSessionBoxes w :
    step D w (updateCurrent normalizeSessionBoxes w)
| step_markExistingBoxesAsCompleted now migrationDone w :
    now <> [] -> step D w (markExistingBoxesAsCompleted now migrationDone w)
| step_loadSessionData data now migrationDone w :
    D data -> now <> [] -> step D w (loadSessionData data now migrationDone w)
| step_loadFromBackup backup w :
    D (jsonCopy backup) -> step D w (rebind w (jsonCopy backup))
| step_startNewSession now w :
    step D w (rebind w (Session.mk (Some (lit "session-" ++ dashed now))
                                   (Some now) []))
| step_selectLast lastKey keys w :
    rev (map fst (windowBoxes w)) = lastKey :: keys ->
    step D w (setCurrentBox w (Some lastKey))
| step_report e w :
    step D w (report w e).

(** The states the page can be in: the state when both scripts have
    been evaluated, and every state a step leads to, whatever session
    storage holds. *)
Inductive reachable : World -> Prop :=
| reach_init cfg : reachable (initialWorld cfg)
| reach_step w w' : reachable w -> step (fun _ => True) w w' -> reachable w'.

(* ================================================================== *)
(** * Characters *)

Ltac each_char c := destruct c as [[] [] [] [] [] [] [] []]; vm_compute.

Lemma upper_char_idem c : upper_char (upper_char c) = upper_char c.
Proof. each_char c; reflexivity. Qed.

Lemma is_digit_upper c : is_digit (upper_char c) = is_digit c.
Proof. each_char c; reflexivity. Qed.

Lemma is_space_upper c : is_space (upper_char c) = is_space c.
Proof. each_char c; reflexivity. Qed.

Lemma is_alpha_upper c : is_alpha (upper_char c) = is_alpha c.
Proof. each_char c; reflexivity. Qed.

Lemma digit_not_space c : is_digit c = true -> is_space c = false.
Proof. each_char c; intros H; solve [reflexivity | discriminate H]. Qed.

Lemma digit_not_alpha c : is_digit c = true -> is_alpha c = false.
Proof. each_char c; intros H; solve [reflexivity | discriminate H]. Qed.

Lemma alpha_not_space c : is_alpha c = true -> is_space c = false.
Proof. each_char c; intros H; solve [reflexivity | discriminate H]. Qed.

Lemma digit_upper_fixed c : is_digit c = true -> upper_char c = c.
Proof. each_char c; intros H; solve [reflexivity | discriminate H]. Qed.

Lemma upper_char_eq_fixed a c :
  upper_char a = a -> upper_char c = c ->
  Ascii.eqb (upper_char a) (upper_char c) = true -> a = c.
Proof.
  intros Ha Hc H. rewrite Ha, Hc in H. now apply Ascii.eqb_eq.
Qed.

(* ================================================================== *)
(** * Strings *)

Lemma str_eqb_eq a b : str_eqb a b = true <-> a = b.
Proof.
  unfold str_eqb. destruct (list_eq_dec ascii_dec a b); split; congruence.
Qed.

Lemma str_eqb_refl a : str_eqb a a = true.
Proof. now apply str_eqb_eq. Qed.

Lemma str_eqb_neq a b : str_eqb a b = false <-> a <> b.
Proof.
  unfold str_eqb. destruct (list_eq_dec ascii_dec a b); split; congruence.
Qed.

Lemma str_eqb_sym a b : str_eqb a b = str_eqb b a.
Proof.
  unfold str_eqb.
  destruct (list_eq_dec ascii_dec a b), (list_eq_dec ascii_dec b a); congruence.
Qed.

Section While.
Variable p : ascii -> bool.

Lemma take_drop s : takeWhile p s ++ dropWhile p s = s.
Proof.
  induction s as [|c r IH]; simpl; [reflexivity|].
  destruct (p c); simpl; [now rewrite IH | reflexivity].
Qed.

Lemma takeWhile_all s : Forall (fun c => p c = true) (takeWhile p s).
Proof.
  induction s as [|c r IH]; simpl; [constructor|].
  destruct (p c) eqn:E; [constructor; assumption | constructor].
Qed.

Lemma dropWhile_head s c r : dropWhile p s = c :: r -> p c = false.
Proof.
  induction s as [|a s IH]; simpl; [discriminate|].
  destruct (p a) eqn:E; [assumption|].
  intros H; injection H as -> _; assumption.
Qed.

Lemma dropWhile_idem s : dropWhile p (dropWhile p s) = dropWhile p s.
Proof.
  destruct (dropWhile p s) as [|c r] eqn:E; [reflexivity|].
  simpl. now rewrite (dropWhile_head _ E).
Qed.

Lemma dropWhile_app_all a b :
  Forall (fun c => p c = true) a -> dropWhile p (a ++ b) = dropWhile p b.
Proof.
  induction 1 as [|c r Hc _ IH]; simpl; [reflexivity|]. now rewrite Hc.
Qed.

Lemma takeWhile_app_all a b :
  Forall (fun c => p c = true) a -> takeWhile p (a ++ b) = a ++ takeWhile p b.
Proof.
  induction 1 as [|c r Hc _ IH]; simpl; [reflexivity|]. now rewrite Hc, IH.
Qed.

Lemma dropWhile_stop c r : p c = false -> dropWhile p (c :: r) = c :: r.
Proof. intros H; simpl; now rewrite H. Qed.

Lemma takeWhile_stop c r : p c = false -> takeWhile p (c :: r) = [].
Proof. intros H; simpl; now rewrite H. Qed.

Lemma dropWhile_none s :
  Forall (fun c => p c = false) s -> dropWhile p s = s.
Proof. destruct 1 as [|c r Hc _]; simpl; [reflexivity | now rewrite Hc]. Qed.

Lemma dropWhile_nil_all s :
  dropWhile p s = [] -> Forall (fun c => p c = true) s.
Proof.
  induction s as [|c r IH]; simpl; [constructor|].
  destruct (p c) eqn:E; [constructor; auto | discriminate].
Qed.
End While.

Lemma dropWhile_map (p : ascii -> bool) (f : ascii -> ascii) s :
  (forall c, p (f c) = p c) -> dropWhile p (map f s) = map f (dropWhile p s).
Proof.
  intros H. induction s as [|c r IH]; simpl; [reflexivity|].
  rewrite H. destruct (p c); [assumption | reflexivity].
Qed.

Lemma toUpperCase_idem s : toUpperCase (toUpperCase s) = toUpperCase s.
Proof.
  unfold toUpperCase. rewrite map_map. apply map_ext, upper_char_idem.
Qed.

Lemma toUpperCase_app a b : toUpperCase (a ++ b) = toUpperCase a ++ toUpperCase b.
Proof. apply map_app. Qed.

Lemma trim_toUpperCase s : trim (toUpperCase s) = toUpperCase (trim s).
Proof.
  unfold trim, trimEnd, trimStart, toUpperCase.
  rewrite (dropWhile_map _ _ s is_space_upper), <- map_rev.
  rewrite (dropWhile_map _ _ _ is_space_upper). now rewrite map_rev.
Qed.

Lemma dropWhile_length (p : ascii -> bool) l :
  (List.length (dropWhile p l) <= List.length l)%nat.
Proof.
  induction l as [|a l IH]; simpl; [lia|]. destruct (p a); simpl; lia.
Qed.

Lemma dropWhile_fixed_head (p : ascii -> bool) c r :
  dropWhile p (c :: r) = c :: r <-> p c = false.
Proof.
  split; intros H; simpl in *.
  - destruct (p c); [|reflexivity]. exfalso.
    pose proof (dropWhile_length p r) as L. rewrite H in L. simpl in L. lia.
  - now rewrite H.
Qed.

Lemma trim_of_trimmed s : trimmed s -> trim s = s.
Proof.
  intros [H1 H2]. unfold trim, trimEnd, trimStart.
  now rewrite H1, H2, rev_involutive.
Qed.

Lemma trim_trimmed s : trimmed (trim s).
Proof.
  unfold trimmed, trim, trimEnd, trimStart.
  set (t := dropWhile is_space s).
  assert (Ht : dropWhile is_space t = t) by apply dropWhile_idem.
  split.
  - (* the result is a prefix of [t] *)
    pose proof (take_drop is_space (rev t)) as E.
    apply (f_equal (@rev ascii)) in E. rewrite rev_app_distr, rev_involutive in E.
    destruct (rev (dropWhile is_space (rev t))) as [|c r] eqn:E1; [reflexivity|].
    simpl in E. rewrite <- E in Ht.
    apply dropWhile_fixed_head in Ht. now apply dropWhile_fixed_head.
  - rewrite rev_involutive. apply dropWhile_idem.
Qed.

Lemma trim_idem s : trim (trim s) = trim s.
Proof. apply trim_of_trimmed, trim_trimmed. Qed.

Lemma trimmed_head c r : trimmed (c :: r) -> is_space c = false.
Proof. intros [H _]. now apply dropWhile_fixed_head in H. Qed.

(* ================================================================== *)
(** * Decimal digits *)

Module NumberFacts.
Import Number.
Local Open Scope N_scope.

Lemma digit_char_is_digit d : d < 10 -> is_digit (digit_char d) = true.
Proof.
  intros H.
  assert (C : d = 0 \/ d = 1 \/ d = 2 \/ d = 3 \/ d = 4 \/ d = 5 \/ d = 6
              \/ d = 7 \/ d = 8 \/ d = 9) by lia.
  repeat (destruct C as [-> | C]; [reflexivity|]). now subst.
Qed.

Lemma digit_val_char d : d < 10 -> digit_val (digit_char d) = d.
Proof.
  intros H.
  assert (C : d = 0 \/ d = 1 \/ d = 2 \/ d = 3 \/ d = 4 \/ d = 5 \/ d = 6
              \/ d = 7 \/ d = 8 \/ d = 9) by lia.
  repeat (destruct C as [-> | C]; [reflexivity|]). now subst.
Qed.

Lemma value_from ds acc :
  fold_left step ds acc = acc * 10 ^ N.of_nat (List.length ds) + value ds.
Proof.
  unfold value. revert acc.
  induction ds as [|c r IH]; intros acc.
  - simpl. lia.
  - cbn [fold_left List.length]. rewrite IH, (IH (step 0 c)).
    rewrite Nat2N.inj_succ, N.pow_succ_r'. unfold step. lia.
Qed.

Lemma value_cons c r :
  value (c :: r) = digit_val c * 10 ^ N.of_nat (List.length r) + value r.
Proof.
  unfold value at 1. cbn [fold_left]. rewrite value_from.
  unfold step. lia.
Qed.

Lemma value_app a b :
  value (a ++ b) = value a * 10 ^ N.of_nat (List.length b) + value b.
Proof.
  unfold value at 1. rewrite fold_left_app.
  change (fold_left step a 0) with (value a).
  apply value_from.
Qed.

Lemma value_zeros k ds : value (repeat "0"%char k ++ ds) = value ds.
Proof.
  induction k as [|k IH]; [reflexivity|].
  cbn [repeat app]. rewrite value_cons, IH.
  change (digit_val "0"%char) with 0. lia.
Qed.

Lemma digits_fuel_value fuel : forall n acc,
  n < 2 ^ N.of_nat fuel ->
  value (digits_fuel fuel n acc)
  = n * 10 ^ N.of_nat (List.length acc) + value acc.
Proof.
  induction fuel as [|f IH]; intros n acc Hn.
  - simpl in *. assert (n = 0) by lia. subst. lia.
  - cbn [digits_fuel].
    assert (Hm : n mod 10 < 10) by (apply N.mod_upper_bound; lia).
    pose proof (N.div_mod n 10 ltac:(lia)) as Hd.
    destruct (n <? 10) eqn:E.
    + apply N.ltb_lt in E. rewrite value_cons, digit_val_char by assumption.
      rewrite N.mod_small by assumption. reflexivity.
    + apply N.ltb_ge in E. rewrite IH.
      * cbn [List.length]. rewrite Nat2N.inj_succ, N.pow_succ_r'.
        rewrite value_cons, digit_val_char by assumption.
        set (q := n / 10) in *. set (m := n mod 10) in *.
        set (P := 10 ^ N.of_nat (List.length acc)).
        clearbody q m P. subst n. ring.
      * rewrite Nat2N.inj_succ, N.pow_succ_r' in Hn.
        assert (n / 10 <= n / 2).
        { apply N.div_le_compat_l; lia. }
        assert (n / 2 < 2 ^ N.of_nat f).
        { apply N.Div0.div_lt_upper_bound; lia. }
        lia.
Qed.

Lemma log2_fuel n : n < 2 ^ N.of_nat (S (N.to_nat (N.log2 n))).
Proof.
  rewrite Nat2N.inj_succ, N2Nat.id.
  destruct (N.eq_dec n 0) as [->|Hz]; [reflexivity|].
  apply N.log2_spec. lia.
Qed.

Lemma value_decimal n : value (decimal n) = n.
Proof.
  unfold decimal. rewrite digits_fuel_value by apply log2_fuel.
  change (value []) with 0. change (N.of_nat (List.length (@nil ascii))) with 0.
  rewrite N.pow_0_r. lia.
Qed.

Lemma digits_fuel_digits fuel : forall n acc,
  Forall (fun c => is_digit c = true) acc ->
  Forall (fun c => is_digit c = true) (digits_fuel fuel n acc).
Proof.
  induction fuel as [|f IH]; intros n acc Ha; [assumption|].
  cbn [digits_fuel].
  assert (Hm : n mod 10 < 10) by (apply N.mod_upper_bound; lia).
  destruct (n <? 10); [|apply IH];
    (constructor; [now apply digit_char_is_digit | assumption]).
Qed.

Lemma decimal_digits n : Forall (fun c => is_digit c = true) (decimal n).
Proof. apply digits_fuel_digits. constructor. Qed.

Lemma digits_fuel_nonempty fuel : forall n acc,
  acc <> [] -> digits_fuel fuel n acc <> [].
Proof.
  induction fuel as [|f IH]; intros n acc Ha; [assumption|].
  cbn [digits_fuel]. destruct (n <? 10); [|apply IH]; discriminate.
Qed.

Lemma decimal_nonempty n : decimal n <> [].
Proof.
  unfold decimal. cbn [digits_fuel].
  destruct (n <? 10); [|apply digits_fuel_nonempty]; discriminate.
Qed.

Lemma round_small n : n < 2 ^ 53 -> round n = Fin n.
Proof. intros H. unfold round. apply N.ltb_lt in H. now rewrite H. Qed.

Lemma toString_small n : n < 2 ^ 53 -> toString (Fin n) = decimal n.
Proof. intros H. unfold toString. apply N.ltb_lt in H. now rewrite H. Qed.

(** ** Rounding and printing *)

Lemma round_shift m e :
  2 ^ 52 <= m <= 2 ^ 53 -> 1 <= e ->
  (2 ^ 1024 <=? N.shiftl m e) = false ->
  round (N.shiftl m e) = Fin (N.shiftl m e).
Proof.
  intros [Hlo Hhi] He Hov.
  assert (P52 : 0 < 2 ^ 52) by reflexivity.
  assert (Hm0 : m <> 0) by lia.
  assert (Hpe : 2 <= 2 ^ e).
  { change 2 with (2 ^ 1) at 1. apply N.pow_le_mono_r; lia. }
  assert (Hbig : (N.shiftl m e <? 2 ^ 53) = false).
  { apply N.ltb_ge. rewrite N.shiftl_mul_pow2.
    change (2 ^ 53) with (2 ^ 52 * 2). nia. }
  unfold round. rewrite Hbig. cbv zeta.
  destruct (N.eq_dec m (2 ^ 53)) as [-> | Hne].
  - assert (L : N.log2 (N.shiftl (2 ^ 53) e) = 53 + e).
    { rewrite N.log2_shiftl by discriminate. now rewrite N.log2_pow2 by lia. }
    rewrite L. replace (53 + e - 52) with (e + 1) by lia.
    rewrite N.shiftr_shiftl_r by lia. replace (e + 1 - e) with 1 by lia.
    change (N.shiftr (2 ^ 53) 1) with (2 ^ 52).
    assert (S : N.shiftl (2 ^ 52) (e + 1) = N.shiftl (2 ^ 53) e).
    { rewrite !N.shiftl_mul_pow2, N.pow_add_r. change (2 ^ 53) with (2 ^ 52 * 2 ^ 1).
      lia. }
    rewrite S, N.sub_diag.
    assert (Hh : 0 < 2 ^ (e + 1 - 1)).
    { assert (2 ^ (e + 1 - 1) <> 0) by (apply N.pow_nonzero; lia). lia. }
    apply N.ltb_lt in Hh. rewrite Hh, S, Hov. reflexivity.
  - assert (L : N.log2 (N.shiftl m e) = 52 + e).
    { rewrite N.log2_shiftl by assumption. f_equal.
      apply N.log2_unique; [lia|]. change (N.succ 52) with 53. lia. }
    rewrite L. replace (52 + e - 52) with e by lia.
    rewrite N.shiftr_shiftl_l by lia. rewrite N.sub_diag, N.shiftl_0_r.
    rewrite N.sub_diag.
    assert (Hh : 0 < 2 ^ (e - 1)).
    { assert (2 ^ (e - 1) <> 0) by (apply N.pow_nonzero; lia). lia. }
    apply N.ltb_lt in Hh. rewrite Hh, Hov. reflexivity.
Qed.

Lemma round_idem n v : round n = Fin v -> round v = Fin v.
Proof.
  unfold round at 1. destruct (n <? 2 ^ 53) eqn:E.
  - intros H; injection H as <-. unfold round. now rewrite E.
  - apply N.ltb_ge in E. cbv zeta.
    set (e := N.log2 n - 52). set (q := N.shiftr n e).
    assert (Hn : 0 < n) by (assert (0 < 2 ^ 53) by reflexivity; lia).
    assert (Hl : 53 <= N.log2 n) by now apply N.log2_le_pow2.
    assert (He : 1 <= e) by (unfold e; lia).
    assert (Lq : N.log2 q = 52).
    { unfold q. rewrite N.log2_shiftr. unfold e. lia. }
    assert (Hq0 : 0 < q).
    { destruct (N.eq_dec q 0) as [Z|Z]; [rewrite Z in Lq; discriminate Lq | lia]. }
    pose proof (N.log2_spec q Hq0) as Hq. rewrite Lq in Hq.
    change (N.succ 52) with 53 in Hq.
    set (q' := if n - N.shiftl q e <? 2 ^ (e - 1) then q
               else if 2 ^ (e - 1) <? n - N.shiftl q e then q + 1
               else if N.even q then q else q + 1).
    assert (Hq' : 2 ^ 52 <= q' <= 2 ^ 53).
    { unfold q'. destruct (_ <? _); [lia|]. destruct (_ <? _); [lia|].
      destruct (N.even q); lia. }
    destruct (2 ^ 1024 <=? N.shiftl q' e) eqn:O; [discriminate|].
    intros H; injection H as <-. now apply round_shift.
Qed.

Lemma better_cases v a b : better v a b = a \/ better v a b = b.
Proof.
  unfold better. destruct (_ <? _); [auto|]. destruct (_ <? _); [auto|].
  destruct (N.even _); auto.
Qed.

Lemma fold_better_in v cs : forall c, In (fold_left (better v) cs c) (c :: cs).
Proof.
  induction cs as [|x cs IH]; intros c; cbn [fold_left]; [now left|].
  destruct (IH (better v c x)) as [H | H].
  - destruct (better_cases v c x) as [E | E]; rewrite E in *.
    + left. exact H.
    + right. left. exact H.
  - right. right. exact H.
Qed.

Lemma candidates_round v d k c :
  In c (candidates v d k) -> round (fst c * 10 ^ snd c) = Fin v.
Proof.
  unfold candidates. intros H. apply filter_In in H. destruct H as [_ H].
  destruct (round (fst c * 10 ^ snd c)) as [x|]; cbn in H; [|discriminate].
  apply N.eqb_eq in H. now subst.
Qed.

Lemma shortest_from_round v d fuel : forall k,
  round v = Fin v ->
  round (fst (shortest_from fuel v d k) * 10 ^ snd (shortest_from fuel v d k))
  = Fin v.
Proof.
  induction fuel as [|f IH]; intros k Hv; cbn [shortest_from].
  - cbn [fst snd]. now rewrite N.pow_0_r, N.mul_1_r.
  - destruct (candidates v d k) as [|c cs] eqn:E; [now apply IH|].
    apply (@candidates_round v d k). rewrite E. apply fold_better_in.
Qed.

Lemma value_zeros_right ds p :
  value (ds ++ repeat "0"%char p) = value ds * 10 ^ N.of_nat p.
Proof.
  rewrite value_app, repeat_length.
  pose proof (value_zeros p []) as Z. rewrite app_nil_r in Z.
  rewrite Z. change (value []) with 0. lia.
Qed.

Lemma e_not_digit s r : ~ all is_digit (s ++ "e"%char :: r).
Proof.
  intros H. unfold all in H. rewrite Forall_forall in H.
  specialize (H "e"%char). rewrite in_app_iff in H.
  discriminate H. right. now left.
Qed.

(** A Number printed in plain digits is read back as itself. *)
Lemma toString_plain_roundtrip x :
  (forall v, x = Fin v -> round v = Fin v) ->
  all is_digit (toString x) -> round (value (toString x)) = x.
Proof.
  intros Hx Hp. destruct x as [v|].
  - specialize (Hx v eq_refl). unfold toString in *.
    destruct (v <? 2 ^ 53) eqn:E.
    + now rewrite value_decimal.
    + pose proof (@shortest_from_round v
                    (N.of_nat (List.length (decimal v)))
                    (N.to_nat (N.of_nat (List.length (decimal v)))) 1 Hx) as R.
      fold (shortest v) in R. destruct (shortest v) as [s p]. cbn [fst snd] in R.
      destruct (N.of_nat (List.length (decimal s)) + p <=? 21).
      * rewrite value_zeros_right, value_decimal, N2Nat.id. exact R.
      * exfalso. pose proof (decimal_nonempty s) as Hne.
        destruct (decimal s) as [|c [|c' rest]]; [congruence| |].
        -- apply (@e_not_digit [c] (lit "+" ++ decimal (N.of_nat 1 + p - 1))).
           exact Hp.
        -- apply (@e_not_digit ([c] ++ lit "." ++ c' :: rest)
                    (lit "+" ++ decimal (N.of_nat (List.length (c :: c' :: rest)) + p - 1))).
           rewrite <- !app_assoc. exact Hp.
  - exfalso. unfold all in Hp. rewrite Forall_forall in Hp.
    specialize (Hp "I"%char (or_introl eq_refl)). discriminate Hp.
Qed.

End NumberFacts.

(* ================================================================== *)
(** * The patterns of the location normaliser *)

Lemma all_forallb p s : all p s -> forallb p s = true.
Proof. intros H. apply forallb_forall. now apply Forall_forall. Qed.

Lemma forallb_all p s : forallb p s = true -> all p s.
Proof. intros H. apply Forall_forall. now apply forallb_forall. Qed.

Lemma none_negb p s : none p s -> all (fun c => negb (p c)) s.
Proof. apply Forall_impl. intros c ->. reflexivity. Qed.

Lemma negb_none p s : all (fun c => negb (p c)) s -> none p s.
Proof. apply Forall_impl. intros c H. now apply negb_true_iff. Qed.

Lemma stripPrefixCI_exact p r : stripPrefixCI p (p ++ r) = Some r.
Proof.
  induction p as [|a p IH]; simpl; [now destruct r|].
  now rewrite Ascii.eqb_refl.
Qed.

Lemma stripPrefixCI_sound p : forall u r,
  stripPrefixCI p u = Some r ->
  exists pre, u = pre ++ r /\ toUpperCase pre = toUpperCase p.
Proof.
  induction p as [|a p IH]; intros u r H.
  - exists []. destruct u; simpl in H; injection H as <-; auto.
  - destruct u as [|c u]; simpl in H; [discriminate|].
    destruct (Ascii.eqb (upper_char a) (upper_char c)) eqn:E; [|discriminate].
    apply Ascii.eqb_eq in E.
    destruct (IH _ _ H) as (pre & -> & Hp).
    exists (c :: pre). split; [reflexivity|]. simpl. now rewrite Hp, E.
Qed.

Lemma takeWhile_digits_then d l :
  all is_digit d -> none is_digit (firstn 1 l) ->
  takeWhile is_digit (d ++ l) = d /\ dropWhile is_digit (d ++ l) = l.
Proof.
  intros Hd Hl. rewrite takeWhile_app_all, dropWhile_app_all by assumption.
  destruct l as [|c l]; simpl.
  - now rewrite app_nil_r.
  - inversion Hl as [|? ? Hc _]; subst. rewrite Hc. now rewrite app_nil_r.
Qed.

Lemma alpha_first_not_digit l : all is_alpha l -> none is_digit (firstn 1 l).
Proof.
  destruct 1 as [|c l Hc _]; simpl; constructor; [|constructor].
  destruct (is_digit c) eqn:E; [|reflexivity].
  apply digit_not_alpha in E. congruence.
Qed.

Lemma matchPrefixed_complete p ws d l :
  all is_space ws -> d <> [] -> all is_digit d -> all is_alpha l ->
  matchPrefixed p (p ++ ws ++ d ++ l) = Some (d, l).
Proof.
  intros Hws Hd Hdd Hl. unfold matchPrefixed.
  rewrite stripPrefixCI_exact, dropWhile_app_all by assumption.
  assert (E : dropWhile is_space (d ++ l) = d ++ l).
  { destruct d as [|c d]; [congruence|]. simpl.
    inversion Hdd; subst. now rewrite digit_not_space. }
  rewrite E.
  destruct (@takeWhile_digits_then d l Hdd (alpha_first_not_digit Hl)) as [-> ->].
  destruct d; [congruence|]. now rewrite all_forallb.
Qed.

Lemma matchPrefixed_sound p u d l :
  matchPrefixed p u = Some (d, l) ->
  exists pre ws,
    u = pre ++ ws ++ d ++ l /\ toUpperCase pre = toUpperCase p
    /\ all is_space ws /\ d <> [] /\ all is_digit d /\ all is_alpha l.
Proof.
  unfold matchPrefixed. intros H.
  destruct (stripPrefixCI p u) as [r|] eqn:E; [|discriminate].
  destruct (stripPrefixCI_sound _ _ E) as (pre & -> & Hp).
  destruct (takeWhile is_digit (dropWhile is_space r)) as [|c ds] eqn:Ed;
    [discriminate|].
  destruct (forallb is_alpha (dropWhile is_digit (dropWhile is_space r))) eqn:Ea;
    [|discriminate].
  injection H as <- <-.
  exists pre, (takeWhile is_space r).
  rewrite <- Ed, take_drop, take_drop.
  repeat split; auto.
  - apply takeWhile_all.
  - rewrite Ed. discriminate.
  - apply takeWhile_all.
  - now apply forallb_all.
Qed.

Lemma firstDigitRun_complete u ds : firstRun u ds -> firstDigitRun u = Some ds.
Proof.
  intros (pre & post & -> & Hpre & Hne & Hds & Hpost). unfold firstDigitRun.
  rewrite dropWhile_app_all by now apply none_negb.
  destruct (@takeWhile_digits_then ds post Hds Hpost) as [Ht _].
  destruct ds as [|c ds]; [congruence|].
  inversion Hds as [|? ? Hc _]; subst.
  cbn [app dropWhile]. rewrite Hc. cbn [negb].
  f_equal. exact Ht.
Qed.

Lemma firstDigitRun_sound u ds : firstDigitRun u = Some ds -> firstRun u ds.
Proof.
  unfold firstDigitRun. set (q := fun c => negb (is_digit c)).
  intros H. destruct (dropWhile q u) as [|c r] eqn:E; [discriminate|].
  injection H as <-.
  assert (Hc : is_digit c = true).
  { apply dropWhile_head in E. unfold q in E. now apply negb_false_iff. }
  exists (takeWhile q u), (dropWhile is_digit (c :: r)).
  repeat split.
  - rewrite <- (take_drop q u) at 1. rewrite E. f_equal.
    simpl. rewrite Hc. simpl. f_equal. symmetry. apply take_drop.
  - apply negb_none. apply takeWhile_all.
  - simpl. now rewrite Hc.
  - apply (takeWhile_all is_digit (c :: r)).
  - destruct (dropWhile is_digit (c :: r)) as [|x y] eqn:E2; [constructor|].
    apply dropWhile_head in E2. cbn. constructor; [assumption | constructor].
Qed.

Lemma firstDigitRun_none u : firstDigitRun u = None <-> none is_digit u.
Proof.
  unfold firstDigitRun. set (q := fun c => negb (is_digit c)). split.
  - intros H. destruct (dropWhile q u) eqn:E; [|discriminate].
    apply negb_none. now apply dropWhile_nil_all.
  - intros H. apply none_negb in H. fold q in H.
    pose proof (@dropWhile_app_all q u [] H) as E.
    rewrite app_nil_r in E. now rewrite E.
Qed.

Lemma H_not_blank_or_digit c :
  is_space c = true \/ is_digit c = true ->
  Ascii.eqb "H"%char (upper_char c) = false.
Proof.
  each_char c; intros [H|H]; solve [reflexivity | discriminate H].
Qed.

Lemma matchPrefixed_SHELF_on_S ws d l :
  all is_space ws -> d <> [] -> all is_digit d ->
  matchPrefixed (lit "SHELF") (lit "S" ++ ws ++ d ++ l) = None.
Proof.
  intros Hws Hd Hdd. unfold matchPrefixed.
  assert (E : exists c r, ws ++ d ++ l = c :: r
                          /\ (is_space c = true \/ is_digit c = true)).
  { destruct ws as [|c ws].
    - destruct d as [|c d]; [congruence|]. exists c, (d ++ l).
      inversion Hdd; subst. auto.
    - exists c, (ws ++ d ++ l). inversion Hws; subst. auto. }
  destruct E as (c & r & -> & Hc).
  change (stripPrefixCI (lit "SHELF") (lit "S" ++ c :: r))
    with (if Ascii.eqb "H"%char (upper_char c)
          then stripPrefixCI (lit "ELF") r else None).
  now rewrite (H_not_blank_or_digit _ Hc).
Qed.

Lemma app_same_length_inv (A : Type) (a a' b b' : list A) :
  List.length a = List.length a' -> a ++ b = a' ++ b' -> a = a' /\ b = b'.
Proof.
  revert a'. induction a as [|x a IH]; intros [|x' a'] L H; simpl in *;
    try discriminate; [auto|].
  injection H as -> H. injection L as L.
  destruct (IH _ L H) as [-> ->]. auto.
Qed.

Lemma toUpperCase_app_fixed a b :
  toUpperCase (a ++ b) = a ++ b -> toUpperCase a = a /\ toUpperCase b = b.
Proof.
  rewrite toUpperCase_app. apply app_same_length_inv.
  unfold toUpperCase. apply length_map.
Qed.

(** On upper-cased text the two shelf patterns of the code succeed
    exactly on the shelf texts, with the captures the text determines. *)
Lemma shelf_match_sound p u d l :
  p = lit "SHELF" \/ p = lit "S" ->
  toUpperCase u = u ->
  matchPrefixed p u = Some (d, l) -> shelfText u d l.
Proof.
  intros Hp Hu H.
  destruct (matchPrefixed_sound _ _ H) as (pre & ws & E & Hpre & Hws & Hd & Hdd & Hl).
  rewrite E in Hu. apply toUpperCase_app_fixed in Hu. destruct Hu as [Hu _].
  rewrite Hu in Hpre. exists ws. subst u.
  destruct Hp as [-> | ->]; rewrite Hpre; auto 10.
Qed.

Lemma shelf_match_complete u d l :
  shelfText u d l ->
  matchPrefixed (lit "SHELF") u = Some (d, l)
  \/ (matchPrefixed (lit "SHELF") u = None
      /\ matchPrefixed (lit "S") u = Some (d, l)).
Proof.
  intros (ws & [-> | ->] & Hws & Hd & Hdd & Hl).
  - left. now apply matchPrefixed_complete.
  - right. split.
    + now apply matchPrefixed_SHELF_on_S.
    + now apply matchPrefixed_complete.
Qed.

Lemma trim_nil_all s : trim s = [] -> all is_space s.
Proof.
  unfold trim, trimEnd, trimStart. intros H.
  apply (f_equal (@rev ascii)) in H. rewrite rev_involutive in H. simpl in H.
  apply dropWhile_nil_all in H.
  destruct (dropWhile is_space s) as [|c r] eqn:E.
  - now apply dropWhile_nil_all.
  - exfalso. apply dropWhile_head in E.
    assert (In c (rev (c :: r))) by (apply in_rev; rewrite rev_involutive; now left).
    unfold all in H. rewrite Forall_forall in H. specialize (H _ H0). congruence.
Qed.

Lemma nonBlank_trim s : nonBlank s -> trim (toUpperCase s) <> [].
Proof.
  intros (c & Hin & Hc) E. apply trim_nil_all in E.
  unfold all in E. rewrite Forall_forall in E.
  assert (In (upper_char c) (toUpperCase s)) by now apply in_map.
  specialize (E _ H). rewrite is_space_upper in E. congruence.
Qed.

Lemma upper_trim_upper s : toUpperCase (trim (toUpperCase s)) = trim (toUpperCase s).
Proof. now rewrite <- trim_toUpperCase, toUpperCase_idem. Qed.

Lemma upper_trim_fixed s :
  trim (toUpperCase (trim (toUpperCase s))) = trim (toUpperCase s).
Proof. rewrite upper_trim_upper. apply trim_idem. Qed.

(** ** The three cases of [normalizeBoxNumber] *)

Lemma normalize_shelf (s d l : str) :
  s <> [] -> shelfText (trim (toUpperCase s)) d l ->
  normalizeBoxNumber (Some s) = Some (lit "SHELF " ++ d ++ l).
Proof.
  intros Hs H. destruct s as [|a s]; [congruence|].
  unfold normalizeBoxNumber.
  destruct (shelf_match_complete H) as [-> | [-> ->]]; reflexivity.
Qed.

Lemma no_shelf_no_match u :
  toUpperCase u = u -> (forall d l, ~ shelfText u d l) ->
  matchPrefixed (lit "SHELF") u = None /\ matchPrefixed (lit "S") u = None.
Proof.
  intros Hu H. split.
  - destruct (matchPrefixed (lit "SHELF") u) as [[d l]|] eqn:E; [|reflexivity].
    exfalso. apply (H d l). apply (@shelf_match_sound (lit "SHELF") u d l); auto.
  - destruct (matchPrefixed (lit "S") u) as [[d l]|] eqn:E; [|reflexivity].
    exfalso. apply (H d l). apply (@shelf_match_sound (lit "S") u d l); auto.
Qed.

Lemma normalize_box (s ds : str) :
  s <> [] -> (forall d l, ~ shelfText (trim (toUpperCase s)) d l) ->
  firstRun (trim (toUpperCase s)) ds ->
  normalizeBoxNumber (Some s)
  = Some (lit "BOX" ++ padStart0 3 (Number.toString (Number.parseInt ds))).
Proof.
  intros Hs Hn H. destruct s as [|a s]; [congruence|].
  unfold normalizeBoxNumber.
  destruct (no_shelf_no_match (upper_trim_upper (a :: s)) Hn) as [-> ->].
  now rewrite (firstDigitRun_complete H).
Qed.

Lemma shelfText_has_digit u d l : shelfText u d l -> ~ none is_digit u.
Proof.
  intros (ws & E & _ & Hd & Hdd & _) Hn.
  destruct d as [|c d]; [congruence|].
  inversion Hdd as [|? ? Hc _]; subst.
  assert (In c u) by (destruct E as [-> | ->]; rewrite !in_app_iff; simpl; auto).
  unfold none in Hn. rewrite Forall_forall in Hn.
  specialize (Hn _ H). congruence.
Qed.

Lemma normalize_fallback (s : str) :
  s <> [] -> none is_digit (trim (toUpperCase s)) ->
  normalizeBoxNumber (Some s) = Some (trim (toUpperCase s)).
Proof.
  intros Hs H. destruct s as [|a s]; [congruence|].
  unfold normalizeBoxNumber.
  assert (Hn : forall d l, ~ shelfText (trim (toUpperCase (a :: s))) d l).
  { intros d l Hsh. now apply (shelfText_has_digit Hsh). }
  destruct (no_shelf_no_match (upper_trim_upper (a :: s)) Hn) as [-> ->].
  apply firstDigitRun_none in H. now rewrite H.
Qed.

(** Every text falls in one of the three cases. *)
Lemma normalize_cases u :
  toUpperCase u = u ->
  (exists d l, shelfText u d l)
  \/ ((forall d l, ~ shelfText u d l) /\ exists ds, firstRun u ds)
  \/ none is_digit u.
Proof.
  intros Hu.
  destruct (matchPrefixed (lit "SHELF") u) as [[d l]|] eqn:E1.
  { left. exists d, l. apply (@shelf_match_sound (lit "SHELF") u d l); auto. }
  destruct (matchPrefixed (lit "S") u) as [[d l]|] eqn:E2.
  { left. exists d, l. apply (@shelf_match_sound (lit "S") u d l); auto. }
  right.
  assert (Hn : forall d l, ~ shelfText u d l).
  { intros d l H. destruct (shelf_match_complete H) as [H1 | [_ H1]]; congruence. }
  destruct (firstDigitRun u) as [ds|] eqn:E3.
  - left. split; [assumption|]. exists ds. now apply firstDigitRun_sound.
  - right. now apply firstDigitRun_none.
Qed.

Lemma shelfText_upper (s d l : str) :
  shelfText (trim (toUpperCase s)) d l -> toUpperCase l = l.
Proof.
  intros (ws & E & _).
  pose proof (upper_trim_upper s) as Hup.
  destruct E as [E | E]; rewrite E in Hup;
    apply toUpperCase_app_fixed in Hup; destruct Hup as [_ Hup];
    apply toUpperCase_app_fixed in Hup; destruct Hup as [_ Hup];
    apply toUpperCase_app_fixed in Hup; tauto.
Qed.

(** ** Keys are fixed points *)

Lemma all_digit_upper d : all is_digit d -> toUpperCase d = d.
Proof.
  induction 1 as [|c r Hc _ IH]; simpl; [reflexivity|].
  now rewrite (digit_upper_fixed _ Hc), IH.
Qed.

Lemma ends_not_space s c :
  is_space c = false -> dropWhile is_space (rev (s ++ [c])) = rev (s ++ [c]).
Proof. intros H. rewrite rev_app_distr. simpl. now rewrite H. Qed.

Lemma trimmed_ends a r c :
  is_space a = false -> is_space c = false -> trimmed (a :: r ++ [c]).
Proof.
  intros Ha Hc. split.
  - simpl. now rewrite Ha.
  - apply (@ends_not_space (a :: r) c Hc).
Qed.

(** The last character of digits followed by letters is no white space. *)
Lemma digits_letters_end d l :
  d <> [] -> all is_digit d -> all is_alpha l ->
  exists r c, d ++ l = r ++ [c] /\ is_space c = false.
Proof.
  intros Hd Hdd Hl.
  destruct (list_eq_dec ascii_dec l []) as [-> | Hne].
  - destruct (exists_last Hd) as (r & c & ->). exists r, c.
    rewrite app_nil_r. split; [reflexivity|].
    apply digit_not_space. unfold all in Hdd. rewrite Forall_forall in Hdd.
    apply Hdd. rewrite in_app_iff; simpl; auto.
  - destruct (exists_last Hne) as (r & c & ->). exists (d ++ r), c.
    rewrite app_assoc. split; [reflexivity|].
    apply alpha_not_space. unfold all in Hl. rewrite Forall_forall in Hl.
    apply Hl. rewrite in_app_iff; simpl; auto.
Qed.

Lemma shelf_key_shelfText (d l : str) :
  d <> [] -> all is_digit d -> all is_alpha l -> toUpperCase l = l ->
  shelfText (trim (toUpperCase (lit "SHELF " ++ d ++ l))) d l.
Proof.
  intros Hd Hdd Hl Hu.
  set (r := lit "SHELF " ++ d ++ l).
  assert (Hup : toUpperCase r = r).
  { unfold r. rewrite !toUpperCase_app, Hu, (all_digit_upper Hdd). reflexivity. }
  assert (Htr : trim r = r).
  { apply trim_of_trimmed. unfold r.
    destruct (digits_letters_end Hd Hdd Hl) as (q & c & -> & Hc).
    apply (@trimmed_ends "S"%char (lit "HELF " ++ q) c); [reflexivity | assumption]. }
  rewrite Hup, Htr. exists (lit " "). repeat split; auto.
  repeat constructor.
Qed.

Lemma shelf_key_fixed (d l : str) :
  d <> [] -> all is_digit d -> all is_alpha l -> toUpperCase l = l ->
  normalizeBoxNumber (Some (lit "SHELF " ++ d ++ l))
  = Some (lit "SHELF " ++ d ++ l).
Proof.
  intros Hd Hdd Hl Hu.
  apply normalize_shelf; [discriminate|]. now apply shelf_key_shelfText.
Qed.

Lemma padStart0_digits n ds : all is_digit ds -> all is_digit (padStart0 n ds).
Proof.
  intros H. unfold padStart0, all. apply Forall_app. split; [|assumption].
  apply Forall_forall. intros c Hc. apply repeat_spec in Hc. now subst.
Qed.

Lemma padStart0_value n ds : Number.value (padStart0 n ds) = Number.value ds.
Proof. apply NumberFacts.value_zeros. Qed.

Lemma padStart0_nonempty n ds : ds <> [] -> padStart0 n ds <> [].
Proof.
  unfold padStart0. intros H E. apply app_eq_nil in E. tauto.
Qed.

Lemma box_key_not_shelf ds d l : ~ shelfText (lit "BOX" ++ ds) d l.
Proof. intros (ws & [E | E] & _); discriminate E. Qed.

Lemma padStart0_length n ds : (n <= List.length (padStart0 n ds))%nat.
Proof. unfold padStart0. rewrite length_app, repeat_length. lia. Qed.

Lemma parseInt_stable ds v :
  Number.parseInt ds = Number.Fin v -> Number.round v = Number.Fin v.
Proof. apply NumberFacts.round_idem. Qed.

Lemma small_plain ds :
  (Number.value ds < 2 ^ 53)%N -> plainDigits (Number.parseInt ds).
Proof.
  intros H. unfold plainDigits, Number.parseInt.
  rewrite NumberFacts.round_small, NumberFacts.toString_small by assumption.
  apply NumberFacts.decimal_digits.
Qed.

Lemma box_key_fixed (ds0 : str) :
  plainDigits (Number.parseInt ds0) ->
  normalizeBoxNumber
    (Some (lit "BOX" ++ padStart0 3 (Number.toString (Number.parseInt ds0))))
  = Some (lit "BOX" ++ padStart0 3 (Number.toString (Number.parseInt ds0))).
Proof.
  intros Hp.
  set (x := Number.parseInt ds0) in *.
  set (ds := padStart0 3 (Number.toString x)).
  assert (Hds : all is_digit ds) by now apply padStart0_digits.
  assert (Hne : ds <> []).
  { intros E. pose proof (padStart0_length 3 (Number.toString x)) as L.
    fold ds in L. rewrite E in L. simpl in L. lia. }
  set (r := lit "BOX" ++ ds).
  assert (Hup : toUpperCase r = r).
  { unfold r. rewrite toUpperCase_app, (all_digit_upper Hds). reflexivity. }
  assert (Htr : trim r = r).
  { apply trim_of_trimmed. unfold r.
    destruct (exists_last Hne) as (q & c & E). rewrite E.
    apply (@trimmed_ends "B"%char (lit "OX" ++ q) c); [reflexivity|].
    apply digit_not_space. unfold all in Hds. rewrite Forall_forall in Hds.
    apply Hds. rewrite E, in_app_iff; simpl; auto. }
  rewrite (@normalize_box r ds).
  - unfold Number.parseInt at 1. unfold ds. rewrite padStart0_value.
    rewrite NumberFacts.toString_plain_roundtrip; [reflexivity | | assumption].
    intros v Hv. now apply (@parseInt_stable ds0).
  - discriminate.
  - rewrite Hup, Htr. intros d l. apply box_key_not_shelf.
  - rewrite Hup, Htr. exists (lit "BOX"), []. rewrite app_nil_r.
    repeat split; auto; repeat constructor.
Qed.

Lemma fallback_key_fixed (s : str) :
  trim (toUpperCase s) <> [] -> none is_digit (trim (toUpperCase s)) ->
  normalizeBoxNumber (Some (trim (toUpperCase s))) = Some (trim (toUpperCase s)).
Proof.
  intros Hne Hn. rewrite normalize_fallback; rewrite ?upper_trim_fixed; auto.
Qed.

Lemma nonBlank_nonempty s : nonBlank s -> s <> [].
Proof. intros (c & Hin & _) ->. inversion Hin. Qed.

(** The key produced for a text is a fixed point of the normaliser,
    when the number of a BOX key is printed in plain digits. *)
Lemma normalize_result_fixed (s : str) :
  nonBlank s -> safeDigits s ->
  exists r, normalizeBoxNumber (Some s) = Some r
            /\ normalizeBoxNumber (Some r) = Some r.
Proof.
  intros Hnb Hsafe.
  pose proof (nonBlank_nonempty Hnb) as Hs.
  destruct (normalize_cases (upper_trim_upper s))
    as [(d & l & H) | [(Hn & ds & H) | H]].
  - eexists. split; [apply (normalize_shelf Hs H)|].
    pose proof (shelfText_upper _ H) as Hup.
    destruct H as (ws & E & Hws & Hd & Hdd & Hl).
    now apply shelf_key_fixed.
  - eexists. split; [apply (normalize_box Hs Hn H)|].
    apply box_key_fixed. now apply Hsafe.
  - eexists. split; [apply (normalize_fallback Hs H)|].
    apply fallback_key_fixed; [now apply nonBlank_trim | assumption].
Qed.

(* ================================================================== *)
(** * The location normaliser: results *)

(** C2, as stated, fails: the code trims the upper-cased text before it
    matches and before it falls back to it, and a digit run of 10^21 or
    more is printed by [Number.prototype.toString] in exponent notation,
    not as a zero-padded number. *)
Lemma normalizeBoxNumber_differs_from_wording :
  normalizeBoxNumber (Some (lit " abc")) = Some (lit "ABC")
  /\ Claimed.normalizeBoxNumber (Some (lit " abc")) = Some (lit " ABC")
  /\ normalizeBoxNumber (Some (lit "1000000000000000000000"))
     = Some (lit "BOX1e+21")
  /\ Claimed.normalizeBoxNumber (Some (lit "1000000000000000000000"))
     = Some (lit "BOX1000000000000000000000").
Proof. repeat split; vm_compute; reflexivity. Qed.

(** C2, amended: the normaliser upper-cases and trims the text first.  On
    that text, a shelf text (prefix SHELF or S, optional white space,
    digits, letters) gives [SHELF <digits><letters>]; otherwise the first
    run of digits gives [BOX] followed by the parsed Number as
    [toString] prints it, padded with zeros to at least three
    characters, which for a run denoting a number below 2^53 is the
    number itself in decimal digits; otherwise the trimmed upper-cased
    text is returned.  Null and empty input give no result, and the
    eight sample inputs normalise as stated. *)
Theorem normalizeBoxNumber_cases :
  normalizeBoxNumber None = None
  /\ normalizeBoxNumber (Some []) = None
  /\ (forall s : str, s <> [] ->
      let u := trim (toUpperCase s) in
      (forall d l, shelfText u d l ->
         normalizeBoxNumber (Some s) = Some (lit "SHELF " ++ d ++ l))
      /\ (forall ds, (forall d l, ~ shelfText u d l) -> firstRun u ds ->
            normalizeBoxNumber (Some s)
            = Some (lit "BOX" ++ padStart0 3 (Number.toString (Number.parseInt ds)))
            /\ ((Number.value ds < 2 ^ 53)%N ->
                Number.toString (Number.parseInt ds)
                = Number.decimal (Number.value ds)))
      /\ (none is_digit u -> normalizeBoxNumber (Some s) = Some u))
  /\ normalizeBoxNumber (Some (lit "shelf 2c")) = Some (lit "SHELF 2C")
  /\ normalizeBoxNumber (Some (lit "SHELF2C")) = Some (lit "SHELF 2C")
  /\ normalizeBoxNumber (Some (lit "s 2c")) = Some (lit "SHELF 2C")
  /\ normalizeBoxNumber (Some (lit "S2C")) = Some (lit "SHELF 2C")
  /\ normalizeBoxNumber (Some (lit "box42")) = Some (lit "BOX042")
  /\ normalizeBoxNumber (Some (lit "B042")) = Some (lit "BOX042")
  /\ normalizeBoxNumber (Some (lit "42")) = Some (lit "BOX042")
  /\ normalizeBoxNumber (Some (lit "BOX 042")) = Some (lit "BOX042").
Proof.
  split; [reflexivity|]. split; [reflexivity|]. split.
  - intros s Hs u. split; [|split].
    + intros d l H. now apply normalize_shelf.
    + intros ds Hn Hr. split; [now apply normalize_box|].
      intros Hv. unfold Number.parseInt.
      now rewrite NumberFacts.round_small, NumberFacts.toString_small.
    + intros H. now apply normalize_fallback.
  - repeat split; vm_compute; reflexivity.
Qed.

(** The amended statement used on the text [" box 7 "]: it is no shelf
    text, its first digit run is [7], and the key is [BOX007]. *)
Lemma normalizeBoxNumber_cases_witness :
  normalizeBoxNumber (Some (lit " box 7 ")) = Some (lit "BOX007").
Proof.
  destruct normalizeBoxNumber_cases as (_ & _ & H & _).
  destruct (H (lit " box 7 ") ltac:(discriminate)) as (_ & Hbox & _).
  destruct (Hbox (lit "7")) as (E1 & E2).
  - intros d l (ws & [E | E] & _); vm_compute in E; discriminate E.
  - exists (lit "BOX "), []. repeat split; try discriminate; repeat constructor.
  - rewrite E1, E2; [reflexivity | vm_compute; reflexivity].
Defined.

(** C10, as stated, fails: a run of digits denoting 10^21 is printed in
    exponent notation, and the key [BOX1e+21] normalises to [BOX001]. *)
Lemma normalizeBoxNumber_not_idempotent :
  nonBlank (lit "1000000000000000000000")
  /\ normalizeBoxNumber (Some (lit "1000000000000000000000"))
     = Some (lit "BOX1e+21")
  /\ normalizeBoxNumber (normalizeBoxNumber (Some (lit "1000000000000000000000")))
     = Some (lit "BOX001")
  /\ normalizeBoxNumber (normalizeBoxNumber (Some (lit "1000000000000000000000")))
     <> normalizeBoxNumber (Some (lit "1000000000000000000000")).
Proof.
  split; [exists "1"%char; split; [now left | reflexivity]|].
  repeat split; try (vm_compute; reflexivity).
  vm_compute. discriminate.
Qed.

(** C10, amended: for every text with a character that is not white
    space, normalising the result again returns the same result,
    provided that the number of a BOX key is printed in plain decimal
    digits.  That is so for every digit run denoting a number below
    2^53, and it is not so for 10^21. *)
Theorem normalizeBoxNumber_idempotent :
  (forall s : str,
     nonBlank s -> safeDigits s ->
     normalizeBoxNumber (normalizeBoxNumber (Some s)) = normalizeBoxNumber (Some s))
  /\ (forall ds, (Number.value ds < 2 ^ 53)%N -> plainDigits (Number.parseInt ds))
  /\ ~ plainDigits (Number.parseInt (lit "1000000000000000000000")).
Proof.
  split; [|split].
  - intros s Hnb Hsafe.
    pose proof (nonBlank_nonempty Hnb) as Hs.
    destruct (normalize_cases (upper_trim_upper s))
      as [(d & l & H) | [(Hn & ds & H) | H]].
    + rewrite (normalize_shelf Hs H).
      pose proof (shelfText_upper _ H) as Hup.
      destruct H as (ws & E & Hws & Hd & Hdd & Hl).
      now apply shelf_key_fixed.
    + rewrite (normalize_box Hs Hn H). apply box_key_fixed. now apply Hsafe.
    + rewrite (normalize_fallback Hs H).
      apply fallback_key_fixed; [now apply nonBlank_trim | assumption].
  - exact small_plain.
  - unfold plainDigits. intros H.
    replace (Number.toString (Number.parseInt (lit "1000000000000000000000")))
      with (lit "1e+21") in H by (vm_compute; reflexivity).
    apply (@NumberFacts.e_not_digit (lit "1") (lit "+21")). exact H.
Qed.

Lemma normalizeBoxNumber_idempotent_witness :
  normalizeBoxNumber (normalizeBoxNumber (Some (lit "b 42 x")))
  = normalizeBoxNumber (Some (lit "b 42 x")).
Proof.
  destruct normalizeBoxNumber_idempotent as (Hidem & Hsmall & _).
  apply Hidem.
  - exists "b"%char. split; [now left | reflexivity].
  - intros ds _ H. apply firstDigitRun_complete in H.
    vm_compute in H. injection H as <-.
    apply Hsmall. vm_compute. reflexivity.
Defined.

(* ================================================================== *)
(** * The patterns of the quantity parser *)

Lemma dropWhile_snoc (p : ascii -> bool) l c :
  dropWhile p (l ++ [c])
  = match dropWhile p l with
    | [] => if p c then [] else [c]
    | x => x ++ [c]
    end.
Proof.
  induction l as [|a l IH]; simpl; [reflexivity|].
  destruct (p a); [assumption | reflexivity].
Qed.

Lemma trimEnd_cons c r :
  trimEnd (c :: r)
  = match trimEnd r with
    | [] => if is_space c then [] else [c]
    | _ :: _ => c :: trimEnd r
    end.
Proof.
  unfold trimEnd. cbn [rev]. rewrite dropWhile_snoc.
  destruct (dropWhile is_space (rev r)) as [|x y] eqn:E.
  - simpl. now destruct (is_space c).
  - rewrite rev_app_distr. change (rev [c]) with [c]. cbn [app].
    destruct (rev (x :: y)) eqn:E2; [|reflexivity].
    apply (f_equal (@List.length ascii)) in E2. rewrite length_rev in E2.
    discriminate E2.
Qed.

Lemma trimStart_trimEnd s : trimStart (trimEnd s) = trimEnd (trimStart s).
Proof.
  induction s as [|c r IH]; [reflexivity|].
  rewrite trimEnd_cons. unfold trimStart at 2. cbn [dropWhile].
  destruct (is_space c) eqn:Ec.
  - fold (trimStart r). rewrite <- IH.
    destruct (trimEnd r) as [|x y]; [reflexivity|].
    unfold trimStart. cbn [dropWhile]. now rewrite Ec.
  - rewrite trimEnd_cons.
    destruct (trimEnd r) as [|x y]; rewrite ?Ec;
      unfold trimStart; cbn [dropWhile]; now rewrite Ec.
Qed.

Lemma trimEnd_idem s : trimEnd (trimEnd s) = trimEnd s.
Proof.
  unfold trimEnd. now rewrite rev_involutive, dropWhile_idem.
Qed.

Lemma trim_trimEnd s : trim (trimEnd s) = trim s.
Proof.
  unfold trim. now rewrite trimStart_trimEnd, trimEnd_idem.
Qed.

Lemma all_space_trim s : all is_space s -> trim s = [].
Proof.
  intros H. unfold trim, trimStart.
  pose proof (@dropWhile_app_all is_space s [] H) as E.
  rewrite app_nil_r in E. now rewrite E.
Qed.

Lemma is_x_not_digit c : is_x c = true -> is_digit c = false.
Proof. each_char c; intros H; solve [reflexivity | discriminate H]. Qed.

Lemma all_rev p s : all p s -> all p (rev s).
Proof. apply Forall_rev. Qed.

Lemma rev_nonempty (A : Type) (l : list A) : l <> [] -> rev l <> [].
Proof.
  intros H E. apply H. apply (f_equal (@rev A)) in E.
  now rewrite rev_involutive in E.
Qed.

Lemma matchX_complete before ws x ds l :
  ws <> [] -> all is_space ws -> is_x x = true -> ds <> [] -> all is_digit ds ->
  l = before ++ ws ++ [x] ++ ds ->
  matchX l = Some (trimEnd before, ds).
Proof.
  intros Hws Hsp Hx Hds Hdd ->. unfold matchX.
  rewrite !rev_app_distr. cbn [rev app]. rewrite <- !app_assoc. cbn [app].
  pose proof (all_rev Hdd) as Hrd. pose proof (rev_nonempty Hds) as Hrn.
  assert (E0 : dropWhile is_space (rev ds ++ x :: rev ws ++ rev before)
               = rev ds ++ x :: rev ws ++ rev before).
  { destruct (rev ds) as [|c r]; [congruence|].
    inversion Hrd; subst. cbn. now rewrite digit_not_space. }
  rewrite E0.
  rewrite takeWhile_app_all, dropWhile_app_all by assumption.
  cbn [takeWhile dropWhile]. rewrite (is_x_not_digit _ Hx), app_nil_r.
  destruct (rev ds) as [|c r] eqn:Er; [congruence|]. rewrite Hx.
  pose proof (all_rev Hsp) as Hrs. pose proof (rev_nonempty Hws) as Hrw.
  rewrite takeWhile_app_all, dropWhile_app_all by assumption.
  destruct (rev ws) as [|c' r']; [congruence|]. cbn [app].
  rewrite <- Er, rev_involutive. reflexivity.
Qed.

Lemma rev_eq_app (A : Type) (l a b : list A) :
  rev l = a ++ b -> l = rev b ++ rev a.
Proof.
  intros H. apply (f_equal (@rev A)) in H.
  now rewrite rev_involutive, rev_app_distr in H.
Qed.

Ltac length_absurd :=
  let E := fresh in
  intro E; apply (f_equal (@List.length ascii)) in E;
  rewrite ?length_app, ?length_rev in E; simpl in E; lia.

Lemma matchX_sound l before ds :
  dropWhile is_space (rev l) = rev l ->
  matchX l = Some (before, ds) -> xSuffix l before ds.
Proof.
  unfold matchX. intros Ht H. rewrite Ht in H.
  destruct (takeWhile is_digit (rev l)) as [|d0 dr] eqn:Ed; [discriminate|].
  destruct (dropWhile is_digit (rev l)) as [|c r1] eqn:Ec; [discriminate|].
  destruct (is_x c) eqn:Ex; [|discriminate].
  destruct (takeWhile is_space r1) as [|w0 wr] eqn:Ew; [discriminate|].
  injection H as <- <-.
  exists (rev (w0 :: wr)), c.
  pose proof (take_drop is_digit (rev l)) as E1. rewrite Ed, Ec in E1.
  pose proof (take_drop is_space r1) as E2. rewrite Ew in E2.
  repeat split.
  - symmetry in E1. apply rev_eq_app in E1. rewrite E1.
    apply (f_equal (@rev ascii)) in E2. rewrite rev_app_distr in E2.
    change (rev (c :: r1)) with (rev r1 ++ [c]). rewrite <- E2.
    rewrite <- !app_assoc. reflexivity.
  - length_absurd.
  - apply (all_rev (s := w0 :: wr)). rewrite <- Ew. apply takeWhile_all.
  - assumption.
  - length_absurd.
  - apply (all_rev (s := d0 :: dr)). rewrite <- Ed. apply takeWhile_all.
Qed.

Lemma matchX_paren_end before ds :
  matchX (before ++ lit "(" ++ ds ++ lit ")") = None.
Proof.
  unfold matchX. rewrite !rev_app_distr. reflexivity.
Qed.

Lemma matchParen_complete before ds l :
  ds <> [] -> all is_digit ds ->
  l = before ++ lit "(" ++ ds ++ lit ")" ->
  matchParen l = Some (trimEnd before, ds).
Proof.
  intros Hds Hdd ->. unfold matchParen.
  rewrite !rev_app_distr. cbn [rev app lit list_ascii_of_string dropWhile].
  change (is_space ")"%char) with false. cbv iota.
  change (Ascii.eqb ")"%char ")"%char) with true. cbv iota.
  pose proof (all_rev Hdd) as Hrd. pose proof (rev_nonempty Hds) as Hrn.
  rewrite <- !app_assoc.
  rewrite takeWhile_app_all, dropWhile_app_all by assumption.
  cbn [app takeWhile dropWhile]. change (is_digit "("%char) with false. cbv iota.
  rewrite app_nil_r.
  destruct (rev ds) as [|c r] eqn:Er; [congruence|].
  change (Ascii.eqb "("%char "("%char) with true. cbv iota.
  rewrite <- Er, rev_involutive. reflexivity.
Qed.

Lemma matchParen_sound l before ds :
  dropWhile is_space (rev l) = rev l ->
  matchParen l = Some (before, ds) ->
  exists pre, parenSuffix l pre ds /\ before = trimEnd pre.
Proof.
  unfold matchParen. intros Ht H. rewrite Ht in H.
  destruct (rev l) as [|c r0] eqn:El; [discriminate|].
  destruct (Ascii.eqb c ")"%char) eqn:Ec; [|discriminate].
  apply Ascii.eqb_eq in Ec. subst c.
  destruct (takeWhile is_digit r0) as [|d0 dr] eqn:Ed; [discriminate|].
  destruct (dropWhile is_digit r0) as [|o r1] eqn:Eo; [discriminate|].
  destruct (Ascii.eqb o "("%char) eqn:Ep; [|discriminate].
  apply Ascii.eqb_eq in Ep. subst o.
  injection H as <- <-.
  exists (rev r1). split; [|unfold trimEnd; now rewrite rev_involutive].
  pose proof (take_drop is_digit r0) as E1. rewrite Ed, Eo in E1.
  repeat split.
  - change (")"%char :: r0) with ([")"%char] ++ r0) in El.
    apply rev_eq_app in El. rewrite El, <- E1.
    rewrite rev_app_distr. cbn [rev app]. rewrite <- !app_assoc. reflexivity.
  - length_absurd.
  - apply (all_rev (s := d0 :: dr)). rewrite <- Ed. apply takeWhile_all.
Qed.

(* ================================================================== *)
(** * The quantity parser: results *)

Lemma or_one_idem x : or_one (or_one x) = or_one x.
Proof. destruct x as [[|p]|]; reflexivity. Qed.

Lemma or_one_truthy x : Number.truthy (or_one x) = true.
Proof. destruct x as [[|p]|]; reflexivity. Qed.

Lemma trim_rev_fixed s : dropWhile is_space (rev (trim s)) = rev (trim s).
Proof. apply trim_trimmed. Qed.

Lemma xSuffix_nonempty_name (t before ds : str) :
  trimmed t -> xSuffix t before ds -> trim before <> [].
Proof.
  intros Ht (ws & x & E & Hws & Hsp & _) Hb.
  apply trim_nil_all in Hb.
  assert (Hall : all is_space (before ++ ws)) by (apply Forall_app; auto).
  destruct (before ++ ws) as [|c r] eqn:E1.
  - apply app_eq_nil in E1. tauto.
  - rewrite app_assoc, E1 in E. subst t. cbn [app] in Ht.
    apply trimmed_head in Ht. inversion Hall; subst. congruence.
Qed.

Lemma parseQuantity_x (s before ds : str) :
  xSuffix (trim s) before ds ->
  parseQuantity s = Parsed.mk (trim before) (or_one (Number.parseInt ds)).
Proof.
  intros H. pose proof (xSuffix_nonempty_name (trim_trimmed s) H) as Hne.
  destruct H as (ws & x & E & Hws & Hsp & Hx & Hds & Hdd).
  destruct s as [|a s]; [destruct before, ws; discriminate E|].
  unfold parseQuantity.
  rewrite (@matchX_complete before ws x ds _ Hws Hsp Hx Hds Hdd E), trim_trimEnd, or_one_idem.
  destruct (trim before); [congruence | reflexivity].
Qed.

Lemma parseQuantity_paren (s before ds : str) :
  parenSuffix (trim s) before ds ->
  parseQuantity s
  = Parsed.mk (nonEmptyOr (trim before) s) (or_one (Number.parseInt ds)).
Proof.
  intros (E & Hds & Hdd).
  destruct s as [|a s]; [destruct before; discriminate E|].
  unfold parseQuantity.
  rewrite E at 1. rewrite matchX_paren_end.
  rewrite (@matchParen_complete before ds _ Hds Hdd E), trim_trimEnd, or_one_idem.
  reflexivity.
Qed.

Lemma parseQuantity_plain (s : str) :
  (forall before ds, ~ xSuffix (trim s) before ds) ->
  (forall before ds, ~ parenSuffix (trim s) before ds) ->
  parseQuantity s = Parsed.mk (nonEmptyOr (trim s) s) (Number.Fin 1).
Proof.
  intros Hx Hp. destruct s as [|a s]; [reflexivity|].
  unfold parseQuantity.
  destruct (matchX (trim (a :: s))) as [[b ds]|] eqn:E1.
  { exfalso. apply (Hx b ds). apply matchX_sound; [apply trim_rev_fixed | assumption]. }
  destruct (matchParen (trim (a :: s))) as [[b ds]|] eqn:E2.
  { exfalso. destruct (matchParen_sound _ (trim_rev_fixed (a :: s)) E2) as (pre & H & _).
    apply (Hp pre ds H). }
  reflexivity.
Qed.

(** C3, as stated, fails where the stripped name comes out empty: the
    code then returns the text it was given.  ["(4)"] matches the second
    pattern with nothing before it, and the name returned is ["(4)"];
    white-space-only input is returned untrimmed. *)
Lemma parseQuantity_empty_name_keeps_input :
  parenSuffix (trim (lit "(4)")) [] (lit "4")
  /\ parseQuantity (lit "(4)") = Parsed.mk (lit "(4)") (Number.Fin 4)
  /\ Parsed.name (parseQuantity (lit "(4)")) <> trim []
  /\ parseQuantity (lit "  ") = Parsed.mk (lit "  ") (Number.Fin 1)
  /\ Parsed.name (parseQuantity (lit "  ")) <> trim (lit "  ").
Proof.
  split; [split; [reflexivity | split; [discriminate | repeat constructor]]|].
  repeat split; try (vm_compute; reflexivity); vm_compute; discriminate.
Qed.

(** C3, amended: on the trimmed text the parser checks the two trailing
    forms in order.  For [<name> x<digits>] it returns the parsed number
    (1 when that is 0) and the trimmed text before the suffix; for
    [<name> (<digits>)] it returns the parsed number (1 when that is 0)
    and the trimmed text before the suffix, or the text as given when
    nothing is left; with neither form it returns quantity 1 and the
    trimmed text, or the text as given when the trimmed text is empty.
    It is total, the quantity is never 0, and the empty text gives the
    empty name with quantity 1. *)
Theorem parseQuantity_spec :
  (forall s : str,
     let t := trim s in
     (forall before ds, xSuffix t before ds ->
        parseQuantity s = Parsed.mk (trim before) (or_one (Number.parseInt ds)))
     /\ (forall before ds, parenSuffix t before ds ->
           parseQuantity s
           = Parsed.mk (nonEmptyOr (trim before) s) (or_one (Number.parseInt ds)))
     /\ ((forall before ds, ~ xSuffix t before ds) ->
         (forall before ds, ~ parenSuffix t before ds) ->
         parseQuantity s = Parsed.mk (nonEmptyOr t s) (Number.Fin 1))
     /\ Number.truthy (Parsed.qty (parseQuantity s)) = true)
  /\ parseQuantity [] = Parsed.mk [] (Number.Fin 1)
  /\ parseQuantity (lit "batteries x3") = Parsed.mk (lit "batteries") (Number.Fin 3)
  /\ parseQuantity (lit "widget (4)") = Parsed.mk (lit "widget") (Number.Fin 4)
  /\ parseQuantity (lit "pen") = Parsed.mk (lit "pen") (Number.Fin 1)
  /\ parseQuantity (lit "pen x0") = Parsed.mk (lit "pen") (Number.Fin 1).
Proof.
  split.
  - intros s t. split; [|split; [|split]].
    + intros b ds. apply parseQuantity_x.
    + intros b ds. apply parseQuantity_paren.
    + apply parseQuantity_plain.
    + destruct s as [|a s]; [reflexivity|]. unfold parseQuantity.
      destruct (matchX (trim (a :: s))) as [[b ds]|];
        [|destruct (matchParen (trim (a :: s))) as [[b ds]|]];
        cbn [Parsed.qty]; apply or_one_truthy.
  - repeat split; vm_compute; reflexivity.
Qed.

(** The amended statement used on ["  tape  X12 "]. *)
Lemma parseQuantity_spec_witness :
  parseQuantity (lit "  tape  X12 ") = Parsed.mk (lit "tape") (Number.Fin 12).
Proof.
  destruct parseQuantity_spec as (H & _).
  destruct (H (lit "  tape  X12 ")) as (Hx & _).
  apply (Hx (lit "tape") (lit "12")).
  exists (lit "  "), "X"%char.
  repeat split; try discriminate; repeat constructor.
Defined.

(* ================================================================== *)
(** * Snapshots *)

Lemma jsonNumber_idem q : jsonNumber (jsonNumber q) = jsonNumber q.
Proof. destruct q as [[n|]|]; reflexivity. Qed.

Lemma jsonCopy_idem s : jsonCopy (jsonCopy s) = jsonCopy s.
Proof.
  destruct s as [sid st bs]. unfold jsonCopy, Session.with_boxes. cbn.
  f_equal. rewrite map_map. apply map_ext.
  intros [k b]. cbn. f_equal. unfold jsonBox. cbn. f_equal.
  rewrite map_map. apply map_ext. intros i. unfold jsonItem. cbn.
  now rewrite jsonNumber_idem.
Qed.

Lemma jsonCopy_finite s : finiteQuantities s -> jsonCopy s = s.
Proof.
  destruct s as [i st bs]. unfold finiteQuantities, jsonCopy. cbn.
  intros H. unfold Session.with_boxes. cbn. f_equal.
  induction bs as [|[k b] r IH]; [reflexivity|].
  cbn [map fst snd].
  rewrite IH
    by (intros k' b' i' Hin Hit; apply (H k' b' i'); [now right | exact Hit]).
  f_equal. f_equal. destruct b as [its c ca sl]. unfold jsonBox. cbn. f_equal.
  assert (Hi : forall i, In i its -> Item.qty i <> Some Number.Infinity).
  { intros it Hin. apply (H k (BoxData.mk its c ca sl)); [now left | exact Hin]. }
  clear -Hi. induction its as [|it its IH]; [reflexivity|].
  cbn [map]. rewrite IH by (intros; apply Hi; now right). f_equal.
  specialize (Hi it (or_introl eq_refl)).
  destruct it as [a b [[n|]|] d e f]; try reflexivity. cbn in Hi. congruence.
Qed.

(* ================================================================== *)
(** * History *)

Lemma slice0_firstn (A : Type) (e : Z) (a : list A) :
  (0 <= e)%Z -> slice0 e a = firstn (Z.to_nat e) a.
Proof.
  intros H. unfold slice0.
  destruct (e <? 0)%Z eqn:E; [apply Z.ltb_lt in E; lia | reflexivity].
Qed.

Lemma historyLimit_pos cfg : (1 <= historyLimit cfg)%N.
Proof. destruct cfg as [[|p]|]; simpl; lia. Qed.

Lemma saveStateToHistory_spec w :
  (-1 <= historyIndex w)%Z ->
  let h2 := firstn (Z.to_nat (historyIndex w + 1)) (history w)
            ++ [jsonCopy (currentSession w)] in
  let w' := saveStateToHistory w in
  history w'
  = (if (historyLimit (maxHistorySize w) <? N.of_nat (List.length h2))%N
     then tl h2 else h2)
  /\ historyIndex w' = (Z.of_nat (List.length (history w')) - 1)%Z
  /\ windowSession w' = windowSession w
  /\ binding w' = binding w
  /\ maxHistorySize w' = maxHistorySize w
  /\ currentBox w' = currentBox w
  /\ editingItemId w' = editingItemId w
  /\ ui w' = ui w.
Proof.
  intros Hi h2 w'. unfold w', saveStateToHistory.
  rewrite slice0_firstn by lia. fold h2.
  assert (L : List.length h2 <> 0%nat).
  { unfold h2. rewrite length_app. simpl. lia. }
  clearbody h2.
  destruct (historyLimit (maxHistorySize w) <? N.of_nat (List.length h2))%N eqn:E;
    cbn; repeat split; try reflexivity.
  destruct h2 as [|x h2']; [now elim L|]. cbn [tl List.length]. lia.
Qed.

Lemma currentSession_saveStateToHistory w :
  currentSession (saveStateToHistory w) = currentSession w.
Proof.
  unfold saveStateToHistory.
  destruct (_ <? _)%N; reflexivity.
Qed.

Lemma undoMany_S k w :
  undoMany (S k) w
  = match undo w with
    | Return w' b => (b :: fst (undoMany k w'), snd (undoMany k w'))
    | Throw w' => ([], w')
    end.
Proof. reflexivity. Qed.

Lemma undoMany_exhaust n : forall w,
  historyIndex w = Z.of_nat n ->
  (n < List.length (history w))%nat ->
  fst (undoMany (S n) w) = repeat true n ++ [false].
Proof.
  induction n as [|m IH]; intros w Hi Hl; rewrite undoMany_S; unfold undo at 1;
    rewrite Hi.
  - reflexivity.
  - replace (0 <? Z.of_nat (S m))%Z with true by (symmetry; apply Z.ltb_lt; lia).
    unfold restore, entryAt.
    replace (Z.of_nat (S m) - 1)%Z with (Z.of_nat m) by lia.
    replace (Z.of_nat m <? 0)%Z with false by (symmetry; apply Z.ltb_ge; lia).
    rewrite Nat2Z.id.
    destruct (nth_error (history w) m) as [e|] eqn:E.
    + set (w1 := rebind _ _).
      specialize (IH w1 eq_refl ltac:(cbn; lia)).
      cbn [fst]. rewrite IH. reflexivity.
    + apply nth_error_None in E. lia.
Qed.

Lemma recordSession_recorded cfg k w s :
  recorded cfg k w -> recorded cfg (S k) (recordSession w s).
Proof.
  intros (Hm & Hl & Hi). unfold recordSession.
  pose proof (historyLimit_pos cfg) as Hpos.
  set (w0 := updateCurrent (fun _ => s) w).
  assert (E0 : history w0 = history w /\ historyIndex w0 = historyIndex w
               /\ maxHistorySize w0 = maxHistorySize w).
  { unfold w0, updateCurrent. destruct (binding w); cbn; auto. }
  destruct E0 as (Eh & Ei & Em).
  destruct (@saveStateToHistory_spec w0 ltac:(lia)) as (H1 & H2 & _ & _ & H3 & _).
  rewrite Eh, Ei, Em, Hm, Hi in H1.
  replace (Z.to_nat (Z.of_nat (Nat.min k (N.to_nat (historyLimit cfg))) - 1 + 1))
    with (Nat.min k (N.to_nat (historyLimit cfg))) in H1 by lia.
  rewrite <- Hl, firstn_all in H1.
  assert (L : List.length (history w ++ [jsonCopy (currentSession w0)])
              = S (Nat.min k (N.to_nat (historyLimit cfg)))).
  { rewrite length_app. simpl. lia. }
  rewrite L in H1.
  unfold recorded. rewrite H3, Em, H2. split; [assumption|].
  destruct (historyLimit cfg <? N.of_nat (S (Nat.min k (N.to_nat (historyLimit cfg)))))%N
    eqn:E.
  - apply N.ltb_lt in E.
    assert (List.length (history (saveStateToHistory w0))
            = Nat.min k (N.to_nat (historyLimit cfg))).
    { rewrite H1. destruct (history w ++ _); simpl in *; lia. }
    rewrite H. lia.
  - apply N.ltb_ge in E.
    assert (List.length (history (saveStateToHistory w0))
            = S (Nat.min k (N.to_nat (historyLimit cfg)))).
    { now rewrite H1. }
    rewrite H. lia.
Qed.

Lemma fold_recorded cfg l : forall k w,
  recorded cfg k w ->
  recorded cfg (k + List.length l) (fold_left recordSession l w).
Proof.
  induction l as [|s l IH]; intros k w H.
  - simpl. now rewrite Nat.add_0_r.
  - cbn [fold_left List.length]. rewrite Nat.add_succ_r.
    apply (IH (S k)). now apply recordSession_recorded.
Qed.

Lemma recorded_past_limit cfg l :
  List.length l = S (N.to_nat (historyLimit cfg)) ->
  let w := fold_left recordSession l (initialWorld cfg) in
  List.length (history w) = N.to_nat (historyLimit cfg)
  /\ historyIndex w = (Z.of_N (historyLimit cfg) - 1)%Z
  /\ fst (undoMany (N.to_nat (historyLimit cfg)) w)
     = repeat true (N.to_nat (historyLimit cfg) - 1) ++ [false].
Proof.
  intros Hl w.
  pose proof (historyLimit_pos cfg) as Hpos.
  assert (H0 : recorded cfg 0 (initialWorld cfg)) by (repeat split).
  pose proof (@fold_recorded cfg l 0%nat _ H0) as (_ & H1 & H2).
  rewrite Hl in H1, H2. fold w in H1, H2.
  replace (Nat.min (0 + S (N.to_nat (historyLimit cfg))) (N.to_nat (historyLimit cfg)))
    with (N.to_nat (historyLimit cfg)) in H1, H2 by lia.
  split; [exact H1|]. split; [lia|].
  replace (N.to_nat (historyLimit cfg))
    with (S (N.to_nat (historyLimit cfg) - 1)) at 1 by lia.
  apply undoMany_exhaust; lia.
Qed.

(** C7: [saveStateToHistory] drops the entries after the current index,
    appends the JSON copy of the current session and moves the index to
    the last position, evicting the oldest entry (and moving the index
    back by one) when the length exceeds the limit.  The limit is the
    configured [MAX_HISTORY_SIZE] when that is a positive number and 50
    when none is configured or it is 0.  From the initial state, one
    recording more than the limit leaves as many entries as the limit
    allows, with the index on the last one, and [undo] then returns
    [true] one time less than there are entries and [false] the next
    time: with a limit of 50, 51 recordings leave 50 entries with the
    index at 49, and [undo] returns [true] 49 times and [false] the 50th
    time.  The JSON copy of a session equals the session when no
    quantity is [Infinity]. *)
Theorem history_record_bounded :
  (forall w, (-1 <= historyIndex w)%Z ->
     let h2 := firstn (Z.to_nat (historyIndex w + 1)) (history w)
               ++ [jsonCopy (currentSession w)] in
     let w' := saveStateToHistory w in
     history w'
     = (if (historyLimit (maxHistorySize w) <? N.of_nat (List.length h2))%N
        then tl h2 else h2)
     /\ historyIndex w' = (Z.of_nat (List.length (history w')) - 1)%Z
     /\ currentSession w' = currentSession w)
  /\ historyLimit None = 50%N
  /\ historyLimit (Some 0%N) = 50%N
  /\ (forall n, (0 < n)%N -> historyLimit (Some n) = n)
  /\ (forall cfg l,
        List.length l = S (N.to_nat (historyLimit cfg)) ->
        let w := fold_left recordSession l (initialWorld cfg) in
        List.length (history w) = N.to_nat (historyLimit cfg)
        /\ historyIndex w = (Z.of_N (historyLimit cfg) - 1)%Z
        /\ fst (undoMany (N.to_nat (historyLimit cfg)) w)
           = repeat true (N.to_nat (historyLimit cfg) - 1) ++ [false])
  /\ (forall cfg l,
        historyLimit cfg = 50%N -> List.length l = 51%nat ->
        let w := fold_left recordSession l (initialWorld cfg) in
        List.length (history w) = 50%nat
        /\ historyIndex w = 49%Z
        /\ fst (undoMany 50 w) = repeat true 49 ++ [false])
  /\ (forall s, finiteQuantities s -> jsonCopy s = s).
Proof.
  split; [|split; [reflexivity|split; [reflexivity|split; [|split; [|split]]]]].
  - intros w Hi h2 w'.
    destruct (@saveStateToHistory_spec w Hi) as (H1 & H2 & _).
    repeat split; [exact H1 | exact H2 | apply currentSession_saveStateToHistory].
  - intros n Hn. destruct n; [lia | reflexivity].
  - exact recorded_past_limit.
  - intros cfg l Hc Hl w.
    assert (Hl' : List.length l = S (N.to_nat (historyLimit cfg)))
      by (rewrite Hc, Hl; reflexivity).
    pose proof (recorded_past_limit cfg l Hl') as H. cbv zeta in H.
    rewrite Hc in H. exact H.
  - exact jsonCopy_finite.
Qed.

(** Under a limit of 3, four recordings of four different sessions leave
    the last three with the index at 2, and [undo] works twice; under
    the default limit, 51 recordings leave 50. *)
Lemma history_record_bounded_witness :
  (let named := fun n => Session.mk (Some n) None [] in
   let w := fold_left recordSession
              [named (lit "a"); named (lit "b"); named (lit "c"); named (lit "d")]
              (initialWorld (Some 3%N)) in
   List.length (history w) = 3%nat
   /\ historyIndex w = 2%Z
   /\ fst (undoMany 3 w) = [true; true; false])
  /\ (let w := fold_left recordSession (repeat (Session.mk None None []) 51)
                         (initialWorld None) in
      List.length (history w) = 50%nat
      /\ historyIndex w = 49%Z
      /\ fst (undoMany 50 w) = repeat true 49 ++ [false]).
Proof.
  destruct history_record_bounded as (_ & _ & _ & _ & H & H50 & _).
  split.
  - apply (H (Some 3%N)). reflexivity.
  - apply (H50 None); reflexivity.
Defined.

(* ================================================================== *)
(** * The boxes object *)

Lemma lookup_In k l b : lookup k l = Some b -> In (k, b) l.
Proof.
  induction l as [|[k' v] r IH]; simpl; [discriminate|].
  destruct (str_eqb k k') eqn:E.
  - apply str_eqb_eq in E. intros H; injection H as ->. subst. now left.
  - intros H. right. auto.
Qed.

Lemma lookup_assign_same k v l : lookup k (assign k v l) = Some v.
Proof.
  induction l as [|[k' v'] r IH]; simpl.
  - now rewrite str_eqb_refl.
  - destruct (str_eqb k k') eqn:E; simpl; now rewrite E.
Qed.

Lemma lookup_assign_other k k' v l :
  k' <> k -> lookup k' (assign k v l) = lookup k' l.
Proof.
  intros Hne. induction l as [|[k0 v0] r IH]; simpl.
  - apply str_eqb_neq in Hne. now rewrite Hne.
  - destruct (str_eqb k k0) eqn:E; simpl.
    + apply str_eqb_eq in E. subst k0.
      apply str_eqb_neq in Hne. now rewrite Hne.
    + destruct (str_eqb k' k0); [reflexivity | assumption].
Qed.

Lemma lookup_remove_same k l : lookup k (remove k l) = None.
Proof.
  induction l as [|[k' v'] r IH]; simpl; [reflexivity|].
  destruct (str_eqb k k') eqn:E; simpl; [assumption | now rewrite E].
Qed.

Lemma lookup_remove_other k k' l :
  k' <> k -> lookup k' (remove k l) = lookup k' l.
Proof.
  intros Hne. induction l as [|[k0 v0] r IH]; simpl; [reflexivity|].
  destruct (str_eqb k k0) eqn:E; simpl.
  - apply str_eqb_eq in E. subst k0. apply str_eqb_neq in Hne. now rewrite Hne.
  - destruct (str_eqb k' k0); [reflexivity | assumption].
Qed.

Section BoxesForall.
Variable P : BoxData.t -> Prop.

Lemma onBoxes_lookup k l b : onBoxes P l -> lookup k l = Some b -> P b.
Proof.
  intros H E. apply lookup_In in E. unfold onBoxes in H.
  rewrite Forall_forall in H. apply (H _ E).
Qed.

Lemma onBoxes_assign k v l : onBoxes P l -> P v -> onBoxes P (assign k v l).
Proof.
  intros H Hv. induction H as [|[k' v'] r Hx Hr IH]; simpl.
  - repeat constructor. assumption.
  - destruct (str_eqb k k'); constructor; auto.
Qed.

Lemma onBoxes_remove k l : onBoxes P l -> onBoxes P (remove k l).
Proof.
  intros H. unfold remove, onBoxes. apply Forall_forall. intros x Hx.
  apply filter_In in Hx. unfold onBoxes in H. rewrite Forall_forall in H.
  apply H, Hx.
Qed.

Lemma onBoxes_map f l :
  (forall b, P b -> P (f b)) -> onBoxes P l ->
  onBoxes P (map (fun kv => (fst kv, f (snd kv))) l).
Proof.
  intros Hf H. unfold onBoxes. apply Forall_map.
  eapply Forall_impl; [|exact H]. intros a Ha. apply Hf, Ha.
Qed.
End BoxesForall.

(* ================================================================== *)
(** * The completion invariant *)

Lemma completionOk_fields b i s :
  completionOk b ->
  completionOk (BoxData.mk i (BoxData.completed b) (BoxData.completedAt b) s).
Proof. auto. Qed.

Lemma completionOk_empty : completionOk createEmptyBoxData.
Proof. reflexivity. Qed.

Lemma completionOk_repair b : completionOk b -> completionOk (repairShape b).
Proof.
  unfold completionOk, repairShape, ensureBoxDataShape, or_null. cbn.
  destruct (BoxData.completed b); intros H; now rewrite H.
Qed.

Lemma completionOk_setItems b l : completionOk b -> completionOk (setItems b l).
Proof. apply completionOk_fields. Qed.

Lemma completionOk_json b : completionOk b -> completionOk (jsonBox b).
Proof. apply completionOk_fields. Qed.

Lemma completionOk_toggle b now :
  now <> [] ->
  completionOk (BoxData.mk (BoxData.items b) (negb (BoxData.completed b))
                  (if negb (BoxData.completed b) then Some now else None)
                  (BoxData.secondaryLocation b)).
Proof.
  intros Hn. unfold completionOk. cbn.
  destruct (BoxData.completed b); cbn; [reflexivity|].
  destruct now; [congruence | reflexivity].
Qed.

Lemma truthy_or_else a now : now <> [] -> truthy (or_else a (Some now)) = true.
Proof.
  intros Hn. unfold or_else. destruct (truthy a) eqn:E; [assumption|].
  destruct now; [congruence | reflexivity].
Qed.

Lemma completionOk_mark now b :
  now <> [] -> completionOk b -> completionOk (markBox now b).
Proof.
  intros Hn H. unfold markBox.
  destruct (BoxData.items b); [assumption|].
  destruct (BoxData.completed b) eqn:E; cbn; [assumption|].
  unfold completionOk. cbn. now apply truthy_or_else.
Qed.

Lemma sessionOk_ensureBoxExists k s :
  sessionOk s -> sessionOk (ensureBoxExists k s).
Proof.
  intros H. unfold ensureBoxExists, sessionOk in *.
  destruct (lookup k (Session.boxes s)) as [b|] eqn:E; cbn.
  - apply onBoxes_assign; [assumption|].
    apply completionOk_repair. eapply onBoxes_lookup; eauto.
  - apply onBoxes_assign; [assumption | apply completionOk_empty].
Qed.

Lemma sessionOk_normalizeItemQuantities s :
  sessionOk s -> sessionOk (normalizeItemQuantities s).
Proof.
  intros H. unfold sessionOk, normalizeItemQuantities in *. cbn.
  unfold onBoxes. apply Forall_map. eapply Forall_impl; [|exact H].
  intros [k b] Hb. exact Hb.
Qed.

Lemma onBoxes_normalizeStep acc entry :
  onBoxes completionOk acc -> completionOk (snd entry) ->
  onBoxes completionOk (normalizeStep acc entry).
Proof.
  intros Hacc He. unfold normalizeStep.
  pose proof (completionOk_repair _ He) as Hs.
  set (safe := repairShape (snd entry)) in *. clearbody safe.
  destruct (lookup _ acc) as [ex0|] eqn:E.
  - apply onBoxes_assign; [assumption|].
    pose proof (completionOk_repair _ (onBoxes_lookup _ Hacc E)) as Hx.
    set (ex := repairShape ex0) in *. clearbody ex.
    unfold completionOk in *. cbn.
    destruct (BoxData.completed safe) eqn:Cs, (BoxData.completed ex) eqn:Cx; cbn.
    + unfold or_else. now rewrite Hx.
    + unfold or_else. rewrite Hx. cbn. assumption.
    + unfold or_else. now rewrite Hx.
    + assumption.
  - apply onBoxes_assign; [assumption|].
    unfold completionOk in *. cbn. unfold or_null.
    destruct (BoxData.completed safe); cbn; now rewrite Hs.
Qed.

Lemma onBoxes_fold_normalizeStep l : forall acc,
  onBoxes completionOk acc -> onBoxes completionOk l ->
  onBoxes completionOk (fold_left normalizeStep l acc).
Proof.
  induction l as [|e l IH]; intros acc Ha Hl; [assumption|].
  inversion Hl; subst. cbn [fold_left]. apply IH; [|assumption].
  now apply onBoxes_normalizeStep.
Qed.

Lemma sessionOk_normalizeSessionBoxes s :
  sessionOk s -> sessionOk (normalizeSessionBoxes s).
Proof.
  intros H. unfold normalizeSessionBoxes. apply sessionOk_normalizeItemQuantities.
  unfold sessionOk. cbn. apply onBoxes_fold_normalizeStep; [constructor | exact H].
Qed.

Lemma sessionOk_jsonCopy s : sessionOk s -> sessionOk (jsonCopy s).
Proof.
  intros H. unfold sessionOk, jsonCopy. cbn.
  apply (@onBoxes_map completionOk jsonBox); [apply completionOk_json | exact H].
Qed.

Lemma sessionOk_with_boxes s b :
  onBoxes completionOk b -> sessionOk (Session.with_boxes s b).
Proof. auto. Qed.

(* ================================================================== *)
(** * The steps keep the completion invariant *)

Lemma Forall_firstn (A : Type) (P : A -> Prop) n (l : list A) :
  Forall P l -> Forall P (firstn n l).
Proof.
  revert l. induction n as [|n IH]; intros l H; [constructor|].
  destruct H; cbn; constructor; auto.
Qed.

Lemma Forall_tl (A : Type) (P : A -> Prop) (l : list A) :
  Forall P l -> Forall P (tl l).
Proof. destruct 1; [constructor | assumption]. Qed.

Lemma windowSession_saveStateToHistory w :
  windowSession (saveStateToHistory w) = windowSession w.
Proof. unfold saveStateToHistory. destruct (_ <? _)%N; reflexivity. Qed.

Lemma slice0_Forall (A : Type) (P : A -> Prop) e (l : list A) :
  Forall P l -> Forall P (slice0 e l).
Proof. intros H. unfold slice0. destruct (e <? 0)%Z; now apply Forall_firstn. Qed.

Lemma history_saveStateToHistory (P : Session.t -> Prop) w :
  Forall P (history w) -> P (jsonCopy (currentSession w)) ->
  Forall P (history (saveStateToHistory w)).
Proof.
  intros Hh Hc. unfold saveStateToHistory.
  assert (H : Forall P (slice0 (historyIndex w + 1) (history w)
                        ++ [jsonCopy (currentSession w)])).
  { apply Forall_app. split; [now apply slice0_Forall | now constructor]. }
  destruct (_ <? _)%N; cbn; [now apply Forall_tl | assumption].
Qed.

Lemma inv_same w w' :
  windowSession w' = windowSession w -> binding w' = binding w ->
  history w' = history w ->
  completionInv w -> completionInv w'.
Proof.
  unfold completionInv, currentSession.
  intros -> -> ->. auto.
Qed.

Lemma inv_setWindowSession w s :
  sessionOk s -> completionInv w -> completionInv (setWindowSession w s).
Proof.
  unfold completionInv, currentSession. cbn.
  intros Hs (H1 & H2 & H3). repeat split; try tauto.
  destruct (binding w); assumption.
Qed.

Lemma inv_setWindowBoxes w b :
  onBoxes completionOk b -> completionInv w -> completionInv (setWindowBoxes w b).
Proof. intros Hb. now apply inv_setWindowSession. Qed.

Lemma inv_rebind w s : sessionOk s -> completionInv w -> completionInv (rebind w s).
Proof.
  unfold completionInv, currentSession. cbn. tauto.
Qed.

Lemma inv_updateCurrent f w :
  (forall s, sessionOk s -> sessionOk (f s)) ->
  completionInv w -> completionInv (updateCurrent f w).
Proof.
  intros Hf H. unfold updateCurrent.
  destruct (binding w) eqn:E.
  - apply inv_setWindowSession; [|assumption]. apply Hf, H.
  - apply inv_rebind; [|assumption]. apply Hf.
    destruct H as (_ & H & _). unfold currentSession in H. now rewrite E in H.
Qed.

Lemma inv_saveStateToHistory w :
  completionInv w -> completionInv (saveStateToHistory w).
Proof.
  intros (H1 & H2 & H3). unfold completionInv.
  rewrite currentSession_saveStateToHistory, windowSession_saveStateToHistory.
  repeat split; try assumption.
  apply history_saveStateToHistory; [assumption | now apply sessionOk_jsonCopy].
Qed.

Lemma entryAt_In h i e : entryAt h i = Some e -> In e h.
Proof.
  unfold entryAt. destruct (i <? 0)%Z; [discriminate|]. apply nth_error_In.
Qed.

Lemma inv_restore w i :
  completionInv w -> completionInv (worldOf (restore w i)).
Proof.
  intros (H1 & H2 & H3). unfold restore.
  assert (Hw1 : completionInv (setHistory w (history w) i)).
  { unfold completionInv, currentSession. cbn. repeat split; auto. }
  destruct (entryAt (history w) i) as [e|] eqn:E; cbn [worldOf]; [|assumption].
  apply inv_rebind; [|assumption]. apply sessionOk_jsonCopy.
  apply entryAt_In in E. rewrite Forall_forall in H3. auto.
Qed.

Lemma inv_undo w : completionInv w -> completionInv (worldOf (undo w)).
Proof.
  intros H. unfold undo.
  destruct (0 <? historyIndex w)%Z; [now apply inv_restore | assumption].
Qed.

Lemma inv_redo w : completionInv w -> completionInv (worldOf (redo w)).
Proof.
  intros H. unfold redo.
  destruct (historyIndex w <? _)%Z; [now apply inv_restore | assumption].
Qed.

Lemma inv_report w e : completionInv w -> completionInv (report w e).
Proof. now apply inv_same. Qed.

Lemma inv_setCurrentBox w b : completionInv w -> completionInv (setCurrentBox w b).
Proof. now apply inv_same. Qed.

Lemma inv_setEditing w e : completionInv w -> completionInv (setEditing w e).
Proof. now apply inv_same. Qed.

Lemma inv_windowBoxes w : completionInv w -> onBoxes completionOk (windowBoxes w).
Proof. intros (H & _). exact H. Qed.

Lemma inv_switchBox b w : completionInv w -> completionInv (switchBox b w).
Proof.
  intros H. unfold switchBox.
  destruct (falsy _); [now apply inv_report|].
  destruct (lookup _ _).
  - now apply inv_setCurrentBox.
  - apply inv_updateCurrent; [apply sessionOk_ensureBoxExists|].
    now apply inv_setCurrentBox.
Qed.

Lemma inv_setSecondaryLocation v w :
  completionInv w -> completionInv (setSecondaryLocation v w).
Proof.
  intros H. unfold setSecondaryLocation.
  destruct (falsy _); [assumption|].
  destruct (lookup _ _) as [box|] eqn:E; [|assumption].
  apply inv_saveStateToHistory, inv_setWindowBoxes; [|assumption].
  apply onBoxes_assign; [now apply inv_windowBoxes|].
  apply completionOk_fields. eapply onBoxes_lookup; [apply (inv_windowBoxes H) | exact E].
Qed.

Lemma inv_saveSecondaryLocation input w :
  completionInv w -> completionInv (saveSecondaryLocation input w).
Proof.
  intros H. unfold saveSecondaryLocation.
  destruct (falsy (currentBox w)); [assumption|].
  destruct (lookup _ _); [|assumption].
  destruct (trim input); [now apply inv_setSecondaryLocation|].
  destruct (falsy _); [now apply inv_report | now apply inv_setSecondaryLocation].
Qed.

Lemma inv_toggleBoxComplete b now w :
  now <> [] -> completionInv w -> completionInv (toggleBoxComplete b now w).
Proof.
  intros Hn H. unfold toggleBoxComplete.
  destruct (lookup _ _) as [box|] eqn:E; [|assumption].
  apply inv_saveStateToHistory, inv_setWindowBoxes; [|assumption].
  apply onBoxes_assign; [now apply inv_windowBoxes|].
  now apply completionOk_toggle.
Qed.

Lemma inv_addItem itemName now newId tags w :
  completionInv w -> completionInv (worldOf (addItem itemName now newId tags w)).
Proof.
  intros H. unfold addItem.
  destruct (falsy _); [now apply inv_report|].
  set (w1 := updateCurrent _ w).
  assert (H1 : completionInv w1)
    by (apply inv_updateCurrent; [apply sessionOk_ensureBoxExists | assumption]).
  destruct (lookup _ (windowBoxes w1)) as [box|] eqn:E; [|assumption].
  pose proof (onBoxes_lookup _ (inv_windowBoxes H1) E) as Hb.
  destruct (find _ _); cbn [worldOf];
    apply inv_saveStateToHistory, inv_setWindowBoxes; try assumption;
    (apply onBoxes_assign; [now apply inv_windowBoxes|]);
    now apply completionOk_setItems.
Qed.

Lemma inv_deleteItem b itemId w : completionInv w -> completionInv (deleteItem b itemId w).
Proof.
  intros H. unfold deleteItem.
  destruct (lookup _ _) as [box|] eqn:E; [|assumption].
  destruct (existsb _ _); [|assumption].
  pose proof (onBoxes_lookup _ (inv_windowBoxes H) E) as Hb.
  apply inv_saveStateToHistory, inv_setWindowBoxes; [|assumption].
  assert (Ha : onBoxes completionOk
                 (assign (propKey (normalizeBoxNumber b))
                    (setItems box (removeFirst (hasId itemId) (BoxData.items box)))
                    (windowBoxes w))).
  { apply onBoxes_assign; [now apply inv_windowBoxes|].
    now apply completionOk_setItems. }
  destruct (removeFirst _ _); [|assumption].
  destruct (negb _); [now apply onBoxes_remove | assumption].
Qed.

Lemma inv_startEditItem b itemId w :
  completionInv w -> completionInv (worldOf (startEditItem b itemId w)).
Proof.
  intros H. unfold startEditItem.
  destruct (lookup _ _); cbn [worldOf]; now apply inv_setEditing.
Qed.

Lemma inv_saveEditedItem newName w :
  completionInv w -> completionInv (worldOf (saveEditedItem newName w)).
Proof.
  intros H. unfold saveEditedItem.
  destruct (editingItemId w) as [[bn iid]|]; [|assumption].
  destruct (lookup _ _) as [box|] eqn:E; [|assumption].
  cbn [worldOf]. apply inv_setEditing.
  destruct (find _ _); [|assumption].
  apply inv_saveStateToHistory, inv_setWindowBoxes; [|assumption].
  apply onBoxes_assign; [now apply inv_windowBoxes|].
  apply completionOk_setItems.
  eapply onBoxes_lookup; [apply (inv_windowBoxes H) | exact E].
Qed.

Lemma inv_markExisting now done w :
  now <> [] -> completionInv w -> completionInv (markExistingBoxesAsCompleted now done w).
Proof.
  intros Hn H. unfold markExistingBoxesAsCompleted.
  destruct done; [assumption|].
  apply inv_updateCurrent; [|assumption].
  intros s Hs. apply sessionOk_with_boxes.
  apply (@onBoxes_map completionOk (markBox now));
    [intros; now apply completionOk_mark | exact Hs].
Qed.

Lemma inv_loadSessionData data now done w :
  now <> [] -> sessionOk data -> completionInv w ->
  completionInv (loadSessionData data now done w).
Proof.
  intros Hn Hd H. unfold loadSessionData.
  apply inv_markExisting; [assumption|].
  apply inv_updateCurrent; [apply sessionOk_normalizeSessionBoxes|].
  apply inv_updateCurrent.
  - intros s Hs. apply sessionOk_with_boxes.
    apply (@onBoxes_map completionOk repairShape);
      [apply completionOk_repair | exact Hs].
  - now apply inv_rebind.
Qed.

Lemma inv_initial cfg : completionInv (initialWorld cfg).
Proof.
  unfold completionInv, sessionOk, currentSession. cbn.
  repeat split; constructor.
Qed.

Lemma inv_cancelEdit w : completionInv w -> completionInv (cancelEdit w).
Proof. apply inv_setEditing. Qed.

Lemma sessionOk_empty i st : sessionOk (Session.mk i st []).
Proof. constructor. Qed.

Create HintDb inv.

#[local] Hint Resolve
  inv_initial inv_switchBox inv_addItem inv_deleteItem inv_startEditItem
  inv_saveEditedItem inv_cancelEdit inv_toggleBoxComplete
  inv_setSecondaryLocation inv_saveSecondaryLocation inv_saveStateToHistory
  inv_undo inv_redo inv_updateCurrent inv_loadSessionData inv_markExisting
  inv_rebind inv_setCurrentBox inv_report
  sessionOk_normalizeSessionBoxes sessionOk_jsonCopy sessionOk_empty : inv.

Lemma step_completionInv w w' :
  step sessionOk w w' -> completionInv w -> completionInv w'.
Proof. intros Hs H. destruct Hs; auto with inv. Qed.

Lemma completionOk_iff b :
  completionOk b ->
  (BoxData.completedAt b <> None <-> BoxData.completed b = true).
Proof.
  unfold completionOk. destruct (BoxData.completed b); intros H.
  - split; [reflexivity|]. intros _ E. rewrite E in H. discriminate H.
  - rewrite H. split; [congruence | discriminate].
Qed.

Lemma completionInv_boxes w b :
  completionInv w -> boxOfWorld w b -> completionOk b.
Proof.
  intros (H1 & H2 & H3) Hb.
  unfold sessionOk, onBoxes in *.
  destruct Hb as [(k & Hin) | [(k & Hin) | (s & k & Hs & Hin)]].
  - rewrite Forall_forall in H1. apply (H1 _ Hin).
  - rewrite Forall_forall in H2. apply (H2 _ Hin).
  - rewrite Forall_forall in H3. specialize (H3 _ Hs).
    unfold sessionOk, onBoxes in H3. rewrite Forall_forall in H3. apply (H3 _ Hin).
Qed.

(** The states the actions lead to are states the page can reach. *)
Lemma reach_switchBox b w : reachable w -> reachable (switchBox b w).
Proof. intros H. apply (reach_step H). constructor. Qed.

Lemma reach_addItem itemName now newId tags w :
  reachable w -> now <> [] ->
  reachable (worldOf (addItem itemName now newId tags w)).
Proof. intros H Hn. apply (reach_step H). now constructor. Qed.

Lemma reach_deleteItem b itemId w :
  reachable w -> reachable (deleteItem b itemId w).
Proof. intros H. apply (reach_step H). constructor. Qed.

Lemma reach_startEditItem b itemId w :
  reachable w -> reachable (worldOf (startEditItem b itemId w)).
Proof. intros H. apply (reach_step H). constructor. Qed.

Lemma reach_saveEditedItem newName w :
  reachable w -> reachable (worldOf (saveEditedItem newName w)).
Proof. intros H. apply (reach_step H). constructor. Qed.

Lemma reach_toggleBoxComplete b now w :
  reachable w -> now <> [] -> reachable (toggleBoxComplete b now w).
Proof. intros H Hn. apply (reach_step H). now constructor. Qed.

Lemma reach_setSecondaryLocation v w :
  reachable w -> reachable (setSecondaryLocation v w).
Proof. intros H. apply (reach_step H). constructor. Qed.

Lemma reach_saveStateToHistory w :
  reachable w -> reachable (saveStateToHistory w).
Proof. intros H. apply (reach_step H). constructor. Qed.

Lemma reach_undo w : reachable w -> reachable (worldOf (undo w)).
Proof. intros H. apply (reach_step H). constructor. Qed.

Lemma reach_redo w : reachable w -> reachable (worldOf (redo w)).
Proof. intros H. apply (reach_step H). constructor. Qed.

Lemma reach_report e w : reachable w -> reachable (report w e).
Proof. intros H. apply (reach_step H). constructor. Qed.

Lemma entryAt_some h i :
  (0 <= i < Z.of_nat (List.length h))%Z -> exists e, entryAt h i = Some e.
Proof.
  intros H. unfold entryAt.
  replace (i <? 0)%Z with false by (symmetry; apply Z.ltb_ge; lia).
  destruct (nth_error h (Z.to_nat i)) as [e|] eqn:E; [now exists e|].
  apply nth_error_None in E. lia.
Qed.

(* ================================================================== *)
(** * deleteItem *)

Lemma removeFirst_split p l1 i l2 :
  p i = true -> (forall j, In j l1 -> p j = false) ->
  removeFirst p (l1 ++ i :: l2) = l1 ++ l2.
Proof.
  intros Hi Hl. induction l1 as [|a l1 IH]; simpl.
  - now rewrite Hi.
  - rewrite (Hl a (or_introl eq_refl)). f_equal. apply IH.
    intros j Hj. apply Hl. now right.
Qed.

Lemma windowBoxes_saved w b :
  windowBoxes (saveStateToHistory (setWindowBoxes w b)) = b.
Proof.
  unfold windowBoxes. now rewrite windowSession_saveStateToHistory.
Qed.

Lemma key_eqb_propKey a b : key_eqb a b = true -> a = b.
Proof.
  destruct a, b; cbn; try discriminate; [|reflexivity].
  intros H. apply str_eqb_eq in H. now subst.
Qed.

(** C4: [deleteItem] removes the first item with the given id from the
    box addressed by the normalised key.  When the box then has no item
    and its key is not the active location, the box record is deleted;
    when it is the active location the record stays, empty.  Other
    boxes are untouched.  When the box does not exist or no item has the
    id, nothing changes at all. *)
Theorem deleteItem_spec (boxNumber : option str) (itemId : Z) (w : World) :
  let normalizedBox := normalizeBoxNumber boxNumber in
  let key := propKey normalizedBox in
  let w' := deleteItem boxNumber itemId w in
  (lookup key (windowBoxes w) = None -> w' = w)
  /\ (forall box, lookup key (windowBoxes w) = Some box ->
        (forall j, In j (BoxData.items box) -> Item.id j <> itemId) -> w' = w)
  /\ (forall box l1 i l2,
        lookup key (windowBoxes w) = Some box ->
        BoxData.items box = l1 ++ i :: l2 -> Item.id i = itemId ->
        (forall j, In j l1 -> Item.id j <> itemId) ->
        (l1 ++ l2 <> [] ->
         lookup key (windowBoxes w') = Some (setItems box (l1 ++ l2)))
        /\ (l1 ++ l2 = [] -> key_eqb normalizedBox (currentBox w) = true ->
            lookup key (windowBoxes w') = Some (setItems box []))
        /\ (l1 ++ l2 = [] -> key_eqb normalizedBox (currentBox w) = false ->
            lookup key (windowBoxes w') = None)
        /\ (forall k, k <> key ->
            lookup k (windowBoxes w') = lookup k (windowBoxes w))).
Proof.
  intros normalizedBox key w'. unfold w', deleteItem.
  fold normalizedBox. fold key. split; [|split].
  - intros E. now rewrite E.
  - intros box E Hno. rewrite E.
    replace (existsb (hasId itemId) (BoxData.items box)) with false; [reflexivity|].
    symmetry. apply not_true_is_false. intros Hex.
    apply existsb_exists in Hex. destruct Hex as (j & Hj & Hid).
    apply (Hno j Hj). unfold hasId in Hid. now apply Z.eqb_eq in Hid.
  - intros box l1 i l2 E Hit Hid Hl1. rewrite E.
    assert (Hex : existsb (hasId itemId) (BoxData.items box) = true).
    { apply existsb_exists. exists i. split.
      - rewrite Hit, in_app_iff. right. now left.
      - unfold hasId. now apply Z.eqb_eq. }
    rewrite Hex, Hit.
    rewrite removeFirst_split;
      [| unfold hasId; now apply Z.eqb_eq
       | intros j Hj; unfold hasId; apply Z.eqb_neq; now apply Hl1 ].
    rewrite windowBoxes_saved.
    destruct (l1 ++ l2) as [|x r] eqn:Er.
    + repeat split.
      * congruence.
      * intros _ Hk. rewrite Hk. cbn [negb]. apply lookup_assign_same.
      * intros _ Hk. rewrite Hk. cbn [negb]. apply lookup_remove_same.
      * intros k Hk. destruct (negb _).
        -- rewrite lookup_remove_other by assumption.
           now apply lookup_assign_other.
        -- now apply lookup_assign_other.
    + repeat split; try discriminate.
      * intros _. apply lookup_assign_same.
      * intros k Hk. now apply lookup_assign_other.
Qed.

(** Deleting the only item of box 1 while box 2 is active removes box 1;
    deleting the only item of the active box leaves it empty. *)
Lemma deleteItem_spec_witness :
  let t := lit "2024-05-01T10:00:00.000Z" in
  let w1 := worldOf (addItem (lit "pen") t 5 None
                       (switchBox (Some (lit "1")) (initialWorld None))) in
  let w2 := switchBox (Some (lit "2")) w1 in
  lookup (lit "BOX001") (windowBoxes (deleteItem (Some (lit "1")) 5 w2)) = None
  /\ lookup (lit "BOX001") (windowBoxes (deleteItem (Some (lit "1")) 5 w1))
     = Some (BoxData.mk [] false None None).
Proof.
  intros t w1 w2.
  set (i := Item.mk 5 (lit "pen") (Some (Number.Fin 1)) t false []).
  set (box := BoxData.mk [i] false None None).
  assert (Hnone : forall j : Item.t, In j [] -> Item.id j <> 5%Z) by (intros j []).
  split.
  - destruct (deleteItem_spec (Some (lit "1")) 5 w2) as (_ & _ & H).
    assert (E : lookup (lit "BOX001") (windowBoxes w2) = Some box) by reflexivity.
    destruct (H box [] i [] E eq_refl eq_refl Hnone) as (_ & _ & H3 & _).
    apply H3; reflexivity.
  - destruct (deleteItem_spec (Some (lit "1")) 5 w1) as (_ & _ & H).
    assert (E : lookup (lit "BOX001") (windowBoxes w1) = Some box) by reflexivity.
    destruct (H box [] i [] E eq_refl eq_refl Hnone) as (_ & H2 & _).
    apply H2; reflexivity.
Defined.

(* ================================================================== *)
(** * The secondary location *)

Lemma normalizeShelfLocation_iff (s shelf : str) :
  s <> [] ->
  (normalizeShelfLocation (Some s) = Some shelf
   <-> exists d l, shelfText (trim (toUpperCase s)) d l
                   /\ shelf = lit "SHELF " ++ d ++ l).
Proof.
  intros Hs. destruct s as [|a s]; [congruence|].
  unfold normalizeShelfLocation.
  set (u := trim (toUpperCase (a :: s))).
  assert (Hu : toUpperCase u = u) by apply upper_trim_upper.
  split.
  - destruct (matchPrefixed (lit "SHELF") u) as [[d l]|] eqn:E1.
    { intros H; injection H as <-. exists d, l. split; [|reflexivity].
      apply (@shelf_match_sound (lit "SHELF") u d l); auto. }
    destruct (matchPrefixed (lit "S") u) as [[d l]|] eqn:E2; [|discriminate].
    intros H; injection H as <-. exists d, l. split; [|reflexivity].
    apply (@shelf_match_sound (lit "S") u d l); auto.
  - intros (d & l & H & ->).
    destruct (shelf_match_complete H) as [-> | [-> ->]]; reflexivity.
Qed.

Lemma normalizeShelfLocation_canonical (s shelf : str) :
  s <> [] -> normalizeShelfLocation (Some s) = Some shelf ->
  normalizeShelfLocation (Some shelf) = Some shelf /\ truthy (Some shelf) = true.
Proof.
  intros Hs H. apply normalizeShelfLocation_iff in H; [|assumption].
  destruct H as (d & l & H & ->). split; [|reflexivity].
  apply normalizeShelfLocation_iff; [discriminate|].
  exists d, l. split; [|reflexivity].
  pose proof (shelfText_upper _ H) as Hl.
  destruct H as (ws & _ & _ & Hd & Hdd & Hal).
  now apply shelf_key_shelfText.
Qed.



(* ================================================================== *)
(** * addItem *)

Lemma find_split (p : Item.t -> bool) l e :
  find p l = Some e ->
  exists l1 l2, l = l1 ++ e :: l2 /\ p e = true
                /\ (forall j, In j l1 -> p j = false).
Proof.
  induction l as [|a l IH]; simpl; [discriminate|].
  destruct (p a) eqn:E.
  - intros H; injection H as <-. exists [], l. repeat split; auto.
    intros j [].
  - intros H. destruct (IH H) as (l1 & l2 & -> & He & Hl).
    exists (a :: l1), l2. repeat split; auto.
    intros j [<- | Hj]; auto.
Qed.

Lemma find_first (p : Item.t -> bool) l1 e l2 :
  p e = true -> (forall j, In j l1 -> p j = false) ->
  find p (l1 ++ e :: l2) = Some e.
Proof.
  intros He Hl. induction l1 as [|a l1 IH]; simpl.
  - now rewrite He.
  - rewrite (Hl a (or_introl eq_refl)). apply IH.
    intros j Hj. apply Hl. now right.
Qed.

Lemma find_none_all (p : Item.t -> bool) l :
  (forall j, In j l -> p j = false) -> find p l = None.
Proof.
  intros H. destruct (find p l) as [e|] eqn:E; [|reflexivity].
  apply find_some in E. destruct E as [Hin He].
  rewrite (H _ Hin) in He. discriminate.
Qed.

Lemma sameName_key a b : sameName a b = true <-> nameKey a = nameKey b.
Proof. apply str_eqb_eq. Qed.

Lemma uniqueNames_merge l1 e l2 qty now :
  uniqueNames (l1 ++ e :: l2) -> uniqueNames (l1 ++ l2 ++ [mergedItem e qty now]).
Proof.
  unfold uniqueNames. intros H.
  eapply Permutation_NoDup; [|exact H].
  rewrite !map_app. cbn [map mergedItem Item.name].
  apply Permutation_app_head.
  change (nameKey (Item.name e) :: map (fun i => nameKey (Item.name i)) l2)
    with ([nameKey (Item.name e)] ++ map (fun i => nameKey (Item.name i)) l2).
  apply Permutation_app_comm.
Qed.

Lemma uniqueNames_append l i :
  uniqueNames l ->
  (forall j, In j l -> sameName (Item.name j) (Item.name i) = false) ->
  uniqueNames (l ++ [i]).
Proof.
  unfold uniqueNames. intros H Hn.
  eapply Permutation_NoDup.
  - rewrite map_app. cbn [map]. apply Permutation_cons_append.
  - constructor; [|assumption].
    intros Hin. apply in_map_iff in Hin. destruct Hin as (j & Hk & Hj).
    specialize (Hn j Hj).
    assert (sameName (Item.name j) (Item.name i) = true)
      by now apply sameName_key.
    congruence.
Qed.

Lemma removeFirst_incl p l x : In x (removeFirst p l) -> In x l.
Proof.
  induction l as [|a l IH]; simpl; [auto|].
  destruct (p a); [now right|]. intros [<- | H]; [now left | right; auto].
Qed.

Lemma uniqueNames_removeFirst p l :
  uniqueNames l -> uniqueNames (removeFirst p l).
Proof.
  unfold uniqueNames. induction l as [|a l IH]; simpl; [auto|].
  intros H. inversion H as [|? ? Hn Hd]; subst.
  destruct (p a); [assumption|]. cbn [map]. constructor; [|auto].
  intros Hin. apply Hn. apply in_map_iff in Hin.
  destruct Hin as (j & Hk & Hj). apply in_map_iff. exists j.
  split; [assumption|]. eapply removeFirst_incl; eauto.
Qed.

Lemma uniqueNames_addItem_items (same : Item.t -> bool) parsedName l merged fresh :
  same = (fun i => sameName (Item.name i) parsedName) ->
  Item.name fresh = parsedName ->
  (forall e, find same l = Some e -> Item.name (merged e) = Item.name e) ->
  uniqueNames l ->
  uniqueNames (match find same l with
               | Some e => removeFirst same l ++ [merged e]
               | None => l ++ [fresh]
               end).
Proof.
  intros Hs Hf Hm Hu. destruct (find same l) as [e|] eqn:Ef.
  - destruct (@find_split same l e Ef) as (l1 & l2 & -> & He & Hl1).
    rewrite (@removeFirst_split same l1 e l2 He Hl1).
    unfold uniqueNames in *. eapply Permutation_NoDup; [|exact Hu].
    rewrite !map_app. cbn [map]. rewrite (Hm e eq_refl).
    rewrite <- app_assoc. apply Permutation_app_head.
    change (nameKey (Item.name e) :: map (fun i => nameKey (Item.name i)) l2)
      with ([nameKey (Item.name e)] ++ map (fun i => nameKey (Item.name i)) l2).
    apply Permutation_app_comm.
  - apply uniqueNames_append; [assumption|].
    intros j Hj. rewrite Hf. pose proof (find_none _ _ Ef j Hj) as Hn.
    now rewrite Hs in Hn.
Qed.

Section UniqueInWorld.
Let P := fun b : BoxData.t => uniqueNames (BoxData.items b).

Lemma unique_ensure k w :
  uniqueInWorld w -> uniqueInWorld (updateCurrent (ensureBoxExists k) w).
Proof.
  unfold uniqueInWorld, updateCurrent, windowBoxes. intros H.
  destruct (binding w); [|exact H]. cbn. unfold ensureBoxExists.
  destruct (lookup k (Session.boxes (windowSession w))) as [b|] eqn:E; cbn.
  - apply onBoxes_assign; [exact H|]. apply (@onBoxes_lookup P _ _ _ H E).
  - apply onBoxes_assign; [exact H|]. constructor.
Qed.

Lemma unique_saved w b :
  onBoxes P b -> uniqueInWorld (saveStateToHistory (setWindowBoxes w b)).
Proof. unfold uniqueInWorld. now rewrite windowBoxes_saved. Qed.

Lemma unique_addItem itemName now newId tags w :
  uniqueInWorld w -> uniqueInWorld (worldOf (addItem itemName now newId tags w)).
Proof.
  intros H. unfold addItem. destruct (falsy _); [exact H|].
  pose proof (unique_ensure (propKey (currentBox w)) H) as H1.
  set (w1 := updateCurrent _ w) in *.
  destruct (lookup _ (windowBoxes w1)) as [box|] eqn:E; [|exact H1].
  pose proof (@onBoxes_lookup P _ _ _ H1 E) as Hb.
  set (same := fun item => sameName _ _).
  pose proof (@uniqueNames_addItem_items same
                (Parsed.name (parseQuantity itemName)) (BoxData.items box)
                (fun e => mergedItem e (Parsed.qty (parseQuantity itemName)) now)
                (Item.mk newId (Parsed.name (parseQuantity itemName))
                         (Some (Parsed.qty (parseQuantity itemName))) now false
                         (match tags with Some t => t | None => [] end))
                eq_refl eq_refl (fun e _ => eq_refl) Hb) as U.
  destruct (find same (BoxData.items box)); cbn [worldOf];
    apply unique_saved; (apply onBoxes_assign; [exact H1 | exact U]).
Qed.

Lemma unique_deleteItem b itemId w :
  uniqueInWorld w -> uniqueInWorld (deleteItem b itemId w).
Proof.
  intros H. unfold deleteItem.
  destruct (lookup _ _) as [box|] eqn:E; [|exact H].
  destruct (existsb _ _); [|exact H].
  pose proof (@onBoxes_lookup P _ _ _ H E) as Hb.
  apply unique_saved.
  assert (Ha : onBoxes P
                 (assign (propKey (normalizeBoxNumber b))
                    (setItems box (removeFirst (hasId itemId) (BoxData.items box)))
                    (windowBoxes w))).
  { apply onBoxes_assign; [exact H|]. now apply uniqueNames_removeFirst. }
  destruct (removeFirst _ _); [|exact Ha].
  destruct (negb _); [now apply onBoxes_remove | exact Ha].
Qed.

Lemma unique_toggleBoxComplete b now w :
  uniqueInWorld w -> uniqueInWorld (toggleBoxComplete b now w).
Proof.
  intros H. unfold toggleBoxComplete.
  destruct (lookup _ _) as [box|] eqn:E; [|exact H].
  apply unique_saved. apply onBoxes_assign; [exact H|].
  apply (@onBoxes_lookup P _ _ _ H E).
Qed.

Lemma unique_setSecondaryLocation v w :
  uniqueInWorld w -> uniqueInWorld (setSecondaryLocation v w).
Proof.
  intros H. unfold setSecondaryLocation.
  destruct (falsy _); [exact H|].
  destruct (lookup _ _) as [box|] eqn:E; [|exact H].
  apply unique_saved. apply onBoxes_assign; [exact H|].
  apply (@onBoxes_lookup P _ _ _ H E).
Qed.

Lemma unique_saveSecondaryLocation input w :
  uniqueInWorld w -> uniqueInWorld (saveSecondaryLocation input w).
Proof.
  intros H. unfold saveSecondaryLocation.
  destruct (falsy (currentBox w)); [exact H|].
  destruct (lookup _ _); [|exact H].
  destruct (trim input); [now apply unique_setSecondaryLocation|].
  destruct (falsy _); [exact H | now apply unique_setSecondaryLocation].
Qed.

Lemma unique_switchBox b w : uniqueInWorld w -> uniqueInWorld (switchBox b w).
Proof.
  intros H. unfold switchBox. destruct (falsy _); [exact H|].
  destruct (lookup _ _); [exact H|].
  apply (unique_ensure _ (w := setCurrentBox w (normalizeBoxNumber b))). exact H.
Qed.
End UniqueInWorld.

(** C1, as stated, fails for the edit path: [saveEditedItem] writes the
    new name without looking at the other items.  Box 1 holds "pen" and
    "cup" with distinct names; renaming "cup" to "pen" leaves two items
    named "pen". *)
Lemma saveEditedItem_duplicates_name :
  let t := lit "2024-05-01T10:00:00.000Z" in
  let w0 := switchBox (Some (lit "1")) (initialWorld None) in
  let w1 := worldOf (addItem (lit "pen") t 1 None w0) in
  let w2 := worldOf (addItem (lit "cup") t 2 None w1) in
  let w3 := worldOf (startEditItem (Some (lit "BOX001")) 2 w2) in
  let w4 := worldOf (saveEditedItem (lit "pen") w3) in
  reachable w4
  /\ (exists box, lookup (lit "BOX001") (windowBoxes w3) = Some box
                  /\ uniqueNames (BoxData.items box))
  /\ (exists box, lookup (lit "BOX001") (windowBoxes w4) = Some box
                  /\ map Item.name (BoxData.items box) = [lit "pen"; lit "pen"]
                  /\ ~ uniqueNames (BoxData.items box)).
Proof.
  intros t w0 w1 w2 w3 w4. split; [|split].
  - apply reach_saveEditedItem, reach_startEditItem.
    apply reach_addItem; [|discriminate].
    apply reach_addItem; [|discriminate].
    apply reach_switchBox, reach_init.
  - eexists. split; [vm_compute; reflexivity|].
    unfold uniqueNames. vm_compute.
    constructor; [|constructor; [|constructor]]; simpl; intuition discriminate.
  - eexists. split; [vm_compute; reflexivity|]. split; [reflexivity|].
    unfold uniqueNames. vm_compute. intros H.
    inversion H as [|x l Hn _]; subst. apply Hn. now left.
Qed.

(** C1, amended: [addItem] keeps names unique within the active box.
    With an active box, which after [ensureBoxExists] is the record
    [box] of the exported session, [addItem] returns and replaces the
    items of that box: when no item has the parsed name
    (case-insensitively, trimmed) the new item is appended; otherwise the
    first such item gets the quantities added and the new time stamp and
    moves to the end of the sequence.  If the names were unique before
    they are unique afterwards.  When names are unique within every box,
    they still are after adding or deleting an item, toggling
    completion, saving a secondary location or switching box.  Adding
    "pen" and then "pen x2" to a fresh box leaves one item with quantity
    3; with another item added in between, the merged item is the last
    one.  (Saving an edited name makes no such check.) *)
Theorem addItem_merges :
  (forall itemName now newId tags w box,
     falsy (currentBox w) = false ->
     let key := propKey (currentBox w) in
     lookup key (windowBoxes (updateCurrent (ensureBoxExists key) w)) = Some box ->
     let parsed := parseQuantity itemName in
     let same := fun i => sameName (Item.name i) (Parsed.name parsed) in
     exists w' items',
       addItem itemName now newId tags w = Return w' tt
       /\ lookup key (windowBoxes w') = Some (setItems box items')
       /\ ((forall j, In j (BoxData.items box) -> same j = false) ->
           items' = BoxData.items box
                    ++ [Item.mk newId (Parsed.name parsed) (Some (Parsed.qty parsed))
                                now false
                                (match tags with Some t => t | None => [] end)])
       /\ (forall l1 e l2,
             BoxData.items box = l1 ++ e :: l2 -> same e = true ->
             (forall j, In j l1 -> same j = false) ->
             items' = l1 ++ l2 ++ [mergedItem e (Parsed.qty parsed) now])
       /\ (uniqueNames (BoxData.items box) -> uniqueNames items'))
  /\ (forall w, uniqueInWorld w ->
        (forall itemName now newId tags,
           uniqueInWorld (worldOf (addItem itemName now newId tags w)))
        /\ (forall b itemId, uniqueInWorld (deleteItem b itemId w))
        /\ (forall b now, uniqueInWorld (toggleBoxComplete b now w))
        /\ (forall input, uniqueInWorld (saveSecondaryLocation input w))
        /\ (forall b, uniqueInWorld (switchBox b w)))
  /\ (forall t1 t2 id1 id2,
        let w0 := switchBox (Some (lit "1")) (initialWorld None) in
        let w1 := worldOf (addItem (lit "pen") t1 id1 None w0) in
        let w2 := worldOf (addItem (lit "pen x2") t2 id2 None w1) in
        lookup (lit "BOX001") (windowBoxes w2)
        = Some (BoxData.mk
                  [Item.mk id1 (lit "pen") (Some (Number.Fin 3)) t2 false []]
                  false None None))
  /\ (forall t1 t2 t3 id1 id2 id3,
        let w0 := switchBox (Some (lit "1")) (initialWorld None) in
        let w1 := worldOf (addItem (lit "pen") t1 id1 None w0) in
        let w2 := worldOf (addItem (lit "cup") t2 id2 None w1) in
        let w3 := worldOf (addItem (lit " PEN x2") t3 id3 None w2) in
        lookup (lit "BOX001") (windowBoxes w3)
        = Some (BoxData.mk
                  [Item.mk id2 (lit "cup") (Some (Number.Fin 1)) t2 false [];
                   Item.mk id1 (lit "pen") (Some (Number.Fin 3)) t3 false []]
                  false None None)).
Proof.
  split; [|split; [|split]].
  2: { intros w H. repeat split; intros.
       - now apply unique_addItem.
       - now apply unique_deleteItem.
       - now apply unique_toggleBoxComplete.
       - now apply unique_saveSecondaryLocation.
       - now apply unique_switchBox. }
  - intros itemName now newId tags w box Hc key E parsed same.
    unfold addItem. rewrite Hc. fold key. rewrite E. fold parsed. fold same.
    destruct (find same (BoxData.items box)) as [e|] eqn:Ef.
    + destruct (@find_split same _ e Ef) as (l1 & l2 & Hl & He & Hl1).
      eexists. eexists. split; [reflexivity|].
      rewrite windowBoxes_saved, lookup_assign_same.
      split; [reflexivity|]. rewrite Hl.
      rewrite (@removeFirst_split same l1 e l2 He Hl1). rewrite <- app_assoc.
      fold (mergedItem e (Parsed.qty parsed) now).
      split; [|split].
      * intros Hn. rewrite Hn in He; [discriminate|].
        rewrite in_app_iff. right. now left.
      * intros l1' e' l2' Hl' He' Hl1'.
        pose proof (@find_first same l1' e' l2' He' Hl1') as F. rewrite <- Hl', <- Hl in F.
        rewrite Ef in F. injection F as <-.
        assert (l1 = l1' /\ l2 = l2') as [<- <-]; [|reflexivity].
        { clear -Hl' He Hl1 Hl1'. revert l1' Hl' Hl1'.
          induction l1 as [|a l1 IH]; intros [|a' l1'] Hl' Hl1'.
          - injection Hl' as <-. auto.
          - injection Hl' as <- _.
            rewrite (Hl1' e (or_introl eq_refl)) in He. discriminate.
          - injection Hl' as -> _.
            rewrite (Hl1 e (or_introl eq_refl)) in He. discriminate.
          - injection Hl' as <- Hl'.
            destruct (IH (fun j Hj => Hl1 j (or_intror Hj)) l1' Hl'
                         (fun j Hj => Hl1' j (or_intror Hj))) as [<- <-].
            auto. }
      * apply uniqueNames_merge.
    + eexists. eexists. split; [reflexivity|].
      rewrite windowBoxes_saved, lookup_assign_same.
      split; [reflexivity|].
      split; [reflexivity|]. split.
      * intros l1 e l2 Hl He _. exfalso.
        pose proof (find_none _ _ Ef e) as Hn. rewrite Hl in Hn.
        rewrite Hn in He; [discriminate|].
        rewrite in_app_iff. right. now left.
      * intros Hu. apply uniqueNames_append; [assumption|].
        intros j Hj. apply (find_none _ _ Ef j Hj).
  - intros. reflexivity.
  - intros. reflexivity.
Qed.

(** Adding "Pen (2)" to a box that holds "tape" and "pen". *)
Lemma addItem_merges_witness :
  let t := lit "2024-05-01T10:00:00.000Z" in
  let w0 := switchBox (Some (lit "1")) (initialWorld None) in
  let w1 := worldOf (addItem (lit "pen") t 1 None w0) in
  let w2 := worldOf (addItem (lit "tape") t 2 None w1) in
  exists w' items',
    addItem (lit "Pen (2)") t 3 None w2 = Return w' tt
    /\ lookup (lit "BOX001") (windowBoxes w') = Some (BoxData.mk items' false None None)
    /\ uniqueNames items'.
Proof.
  intros t w0 w1 w2.
  destruct addItem_merges as (H & _).
  set (box := BoxData.mk
                [Item.mk 1 (lit "pen") (Some (Number.Fin 1)) t false [];
                 Item.mk 2 (lit "tape") (Some (Number.Fin 1)) t false []]
                false None None).
  destruct (H (lit "Pen (2)") t 3%Z None w2 box eq_refl eq_refl)
    as (w' & items' & E & L & _ & _ & U).
  exists w', items'. split; [exact E|]. split; [exact L|].
  apply U. unfold uniqueNames. vm_compute.
  constructor; [|constructor; [|constructor]]; simpl; intuition discriminate.
Defined.

(* ================================================================== *)
(** * normalizeSessionBoxes *)

Lemma lookup_none_iff k l : lookup k l = None <-> ~ In k (map fst l).
Proof.
  induction l as [|[k' v] r IH]; simpl; [tauto|].
  destruct (str_eqb k k') eqn:E.
  - apply str_eqb_eq in E. subst. split; [discriminate | tauto].
  - apply str_eqb_neq in E. rewrite IH. intuition congruence.
Qed.

Lemma assign_missing k v l : lookup k l = None -> assign k v l = l ++ [(k, v)].
Proof.
  induction l as [|[k' v'] r IH]; simpl; [reflexivity|].
  destruct (str_eqb k k'); [discriminate|]. intros H. now rewrite IH.
Qed.

Lemma assign_keys_found k v l x :
  lookup k l = Some x -> map fst (assign k v l) = map fst l.
Proof.
  induction l as [|[k' v'] r IH]; simpl; [discriminate|].
  destruct (str_eqb k k'); [reflexivity|]. intros H. cbn. now rewrite IH.
Qed.

Lemma or_null_idem v : or_null (or_null v) = or_null v.
Proof. destruct v as [[|c r]|]; reflexivity. Qed.

Lemma or_null_truthy v : truthy v = true -> or_null v = v.
Proof. unfold or_null. now intros ->. Qed.

Lemma or_else_normal a b :
  or_null a = a -> or_null b = b -> or_null (or_else a b) = or_else a b.
Proof. unfold or_else. destruct (truthy a); auto. Qed.

Lemma normalizeStep_keys acc entry :
  map fst (normalizeStep acc entry) = map fst acc
  \/ (~ In (normalizedKey (fst entry)) (map fst acc)
      /\ map fst (normalizeStep acc entry)
         = map fst acc ++ [normalizedKey (fst entry)]).
Proof.
  unfold normalizeStep. fold (normalizedKey (fst entry)).
  destruct (lookup (normalizedKey (fst entry)) acc) as [ex|] eqn:E.
  - left. eapply assign_keys_found; eauto.
  - right. split; [now apply lookup_none_iff|].
    rewrite assign_missing by assumption. rewrite map_app. reflexivity.
Qed.

Lemma normalBox_normalizeStep acc entry :
  onBoxes normalBox acc -> onBoxes normalBox (normalizeStep acc entry).
Proof.
  intros Hacc. unfold normalizeStep.
  destruct (lookup _ acc) as [ex0|] eqn:E.
  - apply onBoxes_assign; [assumption|].
    destruct (onBoxes_lookup _ Hacc E) as [_ Hsl].
    split; cbn.
    + destruct (_ || _); [|apply or_null_idem].
      apply or_else_normal; apply or_null_idem.
    + destruct (truthy (BoxData.secondaryLocation (snd entry))) eqn:T; cbn.
      * destruct (negb _); [now apply or_null_truthy | assumption].
      * assumption.
  - apply onBoxes_assign; [assumption|]. split; cbn; apply or_null_idem.
Qed.

(** The accumulator of the loop: distinct keys, every key the re-keying
    of a stored key, records in normal form. *)
Lemma fold_normalizeStep_inv l : forall acc,
  NoDup (map fst acc) -> onBoxes normalBox acc ->
  NoDup (map fst (fold_left normalizeStep l acc))
  /\ onBoxes normalBox (fold_left normalizeStep l acc)
  /\ (forall k, In k (map fst (fold_left normalizeStep l acc)) ->
        In k (map fst acc) \/ exists k0, In k0 (map fst l) /\ k = normalizedKey k0).
Proof.
  induction l as [|e l IH]; intros acc Hnd Hnb.
  - cbn. auto.
  - cbn [fold_left].
    assert (Hnd' : NoDup (map fst (normalizeStep acc e))).
    { destruct (normalizeStep_keys acc e) as [-> | [Hnin ->]]; [assumption|].
      eapply Permutation_NoDup; [apply Permutation_cons_append|].
      now constructor. }
    destruct (IH _ Hnd' (normalBox_normalizeStep e Hnb)) as (H1 & H2 & H3).
    repeat split; [assumption | assumption|].
    intros k Hk. destruct (H3 k Hk) as [Hin | (k0 & Hk0 & ->)].
    + destruct (normalizeStep_keys acc e) as [E | [_ E]]; rewrite E in Hin.
      * now left.
      * apply in_app_iff in Hin. destruct Hin as [Hin | [<- | []]]; [now left|].
        right. exists (fst e). split; [now left | reflexivity].
    + right. exists k0. split; [now right | reflexivity].
Qed.

(** On canonical keys and records in normal form the loop rebuilds the
    object it reads. *)
Lemma fold_normalizeStep_fixed m : forall acc,
  NoDup (map fst (acc ++ m)) ->
  (forall k, In k (map fst m) -> canonicalKey k) ->
  onBoxes normalBox m ->
  fold_left normalizeStep m acc = acc ++ m.
Proof.
  induction m as [|[k b] m IH]; intros acc Hnd Hc Hnb.
  - now rewrite app_nil_r.
  - cbn [fold_left].
    assert (Ek : normalizedKey k = k) by (apply Hc; now left).
    assert (Hl : lookup k acc = None).
    { apply lookup_none_iff. rewrite map_app in Hnd. cbn in Hnd.
      apply NoDup_remove_2 in Hnd. rewrite in_app_iff in Hnd. tauto. }
    inversion Hnb as [|? ? [Hca Hsl] Hnb']; subst. cbn in Hca, Hsl.
    assert (Es : normalizeStep acc (k, b) = acc ++ [(k, b)]).
    { unfold normalizeStep. cbn [fst snd]. fold (normalizedKey k).
      rewrite Ek, Hl. rewrite assign_missing by assumption.
      do 3 f_equal. destruct b as [its c ca sl]. cbn in *.
      now rewrite orb_false_r, Hca, Hca, Hsl. }
    rewrite Es, IH.
    + now rewrite <- app_assoc.
    + now rewrite <- app_assoc.
    + intros k' Hk'. apply Hc. now right.
    + assumption.
Qed.

Lemma gt_one_not_one_nor_falsy n :
  gt_one n = true -> qty_is_one (Some n) = false /\ qty_falsy (Some n) = false.
Proof.
  destruct n as [v|]; cbn; [|auto]. intros H. apply N.ltb_lt in H.
  split.
  - apply N.eqb_neq. lia.
  - destruct v; [lia | reflexivity].
Qed.

Lemma normalizeItem_idem i : normalizeItem (normalizeItem i) = normalizeItem i.
Proof.
  destruct (qty_is_one (Item.qty i) || qty_falsy (Item.qty i)) eqn:E.
  - destruct (gt_one (Parsed.qty (parseQuantity (Item.name i)))) eqn:G.
    + assert (R : normalizeItem i
                  = Item.mk (Item.id i) (Parsed.name (parseQuantity (Item.name i)))
                            (Some (Parsed.qty (parseQuantity (Item.name i))))
                            (Item.addedAt i) (Item.isDuplicate i) (Item.tags i)).
      { unfold normalizeItem. now rewrite E, G. }
      rewrite R. unfold normalizeItem. cbn [Item.qty].
      destruct (gt_one_not_one_nor_falsy _ G) as [-> ->]. reflexivity.
    + destruct (qty_falsy (Item.qty i)) eqn:F.
      * assert (R : normalizeItem i
                    = Item.mk (Item.id i) (Item.name i) (Some (Number.Fin 1))
                              (Item.addedAt i) (Item.isDuplicate i) (Item.tags i)).
        { unfold normalizeItem. now rewrite F, E, G. }
        rewrite R. unfold normalizeItem. cbn [Item.qty Item.name].
        change (qty_is_one (Some (Number.Fin 1))) with true.
        change (qty_falsy (Some (Number.Fin 1))) with false.
        cbn [orb]. rewrite G. reflexivity.
      * assert (R : normalizeItem i = i).
        { unfold normalizeItem. now rewrite F, E, G. }
        now rewrite !R.
  - assert (R : normalizeItem i = i).
    { unfold normalizeItem. now rewrite E. }
    now rewrite !R.
Qed.

Lemma withNormalizedItems_idem kv :
  withNormalizedItems (withNormalizedItems kv) = withNormalizedItems kv.
Proof.
  destruct kv as [k [its c ca sl]]. unfold withNormalizedItems. cbn.
  do 2 f_equal. rewrite map_map. apply map_ext, normalizeItem_idem.
Qed.

Lemma normalizeSessionBoxes_boxes s :
  Session.boxes (normalizeSessionBoxes s)
  = map withNormalizedItems (fold_left normalizeStep (Session.boxes s) []).
Proof. reflexivity. Qed.

Lemma normalizeSessionBoxes_twice s :
  (forall k, In k (map fst (Session.boxes s)) -> canonicalKey (normalizedKey k)) ->
  normalizeSessionBoxes (normalizeSessionBoxes s) = normalizeSessionBoxes s.
Proof.
  intros Hc.
  set (f := fold_left normalizeStep (Session.boxes s) []).
  destruct (@fold_normalizeStep_inv (Session.boxes s) [] (NoDup_nil _)
              (Forall_nil _)) as (Hnd & Hnb & Hk).
  fold f in Hnd, Hnb, Hk.
  set (m := map withNormalizedItems f).
  assert (Ekeys : map fst m = map fst f).
  { unfold m. rewrite map_map. apply map_ext. now intros [k b]. }
  assert (Hfix : fold_left normalizeStep m [] = m).
  { rewrite (@fold_normalizeStep_fixed m []); [reflexivity | | |].
    - cbn [app]. now rewrite Ekeys.
    - intros k Hin. rewrite Ekeys in Hin.
      destruct (Hk k Hin) as [[] | (k0 & Hk0 & ->)]. now apply Hc.
    - unfold m, onBoxes. apply Forall_map.
      eapply Forall_impl; [|exact Hnb]. intros [k b] H. exact H. }
  destruct s as [sid st bs].
  unfold normalizeSessionBoxes, normalizeItemQuantities, Session.with_boxes.
  cbn [Session.boxes Session.id Session.startedAt].
  f_equal. change (fold_left normalizeStep bs []) with f.
  change (map _ f) with m at 1. fold m. rewrite Hfix.
  unfold m. rewrite map_map. apply map_ext.
  intros kv. apply (withNormalizedItems_idem kv).
Qed.

Lemma canonical_of_safe (k : str) :
  nonBlank k -> safeDigits k -> canonicalKey (normalizedKey k).
Proof.
  intros Hnb Hs.
  destruct (normalize_result_fixed Hnb Hs) as (r & E1 & E2).
  unfold canonicalKey, normalizedKey. rewrite E1. cbn [propKey]. now rewrite E2.
Qed.

Lemma itemsAt_normalizeStep nk acc e :
  itemsAt nk (normalizeStep acc e)
  = itemsAt nk acc
    ++ (if str_eqb (normalizedKey (fst e)) nk then BoxData.items (snd e) else []).
Proof.
  unfold itemsAt, normalizeStep. fold (normalizedKey (fst e)).
  destruct (str_eqb (normalizedKey (fst e)) nk) eqn:K.
  - apply str_eqb_eq in K. subst nk.
    destruct (lookup (normalizedKey (fst e)) acc) as [ex|] eqn:E;
      rewrite lookup_assign_same; reflexivity.
  - apply str_eqb_neq in K.
    assert (K' : nk <> normalizedKey (fst e)) by congruence.
    destruct (lookup (normalizedKey (fst e)) acc) as [ex|] eqn:E;
      rewrite (lookup_assign_other _ _ K'), app_nil_r; reflexivity.
Qed.

Lemma itemsAt_fold nk l : forall acc,
  itemsAt nk (fold_left normalizeStep l acc) = itemsAt nk acc ++ itemsUnder nk l.
Proof.
  induction l as [|e l IH]; intros acc; cbn [fold_left itemsUnder flat_map].
  - now rewrite app_nil_r.
  - rewrite IH, itemsAt_normalizeStep, <- app_assoc. reflexivity.
Qed.

Lemma lookup_map_items k l :
  lookup k (map withNormalizedItems l)
  = option_map (fun b => snd (withNormalizedItems (k, b))) (lookup k l).
Proof.
  induction l as [|[k' v] r IH]; [reflexivity|].
  cbn [map withNormalizedItems fst snd lookup].
  destruct (str_eqb k k'); [reflexivity | exact IH].
Qed.

Lemma present_normalizeStep nk acc e :
  lookup nk acc <> None \/ normalizedKey (fst e) = nk ->
  lookup nk (normalizeStep acc e) <> None.
Proof.
  unfold normalizeStep. fold (normalizedKey (fst e)).
  destruct (list_eq_dec ascii_dec nk (normalizedKey (fst e))) as [-> | Hne].
  - intros _. destruct (lookup _ acc); rewrite lookup_assign_same; discriminate.
  - intros [H | H]; [|congruence].
    destruct (lookup (normalizedKey (fst e)) acc);
      now rewrite (lookup_assign_other _ _ Hne).
Qed.

Lemma present_fold nk l : forall acc,
  lookup nk acc <> None \/ (exists kv, In kv l /\ normalizedKey (fst kv) = nk) ->
  lookup nk (fold_left normalizeStep l acc) <> None.
Proof.
  induction l as [|e l IH]; intros acc H; cbn [fold_left].
  - destruct H as [H | (kv & [] & _)]. exact H.
  - apply IH. destruct H as [H | (kv & [<- | Hin] & Hk)].
    + left. apply present_normalizeStep. now left.
    + left. apply present_normalizeStep. now right.
    + right. now exists kv.
Qed.

Lemma firstTruthy_normal a b : or_null (firstTruthy a b) = firstTruthy a b.
Proof. unfold firstTruthy. apply or_else_normal; apply or_null_idem. Qed.

Lemma firstTruthy_or_null a b : firstTruthy (or_null a) b = firstTruthy a b.
Proof. unfold firstTruthy. now rewrite or_null_idem. Qed.

Lemma lookup_normalizeStep nk acc e :
  onBoxes normalBox acc ->
  lookup nk (normalizeStep acc e)
  = if str_eqb (normalizedKey (fst e)) nk
    then Some match lookup nk acc with
              | Some ex => mergedBox ex (snd e)
              | None => firstUnder (snd e)
              end
    else lookup nk acc.
Proof.
  intros Hn. unfold normalizeStep. fold (normalizedKey (fst e)).
  destruct (str_eqb (normalizedKey (fst e)) nk) eqn:K.
  - apply str_eqb_eq in K. subst nk.
    destruct (lookup (normalizedKey (fst e)) acc) as [ex|] eqn:E;
      rewrite lookup_assign_same; f_equal.
    + destruct (onBoxes_lookup _ Hn E) as [N1 N2].
      destruct ex as [i c ca sl], (snd e) as [i' c' ca' sl'].
      unfold repairShape, ensureBoxDataShape, mergedBox, firstTruthy, or_else.
      cbn in *.
      destruct c, c';
        destruct ca as [[|x r]|], ca' as [[|x' r']|];
        destruct sl as [[|y q]|], sl' as [[|y' q']|];
        try discriminate N1; try discriminate N2; reflexivity.
    + destruct (snd e) as [i' c' ca' sl'].
      unfold repairShape, ensureBoxDataShape, firstUnder. cbn.
      now rewrite orb_false_r, or_null_idem.
  - apply str_eqb_neq in K.
    assert (K' : nk <> normalizedKey (fst e)) by congruence.
    destruct (lookup (normalizedKey (fst e)) acc);
      now rewrite (lookup_assign_other _ _ K').
Qed.

Lemma lookup_fold_normalizeStep nk l : forall acc,
  onBoxes normalBox acc ->
  lookup nk (fold_left normalizeStep l acc)
  = match lookup nk acc with
    | Some ex => Some (fold_left mergedBox (boxesUnder nk l) ex)
    | None => mergedUnder nk l
    end.
Proof.
  induction l as [|e l IH]; intros acc Hn; cbn [fold_left].
  - unfold mergedUnder, boxesUnder. cbn. now destruct (lookup nk acc).
  - rewrite (IH _ (normalBox_normalizeStep e Hn)), (lookup_normalizeStep nk e Hn).
    unfold mergedUnder, boxesUnder. cbn [filter map].
    destruct (str_eqb (normalizedKey (fst e)) nk); cbn [map fold_left];
      destruct (lookup nk acc); reflexivity.
Qed.

Lemma boxesUnder_app nk a b :
  boxesUnder nk (a ++ b) = boxesUnder nk a ++ boxesUnder nk b.
Proof. unfold boxesUnder. now rewrite filter_app, map_app. Qed.

Lemma boxesUnder_none nk l :
  (forall kv, In kv l -> normalizedKey (fst kv) <> nk) -> boxesUnder nk l = [].
Proof.
  intros H. induction l as [|kv l IH]; [reflexivity|].
  unfold boxesUnder in *. cbn [filter].
  destruct (str_eqb (normalizedKey (fst kv)) nk) eqn:E.
  - apply str_eqb_eq in E. now elim (H kv (or_introl eq_refl)).
  - apply IH. intros kv' Hin. apply H. now right.
Qed.

Lemma boxesUnder_cons nk k b l :
  normalizedKey k = nk -> boxesUnder nk ((k, b) :: l) = b :: boxesUnder nk l.
Proof.
  intros <-. unfold boxesUnder. cbn [filter fst]. now rewrite str_eqb_refl.
Qed.

Lemma lookup_normalizeSessionBoxes s nk :
  lookup nk (Session.boxes (normalizeSessionBoxes s))
  = option_map (fun b => snd (withNormalizedItems (nk, b)))
               (mergedUnder nk (Session.boxes s)).
Proof.
  rewrite normalizeSessionBoxes_boxes, lookup_map_items.
  now rewrite (@lookup_fold_normalizeStep nk (Session.boxes s) [] (Forall_nil _)).
Qed.

Lemma lookup_two_under s l1 l2 l3 (k1 k2 : str) b1 b2 :
  Session.boxes s = l1 ++ (k1, b1) :: l2 ++ (k2, b2) :: l3 ->
  normalizedKey k2 = normalizedKey k1 ->
  (forall kv, In kv (l1 ++ l2 ++ l3) ->
              normalizedKey (fst kv) <> normalizedKey k1) ->
  lookup (normalizedKey k1) (Session.boxes (normalizeSessionBoxes s))
  = Some (BoxData.mk
            (map normalizeItem (BoxData.items b1 ++ BoxData.items b2))
            (BoxData.completed b1 || BoxData.completed b2)
            (if BoxData.completed b1 || BoxData.completed b2
             then firstTruthy (BoxData.completedAt b1) (BoxData.completedAt b2)
             else or_null (BoxData.completedAt b1))
            (firstTruthy (BoxData.secondaryLocation b1)
                         (BoxData.secondaryLocation b2))).
Proof.
  intros E Hk Hother.
  assert (Hu : boxesUnder (normalizedKey k1) (Session.boxes s) = [b1; b2]).
  { rewrite E, boxesUnder_app,
      (@boxesUnder_cons (normalizedKey k1) k1 b1 _ eq_refl), boxesUnder_app,
      (@boxesUnder_cons (normalizedKey k1) k2 b2 _ Hk).
    rewrite !boxesUnder_none; [reflexivity| | |];
      intros kv Hin; apply Hother; rewrite !in_app_iff; auto. }
  rewrite lookup_normalizeSessionBoxes. unfold mergedUnder. rewrite Hu.
  cbn [fold_left option_map withNormalizedItems snd fst].
  unfold mergedBox, firstUnder. cbn.
  now rewrite !firstTruthy_or_null, or_null_idem.
Qed.

(** C6, as stated, fails: a run does not always leave a session that the
    next run keeps.  A box stored under the empty key is re-keyed to the
    property "null" (the normaliser returns null for the empty text),
    and the next run re-keys "null" to "NULL". *)
Lemma normalizeSessionBoxes_not_idempotent :
  let s := Session.mk None None [([], createEmptyBoxData)] in
  Session.boxes (normalizeSessionBoxes s) = [(lit "null", createEmptyBoxData)]
  /\ Session.boxes (normalizeSessionBoxes (normalizeSessionBoxes s))
     = [(lit "NULL", createEmptyBoxData)]
  /\ normalizeSessionBoxes (normalizeSessionBoxes s) <> normalizeSessionBoxes s.
Proof.
  split; [reflexivity|]. split; [reflexivity|]. vm_compute. discriminate.
Qed.

(** C6, amended: a second run of [normalizeSessionBoxes] changes nothing
    when every stored key is re-keyed to a key that re-keying leaves
    alone; this is the case for every key with a character that is not
    white space whose BOX key, if it gets one, holds a number printed in
    plain digits (as every digit run below 2^53 is).  The
    items found under a key after a run are the items of all boxes
    re-keyed to it, concatenated in enumeration order, each passed
    through the quantity normalisation; no stored box is left without a
    record.  When two stored keys are re-keyed to the same key, the one
    record has the items of the first followed by those of the second,
    [completed] is the disjunction of the two flags, [completedAt] is,
    when one of them is completed, the first of the two values that is a
    non-empty string (in enumeration order, not by date), and
    [secondaryLocation] is the first of the two values that is a
    non-empty string; this holds wherever the two boxes are in the
    session.  In general the record under a key is the first box
    re-keyed to it with every later one merged into it in this way, one
    after the other. *)
Theorem normalizeSessionBoxes_merges :
  (forall s,
     (forall k, In k (map fst (Session.boxes s)) -> canonicalKey (normalizedKey k)) ->
     normalizeSessionBoxes (normalizeSessionBoxes s) = normalizeSessionBoxes s)
  /\ (forall k : str, nonBlank k -> safeDigits k -> canonicalKey (normalizedKey k))
  /\ (forall s nk,
        itemsAt nk (Session.boxes (normalizeSessionBoxes s))
        = map normalizeItem (itemsUnder nk (Session.boxes s)))
  /\ (forall s k b, In (k, b) (Session.boxes s) ->
        lookup (normalizedKey k) (Session.boxes (normalizeSessionBoxes s)) <> None)
  /\ (forall sid st (k1 k2 : str) b1 b2,
        k1 <> k2 -> normalizedKey k1 = normalizedKey k2 ->
        Session.boxes (normalizeSessionBoxes (Session.mk sid st [(k1, b1); (k2, b2)]))
        = [(normalizedKey k1,
            BoxData.mk
              (map normalizeItem (BoxData.items b1 ++ BoxData.items b2))
              (BoxData.completed b1 || BoxData.completed b2)
              (if BoxData.completed b1 || BoxData.completed b2
               then firstTruthy (BoxData.completedAt b1) (BoxData.completedAt b2)
               else or_null (BoxData.completedAt b1))
              (firstTruthy (BoxData.secondaryLocation b1)
                           (BoxData.secondaryLocation b2)))])
  /\ (forall i1 i2 t,
        Session.boxes
          (normalizeSessionBoxes
             (Session.mk None None
                [(lit "Box42", BoxData.mk [i1] false None None);
                 (lit "BOX042", BoxData.mk [i2] true (Some (lit "2024")) (Some t))]))
        = [(lit "BOX042",
            BoxData.mk [normalizeItem i1; normalizeItem i2] true
                       (Some (lit "2024")) (or_null (Some t)))])
  /\ (forall s l1 l2 l3 (k1 k2 : str) b1 b2,
        Session.boxes s = l1 ++ (k1, b1) :: l2 ++ (k2, b2) :: l3 ->
        normalizedKey k2 = normalizedKey k1 ->
        (forall kv, In kv (l1 ++ l2 ++ l3) ->
                    normalizedKey (fst kv) <> normalizedKey k1) ->
        lookup (normalizedKey k1) (Session.boxes (normalizeSessionBoxes s))
        = Some (BoxData.mk
                  (map normalizeItem (BoxData.items b1 ++ BoxData.items b2))
                  (BoxData.completed b1 || BoxData.completed b2)
                  (if BoxData.completed b1 || BoxData.completed b2
                   then firstTruthy (BoxData.completedAt b1)
                                    (BoxData.completedAt b2)
                   else or_null (BoxData.completedAt b1))
                  (firstTruthy (BoxData.secondaryLocation b1)
                               (BoxData.secondaryLocation b2))))
  /\ (forall s nk,
        lookup nk (Session.boxes (normalizeSessionBoxes s))
        = option_map (fun b => snd (withNormalizedItems (nk, b)))
                     (mergedUnder nk (Session.boxes s))).
Proof.
  split; [exact normalizeSessionBoxes_twice|].
  split; [exact canonical_of_safe|].
  split; [|split; [|split; [|split; [|split; [exact lookup_two_under
                                             |exact lookup_normalizeSessionBoxes]]]]].
  - intros s nk. rewrite normalizeSessionBoxes_boxes.
    unfold itemsAt at 1. rewrite lookup_map_items.
    pose proof (itemsAt_fold nk (Session.boxes s) []) as H.
    unfold itemsAt in H at 1 2. cbn [lookup app] in H.
    destruct (lookup nk (fold_left normalizeStep (Session.boxes s) [])) as [b|];
      cbn; now rewrite <- H.
  - intros s k b Hin. rewrite normalizeSessionBoxes_boxes, lookup_map_items.
    assert (H : lookup (normalizedKey k)
                  (fold_left normalizeStep (Session.boxes s) []) <> None).
    { apply present_fold. right. now exists (k, b). }
    destruct (lookup _ _); [discriminate | congruence].
  - intros sid st k1 k2 b1 b2 _ Hk.
    rewrite normalizeSessionBoxes_boxes. cbn [Session.boxes fold_left].
    unfold normalizeStep at 2. cbn [lookup fst snd]. fold (normalizedKey k1).
    cbn [assign].
    unfold normalizeStep. cbn [fst snd]. fold (normalizedKey k2).
    rewrite <- Hk. cbn [lookup]. rewrite str_eqb_refl. cbn [assign].
    rewrite str_eqb_refl. cbn [map withNormalizedItems fst snd].
    destruct b1 as [its1 c1 ca1 sl1], b2 as [its2 c2 ca2 sl2].
    destruct c1, c2;
      destruct ca1 as [[|x1 r1]|], ca2 as [[|x2 r2]|];
      destruct sl1 as [[|y1 q1]|], sl2 as [[|y2 q2]|]; reflexivity.
  - intros i1 i2 t. destruct t as [|c r]; reflexivity.
Qed.

(** The amended statement on a session with the keys "7" and " box 7"
    and a shelf between them: the second run changes nothing, and the
    record of box 7 has the items of both, the flag and the time stamp
    of the second and the secondary location of the first. *)
Lemma normalizeSessionBoxes_merges_witness :
  let pen := Item.mk 1 (lit "pen") (Some (Number.Fin 1)) (lit "t1") false [] in
  let cup := Item.mk 2 (lit "cup") (Some (Number.Fin 2)) (lit "t2") false [] in
  let b1 := BoxData.mk [pen] false None (Some (lit "SHELF 2C")) in
  let b2 := BoxData.mk [cup] true (Some (lit "2024-05-01")) (Some (lit "SHELF 9")) in
  let s := Session.mk None None
             [(lit "7", b1); (lit "shelf 1a", createEmptyBoxData);
              (lit " box 7", b2)] in
  normalizeSessionBoxes (normalizeSessionBoxes s) = normalizeSessionBoxes s
  /\ lookup (lit "BOX007") (Session.boxes (normalizeSessionBoxes s))
     = Some (BoxData.mk [pen; cup] true (Some (lit "2024-05-01"))
                        (Some (lit "SHELF 2C"))).
Proof.
  intros pen cup b1 b2 s.
  destruct normalizeSessionBoxes_merges as (H & _ & _ & _ & _ & _ & H2 & _).
  split.
  - apply H. intros k Hk. cbn in Hk.
    destruct Hk as [<- | [<- | [<- | []]]]; vm_compute; reflexivity.
  - apply (H2 s [] [(lit "shelf 1a", createEmptyBoxData)] [] (lit "7") (lit " box 7")
              b1 b2); [reflexivity | reflexivity |].
    intros kv [<- | []]. vm_compute. discriminate.
Defined.

(* ================================================================== *)
(** * More on the history *)

Lemma historyStep_same w w' :
  history w' = history w -> historyIndex w' = historyIndex w ->
  maxHistorySize w' = maxHistorySize w -> historyStep w w'.
Proof. intros. left. auto. Qed.

Lemma historyStep_save w w0 :
  history w0 = history w -> historyIndex w0 = historyIndex w ->
  maxHistorySize w0 = maxHistorySize w ->
  historyStep w (saveStateToHistory w0).
Proof.
  intros H1 H2 H3. right. left. exists w0. repeat split; auto.
  unfold saveStateToHistory. destruct (_ <? _)%N; cbn; auto.
Qed.

Lemma historyStep_view w w1 w2 :
  historyStep w w1 ->
  history w2 = history w1 -> historyIndex w2 = historyIndex w1 ->
  maxHistorySize w2 = maxHistorySize w1 -> historyStep w w2.
Proof.
  intros [H|[(w0 & H)|H]] E1 E2 E3; [left|right; left; exists w0|right; right];
    rewrite E1, E2, E3; exact H.
Qed.

Lemma historyStep_updateCurrent f w : historyStep w (updateCurrent f w).
Proof. unfold updateCurrent. destruct (binding w); now left. Qed.

Lemma view_updateCurrent f w :
  history (updateCurrent f w) = history w
  /\ historyIndex (updateCurrent f w) = historyIndex w
  /\ maxHistorySize (updateCurrent f w) = maxHistorySize w.
Proof. unfold updateCurrent. destruct (binding w); now repeat split. Qed.

Lemma historyStep_restore w i :
  (0 <= i < Z.of_nat (List.length (history w)))%Z ->
  historyStep w (worldOf (restore w i)).
Proof.
  intros H. right. right. unfold restore.
  destruct (entryAt (history w) i); cbn; auto.
Qed.

Lemma historyStep_undo w : historyWf w -> historyStep w (worldOf (undo w)).
Proof.
  intros (Hi & _). unfold undo.
  destruct (0 <? historyIndex w)%Z eqn:E; [|now left].
  apply Z.ltb_lt in E. apply historyStep_restore. lia.
Qed.

Lemma historyStep_redo w : historyWf w -> historyStep w (worldOf (redo w)).
Proof.
  intros (Hi & _). unfold redo.
  destruct (_ <? _)%Z eqn:E; [|now left].
  apply Z.ltb_lt in E. apply historyStep_restore. lia.
Qed.

Ltac history_step :=
  first [ apply historyStep_same; reflexivity
        | apply historyStep_save; first [reflexivity | apply view_updateCurrent] ].

Lemma historyStep_switchBox b w : historyStep w (switchBox b w).
Proof.
  unfold switchBox. destruct (falsy _); [history_step|].
  destruct (lookup _ _); [history_step|].
  unfold updateCurrent. cbn. destruct (binding w); history_step.
Qed.

Lemma historyStep_setSecondaryLocation v w :
  historyStep w (setSecondaryLocation v w).
Proof.
  unfold setSecondaryLocation. destruct (falsy _); [history_step|].
  destruct (lookup _ _); history_step.
Qed.

Lemma historyStep_saveSecondaryLocation input w :
  historyStep w (saveSecondaryLocation input w).
Proof.
  unfold saveSecondaryLocation. destruct (falsy _) eqn:F; [history_step|].
  destruct (lookup _ _) eqn:L; [|history_step].
  destruct (trim input); [apply historyStep_setSecondaryLocation|].
  destruct (falsy (normalizeShelfLocation _)); [history_step|].
  apply historyStep_setSecondaryLocation.
Qed.

Lemma historyStep_toggleBoxComplete b now w :
  historyStep w (toggleBoxComplete b now w).
Proof. unfold toggleBoxComplete. destruct (lookup _ _); history_step. Qed.

Lemma historyStep_addItem itemName now newId tags w :
  historyStep w (worldOf (addItem itemName now newId tags w)).
Proof.
  unfold addItem. destruct (falsy _); [history_step|].
  destruct (lookup _ _).
  - destruct (find _ _); cbn [worldOf]; apply historyStep_save;
      apply view_updateCurrent.
  - apply historyStep_updateCurrent.
Qed.

Lemma historyStep_deleteItem b itemId w : historyStep w (deleteItem b itemId w).
Proof.
  unfold deleteItem. destruct (lookup _ _); [|history_step].
  destruct (existsb _ _); history_step.
Qed.

Lemma historyStep_startEditItem b itemId w :
  historyStep w (worldOf (startEditItem b itemId w)).
Proof. unfold startEditItem. destruct (lookup _ _); history_step. Qed.

Lemma historyStep_saveEditedItem newName w :
  historyStep w (worldOf (saveEditedItem newName w)).
Proof.
  unfold saveEditedItem. destruct (editingItemId w) as [[bn id]|]; [|history_step].
  destruct (lookup _ _); [|history_step].
  destruct (find _ _); cbn [worldOf]; [|history_step].
  match goal with
  | |- historyStep _ (setEditing (saveStateToHistory ?x) _) =>
      apply historyStep_view with (w1 := saveStateToHistory x);
        [apply historyStep_save; reflexivity|reflexivity..]
  end.
Qed.

Lemma historyStep_loadSessionData data now done w :
  historyStep w (loadSessionData data now done w).
Proof.
  unfold loadSessionData, markExistingBoxesAsCompleted.
  destruct done; now left.
Qed.

Lemma saveStateToHistory_length w :
  (-1 <= historyIndex w < Z.of_nat (List.length (history w)))%Z ->
  historyBounded w ->
  historyBounded (saveStateToHistory w)
  /\ (0 <= historyIndex (saveStateToHistory w))%Z.
Proof.
  intros Hi Hb. unfold historyBounded in *.
  destruct (@saveStateToHistory_spec w ltac:(lia)) as (H1 & H2 & _ & _ & H3 & _).
  cbv zeta in H1.
  remember (firstn (Z.to_nat (historyIndex w + 1)) (history w)
            ++ [jsonCopy (currentSession w)]) as h2 eqn:Eh.
  assert (L : List.length h2 = S (Z.to_nat (historyIndex w + 1))).
  { rewrite Eh, length_app, length_firstn. simpl. lia. }
  clear Eh. rewrite H2, H3, H1.
  pose proof (historyLimit_pos (maxHistorySize w)) as Hp.
  destruct (N.ltb_spec (historyLimit (maxHistorySize w)) (N.of_nat (List.length h2)))
    as [E|E].
  - destruct h2 as [|x h2]; [discriminate|].
    cbn [tl List.length] in *. split; lia.
  - split; lia.
Qed.

Lemma nth_error_tl (A : Type) (l : list A) n :
  nth_error (tl l) n = nth_error l (S n).
Proof. destruct l; [now destruct n | reflexivity]. Qed.

Lemma entryAt_record (h : list Session.t) i c :
  (0 <= i < Z.of_nat (List.length h))%Z ->
  entryAt (firstn (Z.to_nat (i + 1)) h ++ [c]) i = entryAt h i.
Proof.
  intros H. unfold entryAt.
  replace (i <? 0)%Z with false by (symmetry; apply Z.ltb_ge; lia).
  rewrite nth_error_app1 by (rewrite length_firstn; lia).
  rewrite nth_error_firstn.
  replace (Z.to_nat i <? Z.to_nat (i + 1))%nat with true
    by (symmetry; apply Nat.ltb_lt; lia).
  reflexivity.
Qed.

(* ================================================================== *)
(** * The two session objects *)

Lemma itemsAt_ensureBoxExists key k s :
  itemsAt k (Session.boxes (ensureBoxExists key s)) = itemsAt k (Session.boxes s).
Proof.
  unfold ensureBoxExists, itemsAt.
  destruct (lookup key (Session.boxes s)) as [b|] eqn:L; cbn [Session.boxes Session.with_boxes].
  - destruct (list_eq_dec ascii_dec k key) as [->|N].
    + now rewrite lookup_assign_same, L.
    + now rewrite lookup_assign_other by assumption.
  - destruct (list_eq_dec ascii_dec k key) as [->|N].
    + now rewrite lookup_assign_same, L.
    + now rewrite lookup_assign_other by assumption.
Qed.

Lemma binding_saveStateToHistory w :
  binding (saveStateToHistory w) = binding w.
Proof. unfold saveStateToHistory. destruct (_ <? _)%N; reflexivity. Qed.

Lemma currentSession_rebound w s :
  binding w = Rebound s -> currentSession w = s.
Proof. unfold currentSession. now intros ->. Qed.

(** X5: a successful [undo] or [redo] and [loadSessionData] give the
    variable of [js/data.js] a new session object.  From then on the
    edit actions of the application script, which work on the exported
    object, no longer change the items of the session that the history
    records: [addItem] leaves the items of every box of that session as
    they were, and [deleteItem], [saveEditedItem], [toggleBoxComplete]
    and [setSecondaryLocation] leave that session unchanged.  And after
    [switchBox] to a location the exported session does not hold,
    [addItem] throws and leaves the exported session as it was: the box
    was created in the other object. *)
Theorem rebound_session_misses_edits :
  (forall w w', undo w = Return w' true \/ redo w = Return w' true ->
                exists s, binding w' = Rebound s)
  /\ (forall data now done w,
        exists s, binding (loadSessionData data now done w) = Rebound s)
  /\ (forall w s, binding w = Rebound s ->
        (forall itemName now newId tags k,
           itemsAt k (Session.boxes
                        (currentSession (worldOf (addItem itemName now newId tags w))))
           = itemsAt k (Session.boxes s))
        /\ (forall b itemId, currentSession (deleteItem b itemId w) = s)
        /\ (forall newName, currentSession (worldOf (saveEditedItem newName w)) = s)
        /\ (forall b now, currentSession (toggleBoxComplete b now w) = s)
        /\ (forall v, currentSession (setSecondaryLocation v w) = s))
  /\ (forall w s b, binding w = Rebound s ->
        truthy (normalizeBoxNumber b) = true ->
        lookup (propKey (normalizeBoxNumber b)) (windowBoxes w) = None ->
        forall itemName now newId tags,
        exists w', addItem itemName now newId tags (switchBox b w) = Throw w'
                   /\ windowSession w' = windowSession w
                   /\ history w' = history w).
Proof.
  split; [|split; [|split]].
  - intros w w' [H|H]; [unfold undo in H | unfold redo in H];
      destruct (_ <? _)%Z; try discriminate;
      unfold restore in H; destruct (entryAt _ _) as [e|]; try discriminate;
      injection H as <-; now exists (jsonCopy e).
  - intros data now done w.
    unfold loadSessionData, markExistingBoxesAsCompleted, updateCurrent.
    destruct done; cbn; eexists; reflexivity.
  - intros w s Hb. repeat split.
    + intros itemName now newId tags k. unfold addItem.
      destruct (falsy (currentBox w)).
      { cbn. unfold currentSession. cbn. now rewrite Hb. }
      assert (E : binding (updateCurrent (ensureBoxExists (propKey (currentBox w))) w)
                  = Rebound (ensureBoxExists (propKey (currentBox w)) s)).
      { unfold updateCurrent. rewrite Hb. reflexivity. }
      rewrite (@currentSession_rebound _ (ensureBoxExists (propKey (currentBox w)) s)).
      { apply itemsAt_ensureBoxExists. }
      destruct (lookup _ _); [|exact E].
      destruct (find _ _); cbn [worldOf];
        rewrite binding_saveStateToHistory; exact E.
    + intros b itemId. apply currentSession_rebound. unfold deleteItem.
      destruct (lookup _ _); [|exact Hb].
      destruct (existsb _ _); [|exact Hb].
      now rewrite binding_saveStateToHistory.
    + intros newName. apply currentSession_rebound. unfold saveEditedItem.
      destruct (editingItemId w) as [[bn id]|]; [|exact Hb].
      destruct (lookup _ _); [|exact Hb].
      destruct (find _ _); cbn [worldOf setEditing binding]; [|exact Hb].
      now rewrite binding_saveStateToHistory.
    + intros b now. apply currentSession_rebound. unfold toggleBoxComplete.
      destruct (lookup _ _); [|exact Hb].
      now rewrite binding_saveStateToHistory.
    + intros v. apply currentSession_rebound. unfold setSecondaryLocation.
      destruct (falsy _); [exact Hb|].
      destruct (lookup _ _); [|exact Hb].
      now rewrite binding_saveStateToHistory.
  - intros w s b Hb Ht Hl itemName now newId tags.
    unfold switchBox, falsy. rewrite Ht. cbn [negb].
    unfold windowBoxes in *. cbn [setCurrentBox windowSession]. rewrite Hl.
    unfold updateCurrent at 1. cbn [binding setCurrentBox]. rewrite Hb.
    unfold addItem, falsy. cbn [currentBox rebind setCurrentBox]. rewrite Ht.
    cbn [negb]. unfold updateCurrent. cbn [binding rebind windowSession].
    unfold windowBoxes. cbn [windowSession rebind setCurrentBox]. rewrite Hl.
    eexists. split; [reflexivity|]. split; reflexivity.
Qed.

Lemma rebound_session_misses_edits_witness :
  let w := loadSessionData (Session.mk None None []) (lit "2024-01-01T00:00:00.000Z")
                           true (initialWorld None) in
  exists w',
    addItem (lit "tape") (lit "2024-01-01T00:00:01.000Z") 1 None
            (switchBox (Some (lit "7")) w) = Throw w'
    /\ windowSession w' = windowSession w
    /\ history w' = history w.
Proof.
  intros w.
  destruct rebound_session_misses_edits as (_ & _ & _ & H).
  apply (H w (Session.mk None None []) (Some (lit "7"))); vm_compute; reflexivity.
Defined.

(* ================================================================== *)
(** * Box records *)

Lemma assign_assign k v v' l : assign k v (assign k v' l) = assign k v l.
Proof.
  induction l as [|[k' b] l IH]; simpl.
  - now rewrite str_eqb_refl.
  - destruct (str_eqb k k') eqn:E; simpl; rewrite E; [reflexivity | now rewrite IH].
Qed.

Lemma assign_keys_present k v l b :
  lookup k l = Some b -> map fst (assign k v l) = map fst l.
Proof.
  induction l as [|[k' b'] l IH]; simpl; [discriminate|].
  destruct (str_eqb k k'); simpl; [reflexivity|].
  intros H. now rewrite IH.
Qed.

Lemma repairShape_idem b : repairShape (repairShape b) = repairShape b.
Proof.
  unfold repairShape, ensureBoxDataShape. cbn. now rewrite or_null_idem.
Qed.

(** X6: [ensureBoxExists] creates an empty record when the key is
    missing, enumerated after the existing keys, and otherwise keeps
    the record, its items, its completion flag and its secondary
    location, with an empty [completedAt] replaced by null.  No other
    box and no other field of the session changes, and a second call
    changes nothing. *)
Theorem ensureBoxExists_spec (boxKey : str) (s : Session.t) :
  let s' := ensureBoxExists boxKey s in
  (lookup boxKey (Session.boxes s) = None ->
     Session.boxes s' = Session.boxes s ++ [(boxKey, createEmptyBoxData)])
  /\ (forall b, lookup boxKey (Session.boxes s) = Some b ->
        lookup boxKey (Session.boxes s')
        = Some (BoxData.mk (BoxData.items b) (BoxData.completed b)
                           (or_null (BoxData.completedAt b))
                           (BoxData.secondaryLocation b))
        /\ map fst (Session.boxes s') = map fst (Session.boxes s))
  /\ (forall k, k <> boxKey ->
        lookup k (Session.boxes s') = lookup k (Session.boxes s))
  /\ Session.id s' = Session.id s
  /\ Session.startedAt s' = Session.startedAt s
  /\ ensureBoxExists boxKey s' = s'.
Proof.
  intros s'.
  assert (Hidem : ensureBoxExists boxKey s' = s').
  { unfold s', ensureBoxExists.
    destruct (lookup boxKey (Session.boxes s)) as [b|] eqn:L;
      cbn [Session.boxes Session.with_boxes]; rewrite lookup_assign_same;
      unfold Session.with_boxes; cbn [Session.boxes Session.id Session.startedAt];
      rewrite assign_assign; [now rewrite repairShape_idem | reflexivity]. }
  repeat split; try exact Hidem; unfold s', ensureBoxExists.
  - intros L. rewrite L. cbn. now apply assign_missing.
  - rewrite H. cbn [Session.boxes Session.with_boxes].
    now rewrite lookup_assign_same.
  - rewrite H. cbn [Session.boxes Session.with_boxes].
    now apply assign_keys_present with (b := b).
  - intros k Hk.
    destruct (lookup boxKey (Session.boxes s)); cbn [Session.boxes Session.with_boxes];
      now apply lookup_assign_other.
  - now destruct (lookup boxKey (Session.boxes s)).
  - now destruct (lookup boxKey (Session.boxes s)).
Qed.

(* ================================================================== *)
(** * Shelf keys and box keys *)

Lemma In_dropWhile (p : ascii -> bool) c s :
  In c s -> p c = false -> In c (dropWhile p s).
Proof.
  induction s as [|a s IH]; simpl; [tauto|].
  intros [->|H] Hc; [now rewrite Hc; left|].
  destruct (p a); [auto | now right].
Qed.

Lemma In_trim c s : In c s -> is_space c = false -> In c (trim s).
Proof.
  intros H Hc. unfold trim, trimEnd, trimStart.
  rewrite <- in_rev. apply In_dropWhile; [|assumption].
  rewrite <- in_rev. now apply In_dropWhile.
Qed.

Lemma digit_survives s :
  (exists c, In c s /\ is_digit c = true) ->
  ~ none is_digit (trim (toUpperCase s)).
Proof.
  intros (c & Hin & Hd) Hn.
  assert (H : In c (trim (toUpperCase s))).
  { apply In_trim; [|now apply digit_not_space].
    unfold toUpperCase. rewrite <- (digit_upper_fixed _ Hd). now apply in_map. }
  unfold none in Hn. rewrite Forall_forall in Hn. specialize (Hn _ H). congruence.
Qed.

(** X7: whenever [normalizeShelfLocation] accepts a value,
    [normalizeBoxNumber] gives the same key; the key is a shelf
    location and not a box location for [isShelfLocation] and
    [isBoxLocation], and both normalisers leave it as it is. *)
Theorem normalizeShelfLocation_agrees (value : option str) (k : str) :
  normalizeShelfLocation value = Some k ->
  normalizeBoxNumber value = Some k
  /\ isShelfLocation (Some k) = true
  /\ isBoxLocation (Some k) = false
  /\ normalizeShelfLocation (Some k) = Some k
  /\ normalizeBoxNumber (Some k) = Some k.
Proof.
  intros H. destruct value as [[|a s]|]; try discriminate.
  assert (Hs : a :: s <> []) by discriminate.
  destruct (normalizeShelfLocation_canonical Hs H) as [Hc _].
  apply normalizeShelfLocation_iff in H; [|assumption].
  destruct H as (d & l & H & ->).
  split; [now apply normalize_shelf|].
  split; [reflexivity|]. split; [reflexivity|]. split; [exact Hc|].
  apply normalizeShelfLocation_iff in Hc; [|discriminate].
  destruct Hc as (d' & l' & H' & E).
  rewrite E at 2. now apply normalize_shelf.
Qed.

Lemma normalizeShelfLocation_agrees_witness :
  normalizeBoxNumber (Some (lit " s2c ")) = Some (lit "SHELF 2C")
  /\ isShelfLocation (Some (lit "SHELF 2C")) = true
  /\ isBoxLocation (Some (lit "SHELF 2C")) = false
  /\ normalizeShelfLocation (Some (lit "SHELF 2C")) = Some (lit "SHELF 2C")
  /\ normalizeBoxNumber (Some (lit "SHELF 2C")) = Some (lit "SHELF 2C").
Proof.
  apply (@normalizeShelfLocation_agrees (Some (lit " s2c "))). vm_compute. reflexivity.
Defined.

(** X8: the key [normalizeBoxNumber] gives a text that contains a digit
    is a shelf location or a box location, never both: it is the shelf
    key exactly when [normalizeShelfLocation] accepts the text, and a
    key that starts with BOX otherwise. *)
Theorem normalizeBoxNumber_classifies (s k : str) :
  (exists c, In c s /\ is_digit c = true) ->
  normalizeBoxNumber (Some s) = Some k ->
  (isShelfLocation (Some k) = true /\ isBoxLocation (Some k) = false
   /\ normalizeShelfLocation (Some s) = Some k)
  \/ (isBoxLocation (Some k) = true /\ isShelfLocation (Some k) = false
      /\ normalizeShelfLocation (Some s) = None).
Proof.
  intros Hd Hk.
  assert (Hs : s <> []) by (destruct Hd as (c & Hin & _); now destruct s).
  apply digit_survives in Hd.
  destruct (normalize_cases (upper_trim_upper s)) as [(d & l & H)|[(Hn & ds & H)|H]].
  - left. rewrite (normalize_shelf Hs H) in Hk. injection Hk as <-.
    split; [reflexivity|]. split; [reflexivity|].
    apply normalizeShelfLocation_iff; [assumption|]. now exists d, l.
  - right. rewrite (normalize_box Hs Hn H) in Hk. injection Hk as <-.
    split; [reflexivity|]. split; [reflexivity|].
    destruct (normalizeShelfLocation (Some s)) as [shelf|] eqn:E; [|reflexivity].
    apply normalizeShelfLocation_iff in E; [|assumption].
    destruct E as (d & l & E & _). now elim (Hn d l).
  - contradiction.
Qed.

Lemma normalizeBoxNumber_classifies_witness :
  (isShelfLocation (Some (lit "BOX042")) = true
   /\ isBoxLocation (Some (lit "BOX042")) = false
   /\ normalizeShelfLocation (Some (lit "crate 42")) = Some (lit "BOX042"))
  \/ (isBoxLocation (Some (lit "BOX042")) = true
      /\ isShelfLocation (Some (lit "BOX042")) = false
      /\ normalizeShelfLocation (Some (lit "crate 42")) = None).
Proof.
  apply (@normalizeBoxNumber_classifies (lit "crate 42")).
  - exists "4"%char. split; [vm_compute; tauto | reflexivity].
  - vm_compute. reflexivity.
Defined.

Lemma ensureBoxExists_spec_witness :
  let s := Session.mk None None
             [(lit "BOX001", BoxData.mk [] true (Some []) None)] in
  lookup (lit "BOX001") (Session.boxes (ensureBoxExists (lit "BOX001") s))
  = Some (BoxData.mk [] true None None)
  /\ map fst (Session.boxes (ensureBoxExists (lit "BOX001") s))
     = map fst (Session.boxes s).
Proof.
  intros s.
  destruct (ensureBoxExists_spec (lit "BOX001") s) as (_ & H & _).
  apply (H (BoxData.mk [] true (Some []) None)). reflexivity.
Defined.

(* ================================================================== *)
(** * Quantities and the completion migration *)

Lemma lookup_map_snd (f : BoxData.t -> BoxData.t) k l :
  lookup k (map (fun kv => (fst kv, f (snd kv))) l) = option_map f (lookup k l).
Proof.
  induction l as [|[k' v] r IH]; [reflexivity|].
  cbn [map fst snd lookup].
  destruct (str_eqb k k'); [reflexivity | exact IH].
Qed.

Lemma keys_map_snd (f : BoxData.t -> BoxData.t) (l : Boxes) :
  map fst (map (fun kv => (fst kv, f (snd kv))) l) = map fst l.
Proof. rewrite map_map. now apply map_ext. Qed.

Lemma normalizeItem_qty i : qty_falsy (Item.qty (normalizeItem i)) = false.
Proof.
  unfold normalizeItem.
  destruct (qty_is_one (Item.qty i) || qty_falsy (Item.qty i)) eqn:E.
  - destruct (gt_one (Parsed.qty (parseQuantity (Item.name i)))) eqn:G.
    + cbn [Item.qty]. now destruct (gt_one_not_one_nor_falsy _ G).
    + destruct (qty_falsy (Item.qty i)) eqn:F; [reflexivity | exact F].
  - now apply orb_false_iff in E.
Qed.

Lemma normalizeItem_id i : Item.id (normalizeItem i) = Item.id i.
Proof.
  unfold normalizeItem.
  destruct (_ || _); [|reflexivity].
  destruct (gt_one _); [reflexivity|].
  now destruct (qty_falsy _).
Qed.

(** X9: [normalizeItemQuantities] leaves no item without a quantity or
    with quantity 0, keeps the keys, the items' ids and order and the
    other fields of every box, and a second run changes nothing. *)
Theorem normalizeItemQuantities_settles (s : Session.t) :
  let s' := normalizeItemQuantities s in
  normalizeItemQuantities s' = s'
  /\ map fst (Session.boxes s') = map fst (Session.boxes s)
  /\ (forall k b i, In (k, b) (Session.boxes s') -> In i (BoxData.items b) ->
        qty_falsy (Item.qty i) = false)
  /\ (forall k, map Item.id (itemsAt k (Session.boxes s'))
                = map Item.id (itemsAt k (Session.boxes s)))
  /\ (forall k b, lookup k (Session.boxes s) = Some b ->
        exists b', lookup k (Session.boxes s') = Some b'
                   /\ BoxData.completed b' = BoxData.completed b
                   /\ BoxData.completedAt b' = BoxData.completedAt b
                   /\ BoxData.secondaryLocation b' = BoxData.secondaryLocation b).
Proof.
  intros s'. unfold s', normalizeItemQuantities.
  cbn [Session.boxes Session.with_boxes].
  set (f := fun b => BoxData.mk (map normalizeItem (BoxData.items b))
                                (BoxData.completed b) (BoxData.completedAt b)
                                (BoxData.secondaryLocation b)).
  change (fun kv : list ascii * BoxData.t =>
            (fst kv,
             BoxData.mk (map normalizeItem (BoxData.items (snd kv)))
                        (BoxData.completed (snd kv)) (BoxData.completedAt (snd kv))
                        (BoxData.secondaryLocation (snd kv))))
    with (fun kv : list ascii * BoxData.t => (fst kv, f (snd kv))).
  repeat split.
  - unfold Session.with_boxes. cbn [Session.id Session.startedAt]. f_equal.
    rewrite map_map. apply map_ext. intros [k b]. cbn [fst snd]. f_equal.
    unfold f. cbn. f_equal. rewrite map_map. apply map_ext, normalizeItem_idem.
  - apply keys_map_snd.
  - intros k b i Hb Hi. apply in_map_iff in Hb. destruct Hb as ([k0 b0] & E & _).
    injection E as <- <-. unfold f in Hi. cbn in Hi.
    apply in_map_iff in Hi. destruct Hi as (i0 & <- & _). apply normalizeItem_qty.
  - intros k. unfold itemsAt. rewrite lookup_map_snd.
    destruct (lookup k (Session.boxes s)) as [b|]; [|reflexivity].
    cbn. rewrite map_map. apply map_ext, normalizeItem_id.
  - intros k b L. rewrite lookup_map_snd, L. eexists. split; [reflexivity|].
    now repeat split.
Qed.

Lemma normalizeItemQuantities_settles_witness :
  let it := Item.mk 1 (lit "bolts x3") None (lit "t") false [] in
  let s := Session.mk None None [(lit "BOX001", BoxData.mk [it] false None None)] in
  exists b', lookup (lit "BOX001") (Session.boxes (normalizeItemQuantities s)) = Some b'
             /\ BoxData.completed b' = false
             /\ BoxData.completedAt b' = None
             /\ BoxData.secondaryLocation b' = None.
Proof.
  intros it s.
  destruct (normalizeItemQuantities_settles s) as (_ & _ & _ & _ & H).
  apply (H (lit "BOX001") (BoxData.mk [it] false None None)). reflexivity.
Defined.

Lemma currentSession_updateCurrent f w :
  currentSession (updateCurrent f w) = f (currentSession w).
Proof.
  unfold updateCurrent, currentSession.
  now destruct w as [ws [|s] h i m cb e u].
Qed.

Lemma markBox_idem now now' b : markBox now' (markBox now b) = markBox now b.
Proof.
  unfold markBox. destruct b as [[|i its] [|] ca sl]; reflexivity.
Qed.

Lemma markBox_items now b : BoxData.items (markBox now b) = BoxData.items b.
Proof. unfold markBox. now destruct b as [[|i its] [|] ca sl]. Qed.

Lemma updateCurrent_fixed f w :
  f (currentSession w) = currentSession w -> updateCurrent f w = w.
Proof.
  unfold updateCurrent, currentSession. destruct w as [ws [|s] h i m cb e u]; cbn.
  - intros ->. reflexivity.
  - intros ->. reflexivity.
Qed.

(** X10: the one-time migration [markExistingBoxesAsCompleted], when
    storage does not hold its flag, leaves every box that has items
    completed; a box it marks gets the current time as [completedAt]
    unless it had a time stamp already.  It keeps the items of every
    box, keeps the boxes that have no items or are completed already,
    and a further run changes nothing whether or not the flag was
    stored.  With the flag it changes nothing. *)
Theorem markExistingBoxesAsCompleted_spec (now : str) (w : World) :
  now <> [] ->
  let w' := markExistingBoxesAsCompleted now false w in
  (forall k b, In (k, b) (Session.boxes (currentSession w')) ->
     BoxData.items b <> [] -> BoxData.completed b = true)
  /\ (forall k b, lookup k (Session.boxes (currentSession w)) = Some b ->
        BoxData.items b <> [] -> BoxData.completed b = false ->
        exists stamp,
          lookup k (Session.boxes (currentSession w'))
          = Some (BoxData.mk (BoxData.items b) true (Some stamp)
                             (BoxData.secondaryLocation b))
          /\ stamp <> []
          /\ (truthy (BoxData.completedAt b) = false -> stamp = now))
  /\ (forall k, itemsAt k (Session.boxes (currentSession w'))
                = itemsAt k (Session.boxes (currentSession w)))
  /\ (forall k b, lookup k (Session.boxes (currentSession w)) = Some b ->
        BoxData.items b = [] \/ BoxData.completed b = true ->
        lookup k (Session.boxes (currentSession w')) = Some b)
  /\ (forall now' done, markExistingBoxesAsCompleted now' done w' = w')
  /\ markExistingBoxesAsCompleted now true w = w.
Proof.
  intros Hn w'. unfold w', markExistingBoxesAsCompleted.
  rewrite currentSession_updateCurrent. cbn [Session.boxes Session.with_boxes].
  split; [|split; [|split; [|split; [|split]]]].
  - intros k b H Hi. apply in_map_iff in H. destruct H as ([k0 b0] & E & _).
    injection E as <- <-. cbn [snd] in *. unfold markBox in *.
    destruct b0 as [[|i its] [|] ca sl]; cbn in *; congruence.
  - intros k b L Hi Hc. rewrite (lookup_map_snd (markBox now)), L. cbn.
    unfold markBox. destruct b as [[|i its] [|] ca sl]; cbn in *; try congruence.
    destruct ca as [[|c ca]|]; cbn.
    + exists now. repeat split; auto.
    + exists (c :: ca). repeat split; [discriminate | discriminate].
    + exists now. repeat split; auto.
  - intros k. unfold itemsAt. rewrite (lookup_map_snd (markBox now)).
    destruct (lookup k _); [apply markBox_items | reflexivity].
  - intros k b L Hb. rewrite (lookup_map_snd (markBox now)), L. cbn. f_equal.
    unfold markBox. destruct b as [[|i its] [|] ca sl]; cbn in *; try reflexivity.
    destruct Hb; discriminate.
  - intros now' done. destruct done; [reflexivity|].
    apply updateCurrent_fixed. rewrite currentSession_updateCurrent.
    unfold Session.with_boxes. cbn [Session.id Session.startedAt Session.boxes].
    f_equal. rewrite map_map. apply map_ext. intros [k b]. cbn [fst snd].
    now rewrite markBox_idem.
  - reflexivity.
Qed.

Lemma markExistingBoxesAsCompleted_spec_witness :
  let it := Item.mk 1 (lit "tape") (Some (Number.Fin 1)) (lit "t") false [] in
  let s := Session.mk None None [(lit "BOX001", BoxData.mk [it] false None None)] in
  let w := loadSessionData s (lit "2024-01-01T00:00:00.000Z") true (initialWorld None) in
  exists stamp,
    lookup (lit "BOX001")
           (Session.boxes
              (currentSession
                 (markExistingBoxesAsCompleted (lit "2024-02-02T00:00:00.000Z") false w)))
    = Some (BoxData.mk [it] true (Some stamp) None)
    /\ stamp <> []
    /\ (truthy None = false -> stamp = lit "2024-02-02T00:00:00.000Z").
Proof.
  intros it s w.
  destruct (@markExistingBoxesAsCompleted_spec (lit "2024-02-02T00:00:00.000Z") w
              ltac:(discriminate)) as (_ & H & _).
  apply (H (lit "BOX001") (BoxData.mk [it] false None None));
    [reflexivity | discriminate | reflexivity].
Defined.

(* ================================================================== *)
(** * Recent locations *)







(* ================================================================== *)
(** * Search *)

Lemma maxSearchResults_pos cfg : (1 <= maxSearchResults cfg)%nat.
Proof. destruct cfg as [[|p]|]; simpl; lia. Qed.

Section Search.
Variable searchTerm : str.
Variable maxResults : nat.

Lemma searchItems_prefix boxKey secondary items : forall results,
  exists ext,
    searchItems searchTerm boxKey secondary maxResults items results
    = results ++ ext.
Proof.
  induction items as [|item rest IH]; intros results; cbn [searchItems].
  - exists []. now rewrite app_nil_r.
  - destruct (Item.name item) as [|c n]; [apply IH|].
    destruct (includes _ _); [|apply IH].
    destruct (_ <=? _)%nat.
    + eexists. reflexivity.
    + destruct (IH (results ++ [ItemResult (c :: n) (qty_or_one (Item.qty item))
                                          boxKey secondary])) as (ext & ->).
      eexists. rewrite <- app_assoc. reflexivity.
Qed.

Lemma searchItems_length boxKey secondary items : forall results,
  (List.length results <= maxResults)%nat ->
  (List.length (searchItems searchTerm boxKey secondary maxResults items results)
   <= S maxResults)%nat.
Proof.
  induction items as [|item rest IH]; intros results H; cbn [searchItems].
  - lia.
  - destruct (Item.name item) as [|c n]; [now apply IH|].
    destruct (includes _ _); [|now apply IH].
    destruct (_ <=? _)%nat eqn:E.
    + rewrite length_app. simpl. lia.
    + apply Nat.leb_gt in E. apply IH. lia.
Qed.

Lemma searchBoxes_prefix boxes : forall results,
  exists ext, searchBoxes searchTerm maxResults boxes results = results ++ ext.
Proof.
  induction boxes as [|[boxKey boxData] rest IH]; intros results; cbn [searchBoxes].
  - exists []. now rewrite app_nil_r.
  - set (secondary := or_empty _).
    set (results1 := if _ && _ then _ else results).
    assert (H1 : exists e1, results1 = results ++ e1).
    { unfold results1. destruct (_ && _); eexists; [reflexivity|].
      now rewrite app_nil_r. }
    destruct H1 as (e1 & H1).
    destruct (searchItems_prefix boxKey secondary (BoxData.items boxData) results1)
      as (e2 & ->).
    destruct (_ <=? _)%nat.
    + exists (e1 ++ e2). now rewrite H1, app_assoc.
    + destruct (IH (results1 ++ e2)) as (e3 & ->).
      exists (e1 ++ e2 ++ e3). now rewrite H1, !app_assoc.
Qed.

Lemma searchBoxes_length boxes : forall results,
  (List.length results < maxResults)%nat ->
  (List.length (searchBoxes searchTerm maxResults boxes results) <= S maxResults)%nat.
Proof.
  induction boxes as [|[boxKey boxData] rest IH]; intros results H; cbn [searchBoxes].
  - lia.
  - set (secondary := or_empty _).
    set (results1 := if _ && _ then _ else results).
    assert (H1 : (List.length results1 <= maxResults)%nat).
    { unfold results1. destruct (_ && _); [|lia]. rewrite length_app. simpl. lia. }
    pose proof (searchItems_length boxKey secondary (BoxData.items boxData) _ H1) as H2.
    destruct (_ <=? _)%nat eqn:E; [exact H2|].
    apply Nat.leb_gt in E. now apply IH.
Qed.

Lemma searchItems_sound boxKey boxData boxes results :
  In (boxKey, boxData) boxes ->
  forall items, incl items (BoxData.items boxData) ->
  forall r,
    In r (searchItems searchTerm boxKey
            (or_empty (or_null (BoxData.secondaryLocation boxData)))
            maxResults items results) ->
    In r results \/ itemHit searchTerm boxes r.
Proof.
  intros Hb items. revert results.
  induction items as [|item rest IH]; intros results Hi r; cbn [searchItems];
    [now left|].
  assert (Hrest : incl rest (BoxData.items boxData))
    by (intros x Hx; apply Hi; now right).
  destruct (Item.name item) as [|c n] eqn:En; [now apply IH|].
  destruct (includes _ _) eqn:Einc; [|now apply IH].
  assert (Hhit : itemHit searchTerm boxes
                   (ItemResult (c :: n) (qty_or_one (Item.qty item)) boxKey
                      (or_empty (or_null (BoxData.secondaryLocation boxData))))).
  { exists boxKey, boxData, item. rewrite En.
    repeat split; auto; [apply Hi; now left | discriminate]. }
  destruct (_ <=? _)%nat.
  - intros Hr. apply in_app_or in Hr. destruct Hr as [Hr|[<-|[]]]; auto.
  - intros Hr. apply IH in Hr; [|assumption].
    destruct Hr as [Hr|Hr]; [|now right].
    apply in_app_or in Hr. destruct Hr as [Hr|[<-|[]]]; auto.
Qed.

Lemma searchBoxes_sound all_boxes boxes : forall results,
  incl boxes all_boxes ->
  forall r, In r (searchBoxes searchTerm maxResults boxes results) ->
            In r results \/ itemHit searchTerm all_boxes r
            \/ locationHit searchTerm all_boxes r.
Proof.
  induction boxes as [|[boxKey boxData] rest IH]; intros results Hi r;
    cbn [searchBoxes]; [now left|].
  assert (Hb : In (boxKey, boxData) all_boxes) by (apply Hi; now left).
  assert (Hrest : incl rest all_boxes) by (intros x Hx; apply Hi; now right).
  set (results1 := if _ && _ then _ else results).
  assert (H1 : forall x, In x results1 ->
                         In x results \/ locationHit searchTerm all_boxes x).
  { unfold results1. destruct (includes _ _ || includes _ _) eqn:Em; cbn [andb];
      [|now left].
    destruct (_ <? _)%nat; [|now left].
    intros x Hx. apply in_app_or in Hx. destruct Hx as [Hx|[<-|[]]]; [now left|].
    right. now exists boxKey, boxData. }
  assert (H2 : forall x,
             In x (searchItems searchTerm boxKey
                     (or_empty (or_null (BoxData.secondaryLocation boxData)))
                     maxResults (BoxData.items boxData) results1) ->
             In x results \/ itemHit searchTerm all_boxes x
             \/ locationHit searchTerm all_boxes x).
  { intros x Hx.
    apply (@searchItems_sound boxKey boxData all_boxes results1 Hb _ (incl_refl _))
      in Hx.
    destruct Hx as [Hx|Hx]; [|tauto].
    destruct (H1 _ Hx); tauto. }
  destruct (_ <=? _)%nat; [apply H2|].
  intros Hr. apply IH in Hr; [|assumption].
  destruct Hr as [Hr|Hr]; [now apply H2 | now right].
Qed.

Lemma searchItems_complete boxKey secondary items : forall results,
  (List.length (searchItems searchTerm boxKey secondary maxResults items results)
   < maxResults)%nat ->
  forall item, In item items -> Item.name item <> [] ->
    includes searchTerm (toLowerCase (Item.name item)) = true ->
    In (ItemResult (Item.name item) (qty_or_one (Item.qty item)) boxKey secondary)
       (searchItems searchTerm boxKey secondary maxResults items results).
Proof.
  induction items as [|it rest IH]; intros results Hlen item Hin Hn Hinc; [easy|].
  cbn [searchItems] in *.
  destruct Hin as [->|Hin].
  - destruct (Item.name item) as [|c n] eqn:En; [congruence|].
    rewrite Hinc in *.
    destruct (_ <=? _)%nat eqn:E.
    + apply in_or_app. right. now left.
    + destruct (searchItems_prefix boxKey secondary rest
                  (results ++ [ItemResult (c :: n) (qty_or_one (Item.qty item))
                                          boxKey secondary])) as (ext & ->).
      apply in_or_app. left. apply in_or_app. right. now left.
  - destruct (Item.name it) as [|c n]; [now apply IH|].
    destruct (includes searchTerm (toLowerCase (c :: n))); [|now apply IH].
    destruct (_ <=? _)%nat eqn:E.
    + apply Nat.leb_le in E. lia.
    + now apply IH.
Qed.

Lemma searchBoxes_complete boxes : forall results,
  (List.length (searchBoxes searchTerm maxResults boxes results) < maxResults)%nat ->
  forall boxKey boxData, In (boxKey, boxData) boxes ->
    ((includes searchTerm (toLowerCase boxKey)
      || includes searchTerm
           (toLowerCase (or_empty (or_null (BoxData.secondaryLocation boxData)))))
     = true ->
     In (LocationResult boxKey) (searchBoxes searchTerm maxResults boxes results))
    /\ (forall item, In item (BoxData.items boxData) -> Item.name item <> [] ->
          includes searchTerm (toLowerCase (Item.name item)) = true ->
          In (ItemResult (Item.name item) (qty_or_one (Item.qty item)) boxKey
                (or_empty (or_null (BoxData.secondaryLocation boxData))))
             (searchBoxes searchTerm maxResults boxes results)).
Proof.
  induction boxes as [|[k b] rest IH]; intros results Hlen boxKey boxData Hin; [easy|].
  cbn [searchBoxes] in *.
  set (secondary := or_empty (or_null (BoxData.secondaryLocation b))) in *.
  set (results1 := if _ && _ then _ else results) in *.
  set (results2 := searchItems searchTerm k secondary maxResults (BoxData.items b)
                               results1) in *.
  destruct (maxResults <=? List.length results2)%nat eqn:E.
  { apply Nat.leb_le in E. lia. }
  apply Nat.leb_gt in E.
  destruct (searchBoxes_prefix rest results2) as (e3 & E3).
  destruct Hin as [Hin|Hin]; [|now apply IH].
  injection Hin as -> ->. rewrite E3. split.
  - intros Hm. apply in_or_app. left.
    destruct (searchItems_prefix boxKey secondary (BoxData.items boxData) results1)
      as (e2 & E2).
    fold results2 in E2. rewrite E2. apply in_or_app. left.
    assert (Hl : (List.length results1 < maxResults)%nat).
    { rewrite E2, length_app in E. lia. }
    unfold results1 in *. fold secondary in Hm. rewrite Hm in *. cbn [andb] in *.
    destruct (List.length results <? maxResults)%nat eqn:El.
    + apply in_or_app. right. now left.
    + apply Nat.ltb_ge in El. lia.
  - intros item Hi Hn Hinc. apply in_or_app. left.
    now apply searchItems_complete.
Qed.

End Search.

Lemma performSearch_some term cfg w results :
  performSearch term cfg w = Some results ->
  results = searchBoxes (toLowerCase (trim term)) (maxSearchResults cfg)
                        (windowBoxes w) [].
Proof.
  unfold performSearch. destruct (toLowerCase (trim term)); [discriminate|].
  now intros [= <-].
Qed.

(** X12: [performSearch] clears the results for a blank term.  The list
    it renders can hold one entry more than the configured maximum (50
    by default), and no more: the location entry of a box is added
    under the limit, and the first matching item of the same box is
    added before the limit is checked again. *)
Theorem performSearch_bound :
  (forall term cfg w results,
     performSearch term cfg w = Some results ->
     (List.length results <= S (maxSearchResults cfg))%nat)
  /\ (exists term cfg w results,
        performSearch term cfg w = Some results
        /\ List.length results = S (maxSearchResults cfg))
  /\ (forall term cfg w, all is_space term -> performSearch term cfg w = None).
Proof.
  split; [|split].
  - intros term cfg w results H. apply performSearch_some in H. subst results.
    apply searchBoxes_length. simpl. apply maxSearchResults_pos.
  - exists (lit "box"), (Some 1%N),
      (setWindowBoxes (initialWorld None)
         [(lit "BOX001",
           BoxData.mk [Item.mk 1 (lit "box cutter") (Some (Number.Fin 1))
                               (lit "t") false []]
                      false None None)]).
    eexists. split; [vm_compute; reflexivity | reflexivity].
  - intros term cfg w H. unfold performSearch. now rewrite (all_space_trim H).
Qed.

Lemma performSearch_bound_witness :
  performSearch (lit "   ") None (initialWorld None) = None.
Proof.
  destruct performSearch_bound as (_ & _ & H). apply H.
  repeat constructor.
Defined.

(** X13: every entry [performSearch] renders is a location or a named
    item of the session that contains the lower-cased, trimmed term
    (for a location: in its key or its secondary location), with the
    item's quantity (1 when it has none).  When the list is shorter
    than the maximum, it holds every such location and item. *)
Theorem performSearch_sound_complete (term : str) (cfg : option N) (w : World)
  (results : list SearchResult) :
  performSearch term cfg w = Some results ->
  (forall r, In r results ->
     itemHit (toLowerCase (trim term)) (windowBoxes w) r
     \/ locationHit (toLowerCase (trim term)) (windowBoxes w) r)
  /\ ((List.length results < maxSearchResults cfg)%nat ->
      forall r, itemHit (toLowerCase (trim term)) (windowBoxes w) r
                \/ locationHit (toLowerCase (trim term)) (windowBoxes w) r ->
                In r results).
Proof.
  intros H. apply performSearch_some in H. subst results. split.
  - intros r Hr.
    apply (@searchBoxes_sound _ _ (windowBoxes w) (windowBoxes w) [] (incl_refl _))
      in Hr.
    destruct Hr as [[]|Hr]; exact Hr.
  - intros Hlen r [(k & b & item & Hin & Hi & Hn & Hinc & ->)
                  |(k & b & Hin & Hm & ->)].
    + now apply (@searchBoxes_complete _ _ _ _ Hlen k b Hin).
    + now apply (@searchBoxes_complete _ _ _ _ Hlen k b Hin).
Qed.

Lemma performSearch_sound_complete_witness :
  let w := setWindowBoxes (initialWorld None)
             [(lit "BOX001",
               BoxData.mk [Item.mk 1 (lit "Duct Tape") None (lit "t") false []]
                          false None (Some (lit "SHELF 2C")))] in
  let results := [ItemResult (lit "Duct Tape") (Number.Fin 1) (lit "BOX001")
                             (lit "SHELF 2C")] in
  (forall r, In r results ->
     itemHit (toLowerCase (trim (lit " TAPE "))) (windowBoxes w) r
     \/ locationHit (toLowerCase (trim (lit " TAPE "))) (windowBoxes w) r)
  /\ ((List.length results < maxSearchResults None)%nat ->
      forall r, itemHit (toLowerCase (trim (lit " TAPE "))) (windowBoxes w) r
                \/ locationHit (toLowerCase (trim (lit " TAPE "))) (windowBoxes w) r ->
                In r results).
Proof.
  intros w results.
  apply (@performSearch_sound_complete (lit " TAPE ") None w results).
  vm_compute. reflexivity.
Defined.

(* ================================================================== *)
(** * CSV export *)

Lemma readQuotedBody_doubleQuotes name : forall rest fuel,
  (forall c r, rest = c :: r -> c <> quote) ->
  (List.length (doubleQuotes name ++ quote :: rest) <= fuel)%nat ->
  readQuotedBody fuel (doubleQuotes name ++ quote :: rest) = Some (name, rest).
Proof.
  induction name as [|a n IH]; intros rest fuel Hrest Hlen.
  - cbn [doubleQuotes flat_map app] in *.
    destruct fuel as [|fuel]; [cbn in Hlen; lia|].
    cbn [readQuotedBody]. rewrite Ascii.eqb_refl.
    destruct rest as [|c r]; [reflexivity|].
    destruct (Ascii.eqb c quote) eqn:E; [|reflexivity].
    apply Ascii.eqb_eq in E. now elim (Hrest c r).
  - unfold doubleQuotes in *. cbn [flat_map] in *.
    fold (doubleQuotes n) in *.
    destruct (Ascii.eqb a quote) eqn:E.
    + apply Ascii.eqb_eq in E. subst a.
      cbn [app] in *. destruct fuel as [|fuel]; [cbn in Hlen; lia|].
      cbn [readQuotedBody]. rewrite !Ascii.eqb_refl.
      rewrite (IH rest fuel Hrest); [reflexivity|].
      cbn [List.length] in Hlen. lia.
    + cbn [app] in *. destruct fuel as [|fuel]; [cbn in Hlen; lia|].
      cbn [readQuotedBody]. rewrite E.
      rewrite (IH rest fuel Hrest); [reflexivity|].
      cbn [List.length] in Hlen. lia.
Qed.

(** What the reader consumes: the field, one more character for each
    double quote of the field, and the closing quote. *)
Lemma readQuotedBody_length fuel : forall s field rest,
  readQuotedBody fuel s = Some (field, rest) ->
  List.length s
  = (List.length field + List.length (filter (Ascii.eqb quote) field)
     + 1 + List.length rest)%nat.
Proof.
  induction fuel as [|fuel IH]; intros s field rest H; [discriminate|].
  cbn [readQuotedBody] in H. destruct s as [|c r]; [discriminate|].
  destruct (Ascii.eqb c quote) eqn:E.
  - destruct r as [|c' r'].
    + injection H as <- <-. reflexivity.
    + destruct (Ascii.eqb c' quote) eqn:E'.
      * destruct (readQuotedBody fuel r') as [[f' rest']|] eqn:R; [|discriminate].
        injection H as <- <-. apply IH in R.
        cbn [List.length filter]. rewrite Ascii.eqb_refl. cbn [List.length]. lia.
      * injection H as <- <-. cbn [List.length filter]. lia.
  - destruct (readQuotedBody fuel r) as [[f' rest']|] eqn:R; [|discriminate].
    injection H as <- <-. apply IH in R.
    cbn [List.length filter]. rewrite Ascii.eqb_sym, E. cbn [List.length]. lia.
Qed.

Lemma In_join sep tags tag c : In tag tags -> In c tag -> In c (join sep tags).
Proof.
  induction tags as [|t r IH]; [easy|].
  intros [->|Hin] Hc; cbn [join].
  - destruct r; [assumption | apply in_or_app; now left].
  - destruct r as [|t' r']; [easy|].
    apply in_or_app. right. apply in_or_app. right. now apply IH.
Qed.

(** X14: in every line of the CSV export the Item Name column reads
    back exactly: a reader of quoted fields gets the name of the item,
    whatever characters it holds, and is left with the other columns.
    The Notes column is not escaped: when a tag holds a double quote,
    the column does not read back as the joined tags.  When no item
    has a name, the export is the header line alone. *)
Theorem generateCSV_name_roundtrip :
  (forall boxNumber secondaryLoc item,
     readQuotedField (csvRow boxNumber secondaryLoc item)
     = Some (Item.name item, csvTail boxNumber secondaryLoc item))
  /\ (forall item tag rest,
        In tag (Item.tags item) -> In quote tag ->
        readQuotedField (csvNotes item ++ rest)
        <> Some (join (lit ", ") (Item.tags item), rest))
  /\ (forall w,
        (forall k b i, In (k, b) (windowBoxes w) -> In i (BoxData.items b) ->
                       Item.name i = []) ->
        generateCSV w = csvHeader).
Proof.
  split; [|split].
  - intros boxNumber secondaryLoc item. unfold csvRow, readQuotedField.
    cbn [app]. rewrite Ascii.eqb_refl, <- app_assoc. cbn [app].
    apply readQuotedBody_doubleQuotes; [|lia].
    unfold csvTail. cbn [lit list_ascii_of_string app].
    intros c r [= <- _]. discriminate.
  - intros item tag rest Hin Hq H.
    unfold csvNotes in H. destruct (Item.tags item) as [|t r] eqn:Et; [easy|].
    unfold readQuotedField in H. cbn [app] in H. rewrite Ascii.eqb_refl in H.
    apply readQuotedBody_length in H.
    rewrite <- app_assoc in H. rewrite length_app in H. cbn [app List.length] in H.
    assert (Hc : In quote (join (lit ", ") (t :: r))) by now apply In_join with tag.
    assert (Hf : In quote (filter (Ascii.eqb quote) (join (lit ", ") (t :: r)))).
    { apply filter_In. split; [exact Hc | apply Ascii.eqb_refl]. }
    destruct (filter (Ascii.eqb quote) (join (lit ", ") (t :: r))); [easy|].
    cbn [List.length] in H. lia.
  - intros w H. unfold generateCSV.
    destruct (windowBoxes w) as [|kv l] eqn:E; [reflexivity|].
    rewrite <- E in *. clear E.
    assert (R : flat_map csvRows (windowBoxes w) = []).
    { induction (windowBoxes w) as [|[k b] boxes IH]; [reflexivity|].
      cbn [flat_map].
      rewrite IH by (intros k' b' i Hb Hi; apply (H k' b' i); [now right | exact Hi]).
      rewrite app_nil_r. unfold csvRows. cbn [fst snd].
      assert (Hb : forall i, In i (BoxData.items b) -> Item.name i = [])
        by (intros i Hi; apply (H k b i); [now left | exact Hi]).
      induction (BoxData.items b) as [|i its IHi]; [reflexivity|].
      cbn [flat_map]. rewrite (Hb i) by now left.
      apply IHi. intros j Hj. apply Hb. now right. }
    rewrite R. apply app_nil_r.
Qed.

Lemma generateCSV_name_roundtrip_witness :
  let item := Item.mk 1 (lit "bolt, M6") None (lit "t") false
                      [quote :: lit "heavy"] in
  readQuotedField (csvNotes item ++ [newline])
  <> Some (join (lit ", ") (Item.tags item), [newline]).
Proof.
  intros item.
  destruct generateCSV_name_roundtrip as (_ & H & _).
  apply (H item (quote :: lit "heavy") [newline]); cbn; auto.
Defined.

(* ================================================================== *)
(** * Names shown with their quantity *)

Lemma trimmed_app_digits (name ds : str) (mid : str) :
  trimmed name -> name <> [] -> ds <> [] -> all is_digit ds ->
  trimmed (name ++ mid ++ ds).
Proof.
  intros Ht Hn Hd Hdd.
  destruct name as [|a name]; [congruence|].
  destruct (exists_last Hd) as (r & c & ->).
  pose proof (trimmed_head Ht) as Ha.
  assert (Hc : is_space c = false).
  { apply digit_not_space. unfold all in Hdd. rewrite Forall_forall in Hdd.
    apply Hdd. rewrite in_app_iff. simpl. auto. }
  replace ((a :: name) ++ mid ++ r ++ [c]) with (a :: (name ++ mid ++ r) ++ [c])
    by (cbn [app]; now rewrite <- !app_assoc).
  now apply trimmed_ends.
Qed.

(** X15: a name followed by a space, [x] and a quantity written by
    Number-to-string conversion, as the edit field of the item list
    shows an item whose quantity is above 1, is parsed back into that
    name and that quantity: for every trimmed, non-empty name and every
    non-zero quantity that prints in plain digits. *)
Theorem parseQuantity_reads_back (name : str) (q : Number.t) :
  trimmed name -> name <> [] ->
  (forall v, q = Number.Fin v -> Number.round v = Number.Fin v) ->
  plainDigits q -> Number.truthy q = true ->
  parseQuantity (name ++ lit " x" ++ Number.toString q) = Parsed.mk name q.
Proof.
  intros Ht Hn Hdbl Hp Hq.
  pose proof (NumberFacts.toString_plain_roundtrip Hdbl Hp) as Hr.
  assert (Hds : Number.toString q <> []).
  { intros E. rewrite E in Hr. cbn in Hr. subst q. discriminate. }
  assert (Htr : trimmed (name ++ lit " x" ++ Number.toString q))
    by now apply trimmed_app_digits.
  rewrite (@parseQuantity_x _ name (Number.toString q)).
  - rewrite (trim_of_trimmed Ht). unfold Number.parseInt. rewrite Hr.
    unfold or_one. now rewrite Hq.
  - rewrite (trim_of_trimmed Htr).
    exists (lit " "), "x"%char. repeat split; auto.
    + discriminate.
    + repeat constructor.
Qed.

Lemma parseQuantity_reads_back_witness :
  parseQuantity (lit "AA batteries" ++ lit " x" ++ Number.toString (Number.Fin 12))
  = Parsed.mk (lit "AA batteries") (Number.Fin 12).
Proof.
  apply parseQuantity_reads_back.
  - split; reflexivity.
  - discriminate.
  - intros v [= <-]. reflexivity.
  - unfold plainDigits. vm_compute. repeat constructor.
  - reflexivity.
Defined.

(* ================================================================== *)
(** * The location field *)

Lemma toUpperCase_length s : List.length (toUpperCase s) = List.length s.
Proof. apply length_map. Qed.

Lemma all_space_upper ws : all is_space ws -> toUpperCase ws = ws.
Proof.
  induction 1 as [|c r Hc _ IH]; simpl; [reflexivity|].
  rewrite IH. f_equal. unfold upper_char.
  destruct (is_lower c) eqn:E; [|reflexivity].
  exfalso. assert (is_alpha c = true) by (unfold is_alpha; now rewrite E, orb_true_r).
  apply alpha_not_space in H. congruence.
Qed.

Lemma prefixedRun_shape p letters s m :
  prefixedRun p letters s = Some m ->
  exists pre ws num l rest,
    s = m ++ rest /\ m = pre ++ ws ++ num ++ l
    /\ toUpperCase pre = toUpperCase p
    /\ all is_space ws /\ num <> [] /\ all is_digit num /\ all is_alpha l
    /\ (letters = false -> l = [])
    /\ none is_digit (firstn 1 (l ++ rest))
    /\ (letters = true -> none is_alpha (firstn 1 rest)).
Proof.
  unfold prefixedRun. intros H.
  destruct (stripPrefixCI p s) as [r|] eqn:E; [|discriminate].
  destruct (stripPrefixCI_sound _ _ E) as (pre & -> & Hp).
  destruct (takeWhile is_digit (dropWhile is_space r)) as [|c ds] eqn:Ed;
    [discriminate|].
  injection H as <-.
  assert (Hlen : List.length pre = List.length p).
  { rewrite <- (toUpperCase_length pre), Hp. apply toUpperCase_length. }
  assert (Hpre : firstn (List.length p) (pre ++ r) = pre).
  { rewrite <- Hlen, firstn_app, Nat.sub_diag, firstn_all. cbn. apply app_nil_r. }
  rewrite Hpre.
  set (r1 := dropWhile is_space r) in *.
  set (r2 := dropWhile is_digit r1).
  set (l := if letters then takeWhile is_alpha r2 else []).
  set (rest := if letters then dropWhile is_alpha r2 else r2).
  assert (Hr2 : l ++ rest = r2).
  { unfold l, rest. destruct letters; [apply take_drop | reflexivity]. }
  exists pre, (takeWhile is_space r), (c :: ds), l, rest.
  repeat split.
  - rewrite <- !app_assoc. f_equal.
    rewrite <- (take_drop is_space r) at 1. f_equal. fold r1.
    rewrite <- (take_drop is_digit r1) at 1. rewrite Ed. fold r2.
    rewrite <- Hr2. cbn [app]. now rewrite app_assoc.
  - exact Hp.
  - apply takeWhile_all.
  - discriminate.
  - rewrite <- Ed. apply takeWhile_all.
  - unfold l. destruct letters; [apply takeWhile_all | constructor].
  - intros ->. reflexivity.
  - rewrite Hr2. unfold r2.
    destruct (dropWhile is_digit r1) as [|x y] eqn:Ex; [constructor|].
    apply dropWhile_head in Ex. repeat constructor. exact Ex.
  - intros ->. unfold rest.
    destruct (dropWhile is_alpha r2) as [|x y] eqn:Ex; [constructor|].
    apply dropWhile_head in Ex. repeat constructor. exact Ex.
Qed.

Lemma firstMatch_at at_start : forall s prev m,
  firstMatch at_start prev s = Some m ->
  exists prev' s', at_start prev' s' = Some m.
Proof.
  induction s as [|c r IH]; intros prev m H; cbn [firstMatch] in H.
  - destruct (at_start prev []) eqn:E; [|discriminate].
    injection H as <-. now exists prev, [].
  - destruct (at_start prev (c :: r)) eqn:E.
    + injection H as <-. now exists prev, (c :: r).
    + now apply IH in H.
Qed.

Lemma shelfAt_typed s m :
  shelfAt s = Some m -> exists d l, shelfTyped m d l.
Proof.
  unfold shelfAt. intros H.
  destruct (prefixedRun (lit "SHELF") true s) as [m1|] eqn:E1.
  - injection H as <-.
    destruct (prefixedRun_shape _ _ _ E1)
      as (pre & ws & num & l & rest & _ & -> & Hp & Hws & Hn & Hd & Hl & _).
    exists num, l, pre, ws. repeat split; auto.
  - destruct (prefixedRun_shape _ _ _ H)
      as (pre & ws & num & l & rest & _ & -> & Hp & Hws & Hn & Hd & Hl & _).
    exists num, l, pre, ws. repeat split; auto.
Qed.

Lemma bareNumberAt_digits prev s m :
  bareNumberAt prev s = Some m -> m <> [] /\ all is_digit m.
Proof.
  unfold bareNumberAt. intros H.
  destruct (takeWhile is_digit s) as [|c ds] eqn:E; [discriminate|].
  destruct (_ && _); [|discriminate]. injection H as <-.
  split; [discriminate|]. rewrite <- E. apply takeWhile_all.
Qed.

Lemma boxAt_typed prev s m :
  boxAt prev s = Some m -> exists d, boxTyped m d.
Proof.
  unfold boxAt. intros H.
  destruct (prefixedRun (lit "BOX") false s) as [m1|] eqn:E1.
  - injection H as <-.
    destruct (prefixedRun_shape _ _ _ E1)
      as (pre & ws & num & l & rest & _ & -> & Hp & Hws & Hn & Hd & _ & Hl & _).
    rewrite (Hl eq_refl), app_nil_r.
    exists num. left. exists pre, ws. repeat split; auto.
  - destruct (prefixedRun (lit "B") false s) as [m2|] eqn:E2.
    + injection H as <-.
      destruct (prefixedRun_shape _ _ _ E2)
        as (pre & ws & num & l & rest & _ & -> & Hp & Hws & Hn & Hd & _ & Hl & _).
      rewrite (Hl eq_refl), app_nil_r.
      exists num. left. exists pre, ws. repeat split; auto.
    + apply bareNumberAt_digits in H. exists m. right. tauto.
Qed.

Lemma trimmed_between (a : ascii) (p mid r : str) (c : ascii) :
  is_space a = false -> is_space c = false ->
  trimmed ((a :: p) ++ mid ++ r ++ [c]).
Proof.
  intros Ha Hc.
  replace ((a :: p) ++ mid ++ r ++ [c]) with (a :: (p ++ mid ++ r) ++ [c])
    by (cbn [app]; now rewrite <- !app_assoc).
  now apply trimmed_ends.
Qed.

Lemma shelfTyped_shelfText t d l :
  shelfTyped t d l -> shelfText (trim (toUpperCase t)) d (toUpperCase l).
Proof.
  intros (p & ws & -> & Hp & Hws & Hd & Hdd & Hl).
  assert (Hl' : all is_alpha (toUpperCase l)).
  { unfold toUpperCase. apply Forall_map. revert Hl. apply Forall_impl.
    intros c Hc. now rewrite is_alpha_upper. }
  assert (E : toUpperCase (p ++ ws ++ d ++ l)
              = toUpperCase p ++ ws ++ d ++ toUpperCase l).
  { rewrite !toUpperCase_app, (all_space_upper Hws), (all_digit_upper Hdd).
    reflexivity. }
  rewrite E.
  destruct (digits_letters_end Hd Hdd Hl') as (r & c & Er & Hc).
  assert (Ht : trimmed (toUpperCase p ++ ws ++ d ++ toUpperCase l)).
  { rewrite Er. destruct Hp as [-> | ->]; now apply trimmed_between. }
  rewrite (trim_of_trimmed Ht).
  exists ws. repeat split; auto.
  destruct Hp as [-> | ->]; auto.
Qed.

Lemma boxTyped_upper t d :
  boxTyped t d ->
  t <> [] /\ d <> [] /\ all is_digit d
  /\ exists pre, trim (toUpperCase t) = pre ++ d /\ none is_digit pre
                 /\ (pre = [] \/ exists r, pre = "B"%char :: r).
Proof.
  intros [(p & ws & -> & Hp & Hws & Hd & Hdd)|(-> & Hd & Hdd)].
  - split; [|split; [exact Hd | split; [exact Hdd|]]].
    { destruct p; [destruct Hp; discriminate | discriminate]. }
    assert (E : toUpperCase (p ++ ws ++ d) = toUpperCase p ++ ws ++ d).
    { rewrite !toUpperCase_app, (all_space_upper Hws), (all_digit_upper Hdd).
      reflexivity. }
    destruct (exists_last Hd) as (r & c & Er).
    assert (Hc : is_space c = false).
    { apply digit_not_space. unfold all in Hdd. rewrite Forall_forall in Hdd.
      apply Hdd. rewrite Er, in_app_iff. simpl. auto. }
    assert (Ht : trimmed (toUpperCase p ++ ws ++ d)).
    { rewrite Er. destruct Hp as [-> | ->]; now apply trimmed_between. }
    rewrite E, (trim_of_trimmed Ht).
    assert (Hws' : none is_digit ws).
    { revert Hws. apply Forall_impl. intros x Hx.
      destruct (is_digit x) eqn:Ex; [|reflexivity].
      apply digit_not_space in Ex. congruence. }
    exists (toUpperCase p ++ ws). rewrite <- app_assoc.
    split; [reflexivity|]. split.
    + apply Forall_app. split; [|exact Hws'].
      destruct Hp as [-> | ->]; repeat constructor.
    + right. destruct Hp as [-> | ->]; eexists; reflexivity.
  - split; [exact Hd | split; [exact Hd | split; [exact Hdd|]]].
    exists []. rewrite (all_digit_upper Hdd). cbn [app].
    split; [|split; [constructor | now left]].
    apply trim_of_trimmed.
    destruct (exists_last Hd) as (r & c & Er).
    assert (Hc : is_space c = false).
    { apply digit_not_space. unfold all in Hdd. rewrite Forall_forall in Hdd.
      apply Hdd. rewrite Er, in_app_iff. simpl. auto. }
    destruct d as [|a d']; [congruence|].
    assert (Ha : is_space a = false).
    { apply digit_not_space. now inversion Hdd. }
    destruct r as [|a' r']; cbn [app] in Er.
    + injection Er as -> ->. split; cbn; now rewrite Hc.
    + injection Er as -> ->. now apply trimmed_ends.
Qed.

Lemma boxTyped_key t d :
  boxTyped t d -> normalizeBoxNumber (Some t) = Some (boxKey d).
Proof.
  intros H. destruct (boxTyped_upper H) as (Ht & Hd & Hdd & pre & E & Hpre & Hp).
  unfold boxKey. apply normalize_box; [exact Ht | |].
  - rewrite E. intros d0 l0 (ws0 & E0 & _).
    destruct Hp as [->|(r & ->)].
    + destruct d as [|a d']; [congruence|].
      inversion Hdd; subst.
      destruct E0 as [E0|E0]; cbn in E0; injection E0 as -> _; discriminate.
    + destruct E0 as [E0|E0]; cbn in E0; discriminate.
  - rewrite E. exists pre, []. rewrite app_nil_r.
    repeat split; auto. constructor.
Qed.

Lemma shelfTyped_key m d l :
  shelfTyped m d l ->
  normalizeShelfLocation (Some m) = Some (lit "SHELF " ++ d ++ toUpperCase l).
Proof.
  intros H.
  assert (Hm : m <> []).
  { destruct H as (p & ws & -> & Hp & _).
    destruct p; [destruct Hp; discriminate | discriminate]. }
  apply normalizeShelfLocation_iff; [exact Hm|].
  exists d, (toUpperCase l). split; [now apply shelfTyped_shelfText | reflexivity].
Qed.

Lemma shelf_of_match prev s m :
  firstMatch (fun _ => shelfAt) prev s = Some m ->
  exists d l, shelfTyped m d l.
Proof.
  intros H. apply firstMatch_at in H. destruct H as (_ & s' & H).
  now apply shelfAt_typed in H.
Qed.

Lemma box_of_match prev s m :
  firstMatch boxAt prev s = Some m -> exists d, boxTyped m d.
Proof.
  intros H. apply firstMatch_at in H. destruct H as (prev' & s' & H).
  now apply boxAt_typed in H.
Qed.

Lemma prefixedRun_no_digit p letters s :
  none is_digit s -> prefixedRun p letters s = None.
Proof.
  intros Hn. destruct (prefixedRun p letters s) as [m|] eqn:E; [|reflexivity].
  exfalso.
  destruct (prefixedRun_shape _ _ _ E)
    as (pre & ws & num & l & rest & -> & -> & _ & _ & Hne & Hd & _).
  destruct num as [|c num]; [congruence|].
  inversion Hd; subst.
  unfold none in Hn. rewrite Forall_forall in Hn.
  assert (Hin : In c ((pre ++ ws ++ (c :: num) ++ l) ++ rest)).
  { rewrite !in_app_iff. left. right. right. left. now left. }
  specialize (Hn _ Hin). congruence.
Qed.

Lemma firstMatch_no_digit at_start :
  (forall prev s, none is_digit s -> at_start prev s = None) ->
  forall s prev, none is_digit s -> firstMatch at_start prev s = None.
Proof.
  intros Hat. induction s as [|c r IH]; intros prev Hn; cbn [firstMatch];
    rewrite (Hat _ _ Hn); [reflexivity|].
  apply IH. now inversion Hn.
Qed.

Lemma none_dropWhile (p q : ascii -> bool) s : none p s -> none p (dropWhile q s).
Proof.
  induction 1 as [|c r Hc Hr IH]; cbn; [constructor|].
  destruct (q c); [exact IH | now constructor].
Qed.

Lemma none_trim p s : none p s -> none p (trim s).
Proof.
  intros H. unfold trim, trimEnd, trimStart.
  apply Forall_rev. apply none_dropWhile. apply Forall_rev.
  now apply none_dropWhile.
Qed.

Lemma parseLocationInput_some raw loc :
  parseLocationInput raw = Some loc ->
  (exists d, d <> [] /\ all is_digit d
             /\ Location.primary loc = boxKey d
             /\ isBoxLocation (Some (Location.primary loc)) = true
             /\ (Location.secondary loc = None
                 \/ exists sh, Location.secondary loc = Some sh
                               /\ isShelfLocation (Some sh) = true
                               /\ normalizeShelfLocation (Some sh) = Some sh))
  \/ (Location.secondary loc = None
      /\ isShelfLocation (Some (Location.primary loc)) = true
      /\ normalizeShelfLocation (Some (Location.primary loc))
         = Some (Location.primary loc)).
Proof.
  intros H. unfold parseLocationInput in H.
  destruct raw as [[|a r]|]; try discriminate.
  destruct (trim (a :: r)) as [|t0 text]; [discriminate|].
  set (shelfMatch := firstMatch (fun _ => shelfAt) None (t0 :: text)) in H.
  assert (Hshelf :
            match shelfMatch with
            | Some m => exists k, normalizeShelfLocation (Some m) = Some k
                                  /\ isShelfLocation (Some k) = true
                                  /\ normalizeShelfLocation (Some k) = Some k
            | None => True
            end).
  { destruct shelfMatch as [m|] eqn:E; [|exact I].
    destruct (shelf_of_match _ _ E) as (d & l & Ht).
    pose proof (shelfTyped_key Ht) as Hk.
    exists (lit "SHELF " ++ d ++ toUpperCase l). split; [exact Hk|].
    split; [reflexivity|].
    assert (Hm : m <> []) by (intros ->; discriminate Hk).
    apply (normalizeShelfLocation_canonical Hm Hk). }
  set (remaining := match shelfMatch with
                    | Some m => replaceFirst m (lit " ") (t0 :: text)
                    | None => t0 :: text
                    end) in H.
  set (boxMatch := firstMatch boxAt None remaining) in H.
  assert (Hbox :
            match boxMatch with
            | Some m => exists d, d <> [] /\ all is_digit d
                                  /\ normalizeBoxNumber (Some m) = Some (boxKey d)
            | None => True
            end).
  { destruct boxMatch as [m|] eqn:E; [|exact I].
    destruct (box_of_match _ _ E) as (d & Ht).
    destruct (boxTyped_upper Ht) as (_ & Hd & Hdd & _).
    exists d. repeat split; auto. now apply boxTyped_key. }
  clearbody remaining. clearbody shelfMatch.
  destruct (trim _) in H; [|discriminate].
  destruct boxMatch as [mb|]; destruct shelfMatch as [ms|].
  + destruct Hbox as (d & Hd & Hdd & Eb).
    destruct Hshelf as (k & Es & Hk1 & Hk2).
    rewrite Eb, Es in H.
    change (truthy (Some (boxKey d))) with true in H.
    assert (Hkt : truthy (Some k) = true) by (destruct k; [discriminate | reflexivity]).
    rewrite Hkt in H. cbn [andb or_empty] in H. injection H as <-.
    left. exists d. cbn [Location.primary Location.secondary].
    repeat split; auto. right. now exists k.
  + destruct Hbox as (d & Hd & Hdd & Eb). rewrite Eb in H.
    change (truthy (Some (boxKey d))) with true in H.
    cbn [andb truthy or_empty] in H. injection H as <-.
    left. exists d. cbn [Location.primary Location.secondary].
    repeat split; auto.
  + destruct Hshelf as (k & Es & Hk1 & Hk2). rewrite Es in H.
    assert (Hkt : truthy (Some k) = true) by (destruct k; [discriminate | reflexivity]).
    rewrite Hkt in H. cbn [andb truthy or_empty] in H. injection H as <-.
    right. cbn [Location.primary Location.secondary]. now repeat split.
  + discriminate.
Qed.

Lemma parseLocationInput_no_digit s :
  none is_digit s -> parseLocationInput (Some s) = None.
Proof.
  intros Hn. unfold parseLocationInput.
  destruct s as [|a r]; [reflexivity|].
  pose proof (none_trim Hn) as Ht.
  destruct (trim (a :: r)) as [|t0 text] eqn:E; [reflexivity|].
  rewrite (@firstMatch_no_digit (fun _ => shelfAt)); [|
    intros _ s' Hs'; unfold shelfAt;
    now rewrite !prefixedRun_no_digit | exact Ht].
  rewrite (@firstMatch_no_digit boxAt); [| | exact Ht].
  + rewrite <- E, trim_idem, E. reflexivity.
  + intros prev s' Hs'. unfold boxAt, bareNumberAt.
    rewrite !prefixedRun_no_digit by assumption.
    destruct s' as [|c s']; [reflexivity|].
    inversion Hs' as [|? ? Hc _]; subst. cbn [takeWhile]. now rewrite Hc.
Qed.

(** X16: what [parseLocationInput] returns is well formed.  The primary
    is either a box key, BOX followed by the number that a run of
    digits writes, padded to three digits, or, when the text names a
    shelf only, a canonical shelf key; a secondary location is only
    given with a box key, and it is a canonical shelf key.  A text
    without a digit, a blank text and null are never a location. *)
Theorem parseLocationInput_wellformed :
  (forall raw loc, parseLocationInput raw = Some loc ->
     (exists d, d <> [] /\ all is_digit d
                /\ Location.primary loc = boxKey d
                /\ isBoxLocation (Some (Location.primary loc)) = true
                /\ (Location.secondary loc = None
                    \/ exists sh, Location.secondary loc = Some sh
                                  /\ isShelfLocation (Some sh) = true
                                  /\ normalizeShelfLocation (Some sh) = Some sh))
     \/ (Location.secondary loc = None
         /\ isShelfLocation (Some (Location.primary loc)) = true
         /\ normalizeShelfLocation (Some (Location.primary loc))
            = Some (Location.primary loc)))
  /\ (forall s, none is_digit s -> parseLocationInput (Some s) = None)
  /\ parseLocationInput None = None.
Proof.
  split; [exact parseLocationInput_some|].
  split; [exact parseLocationInput_no_digit | reflexivity].
Qed.

Lemma parseLocationInput_wellformed_witness :
  parseLocationInput (Some (lit "duct tape")) = None.
Proof.
  destruct parseLocationInput_wellformed as (_ & H & _). apply H.
  repeat constructor.
Defined.

(** ** Texts the location field accepts *)

Lemma stripPrefixCI_ci p : forall pre r,
  toUpperCase pre = toUpperCase p -> stripPrefixCI p (pre ++ r) = Some r.
Proof.
  induction p as [|a p IH]; intros pre r H.
  - destruct pre; [now destruct r | discriminate].
  - destruct pre as [|c pre]; [discriminate|].
    cbn in H. injection H as Hc Hp. cbn [app stripPrefixCI].
    rewrite Hc, Ascii.eqb_refl. now apply IH.
Qed.

Lemma letter_not_blank_or_digit b x :
  is_alpha b = true -> is_space x = true \/ is_digit x = true ->
  Ascii.eqb (upper_char b) (upper_char x) = false.
Proof.
  intros Hb Hx. destruct (Ascii.eqb_spec (upper_char b) (upper_char x)) as [E|]; [|reflexivity].
  exfalso. assert (Ha : is_alpha x = true).
  { rewrite <- is_alpha_upper, <- E, is_alpha_upper. exact Hb. }
  destruct Hx as [Hx|Hx]; [apply alpha_not_space in Ha | apply digit_not_alpha in Hx];
    congruence.
Qed.

Lemma spaces_digits_head ws d more :
  all is_space ws -> d <> [] -> all is_digit d ->
  exists c r, ws ++ d ++ more = c :: r
              /\ (is_space c = true \/ is_digit c = true).
Proof.
  intros Hws Hd Hdd. destruct ws as [|c ws].
  - destruct d as [|c d]; [congruence|]. exists c, (d ++ more).
    inversion Hdd; subst. auto.
  - exists c, (ws ++ d ++ more). inversion Hws; subst. auto.
Qed.

Lemma stripPrefixCI_long a b p c0 ws d more :
  is_alpha b = true -> all is_space ws -> d <> [] -> all is_digit d ->
  stripPrefixCI (a :: b :: p) (c0 :: ws ++ d ++ more) = None.
Proof.
  intros Hb Hws Hd Hdd.
  destruct (@spaces_digits_head ws d more Hws Hd Hdd) as (x & r & -> & Hx).
  cbn [stripPrefixCI]. rewrite (@letter_not_blank_or_digit b x Hb Hx).
  now destruct (Ascii.eqb _ _).
Qed.

Lemma stripPrefixCI_digit a p c r :
  is_alpha a = true -> is_space c = true \/ is_digit c = true ->
  stripPrefixCI (a :: p) (c :: r) = None.
Proof.
  intros Ha Hc. cbn [stripPrefixCI].
  now rewrite (@letter_not_blank_or_digit a c Ha Hc).
Qed.

Lemma takeWhile_none_head (p : ascii -> bool) s :
  none p (firstn 1 s) -> takeWhile p s = [] /\ dropWhile p s = s.
Proof.
  destruct s as [|c r]; [now split|]. cbn. intros H. inversion H; subst.
  rewrite H2. now split.
Qed.

Lemma spaceStart_heads l rest :
  all is_alpha l -> spaceStart rest ->
  none is_digit (firstn 1 (l ++ rest)) /\ none is_alpha (firstn 1 rest)
  /\ none is_digit (firstn 1 rest).
Proof.
  intros Hl Hr.
  assert (Hrest : none is_alpha (firstn 1 rest) /\ none is_digit (firstn 1 rest)).
  { destruct rest as [|c r]; [split; constructor|]. cbn in *.
    split; repeat constructor.
    - destruct (is_alpha c) eqn:E; [|reflexivity].
      apply alpha_not_space in E. congruence.
    - destruct (is_digit c) eqn:E; [|reflexivity].
      apply digit_not_space in E. congruence. }
  split; [|exact Hrest].
  destruct l as [|c l]; [apply Hrest|]. cbn. repeat constructor.
  inversion Hl; subst. destruct (is_digit c) eqn:E; [|reflexivity].
  apply digit_not_alpha in E. congruence.
Qed.

Lemma prefixedRun_complete p letters pre ws num l rest :
  toUpperCase pre = toUpperCase p -> all is_space ws ->
  num <> [] -> all is_digit num -> all is_alpha l ->
  (letters = false -> l = []) ->
  none is_digit (firstn 1 (l ++ rest)) ->
  (letters = true -> none is_alpha (firstn 1 rest)) ->
  prefixedRun p letters (pre ++ ws ++ num ++ l ++ rest)
  = Some (pre ++ ws ++ num ++ l).
Proof.
  intros Hp Hws Hn Hd Hl Hlet Hnext Hrest. unfold prefixedRun.
  rewrite (@stripPrefixCI_ci p pre _ Hp).
  assert (Hlen : List.length pre = List.length p).
  { rewrite <- (toUpperCase_length pre), Hp. apply toUpperCase_length. }
  assert (Hpre : firstn (List.length p) (pre ++ ws ++ num ++ l ++ rest) = pre).
  { rewrite <- Hlen, firstn_app, Nat.sub_diag, firstn_all. cbn. apply app_nil_r. }
  rewrite Hpre.
  assert (Hhead : none is_space (firstn 1 (num ++ l ++ rest))).
  { destruct num as [|c num]; [congruence|]. cbn. repeat constructor.
    apply digit_not_space. now inversion Hd. }
  destruct (@takeWhile_none_head is_space _ Hhead) as [T1 T2].
  rewrite takeWhile_app_all, dropWhile_app_all, T1, T2, app_nil_r by assumption.
  destruct (@takeWhile_digits_then num (l ++ rest) Hd Hnext) as [-> ->].
  destruct num as [|c num]; [congruence|].
  destruct letters.
  - destruct (@takeWhile_none_head is_alpha _ (Hrest eq_refl)) as [T3 _].
    rewrite takeWhile_app_all, T3, app_nil_r by assumption. reflexivity.
  - rewrite (Hlet eq_refl). reflexivity.
Qed.

Lemma upper_single (pre : str) (a : ascii) :
  toUpperCase pre = [a] -> exists c, pre = [c] /\ upper_char c = a.
Proof.
  destruct pre as [|c [|c' pre]]; try discriminate.
  cbn. intros [= <-]. now exists c.
Qed.

Lemma shelfAt_complete t d l rest :
  shelfTyped t d l -> spaceStart rest -> shelfAt (t ++ rest) = Some t.
Proof.
  intros (p & ws & -> & Hp & Hws & Hd & Hdd & Hl) Hr.
  destruct (@spaceStart_heads l rest Hl Hr) as (H1 & H2 & _).
  unfold shelfAt. rewrite <- !app_assoc.
  destruct Hp as [Hp|Hp].
  - rewrite (@prefixedRun_complete (lit "SHELF") true p ws d l rest); auto.
    discriminate.
  - destruct (@upper_single p _ Hp) as (c & -> & Hc).
    assert (E : prefixedRun (lit "SHELF") true ([c] ++ ws ++ d ++ l ++ rest) = None).
    { unfold prefixedRun. cbn [app lit list_ascii_of_string].
      now rewrite stripPrefixCI_long. }
    rewrite E.
    rewrite (@prefixedRun_complete (lit "S") true [c] ws d l rest); auto.
    discriminate.
Qed.

Lemma bareNumberAt_complete prev d rest :
  d <> [] -> all is_digit d -> wordAt prev = false -> spaceStart rest ->
  bareNumberAt prev (d ++ rest) = Some d.
Proof.
  intros Hd Hdd Hprev Hr. unfold bareNumberAt.
  destruct (@spaceStart_heads [] rest ltac:(constructor) Hr) as (_ & _ & H3).
  destruct (@takeWhile_digits_then d rest Hdd H3) as [-> ->].
  destruct d as [|c d]; [congruence|].
  rewrite Hprev. cbn [negb andb].
  destruct rest as [|x r]; [reflexivity|]. cbn in *.
  unfold is_word.
  replace (is_alpha x) with false
    by (destruct (is_alpha x) eqn:E; [apply alpha_not_space in E; congruence | reflexivity]).
  replace (is_digit x) with false
    by (destruct (is_digit x) eqn:E; [apply digit_not_space in E; congruence | reflexivity]).
  replace (Ascii.eqb x "_"%char) with false; [reflexivity|].
  destruct (Ascii.eqb_spec x "_"%char) as [->|]; [discriminate Hr | reflexivity].
Qed.

Lemma boxAt_complete prev t d rest :
  boxTyped t d -> wordAt prev = false -> spaceStart rest ->
  boxAt prev (t ++ rest) = Some t.
Proof.
  intros [(p & ws & -> & Hp & Hws & Hd & Hdd)|(-> & Hd & Hdd)] Hprev Hr.
  - destruct (@spaceStart_heads [] rest ltac:(constructor) Hr) as (H1 & _ & _).
    unfold boxAt. rewrite <- !app_assoc.
    destruct Hp as [Hp|Hp].
    + pose proof (@prefixedRun_complete (lit "BOX") false p ws d [] rest) as R.
      rewrite !app_nil_r in R. cbn [app] in R.
      rewrite R; auto; [constructor | discriminate].
    + destruct (@upper_single p _ Hp) as (c & -> & Hc).
      assert (E : prefixedRun (lit "BOX") false ([c] ++ ws ++ d ++ rest) = None).
      { unfold prefixedRun. cbn [app lit list_ascii_of_string].
        now rewrite stripPrefixCI_long. }
      rewrite E.
      pose proof (@prefixedRun_complete (lit "B") false [c] ws d [] rest) as R.
      rewrite !app_nil_r in R. cbn [app] in R. cbn [app].
      rewrite R; auto; [constructor | discriminate].
  - unfold boxAt.
    destruct d as [|c d]; [congruence|].
    assert (Hc : is_digit c = true) by now inversion Hdd.
    assert (E : forall p0 p, is_alpha p0 = true ->
                  prefixedRun (p0 :: p) false ((c :: d) ++ rest) = None).
    { intros p0 p Hp0. unfold prefixedRun. cbn [app].
      rewrite stripPrefixCI_digit; auto. }
    cbn [lit list_ascii_of_string]. rewrite !E by reflexivity.
    now apply bareNumberAt_complete.
Qed.

Lemma last_cons_default (A : Type) (l : list A) : forall x d,
  last (x :: l) d = last l x.
Proof.
  induction l as [|y l IH]; intros x d; [reflexivity|].
  change (last (x :: y :: l) d) with (last (y :: l) d).
  rewrite (IH y d). symmetry. apply IH.
Qed.

Lemma firstMatch_here at_start prev s m :
  at_start prev s = Some m -> firstMatch at_start prev s = Some m.
Proof. intros H. destruct s; cbn [firstMatch]; now rewrite H. Qed.

Lemma firstMatch_skip at_start (bad : ascii -> Prop) :
  (forall prev c r, bad c -> at_start prev (c :: r) = None) ->
  forall pre s prev, Forall bad pre ->
    firstMatch at_start prev (pre ++ s)
    = firstMatch at_start (last (map Some pre) prev) s.
Proof.
  intros Hat. induction pre as [|c pre IH]; intros s prev Hb; [reflexivity|].
  inversion Hb; subst. cbn [app firstMatch]. rewrite Hat by assumption.
  rewrite IH by assumption. cbn [map]. now rewrite last_cons_default.
Qed.

Lemma shelfAt_other c r : upper_char c <> "S"%char -> shelfAt (c :: r) = None.
Proof.
  intros H. unfold shelfAt, prefixedRun. cbn [lit list_ascii_of_string stripPrefixCI].
  change (upper_char "S") with "S"%char.
  destruct (Ascii.eqb_spec "S"%char (upper_char c)) as [E|_]; [|reflexivity].
  now elim H.
Qed.

Lemma boxAt_space prev c r : is_space c = true -> boxAt prev (c :: r) = None.
Proof.
  intros H. unfold boxAt, prefixedRun. cbn [lit list_ascii_of_string].
  rewrite !stripPrefixCI_digit by (auto; reflexivity).
  unfold bareNumberAt. cbn [takeWhile].
  destruct (is_digit c) eqn:E; [|reflexivity].
  apply digit_not_space in E. congruence.
Qed.

Lemma not_S_blank_or_digit c :
  is_space c = true \/ is_digit c = true -> upper_char c <> "S"%char.
Proof. each_char c; intros [H|H]; discriminate. Qed.

Lemma upper_letters_not_S (p u : str) :
  toUpperCase p = u -> ~ In "S"%char u ->
  Forall (fun c => upper_char c <> "S"%char) p.
Proof.
  intros <- H. apply Forall_forall. intros c Hc E. apply H.
  rewrite <- E. unfold toUpperCase. now apply in_map.
Qed.

Lemma boxTyped_no_S t d :
  boxTyped t d -> Forall (fun c => upper_char c <> "S"%char) t.
Proof.
  intros [(p & ws & -> & Hp & Hws & Hd & Hdd)|(-> & Hd & Hdd)].
  - apply Forall_app. split; [|apply Forall_app; split].
    + destruct Hp as [Hp|Hp]; apply (@upper_letters_not_S p _ Hp); cbn;
        intros H; repeat (destruct H as [H|H]; [discriminate|]); exact H.
    + revert Hws. apply Forall_impl. intros c Hc. apply not_S_blank_or_digit. auto.
    + revert Hdd. apply Forall_impl. intros c Hc. apply not_S_blank_or_digit. auto.
  - revert Hdd. apply Forall_impl. intros c Hc. apply not_S_blank_or_digit. auto.
Qed.

Lemma spaces_no_S ws :
  all is_space ws -> Forall (fun c => upper_char c <> "S"%char) ws.
Proof. apply Forall_impl. intros c Hc. apply not_S_blank_or_digit. auto. Qed.

Lemma shelfTyped_head t d l :
  shelfTyped t d l -> exists c m, t = c :: m /\ upper_char c = "S"%char.
Proof.
  intros (p & ws & -> & Hp & _).
  destruct p as [|c p]; [destruct Hp; discriminate|].
  exists c, (p ++ ws ++ d ++ l). split; [reflexivity|].
  destruct Hp as [Hp|Hp]; cbn in Hp; now injection Hp.
Qed.

Lemma boxTyped_head t d :
  boxTyped t d -> exists c m, t = c :: m /\ is_space c = false.
Proof.
  intros [(p & ws & -> & Hp & _)|(-> & Hd & Hdd)].
  - destruct p as [|c p]; [destruct Hp; discriminate|].
    exists c, (p ++ ws ++ d). split; [reflexivity|].
    assert (Hc : upper_char c = "B"%char)
      by (destruct Hp as [Hp|Hp]; cbn in Hp; now injection Hp).
    destruct (is_space c) eqn:E; [|reflexivity].
    exfalso. revert Hc E. each_char c; intros; discriminate.
  - destruct d as [|c d]; [congruence|]. exists c, d. split; [reflexivity|].
    apply digit_not_space. now inversion Hdd.
Qed.

Lemma replaceFirst_unfold m by_ s :
  replaceFirst m by_ s
  = if startsWith m s then by_ ++ skipn (List.length m) s
    else match s with
         | [] => []
         | c :: r => c :: replaceFirst m by_ r
         end.
Proof. destruct s; reflexivity. Qed.

Lemma startsWith_app m post : startsWith m (m ++ post) = true.
Proof.
  induction m as [|c m IH]; [now destruct post|].
  cbn. now rewrite Ascii.eqb_refl, IH.
Qed.

Lemma replaceFirst_here m by_ post : replaceFirst m by_ (m ++ post) = by_ ++ post.
Proof.
  rewrite replaceFirst_unfold, startsWith_app. f_equal.
  rewrite skipn_app, skipn_all, Nat.sub_diag. reflexivity.
Qed.

Lemma replaceFirst_skip c m by_ pre post :
  Forall (fun x => x <> c) pre ->
  replaceFirst (c :: m) by_ (pre ++ c :: m ++ post) = pre ++ by_ ++ post.
Proof.
  induction 1 as [|x pre Hx _ IH].
  - apply (@replaceFirst_here (c :: m) by_ post).
  - rewrite replaceFirst_unfold. cbn [app startsWith].
    destruct (Ascii.eqb_spec c x) as [E|_]; [now elim Hx|].
    cbn [andb]. now rewrite IH.
Qed.

Lemma wordAt_last_spaces ws prev :
  all is_space ws -> wordAt prev = false ->
  wordAt (last (map Some ws) prev) = false.
Proof.
  intros H. revert prev. induction H as [|c ws Hc _ IH]; intros prev Hp;
    [exact Hp|].
  cbn [map]. rewrite last_cons_default. apply IH.
  cbn. revert Hc. each_char c; intros; solve [reflexivity | discriminate].
Qed.

Lemma parseLocationInput_text s text :
  trim s = text -> text <> [] ->
  parseLocationInput (Some s)
  = let shelfMatch := firstMatch (fun _ => shelfAt) None text in
    let shelf := match shelfMatch with
                 | Some m => normalizeShelfLocation (Some m)
                 | None => None
                 end in
    let remaining := match shelfMatch with
                     | Some m => replaceFirst m (lit " ") text
                     | None => text
                     end in
    let boxMatch := firstMatch boxAt None remaining in
    let box := match boxMatch with
               | Some m => normalizeBoxNumber (Some m)
               | None => None
               end in
    let remaining2 := match boxMatch with
                      | Some m => replaceFirst m (lit " ") remaining
                      | None => remaining
                      end in
    match trim remaining2 with
    | _ :: _ => None
    | [] =>
        if truthy box && truthy shelf
        then Some (Location.mk (or_empty box) shelf)
        else if truthy box then Some (Location.mk (or_empty box) None)
        else if truthy shelf then Some (Location.mk (or_empty shelf) None)
        else None
    end.
Proof.
  intros Ht Hne. unfold parseLocationInput.
  destruct s as [|a r]; [cbn in Ht; congruence|].
  rewrite Ht. destruct text; [congruence | reflexivity].
Qed.

Lemma replaceFirst_self m by_ : replaceFirst m by_ m = by_.
Proof.
  pose proof (@replaceFirst_here m by_ []) as H.
  now rewrite !app_nil_r in H.
Qed.

Lemma all_space_cons_app ws tail :
  all is_space ws -> all is_space tail -> all is_space (ws ++ tail).
Proof. intros. now apply Forall_app. Qed.

(** X17: texts the location field accepts.  A shelf text alone gives
    the shelf key as primary.  A box text alone gives the box key.  A
    box text followed by a shelf text, with or without white space
    between them, or a shelf text followed by white space and a box
    text, give the box key as primary and the shelf key as secondary
    location.  White space around the text is ignored. *)
Theorem parseLocationInput_accepts :
  (forall s d l,
     shelfTyped (trim s) d l ->
     parseLocationInput (Some s)
     = Some (Location.mk (lit "SHELF " ++ d ++ toUpperCase l) None))
  /\ (forall s d,
        boxTyped (trim s) d ->
        parseLocationInput (Some s) = Some (Location.mk (boxKey d) None))
  /\ (forall s tb db ws ts d l,
        trim s = tb ++ ws ++ ts -> all is_space ws ->
        boxTyped tb db -> shelfTyped ts d l ->
        parseLocationInput (Some s)
        = Some (Location.mk (boxKey db)
                            (Some (lit "SHELF " ++ d ++ toUpperCase l))))
  /\ (forall s tb db ws ts d l,
        trim s = ts ++ ws ++ tb -> ws <> [] -> all is_space ws ->
        boxTyped tb db -> shelfTyped ts d l ->
        parseLocationInput (Some s)
        = Some (Location.mk (boxKey db)
                            (Some (lit "SHELF " ++ d ++ toUpperCase l)))).
Proof.
  split; [|split; [|split]].
  - intros s d l Hs.
    destruct (shelfTyped_head Hs) as (c & m & Et & Hc).
    rewrite (@parseLocationInput_text s (trim s) eq_refl) by (rewrite Et; discriminate).
    cbv zeta.
    assert (E1 : firstMatch (fun _ => shelfAt) None (trim s) = Some (trim s)).
    { apply firstMatch_here. rewrite <- (app_nil_r (trim s)) at 1.
      now apply shelfAt_complete with d l. }
    rewrite E1, replaceFirst_self.
    rewrite (shelfTyped_key Hs). reflexivity.
  - intros s d Hb.
    destruct (boxTyped_head Hb) as (c & m & Et & Hc).
    rewrite (@parseLocationInput_text s (trim s) eq_refl) by (rewrite Et; discriminate).
    cbv zeta.
    assert (E1 : firstMatch (fun _ => shelfAt) None (trim s) = None).
    { rewrite <- (app_nil_r (trim s)).
      rewrite (@firstMatch_skip (fun _ => shelfAt)
                 (fun c => upper_char c <> "S"%char)
                 (fun _ c r H => @shelfAt_other c r H) (trim s) [] None
                 (boxTyped_no_S Hb)).
      reflexivity. }
    rewrite E1.
    assert (E3 : firstMatch boxAt None (trim s) = Some (trim s)).
    { apply firstMatch_here. rewrite <- (app_nil_r (trim s)) at 1.
      now apply boxAt_complete with d. }
    rewrite E3, replaceFirst_self.
    rewrite (boxTyped_key Hb). reflexivity.
  - intros s tb db ws ts d l Et Hws Hb Hs.
    destruct (boxTyped_head Hb) as (cb & mb & Eb & Hcb).
    destruct (shelfTyped_head Hs) as (cs & ms & Es & Hcs).
    rewrite (@parseLocationInput_text s (tb ++ ws ++ ts) Et) by (rewrite Eb; discriminate).
    cbv zeta.
    assert (Hpre : Forall (fun c => upper_char c <> "S"%char) (tb ++ ws)).
    { apply Forall_app. split; [now apply boxTyped_no_S with db | now apply spaces_no_S]. }
    assert (E1 : firstMatch (fun _ => shelfAt) None (tb ++ ws ++ ts) = Some ts).
    { rewrite app_assoc.
      rewrite (@firstMatch_skip (fun _ => shelfAt)
                 (fun c => upper_char c <> "S"%char)
                 (fun _ c r H => @shelfAt_other c r H) (tb ++ ws) ts None Hpre).
      apply firstMatch_here. rewrite <- (app_nil_r ts) at 1.
      now apply shelfAt_complete with d l. }
    rewrite E1.
    assert (E2 : replaceFirst ts (lit " ") (tb ++ ws ++ ts) = tb ++ ws ++ lit " ").
    { assert (Hx : Forall (fun x => x <> cs) (tb ++ ws)).
      { revert Hpre. apply Forall_impl. intros x Hx ->. now apply Hx. }
      pose proof (@replaceFirst_skip cs ms (lit " ") (tb ++ ws) [] Hx) as R.
      rewrite !app_nil_r, <- !app_assoc in R. rewrite Es. exact R. }
    rewrite E2.
    assert (E3 : firstMatch boxAt None (tb ++ ws ++ lit " ") = Some tb).
    { apply firstMatch_here. apply boxAt_complete with db; [exact Hb | reflexivity |].
      destruct ws as [|w ws']; [reflexivity | now inversion Hws]. }
    rewrite E3, replaceFirst_here.
    rewrite all_space_trim
      by (apply all_space_cons_app; [repeat constructor|];
          apply all_space_cons_app; [exact Hws | repeat constructor]).
    rewrite (boxTyped_key Hb), (shelfTyped_key Hs). reflexivity.
  - intros s tb db ws ts d l Et Hne Hws Hb Hs.
    destruct (boxTyped_head Hb) as (cb & mb & Eb & Hcb).
    destruct (shelfTyped_head Hs) as (cs & ms & Es & Hcs).
    rewrite (@parseLocationInput_text s (ts ++ ws ++ tb) Et) by (rewrite Es; discriminate).
    cbv zeta.
    assert (E1 : firstMatch (fun _ => shelfAt) None (ts ++ ws ++ tb) = Some ts).
    { apply firstMatch_here. apply shelfAt_complete with d l; [exact Hs|].
      destruct ws as [|w ws']; [congruence | now inversion Hws]. }
    rewrite E1, replaceFirst_here.
    assert (Hsp : all is_space (lit " " ++ ws))
      by (apply all_space_cons_app; [repeat constructor | exact Hws]).
    assert (E3 : firstMatch boxAt None (lit " " ++ ws ++ tb) = Some tb).
    { rewrite app_assoc.
      rewrite (@firstMatch_skip boxAt (fun c => is_space c = true)
                 (fun prev c r H => @boxAt_space prev c r H) (lit " " ++ ws) tb None Hsp).
      apply firstMatch_here. rewrite <- (app_nil_r tb) at 1.
      apply boxAt_complete with db; [exact Hb | | exact I].
      now apply wordAt_last_spaces. }
    rewrite E3.
    assert (E4 : replaceFirst tb (lit " ") (lit " " ++ ws ++ tb)
                 = lit " " ++ ws ++ lit " ").
    { assert (Hx : Forall (fun x => x <> cb) (lit " " ++ ws)).
      { revert Hsp. apply Forall_impl. intros x Hx ->. congruence. }
      pose proof (@replaceFirst_skip cb mb (lit " ") (lit " " ++ ws) [] Hx) as R.
      rewrite !app_nil_r, <- !app_assoc in R. rewrite Eb. exact R. }
    rewrite E4.
    rewrite all_space_trim
      by (apply all_space_cons_app; [repeat constructor|];
          apply all_space_cons_app; [exact Hws | repeat constructor]).
    rewrite (boxTyped_key Hb), (shelfTyped_key Hs). reflexivity.
Qed.

Lemma parseLocationInput_accepts_witness :
  parseLocationInput (Some (lit " 42 shelf 2c "))
  = Some (Location.mk (boxKey (lit "42"))
                      (Some (lit "SHELF " ++ lit "2" ++ toUpperCase (lit "c")))).
Proof.
  destruct parseLocationInput_accepts as (_ & _ & H & _).
  apply (H (lit " 42 shelf 2c ") (lit "42") (lit "42") (lit " ") (lit "shelf 2c")
           (lit "2") (lit "c")).
  - reflexivity.
  - repeat constructor.
  - right. repeat split; [discriminate | repeat constructor].
  - exists (lit "shelf"), (lit " ").
    repeat split; try discriminate; try (repeat constructor); now left.
Defined.

(* ================================================================== *)
(** * The Enter key in the item field *)

Lemma itemsAt_assign_same_items key box box' boxes k :
  lookup key boxes = Some box -> BoxData.items box' = BoxData.items box ->
  itemsAt k (assign key box' boxes) = itemsAt k boxes.
Proof.
  intros L E. unfold itemsAt.
  destruct (list_eq_dec ascii_dec k key) as [->|N].
  - now rewrite lookup_assign_same, L.
  - now rewrite lookup_assign_other.
Qed.

Lemma itemsAt_switchBox b w k :
  itemsAt k (windowBoxes (switchBox b w)) = itemsAt k (windowBoxes w).
Proof.
  unfold switchBox. destruct (falsy _); [reflexivity|].
  destruct (lookup _ _); [reflexivity|].
  unfold updateCurrent, windowBoxes. cbn [binding setCurrentBox].
  destruct (binding w); [|reflexivity].
  cbn [windowSession setWindowSession setCurrentBox].
  apply itemsAt_ensureBoxExists.
Qed.

Lemma itemsAt_setSecondaryLocation v w k :
  itemsAt k (windowBoxes (setSecondaryLocation v w)) = itemsAt k (windowBoxes w).
Proof.
  unfold setSecondaryLocation. destruct (falsy _); [reflexivity|].
  destruct (lookup _ _) as [box|] eqn:L; [|reflexivity].
  rewrite windowBoxes_saved. now apply itemsAt_assign_same_items with box.
Qed.

Lemma itemsAt_applyLocation loc w k :
  itemsAt k (windowBoxes (applyLocation loc w)) = itemsAt k (windowBoxes w).
Proof.
  unfold applyLocation. destruct (truthy _).
  - now rewrite itemsAt_setSecondaryLocation, itemsAt_switchBox.
  - apply itemsAt_switchBox.
Qed.

Lemma none_digit_upper s : none is_digit s -> none is_digit (toUpperCase s).
Proof.
  intros H. unfold toUpperCase. apply Forall_map. revert H.
  apply Forall_impl. intros c Hc. now rewrite is_digit_upper.
Qed.

Lemma normalizeBoxNumber_truthy (s : str) :
  nonBlank s -> truthy (normalizeBoxNumber (Some s)) = true.
Proof.
  intros H. pose proof (nonBlank_trim H) as Ht.
  destruct s as [|a s]; [destruct H as (c & [] & _)|].
  unfold normalizeBoxNumber.
  destruct (matchPrefixed (lit "SHELF") _) as [[d l]|]; [reflexivity|].
  destruct (matchPrefixed (lit "S") _) as [[d l]|]; [reflexivity|].
  destruct (firstDigitRun _); [reflexivity|].
  destruct (trim (toUpperCase (a :: s))); [congruence | reflexivity].
Qed.

Lemma parseLocationInput_primary raw loc :
  parseLocationInput raw = Some loc ->
  truthy (Some (Location.primary loc)) = true
  /\ truthy (normalizeBoxNumber (Some (Location.primary loc))) = true.
Proof.
  intros H.
  assert (Hc : exists c r, Location.primary loc = c :: r /\ is_space c = false).
  { destruct (parseLocationInput_some _ H) as [(d & _ & _ & E & _)|(_ & E & _)].
    - rewrite E. now exists "B"%char, (lit "OX" ++ padStart0 3 (Number.toString (Number.parseInt d))).
    - unfold isShelfLocation in E.
      destruct (Location.primary loc) as [|c r]; [discriminate|].
      exists c, r. split; [reflexivity|].
      cbn [lit list_ascii_of_string startsWith] in E.
      apply andb_prop in E. destruct E as [E _].
      apply Ascii.eqb_eq in E. now subst c. }
  destruct Hc as (c & r & E & Hc). rewrite E. split; [reflexivity|].
  apply normalizeBoxNumber_truthy. exists c. split; [now left | exact Hc].
Qed.

(** X18: the Enter key in the item field.  A blank field does nothing.
    While an item is being edited the trimmed text goes to
    [saveEditedItem].  Otherwise a text that [parseLocationInput]
    accepts switches the location (and sets the secondary location when
    one was given) without changing the items of any box.  A text
    without a digit is never taken for a location: with an active
    location it is added as an item, and without one the user is told
    to enter a location first and nothing else changes. *)
Theorem handleEnter_dispatch (inputValue now : str) (newId : Z)
  (tags : option (list str)) (w : World) :
  (all is_space inputValue ->
     handleEnter inputValue now newId tags w = Return w tt)
  /\ (trim inputValue <> [] -> editingItemId w <> None ->
        handleEnter inputValue now newId tags w
        = saveEditedItem (trim inputValue) w)
  /\ (forall loc,
        editingItemId w = None ->
        parseLocationInput (Some (trim inputValue)) = Some loc ->
        handleEnter inputValue now newId tags w = Return (applyLocation loc w) tt
        /\ currentBox (applyLocation loc w)
           = normalizeBoxNumber (Some (Location.primary loc))
        /\ forall k, itemsAt k (windowBoxes (applyLocation loc w))
                     = itemsAt k (windowBoxes w))
  /\ (trim inputValue <> [] -> editingItemId w = None ->
        none is_digit inputValue ->
        handleEnter inputValue now newId tags w
        = if truthy (currentBox w)
          then addItem (trim inputValue) now newId tags w
          else Return (report w (Alert
                 (lit "Please enter a BOX or SHELF location first"))) tt).
Proof.
  split; [|split; [|split]].
  - intros H. unfold handleEnter. now rewrite (all_space_trim H).
  - intros Hv He. unfold handleEnter.
    destruct (trim inputValue) as [|c v]; [congruence|].
    destruct (editingItemId w); [reflexivity | congruence].
  - intros loc He Hp.
    destruct (parseLocationInput_primary _ Hp) as [Hprim Hnorm].
    split; [|split].
    + unfold handleEnter.
      destruct (trim inputValue) as [|c v] eqn:Ev; [discriminate Hp|].
      rewrite He, Hp. unfold withPrimary. now rewrite Hprim.
    + unfold applyLocation.
      assert (Hs : currentBox (switchBox (Some (Location.primary loc)) w)
                   = normalizeBoxNumber (Some (Location.primary loc))).
      { unfold switchBox, falsy. rewrite Hnorm. cbn [negb].
        destruct (lookup _ _); [reflexivity|].
        unfold updateCurrent. cbn [binding setCurrentBox].
        destruct (binding w); reflexivity. }
      destruct (truthy (Location.secondary loc)); [|exact Hs].
      unfold setSecondaryLocation. destruct (falsy _); [exact Hs|].
      destruct (lookup _ _); [|exact Hs].
      unfold saveStateToHistory. destruct (_ <? _)%N; exact Hs.
    + intros k. apply itemsAt_applyLocation.
  - intros Hv He Hn. unfold handleEnter.
    destruct (trim inputValue) as [|c v] eqn:Ev; [congruence|].
    rewrite He.
    assert (Hnv : none is_digit (c :: v)) by (rewrite <- Ev; now apply none_trim).
    rewrite (parseLocationInput_no_digit Hnv).
    rewrite (parseLocationInput_no_digit (none_digit_upper Hnv)). reflexivity.
Qed.

Lemma handleEnter_dispatch_witness :
  handleEnter (lit " tape ") (lit "2024-01-01T00:00:00.000Z") 1 None
              (initialWorld None)
  = if truthy (currentBox (initialWorld None))
    then addItem (trim (lit " tape ")) (lit "2024-01-01T00:00:00.000Z") 1 None
                 (initialWorld None)
    else Return (report (initialWorld None)
                        (Alert (lit "Please enter a BOX or SHELF location first"))) tt.
Proof.
  destruct (handleEnter_dispatch (lit " tape ") (lit "2024-01-01T00:00:00.000Z") 1
                                 None (initialWorld None)) as (_ & _ & _ & H).
  apply H; [discriminate | reflexivity | repeat constructor].
Defined.

(* ================================================================== *)
(** * Persistence *)

Lemma saveToStorage_idle env p :
  idle p ->
  let p' := saveToStorage env p in
  idle p' /\ timers p' = timers p /\ migrationFlag p' = migrationFlag p
  /\ windowSession (world p') = windowSession (world p)
  /\ binding (world p') = binding (world p)
  /\ currentBox (world p') = currentBox (world p)
  /\ history (world p') = history (world p).
Proof.
  intros [H1 H2]. unfold saveToStorage, saveFinally. rewrite H1.
  destruct env as [[|] [|] [m|]]; cbn; rewrite ?H2; cbn; repeat split; auto.
Qed.

Lemma saveToStorage_local env p :
  idle p -> localWritable env = true ->
  localSession (saveToStorage env p) = Some (Written (currentSession (world p)))
  /\ sessionBackup (saveToStorage env p) = sessionBackup p
  /\ world (saveToStorage env p) = world p.
Proof.
  intros [H1 H2] Hw. unfold saveToStorage, saveFinally. rewrite H1, Hw.
  destruct (electron env); cbn; rewrite ?H2; cbn; repeat split.
Qed.

Lemma currentSession_binding w w' :
  windowSession w' = windowSession w -> binding w' = binding w ->
  currentSession w' = currentSession w.
Proof. unfold currentSession. now intros -> ->. Qed.

Lemma repairShape_normal b : normalBox b -> repairShape b = b.
Proof.
  intros [H _]. destruct b as [its c ca sl]. unfold repairShape, ensureBoxDataShape.
  cbn in *. now rewrite H.
Qed.

Lemma map_snd_fixed (f : BoxData.t -> BoxData.t) (l : Boxes) :
  (forall k b, In (k, b) l -> f b = b) ->
  map (fun kv => (fst kv, f (snd kv))) l = l.
Proof.
  induction l as [|[k b] l IH]; intros H; [reflexivity|].
  cbn [map fst snd]. rewrite (H k b) by now left.
  f_equal. apply IH. intros k' b' Hin. apply (H k' b'). now right.
Qed.

Lemma settled_fixed s :
  settled s ->
  jsonCopy s = s
  /\ Session.with_boxes s
       (map (fun kv => (fst kv, repairShape (snd kv))) (Session.boxes s)) = s
  /\ normalizeSessionBoxes s = s.
Proof.
  intros (Hnd & Hc & Hnb & Hit & Hfin).
  split; [now apply jsonCopy_finite|]. split.
  - destruct s as [sid st bs]. unfold Session.with_boxes.
    cbn [Session.boxes Session.id Session.startedAt] in *. f_equal.
    apply map_snd_fixed. intros k b Hin. apply repairShape_normal.
    unfold onBoxes in Hnb. rewrite Forall_forall in Hnb. apply (Hnb (k, b) Hin).
  - destruct s as [sid st bs].
    unfold normalizeSessionBoxes, normalizeItemQuantities, Session.with_boxes.
    cbn [Session.boxes Session.id Session.startedAt] in *.
    rewrite (@fold_normalizeStep_fixed bs []); auto.
    cbn [app]. f_equal. apply map_snd_fixed with
      (f := fun b => BoxData.mk (map normalizeItem (BoxData.items b))
                                (BoxData.completed b) (BoxData.completedAt b)
                                (BoxData.secondaryLocation b)).
    intros k b Hin. destruct b as [its c ca sl]. cbn. f_equal.
    rewrite <- (map_id its) at 2. apply map_ext_in.
    intros i Hi. apply (Hit k _ i Hin Hi).
Qed.

Lemma loadSessionData_settled s now w :
  settled s ->
  loadSessionData s now true w = rebind w s.
Proof.
  intros Hs. destruct (settled_fixed Hs) as (_ & H2 & H3).
  unfold loadSessionData, markExistingBoxesAsCompleted, updateCurrent.
  cbn [binding rebind]. rewrite H2. cbn [binding rebind]. now rewrite H3.
Qed.

Lemma asLoaded_settled s now : settled s -> asLoaded s now true = s.
Proof.
  intros Hs. destruct (settled_fixed Hs) as (H1 & _).
  unfold asLoaded. rewrite H1, (loadSessionData_settled now _ Hs). reflexivity.
Qed.

Lemma exportedKept_refl p : idle p -> exportedKept p p.
Proof. intros H. now repeat split; try apply H. Qed.

Lemma exportedKept_trans p1 p2 p3 :
  exportedKept p1 p2 -> exportedKept p2 p3 -> exportedKept p1 p3.
Proof.
  intros (_ & A1 & A2 & A3 & A4) (B0 & B1 & B2 & B3 & B4).
  repeat split; try apply B0; congruence.
Qed.

Lemma exportedKept_save env p : idle p -> exportedKept p (saveToStorage env p).
Proof.
  intros H. destruct (saveToStorage_idle env H) as (H1 & H2 & _ & H3 & _ & H4 & H5).
  now repeat split; try apply H1.
Qed.

Lemma exportedKept_rebind p s :
  idle p -> exportedKept p (setWorld p (rebind (world p) s)).
Proof. intros H. now repeat split; try apply H. Qed.

Lemma exportedKept_startNewSession now env p :
  idle p -> exportedKept p (startNewSession now env p).
Proof.
  intros H. unfold startNewSession.
  eapply exportedKept_trans; [apply exportedKept_rebind, H|].
  apply exportedKept_save. exact H.
Qed.

Lemma binding_loadSessionData d now w :
  binding (loadSessionData d now true w)
  = Rebound (normalizeSessionBoxes
               (Session.with_boxes d
                  (map (fun kv => (fst kv, repairShape (snd kv))) (Session.boxes d)))).
Proof. reflexivity. Qed.

Lemma loadSessionData_kept d now w :
  windowSession (loadSessionData d now true w) = windowSession w
  /\ currentBox (loadSessionData d now true w) = currentBox w
  /\ history (loadSessionData d now true w) = history w.
Proof. repeat split. Qed.

Lemma markExisting_rebound now flag w s :
  binding w = Rebound s ->
  windowSession (markExistingBoxesAsCompleted now flag w) = windowSession w
  /\ currentBox (markExistingBoxesAsCompleted now flag w) = currentBox w
  /\ history (markExistingBoxesAsCompleted now flag w) = history w
  /\ exists s', binding (markExistingBoxesAsCompleted now flag w) = Rebound s'.
Proof.
  intros Hb. unfold markExistingBoxesAsCompleted, updateCurrent. rewrite Hb.
  destruct flag; cbn; rewrite ?Hb; repeat split; eexists; reflexivity.
Qed.

Lemma exportedKept_markExistingBoxes now env p s :
  idle p -> binding (world p) = Rebound s ->
  match markExistingBoxes now env p with
  | Done p' _ => exportedKept p p'
  | Thrown p' => exportedKept p p'
  end.
Proof.
  intros H Hb. unfold markExistingBoxes.
  destruct (migrationFlag p); [now apply exportedKept_refl|].
  destruct (markExisting_rebound now false _ Hb) as (W1 & W2 & W3 & _).
  assert (K : exportedKept p
                (setWorld p (markExistingBoxesAsCompleted now false (world p)))).
  { repeat split; try apply H; assumption. }
  destruct (localWritable env); [|exact K].
  assert (K2 : exportedKept p
                 (setMigrationFlag
                    (setWorld p (markExistingBoxesAsCompleted now false (world p))))).
  { repeat split; try apply H; assumption. }
  destruct (someUnmarked _); [|exact K2].
  eapply exportedKept_trans; [exact K2|]. apply exportedKept_save.
  split; apply H.
Qed.

Lemma exportedKept_loadFromBackup p :
  idle p -> exportedKept p (pageOf (loadFromBackup p)).
Proof.
  intros H. unfold loadFromBackup.
  destruct (present (sessionBackup p)); [|now apply exportedKept_refl].
  destruct (sessionBackup p) as [[s| | | |]|]; cbn [pageOf];
    try (now apply exportedKept_refl).
  now apply exportedKept_rebind.
Qed.

Lemma exportedKept_readStored env p :
  idle p ->
  match readStored env p with
  | Done p' _ => exportedKept p p'
  | Thrown p' => exportedKept p p'
  end.
Proof.
  intros H. unfold readStored.
  destruct (electron env); [now apply exportedKept_refl|].
  destruct (present (localSession p)).
  - destruct (localSession p) as [[s| | | |]|]; cbn;
      now apply exportedKept_refl.
  - destruct (present (sessionBackup p)); [|now apply exportedKept_refl].
    destruct (localWritable env); [|now apply exportedKept_refl].
    assert (K : exportedKept p (setLocal p (sessionBackup p)))
      by (repeat split; apply H).
    destruct (sessionBackup p) as [[s| | | |]|]; cbn; exact K.
Qed.

Lemma exportedKept_loadSession now env p :
  idle p -> exportedKept p (pageOf (loadSession now env p)).
Proof.
  intros H. unfold loadSession.
  pose proof (exportedKept_readStored env H) as K1.
  destruct (readStored env p) as [p1 data|p1].
  - assert (Hacc : forall s,
               exportedKept p
                 (pageOf
                    (match markExistingBoxes now env
                             (saveToStorage env
                                (setWorld p1 (loadSessionData s now true (world p1))))
                     with
                     | Done p4 _ => LoadReturned p4 true
                     | Thrown p4 => loadFromBackup p4
                     end))).
    { intros s.
      assert (K2 : exportedKept p1
                     (setWorld p1 (loadSessionData s now true (world p1)))).
      { repeat split; apply K1. }
      assert (K3 : exportedKept p
                     (saveToStorage env
                        (setWorld p1 (loadSessionData s now true (world p1))))).
      { eapply exportedKept_trans; [exact K1|].
        eapply exportedKept_trans; [exact K2|].
        apply exportedKept_save. apply K2. }
      pose proof (@exportedKept_markExistingBoxes now env
                    (saveToStorage env
                       (setWorld p1 (loadSessionData s now true (world p1)))) _
                    ltac:(apply K3)
                    ltac:(destruct (@saveToStorage_idle env
                                      (setWorld p1 (loadSessionData s now true (world p1)))
                                      ltac:(apply K2)) as (_ & _ & _ & _ & -> & _);
                          apply binding_loadSessionData)) as K4.
      destruct (markExistingBoxes now env _) as [p4 u|p4]; cbn [pageOf].
      - eapply exportedKept_trans; [exact K3 | exact K4].
      - eapply exportedKept_trans; [exact K3|].
        eapply exportedKept_trans; [exact K4|].
        apply exportedKept_loadFromBackup. apply K4. }
    destruct data; cbn [pageOf]; try apply Hacc;
      (eapply exportedKept_trans; [exact K1|];
       apply exportedKept_startNewSession; apply K1).
  - eapply exportedKept_trans; [exact K1|].
    apply exportedKept_loadFromBackup. apply K1.
Qed.

(** X19: [init] always ends with a new, empty session in the variable
    of [js/data.js], whatever storage holds: [loadSession] gives the
    variable a new object, the exported object still has no id, so
    [startNewSession] runs.  The exported session stays the empty
    initial object, no location is active, and when [localStorage] can
    be written the stored session is replaced by the empty one. *)
Theorem init_starts_empty (cfg : option N) (stored backup : option Text)
  (flag : bool) (env : Env) (now now' : str) :
  let p' := init now now' env (initialPage cfg stored backup flag) in
  let fresh := Session.mk (Some (lit "session-" ++ dashed now')) (Some now') [] in
  currentSession (world p') = fresh
  /\ windowSession (world p') = Session.mk None None []
  /\ currentBox (world p') = None
  /\ (localWritable env = true -> localSession p' = Some (Written fresh)).
Proof.
  intros p' fresh. unfold p', init.
  set (p := initialPage cfg stored backup flag).
  assert (Hi : idle p) by (split; reflexivity).
  pose proof (exportedKept_loadSession now env Hi) as (Hi1 & W1 & C1 & _).
  set (p1 := pageOf (loadSession now env p)) in *.
  change (windowSession (world p)) with (Session.mk None None []) in W1.
  change (currentBox (world p)) with (@None (list ascii)) in C1.
  rewrite W1.
  change (falsy (Session.id (Session.mk None None []))) with true. cbv iota.
  unfold startNewSession.
  set (p2 := setWorld p1 (rebind (world p1) _)).
  assert (Hi2 : idle p2) by (split; apply Hi1).
  destruct (saveToStorage_idle env Hi2) as (_ & _ & _ & W3 & B3 & C3 & _).
  assert (Ew : windowBoxes (world (saveToStorage env p2)) = []).
  { unfold windowBoxes. rewrite W3. cbn [p2 setWorld world rebind windowSession].
    rewrite W1. reflexivity. }
  rewrite Ew. cbn [map rev].
  repeat split.
  - unfold currentSession. rewrite B3. reflexivity.
  - rewrite W3. cbn [p2 setWorld world rebind windowSession]. exact W1.
  - rewrite C3. cbn [p2 setWorld world rebind currentBox]. exact C1.
  - intros Hw. destruct (saveToStorage_local env Hi2 Hw) as (-> & _). reflexivity.
Qed.

Lemma init_starts_empty_witness :
  let s := Session.mk (Some (lit "session-1")) (Some (lit "t0"))
             [(lit "BOX001",
               BoxData.mk [Item.mk 1 (lit "tape") (Some (Number.Fin 1)) (lit "t") false []]
                          false None None)] in
  let p' := init (lit "t1") (lit "2024-01-01T10:00:00.000Z")
                 (mkEnv false true None)
                 (initialPage None (Some (Written s)) None true) in
  localSession p'
  = Some (Written (Session.mk (Some (lit "session-2024-01-01T10-00-00-000Z"))
                              (Some (lit "2024-01-01T10:00:00.000Z")) [])).
Proof.
  intros s p'.
  destruct (init_starts_empty None (Some (Written s)) None true
              (mkEnv false true None) (lit "t1") (lit "2024-01-01T10:00:00.000Z"))
    as (_ & _ & _ & H).
  apply H. reflexivity.
Defined.

Lemma currentSession_asLoaded d now flag w :
  currentSession (markExistingBoxesAsCompleted now flag (loadSessionData d now true w))
  = currentSession
      (markExistingBoxesAsCompleted now flag
         (loadSessionData d now true (initialWorld None))).
Proof.
  unfold markExistingBoxesAsCompleted. destruct flag; [reflexivity|].
  rewrite !currentSession_updateCurrent. reflexivity.
Qed.

(** X20: saving and loading through [localStorage].  Without the
    Electron bridge and with a writable [localStorage], [saveToStorage]
    stores the text of the current session; [loadSession] on a page
    whose storage holds that text returns true and leaves, as the
    session of [js/data.js], the JSON copy of the saved session after
    shape repair, key normalisation and the completion migration, and
    sets the migration flag.  A session with distinct canonical keys,
    records in normal form and settled, finite quantities comes back
    equal to the one saved when the migration has run before, and the
    stored text is again that session.  The exported session object is
    not the one loaded: it stays as it was. *)
Theorem save_load_roundtrip (env : Env) (now : str) (p q : Page) :
  electron env = false -> localWritable env = true ->
  idle p -> idle q ->
  localSession q = localSession (saveToStorage env p) ->
  localSession (saveToStorage env p) = Some (Written (currentSession (world p)))
  /\ exists q',
       loadSession now env q = LoadReturned q' true
       /\ currentSession (world q')
          = asLoaded (currentSession (world p)) now (migrationFlag q)
       /\ migrationFlag q' = true
       /\ windowSession (world q') = windowSession (world q)
       /\ (settled (currentSession (world p)) -> migrationFlag q = true ->
           currentSession (world q') = currentSession (world p)
           /\ localSession q' = Some (Written (currentSession (world p)))).
Proof.
  intros He Hw Hp Hq Hl.
  destruct (saveToStorage_local env Hp Hw) as (Es & _ & _).
  split; [exact Es|]. rewrite Es in Hl.
  set (s := currentSession (world p)) in *.
  unfold loadSession, readStored. rewrite He, Hl. cbn [present parse].
  set (p2 := setWorld q (loadSessionData (jsonCopy s) now true (world q))).
  assert (Hi2 : idle p2) by (split; apply Hq).
  destruct (saveToStorage_idle env Hi2) as (Hi3 & _ & F3 & W3 & B3 & _).
  destruct (saveToStorage_local env Hi2 Hw) as (L3 & _ & Wd3).
  unfold markExistingBoxes. rewrite F3. cbn [p2 setWorld migrationFlag].
  rewrite Hw.
  destruct (migrationFlag q) eqn:Fq.
  - eexists. split; [reflexivity|].
    split; [|split; [|split]].
    + rewrite Wd3. cbn [p2 setWorld world]. unfold asLoaded.
      apply (@currentSession_asLoaded (jsonCopy s) now true (world q)).
    + rewrite F3. exact Fq.
    + rewrite W3. reflexivity.
    + intros Hs _. rewrite Wd3, L3. cbn [p2 setWorld world].
      destruct (settled_fixed Hs) as (J & _).
      rewrite J, (loadSessionData_settled now _ Hs). now split.
  - set (p3 := saveToStorage env p2) in *.
    set (p4 := setMigrationFlag
                 (setWorld p3 (markExistingBoxesAsCompleted now false (world p3)))).
    assert (Hi4 : idle p4) by (split; apply Hi3).
    assert (Ecur : currentSession (world p4)
                   = asLoaded s now false).
    { cbn [p4 setMigrationFlag setWorld world]. rewrite Wd3.
      cbn [p2 setWorld world]. unfold asLoaded.
      apply (@currentSession_asLoaded (jsonCopy s) now false (world q)). }
    assert (Ewin : windowSession (world p4) = windowSession (world q)).
    { cbn [p4 setMigrationFlag setWorld world].
      destruct (@markExisting_rebound now false (world p3) _
                  ltac:(rewrite B3; apply binding_loadSessionData)) as (-> & _).
      rewrite W3. reflexivity. }
    destruct (someUnmarked (currentSession (world p3))).
    + destruct (saveToStorage_idle env Hi4) as (_ & _ & F5 & W5 & B5 & _).
      eexists. split; [reflexivity|].
      split; [|split; [|split]].
      * rewrite <- Ecur. apply currentSession_binding; assumption.
      * rewrite F5. reflexivity.
      * rewrite W5. exact Ewin.
      * intros _ Hf. discriminate Hf.
    + eexists. split; [reflexivity|].
      split; [exact Ecur | split; [reflexivity | split; [exact Ewin|]]].
      intros _ Hf. discriminate Hf.
Qed.

Lemma save_load_roundtrip_witness :
  let s := Session.mk (Some (lit "session-1")) (Some (lit "t0"))
             [(lit "BOX001",
               BoxData.mk [Item.mk 1 (lit "tape") (Some (Number.Fin 2)) (lit "t") false []]
                          false None (Some (lit "SHELF 2C")))] in
  let env := mkEnv false true None in
  let p := mkPage (rebind (initialWorld None) s) None None true false false 0 in
  let q := initialPage None (localSession (saveToStorage env p)) None true in
  exists q',
    loadSession (lit "t1") env q = LoadReturned q' true
    /\ currentSession (world q') = asLoaded s (lit "t1") true
    /\ migrationFlag q' = true
    /\ windowSession (world q') = windowSession (world q)
    /\ (settled s -> true = true ->
        currentSession (world q') = s /\ localSession q' = Some (Written s)).
Proof.
  intros s env p q.
  destruct (@save_load_roundtrip env (lit "t1") p q eq_refl eq_refl
              (conj eq_refl eq_refl) (conj eq_refl eq_refl) eq_refl) as (_ & H).
  exact H.
Defined.

(** X21: when [localStorage] cannot be written (and there is no
    Electron bridge), [saveToStorage] leaves it as it was, writes the
    text of the session to the backup in [sessionStorage] and reports
    that the data went to the backup only; when the backup cannot be
    written either, nothing is stored and the error is reported with
    its message.  From the backup alone, [loadSession] returns true:
    with a writable [localStorage] it copies the backup there and loads
    it as usual; with [localStorage] still failing it takes the JSON
    copy of the backup as it is, without repair or normalisation. *)
Theorem save_falls_back_to_backup (env : Env) (now : str) (p : Page) :
  electron env = false -> localWritable env = false -> idle p ->
  let s := currentSession (world p) in
  let p' := saveToStorage env p in
  localSession p' = localSession p
  /\ currentSession (world p') = s
  /\ match backupFailure env with
     | None =>
         sessionBackup p' = Some (Written s)
         /\ ui (world p')
            = ui (world p)
              ++ [SaveError
                    (lit "Data saved to session backup only (Persistence failed).")]
     | Some message =>
         sessionBackup p' = sessionBackup p
         /\ ui (world p')
            = ui (world p) ++ [SaveError (lit "Error saving: " ++ message)]
     end
  /\ (forall q env',
        idle q -> electron env' = false ->
        present (localSession q) = false -> sessionBackup q = Some (Written s) ->
        exists q',
          loadSession now env' q = LoadReturned q' true
          /\ currentSession (world q')
             = (if localWritable env'
                then asLoaded s now (migrationFlag q)
                else jsonCopy s)
          /\ (localWritable env' = true -> present (localSession q') = true)).
Proof.
  intros He Hw Hp s p'.
  split; [|split; [|split]].
  - unfold p', saveToStorage, saveFinally. destruct Hp as [H1 H2].
    rewrite H1, He, Hw. destruct (backupFailure env); cbn; rewrite H2; reflexivity.
  - unfold p', saveToStorage, saveFinally. destruct Hp as [H1 H2].
    rewrite H1, He, Hw. destruct (backupFailure env); cbn; rewrite H2; reflexivity.
  - unfold p', saveToStorage, saveFinally. destruct Hp as [H1 H2].
    rewrite H1, He, Hw. destruct (backupFailure env); cbn; rewrite H2; now split.
  - intros q env' Hq He' Hl Hb.
    unfold loadSession, readStored. rewrite He', Hl, Hb. cbn [present].
    destruct (localWritable env') eqn:Hw'.
    + cbn [parse].
      set (q1 := setLocal q (Some (Written s))).
      set (p2 := setWorld q1 (loadSessionData (jsonCopy s) now true (world q1))).
      assert (Hi2 : idle p2) by (split; apply Hq).
      destruct (saveToStorage_idle env' Hi2) as (Hi3 & _ & F3 & W3 & B3 & _).
      destruct (saveToStorage_local env' Hi2 Hw') as (L3 & _ & Wd3).
      unfold markExistingBoxes. rewrite F3. cbn [p2 q1 setWorld setLocal migrationFlag].
      rewrite Hw'.
      destruct (migrationFlag q) eqn:Fq.
      * eexists. split; [reflexivity|]. split.
        -- rewrite Wd3. cbn [p2 setWorld world]. unfold asLoaded.
           apply (@currentSession_asLoaded (jsonCopy s) now true (world q1)).
        -- intros _. fold q1. fold p2. rewrite L3. reflexivity.
      * fold q1. fold p2.
        set (p3 := saveToStorage env' p2) in *.
        set (p4 := setMigrationFlag
                     (setWorld p3 (markExistingBoxesAsCompleted now false (world p3)))).
        assert (Hi4 : idle p4) by (split; apply Hi3).
        assert (Ecur : currentSession (world p4) = asLoaded s now false).
        { cbn [p4 setMigrationFlag setWorld world]. rewrite Wd3.
          cbn [p2 setWorld world]. unfold asLoaded.
          apply (@currentSession_asLoaded (jsonCopy s) now false (world q1)). }
        assert (El : present (localSession p4) = true).
        { cbn [p4 setMigrationFlag setWorld localSession]. now rewrite L3. }
        destruct (someUnmarked (currentSession (world p3))).
        -- destruct (saveToStorage_idle env' Hi4) as (_ & _ & _ & W5 & B5 & _).
           destruct (saveToStorage_local env' Hi4 Hw') as (L5 & _).
           eexists. split; [reflexivity|]. split.
           ++ rewrite <- Ecur. apply currentSession_binding; assumption.
           ++ intros _. now rewrite L5.
        -- eexists. split; [reflexivity|]. split; [exact Ecur | intros _; exact El].
    + unfold loadFromBackup. rewrite Hb. cbn [present].
      eexists. split; [reflexivity|]. split; [reflexivity | discriminate].
Qed.

Lemma save_falls_back_to_backup_witness :
  let s := Session.mk (Some (lit "session-1")) (Some (lit "t0")) [] in
  let env := mkEnv false false None in
  let p := mkPage (rebind (initialWorld None) s) None None true false false 0 in
  sessionBackup (saveToStorage env p) = Some (Written s)
  /\ ui (world (saveToStorage env p))
     = ui (world p)
       ++ [SaveError (lit "Data saved to session backup only (Persistence failed).")].
Proof.
  intros s env p.
  destruct (@save_falls_back_to_backup env (lit "t1") p eq_refl eq_refl
              (conj eq_refl eq_refl)) as (_ & _ & H & _).
  exact H.
Defined.

(** X22: with the Electron bridge, what [loadData] returns is a
    promise, an object without [boxes]: [loadSession] never reads a
    stored session.  When [localStorage] can be written it returns true
    with an empty session without id, started now, as the session of
    [js/data.js], and the text in [localStorage] is replaced by that of
    the empty session.  [saveToStorage] takes the promise [saveData]
    returns for a success: it never writes the backup and never reports
    an error. *)
Theorem electron_loads_nothing (env : Env) (now : str) (p : Page) :
  electron env = true -> idle p ->
  (localWritable env = true ->
   exists p',
     loadSession now env p = LoadReturned p' true
     /\ currentSession (world p') = Session.mk None (Some now) []
     /\ localSession p' = Some (Written (Session.mk None (Some now) [])))
  /\ sessionBackup (saveToStorage env p) = sessionBackup p
  /\ world (saveToStorage env p) = world p
  /\ (localWritable env = false ->
      localSession (saveToStorage env p) = localSession p).
Proof.
  intros He Hp. split; [|split; [|split]].
  - intros Hw. unfold loadSession, readStored. rewrite He.
    set (fresh := Session.mk None (Some now) []).
    set (p2 := setWorld p (loadSessionData fresh now true (world p))).
    assert (Hi2 : idle p2) by (split; apply Hp).
    destruct (saveToStorage_idle env Hi2) as (Hi3 & _ & F3 & W3 & B3 & _).
    destruct (saveToStorage_local env Hi2 Hw) as (L3 & _ & Wd3).
    assert (Ec : currentSession (world p2) = fresh) by reflexivity.
    unfold markExistingBoxes. rewrite F3, Hw.
    assert (Eu : someUnmarked (currentSession (world (saveToStorage env p2))) = false).
    { rewrite Wd3, Ec. reflexivity. }
    rewrite Eu.
    assert (Em : markExistingBoxesAsCompleted now false (world (saveToStorage env p2))
                 = world (saveToStorage env p2)).
    { rewrite Wd3. reflexivity. }
    destruct (migrationFlag p2).
    + eexists. split; [reflexivity|]. rewrite Wd3, L3, Ec. now split.
    + eexists. split; [reflexivity|].
      cbn [setMigrationFlag setWorld world localSession].
      rewrite Em, Wd3, L3, Ec. now split.
  - unfold saveToStorage, saveFinally. destruct Hp as [H1 H2].
    rewrite H1, He. destruct (localWritable env); cbn; rewrite H2; reflexivity.
  - unfold saveToStorage, saveFinally. destruct Hp as [H1 H2].
    rewrite H1, He. destruct (localWritable env); cbn; rewrite H2; reflexivity.
  - intros Hw. unfold saveToStorage, saveFinally. destruct Hp as [H1 H2].
    rewrite H1, He, Hw. cbn. rewrite H2. reflexivity.
Qed.

Lemma electron_loads_nothing_witness :
  let s := Session.mk (Some (lit "session-1")) (Some (lit "t0"))
             [(lit "BOX001", BoxData.mk [] false None None)] in
  let p := initialPage None (Some (Written s)) None true in
  exists p',
    loadSession (lit "t1") (mkEnv true true None) p = LoadReturned p' true
    /\ currentSession (world p') = Session.mk None (Some (lit "t1")) []
    /\ localSession p' = Some (Written (Session.mk None (Some (lit "t1")) [])).
Proof.
  intros s p.
  destruct (@electron_loads_nothing (mkEnv true true None) (lit "t1") p eq_refl
              (conj eq_refl eq_refl)) as (H & _).
  apply H. reflexivity.
Defined.

(* ================================================================== *)
(** * Actions, composed *)

Lemma assign_lookup_same k v l : lookup k l = Some v -> assign k v l = l.
Proof.
  induction l as [|[k' v'] l IH]; simpl; [discriminate|].
  destruct (str_eqb k k') eqn:E.
  - now intros [= ->].
  - intros H. now rewrite IH.
Qed.

Lemma assign_keys k v v0 l :
  lookup k l = Some v0 -> map fst (assign k v l) = map fst l.
Proof. apply assign_keys_present. Qed.

(** X23: [toggleBoxComplete] twice on a box of the exported session
    gives back its completion flag, its items and its secondary
    location, and leaves the other boxes and the order of the keys as
    they were.  A box that was not completed and had no time stamp is
    exactly as before; a box that was completed keeps the flag but its
    [completedAt] is now the time of the second call. *)
Theorem toggleBoxComplete_twice (b : option str) (now1 now2 : str) (w : World)
  (box : BoxData.t) :
  lookup (propKey (normalizeBoxNumber b)) (windowBoxes w) = Some box ->
  let w2 := toggleBoxComplete b now2 (toggleBoxComplete b now1 w) in
  lookup (propKey (normalizeBoxNumber b)) (windowBoxes w2)
  = Some (BoxData.mk (BoxData.items box) (BoxData.completed box)
                     (if BoxData.completed box then Some now2 else None)
                     (BoxData.secondaryLocation box))
  /\ (forall k, k <> propKey (normalizeBoxNumber b) ->
        lookup k (windowBoxes w2) = lookup k (windowBoxes w))
  /\ map fst (windowBoxes w2) = map fst (windowBoxes w)
  /\ (BoxData.completed box = false -> BoxData.completedAt box = None ->
      windowBoxes w2 = windowBoxes w).
Proof.
  intros L w2. unfold w2.
  set (key := propKey (normalizeBoxNumber b)) in *.
  assert (E1 : windowBoxes (toggleBoxComplete b now1 w)
               = assign key
                   (BoxData.mk (BoxData.items box) (negb (BoxData.completed box))
                      (if negb (BoxData.completed box) then Some now1 else None)
                      (BoxData.secondaryLocation box))
                   (windowBoxes w)).
  { unfold toggleBoxComplete. fold key. rewrite L. apply windowBoxes_saved. }
  assert (E2 : windowBoxes (toggleBoxComplete b now2 (toggleBoxComplete b now1 w))
               = assign key
                   (BoxData.mk (BoxData.items box) (BoxData.completed box)
                      (if BoxData.completed box then Some now2 else None)
                      (BoxData.secondaryLocation box))
                   (windowBoxes w)).
  { unfold toggleBoxComplete at 1. fold key. rewrite E1, lookup_assign_same.
    rewrite windowBoxes_saved. cbn [BoxData.items BoxData.completed
                                      BoxData.secondaryLocation].
    rewrite negb_involutive. apply assign_assign. }
  rewrite E2. repeat split.
  - apply lookup_assign_same.
  - intros k Hk. now apply lookup_assign_other.
  - now apply assign_keys with box.
  - intros Hc Ha. apply assign_lookup_same. rewrite L. f_equal.
    destruct box as [its c ca sl]. cbn in *. now subst.
Qed.

Lemma toggleBoxComplete_twice_witness :
  let w := switchBox (Some (lit "7")) (initialWorld None) in
  windowBoxes (toggleBoxComplete (Some (lit "box 7")) (lit "t2")
                 (toggleBoxComplete (Some (lit "7")) (lit "t1") w))
  = windowBoxes w.
Proof.
  intros w.
  destruct (@toggleBoxComplete_twice (Some (lit "7")) (lit "t1") (lit "t2") w
              createEmptyBoxData eq_refl) as (_ & _ & _ & H).
  apply H; reflexivity.
Defined.

Lemma removeFirst_last p l i :
  p i = true -> (forall j, In j l -> p j = false) ->
  removeFirst p (l ++ [i]) = l.
Proof.
  intros Hi Hl. rewrite (@removeFirst_split p l i [] Hi Hl). apply app_nil_r.
Qed.

Lemma ensureBoxExists_keeps key s box :
  lookup key (Session.boxes s) = Some box ->
  lookup key (Session.boxes (ensureBoxExists key s)) = Some (repairShape box)
  /\ map fst (Session.boxes (ensureBoxExists key s)) = map fst (Session.boxes s).
Proof.
  intros L. unfold ensureBoxExists. rewrite L.
  cbn [Session.boxes Session.with_boxes]. split.
  - apply lookup_assign_same.
  - now apply assign_keys_present with box.
Qed.

Lemma currentBox_saveStateToHistory w :
  currentBox (saveStateToHistory w) = currentBox w.
Proof. unfold saveStateToHistory. destruct (_ <? _)%N; reflexivity. Qed.

Lemma deleteItem_last (w1 : World) (box1 : BoxData.t) items item itemId :
  normalizeBoxNumber (currentBox w1) = currentBox w1 ->
  lookup (propKey (currentBox w1)) (windowBoxes w1) = Some box1 ->
  BoxData.items box1 = items ++ [item] ->
  hasId itemId item = true ->
  (forall j, In j items -> hasId itemId j = false) ->
  windowBoxes (deleteItem (currentBox w1) itemId w1)
  = assign (propKey (currentBox w1)) (setItems box1 items) (windowBoxes w1)
  /\ currentBox (deleteItem (currentBox w1) itemId w1) = currentBox w1.
Proof.
  intros Hn L Hi Hid Hothers. unfold deleteItem. rewrite Hn, L, Hi.
  assert (Hex : existsb (hasId itemId) (items ++ [item]) = true).
  { rewrite existsb_app. cbn. now rewrite Hid, orb_true_r. }
  rewrite Hex, (@removeFirst_last (hasId itemId) items item Hid Hothers).
  assert (Hkeep : key_eqb (currentBox w1) (currentBox w1) = true).
  { destruct (currentBox w1); cbn; [apply str_eqb_refl | reflexivity]. }
  rewrite Hkeep. cbn [negb].
  set (final := assign (propKey (currentBox w1)) (setItems box1 items) (windowBoxes w1)).
  replace (match items with [] => final | _ :: _ => final end) with final
    by (now destruct items).
  split; [apply windowBoxes_saved|].
  now rewrite currentBox_saveStateToHistory.
Qed.

(** X24: adding an item under a new name to the active location and
    then deleting it by its id gives back the items of every box and
    the keys of the exported session, provided no other item of the
    box has that id; the active location stays, also when its list is
    empty again. *)
Theorem addItem_then_deleteItem (itemName now : str) (newId : Z)
  (tags : option (list str)) (w : World) (box : BoxData.t) :
  truthy (currentBox w) = true ->
  normalizeBoxNumber (currentBox w) = currentBox w ->
  lookup (propKey (currentBox w)) (windowBoxes w) = Some box ->
  find (fun item => sameName (Item.name item) (Parsed.name (parseQuantity itemName)))
       (BoxData.items box) = None ->
  (forall i, In i (BoxData.items box) -> Item.id i <> newId) ->
  exists w1,
    addItem itemName now newId tags w = Return w1 tt
    /\ itemsAt (propKey (currentBox w)) (windowBoxes w1)
       = BoxData.items box
         ++ [Item.mk newId (Parsed.name (parseQuantity itemName))
                     (Some (Parsed.qty (parseQuantity itemName))) now false
                     (match tags with Some t => t | None => [] end)]
    /\ let w2 := deleteItem (currentBox w) newId w1 in
       (forall k, itemsAt k (windowBoxes w2) = itemsAt k (windowBoxes w))
       /\ map fst (windowBoxes w2) = map fst (windowBoxes w)
       /\ currentBox w2 = currentBox w.
Proof.
  intros Ht Hn L Hf Hid.
  set (key := propKey (currentBox w)) in *.
  set (item := Item.mk newId (Parsed.name (parseQuantity itemName))
                       (Some (Parsed.qty (parseQuantity itemName))) now false
                       (match tags with Some t => t | None => [] end)).
  set (w0 := updateCurrent (ensureBoxExists key) w).
  assert (H0 : exists box0,
             lookup key (windowBoxes w0) = Some box0
             /\ BoxData.items box0 = BoxData.items box
             /\ (forall k, itemsAt k (windowBoxes w0) = itemsAt k (windowBoxes w))
             /\ map fst (windowBoxes w0) = map fst (windowBoxes w)
             /\ currentBox w0 = currentBox w).
  { unfold w0, updateCurrent, windowBoxes in *. destruct (binding w).
    - cbn [windowSession setWindowSession currentBox].
      destruct (@ensureBoxExists_keeps key (windowSession w) box L) as (E1 & E2).
      exists (repairShape box). rewrite E1. repeat split; auto.
      intros k. apply itemsAt_ensureBoxExists.
    - exists box. cbn [windowSession rebind currentBox]. repeat split; auto. }
  destruct H0 as (box0 & L0 & I0 & K0 & M0 & C0).
  assert (Ea : addItem itemName now newId tags w
               = Return (saveStateToHistory
                           (setWindowBoxes w0
                              (assign key (setItems box0 (BoxData.items box0 ++ [item]))
                                      (windowBoxes w0)))) tt).
  { unfold addItem, falsy. rewrite Ht. cbn [negb]. fold key. fold w0.
    rewrite L0, I0, Hf. reflexivity. }
  eexists. split; [exact Ea|].
  set (boxes1 := assign key (setItems box0 (BoxData.items box0 ++ [item]))
                        (windowBoxes w0)).
  assert (W1 : windowBoxes (saveStateToHistory (setWindowBoxes w0 boxes1)) = boxes1)
    by apply windowBoxes_saved.
  split.
  { rewrite W1. unfold itemsAt, boxes1. rewrite lookup_assign_same. cbn. now rewrite I0. }
  intros w2.
  set (w1 := saveStateToHistory (setWindowBoxes w0 boxes1)) in *.
  assert (C1 : currentBox w1 = currentBox w).
  { unfold w1. rewrite currentBox_saveStateToHistory. exact C0. }
  assert (L1 : lookup (propKey (currentBox w1)) (windowBoxes w1)
               = Some (setItems box0 (BoxData.items box0 ++ [item]))).
  { rewrite C1, W1. fold key. unfold boxes1. apply lookup_assign_same. }
  destruct (@deleteItem_last w1 _ (BoxData.items box0) item newId
              ltac:(rewrite C1; exact Hn) L1 eq_refl
              ltac:(unfold hasId; cbn; apply Z.eqb_refl)
              ltac:(intros j Hj; unfold hasId; apply Z.eqb_neq, Hid;
                    now rewrite <- I0)) as (E2 & C2).
  rewrite C1 in E2, C2. fold key in E2.
  assert (Ef : windowBoxes w2 = windowBoxes w0).
  { unfold w2. rewrite E2, W1. unfold boxes1. rewrite assign_assign.
    replace (setItems (setItems box0 (BoxData.items box0 ++ [item]))
                      (BoxData.items box0)) with box0 by (now destruct box0).
    now apply assign_lookup_same. }
  rewrite Ef. repeat split; auto.
Qed.

Lemma addItem_then_deleteItem_witness :
  let w := switchBox (Some (lit "7")) (initialWorld None) in
  exists w1,
    addItem (lit "tape x2") (lit "t1") 5 None w = Return w1 tt
    /\ itemsAt (propKey (currentBox w)) (windowBoxes w1)
       = BoxData.items createEmptyBoxData
         ++ [Item.mk 5 (Parsed.name (parseQuantity (lit "tape x2")))
                     (Some (Parsed.qty (parseQuantity (lit "tape x2")))) (lit "t1")
                     false []]
    /\ let w2 := deleteItem (currentBox w) 5 w1 in
       (forall k, itemsAt k (windowBoxes w2) = itemsAt k (windowBoxes w))
       /\ map fst (windowBoxes w2) = map fst (windowBoxes w)
       /\ currentBox w2 = currentBox w.
Proof.
  intros w.
  apply (@addItem_then_deleteItem (lit "tape x2") (lit "t1") 5 None w
           createEmptyBoxData); try reflexivity.
  intros i [].
Defined.

(* ================================================================== *)
(** * Items without a name *)

Lemma updateFirst_split p e l1 i l2 :
  p i = true -> (forall j, In j l1 -> p j = false) ->
  updateFirst p e (l1 ++ i :: l2) = l1 ++ e i :: l2.
Proof.
  intros Hi Hl. induction l1 as [|a l1 IH]; simpl.
  - now rewrite Hi.
  - rewrite (Hl a (or_introl eq_refl)). f_equal. apply IH.
    intros j Hj. apply Hl. now right.
Qed.

Lemma generateCSV_rows w :
  generateCSV w = csvHeader ++ flat_map csvRows (windowBoxes w).
Proof.
  unfold generateCSV. destruct (windowBoxes w); [|reflexivity].
  cbn [flat_map]. now rewrite app_nil_r.
Qed.

Lemma flat_map_assign (F : str * BoxData.t -> str) k v1 v2 l :
  (forall k', F (k', v1) = F (k', v2)) ->
  flat_map F (assign k v1 l) = flat_map F (assign k v2 l).
Proof.
  intros H. induction l as [|[k' v'] l IH]; cbn [assign flat_map].
  - now rewrite H.
  - destruct (str_eqb k k'); cbn [flat_map]; [now rewrite H | now rewrite IH].
Qed.

Lemma csvRows_nameless k box l1 (i' : Item.t) l2 :
  Item.name i' = [] ->
  csvRows (k, setItems box (l1 ++ i' :: l2)) = csvRows (k, setItems box (l1 ++ l2)).
Proof.
  intros Hn. unfold csvRows. cbn [fst snd setItems BoxData.items BoxData.secondaryLocation].
  rewrite !flat_map_app. cbn [flat_map]. now rewrite Hn.
Qed.

Lemma searchItems_nameless term k sec maxResults l1 i' l2 :
  Item.name i' = [] -> forall results,
  searchItems term k sec maxResults (l1 ++ i' :: l2) results
  = searchItems term k sec maxResults (l1 ++ l2) results.
Proof.
  intros Hn. induction l1 as [|a l1 IH]; intros results; cbn [app searchItems].
  - now rewrite Hn.
  - destruct (Item.name a); [apply IH|].
    destruct (includes _ _); [|apply IH].
    destruct (_ <=? _)%nat; [reflexivity | apply IH].
Qed.

Lemma searchBoxes_assign term maxResults k v1 v2 l :
  BoxData.secondaryLocation v1 = BoxData.secondaryLocation v2 ->
  (forall k' sec results,
     searchItems term k' sec maxResults (BoxData.items v1) results
     = searchItems term k' sec maxResults (BoxData.items v2) results) ->
  forall results,
    searchBoxes term maxResults (assign k v1 l) results
    = searchBoxes term maxResults (assign k v2 l) results.
Proof.
  intros Hs Hi. induction l as [|[k' v'] l IH]; intros results; cbn [assign].
  - cbn [searchBoxes]. now rewrite Hs, Hi.
  - destruct (str_eqb k k'); cbn [searchBoxes].
    + now rewrite Hs, Hi.
    + destruct (_ <=? _)%nat; [reflexivity | apply IH].
Qed.

(** X26: [saveEditedItem] with a blank text, which the edit field of
    the item list lets through, leaves the edited item in place with an
    empty name and quantity 1.  From then on the CSV export and the
    search treat the session as if the item had been deleted: neither
    has a line or an entry for it. *)
Theorem blank_edit_hides_item (newName : str) (w : World) (bn : option str)
  (itemId : Z) (box : BoxData.t) (it : Item.t) :
  editingItemId w = Some (bn, itemId) ->
  lookup (propKey bn) (windowBoxes w) = Some box ->
  find (hasId itemId) (BoxData.items box) = Some it ->
  all is_space newName ->
  let without :=
    setWindowBoxes w
      (assign (propKey bn)
              (setItems box (removeFirst (hasId itemId) (BoxData.items box)))
              (windowBoxes w)) in
  exists w' l1 l2,
    saveEditedItem newName w = Return w' tt
    /\ BoxData.items box = l1 ++ it :: l2
    /\ itemsAt (propKey bn) (windowBoxes w')
       = l1 ++ Item.mk (Item.id it) [] (Some (Number.Fin 1)) (Item.addedAt it)
                       false (Item.tags it) :: l2
    /\ editingItemId w' = None
    /\ generateCSV w' = generateCSV without
    /\ (forall term cfg, performSearch term cfg w' = performSearch term cfg without).
Proof.
  intros He L Hf Hs without.
  destruct (find_split _ _ Hf) as (l1 & l2 & El & Hp & Hl1).
  set (edit := fun item : Item.t =>
                 Item.mk (Item.id item) (Parsed.name (parseQuantity (trim newName)))
                         (Some (Parsed.qty (parseQuantity (trim newName))))
                         (Item.addedAt item) false (Item.tags item)).
  assert (Eparse : parseQuantity (trim newName) = Parsed.mk [] (Number.Fin 1)).
  { rewrite (all_space_trim Hs). reflexivity. }
  set (boxes' := assign (propKey bn)
                        (setItems box (updateFirst (hasId itemId) edit (BoxData.items box)))
                        (windowBoxes w)).
  exists (setEditing (saveStateToHistory (setWindowBoxes w boxes')) None), l1, l2.
  assert (Eu : updateFirst (hasId itemId) edit (BoxData.items box) = l1 ++ edit it :: l2).
  { rewrite El. now apply updateFirst_split. }
  assert (Er : removeFirst (hasId itemId) (BoxData.items box) = l1 ++ l2).
  { rewrite El. now apply removeFirst_split. }
  assert (Ew : windowBoxes (setEditing (saveStateToHistory (setWindowBoxes w boxes')) None)
               = boxes').
  { change (windowBoxes (setEditing ?x None)) with (windowBoxes x).
    apply windowBoxes_saved. }
  assert (Ename : Item.name (edit it) = []).
  { unfold edit. cbn [Item.name]. now rewrite Eparse. }
  split; [|split; [exact El | split; [|split; [reflexivity | split]]]].
  - unfold saveEditedItem. rewrite He, L, Hf. reflexivity.
  - rewrite Ew. unfold itemsAt, boxes'. rewrite lookup_assign_same.
    cbn [setItems BoxData.items]. rewrite Eu. unfold edit. now rewrite Eparse.
  - rewrite !generateCSV_rows, Ew. f_equal.
    unfold without, boxes'. unfold windowBoxes at 3.
    cbn [setWindowBoxes setWindowSession windowSession Session.with_boxes Session.boxes].
    rewrite Eu, Er. apply flat_map_assign.
    intros k'. now apply csvRows_nameless.
  - intros term cfg. unfold performSearch.
    destruct (toLowerCase (trim term)) as [|c t]; [reflexivity|].
    f_equal. rewrite Ew. unfold without, boxes'. unfold windowBoxes at 3.
    cbn [setWindowBoxes setWindowSession windowSession Session.with_boxes Session.boxes].
    rewrite Eu, Er. apply searchBoxes_assign; [reflexivity|].
    intros k' sec results. cbn [setItems BoxData.items].
    now apply searchItems_nameless.
Qed.

Lemma blank_edit_hides_item_witness :
  let it := Item.mk 5 (lit "tape") (Some (Number.Fin 2)) (lit "t1") false [] in
  let box := BoxData.mk [it] false None None in
  let w := setEditing
             (setWindowBoxes (setCurrentBox (initialWorld None) (Some (lit "BOX007")))
                             [(lit "BOX007", box)])
             (Some (Some (lit "BOX007"), 5%Z)) in
  exists w' l1 l2,
    saveEditedItem (lit "  ") w = Return w' tt
    /\ BoxData.items box = l1 ++ it :: l2
    /\ itemsAt (lit "BOX007") (windowBoxes w')
       = l1 ++ Item.mk 5 [] (Some (Number.Fin 1)) (lit "t1") false [] :: l2
    /\ editingItemId w' = None
    /\ generateCSV w' = csvHeader
    /\ (forall term cfg,
          performSearch term cfg w'
          = performSearch term cfg
              (setWindowBoxes w [(lit "BOX007", BoxData.mk [] false None None)])).
Proof.
  intros it box w.
  apply (@blank_edit_hides_item (lit "  ") w (Some (lit "BOX007")) 5 box it);
    try reflexivity.
  repeat constructor.
Defined.

(* ================================================================== *)
(** * Editing mode *)

(** X27: [startEditItem] records the normalised key and the id as the
    item being edited before it looks anything up, and changes nothing
    else.  When the exported session has no box under the key it throws
    with the editing mode left on, and [saveEditedItem] then throws as
    well; when the box has no item with the id, [saveEditedItem] only
    leaves the editing mode, without a snapshot.  [cancelEdit] leaves
    the editing mode and changes nothing else. *)
Theorem editing_mode (boxNumber : option str) (itemId : Z) (w : World) :
  let key := propKey (normalizeBoxNumber boxNumber) in
  let w1 := setEditing w (Some (normalizeBoxNumber boxNumber, itemId)) in
  worldOf (startEditItem boxNumber itemId w) = w1
  /\ (lookup key (windowBoxes w) = None ->
      startEditItem boxNumber itemId w = Throw w1
      /\ forall newName, saveEditedItem newName w1 = Throw w1)
  /\ (forall box, lookup key (windowBoxes w) = Some box ->
        startEditItem boxNumber itemId w = Return w1 tt
        /\ (find (hasId itemId) (BoxData.items box) = None ->
            forall newName,
              saveEditedItem newName w1 = Return (setEditing w None) tt))
  /\ cancelEdit w1 = setEditing w None
  /\ (editingItemId w = None -> cancelEdit w1 = w).
Proof.
  intros key w1. unfold startEditItem. fold key. fold w1.
  change (windowBoxes w1) with (windowBoxes w).
  split; [now destruct (lookup key (windowBoxes w))|].
  split; [|split; [|split]].
  - intros L. rewrite L. split; [reflexivity|].
    intros newName. unfold saveEditedItem, w1.
    cbn [editingItemId setEditing]. fold key.
    change (windowBoxes (setEditing w (Some (normalizeBoxNumber boxNumber, itemId))))
      with (windowBoxes w).
    now rewrite L.
  - intros box L. rewrite L. split; [reflexivity|].
    intros Hf newName. unfold saveEditedItem, w1.
    cbn [editingItemId setEditing]. fold key.
    change (windowBoxes (setEditing w (Some (normalizeBoxNumber boxNumber, itemId))))
      with (windowBoxes w).
    now rewrite L, Hf.
  - reflexivity.
  - intros He. unfold cancelEdit, w1, setEditing. cbn. destruct w. cbn in *.
    now subst.
Qed.

Lemma editing_mode_witness :
  let w := switchBox (Some (lit "7")) (initialWorld None) in
  let w1 := setEditing w (Some (normalizeBoxNumber (Some (lit "8")), 3%Z)) in
  startEditItem (Some (lit "8")) 3 w = Throw w1
  /\ forall newName, saveEditedItem newName w1 = Throw w1.
Proof.
  intros w w1.
  destruct (editing_mode (Some (lit "8")) 3 w) as (_ & H & _).
  apply H. reflexivity.
Defined.

(* ================================================================== *)
(** * The location field does not depend on case *)

Lemma takeWhile_map (p : ascii -> bool) (f : ascii -> ascii) s :
  (forall c, p (f c) = p c) -> takeWhile p (map f s) = map f (takeWhile p s).
Proof.
  intros H. induction s as [|c r IH]; simpl; [reflexivity|].
  rewrite H. destruct (p c); [now rewrite IH | reflexivity].
Qed.

Lemma stripPrefixCI_upper p : forall s,
  stripPrefixCI p (toUpperCase s) = option_map toUpperCase (stripPrefixCI p s).
Proof.
  induction p as [|a p IH]; intros s.
  - now destruct s.
  - destruct s as [|c s]; [reflexivity|].
    cbn [toUpperCase map stripPrefixCI]. rewrite upper_char_idem.
    destruct (Ascii.eqb _ _); [apply IH | reflexivity].
Qed.

Lemma prefixedRun_upper p letters s :
  prefixedRun p letters (toUpperCase s)
  = option_map toUpperCase (prefixedRun p letters s).
Proof.
  unfold prefixedRun. rewrite stripPrefixCI_upper.
  destruct (stripPrefixCI p s) as [r|]; cbn [option_map]; [|reflexivity].
  unfold toUpperCase.
  rewrite (dropWhile_map _ _ r is_space_upper), (takeWhile_map _ _ r is_space_upper).
  rewrite (takeWhile_map _ _ _ is_digit_upper), (dropWhile_map _ _ _ is_digit_upper).
  destruct (takeWhile is_digit (dropWhile is_space r)) as [|c ds] eqn:E;
    [reflexivity|].
  cbn [map option_map]. f_equal. rewrite firstn_map, !map_app. cbn [map].
  do 3 f_equal.
  destruct letters; [|reflexivity].
  apply (takeWhile_map _ _ _ is_alpha_upper).
Qed.

Lemma shelfAt_upper s :
  shelfAt (toUpperCase s) = option_map toUpperCase (shelfAt s).
Proof.
  unfold shelfAt. rewrite !prefixedRun_upper.
  now destruct (prefixedRun (lit "SHELF") true s).
Qed.

Lemma is_word_upper c : is_word (upper_char c) = is_word c.
Proof. each_char c; reflexivity. Qed.

Lemma wordAt_upper prev : wordAt (option_map upper_char prev) = wordAt prev.
Proof. destruct prev; [apply is_word_upper | reflexivity]. Qed.

Lemma hd_error_map (f : ascii -> ascii) l :
  hd_error (map f l) = option_map f (hd_error l).
Proof. now destruct l. Qed.

Lemma bareNumberAt_upper prev s :
  bareNumberAt (option_map upper_char prev) (toUpperCase s)
  = option_map toUpperCase (bareNumberAt prev s).
Proof.
  unfold bareNumberAt, toUpperCase.
  rewrite (takeWhile_map _ _ s is_digit_upper), (dropWhile_map _ _ s is_digit_upper).
  rewrite hd_error_map, !wordAt_upper.
  destruct (takeWhile is_digit s); [reflexivity|]. cbn [map].
  now destruct (_ && _).
Qed.

Lemma boxAt_upper prev s :
  boxAt (option_map upper_char prev) (toUpperCase s)
  = option_map toUpperCase (boxAt prev s).
Proof.
  unfold boxAt. rewrite !prefixedRun_upper, bareNumberAt_upper.
  destruct (prefixedRun (lit "BOX") false s); [reflexivity|].
  now destruct (prefixedRun (lit "B") false s).
Qed.

Lemma firstMatch_upper at_start :
  (forall prev s, at_start (option_map upper_char prev) (toUpperCase s)
                  = option_map toUpperCase (at_start prev s)) ->
  forall s prev,
    firstMatch at_start (option_map upper_char prev) (toUpperCase s)
    = option_map toUpperCase (firstMatch at_start prev s).
Proof.
  intros H. induction s as [|c r IH]; intros prev.
  - cbn [toUpperCase map firstMatch].
    change (@nil ascii) with (toUpperCase []) at 1. rewrite H.
    now destruct (at_start prev []).
  - cbn [firstMatch]. change (toUpperCase (c :: r)) with (upper_char c :: toUpperCase r).
    cbn [firstMatch]. change (upper_char c :: toUpperCase r) with (toUpperCase (c :: r)).
    rewrite H. destruct (at_start prev (c :: r)); [reflexivity|].
    apply (IH (Some c)).
Qed.

Lemma firstMatch_split at_start : forall s prev m,
  firstMatch at_start prev s = Some m ->
  exists a b prev',
    s = a ++ b /\ at_start prev' b = Some m
    /\ (forall a1 x a2, a = a1 ++ x :: a2 ->
          exists prev'', at_start prev'' (x :: a2 ++ b) = None).
Proof.
  induction s as [|c r IH]; intros prev m H; cbn [firstMatch] in H.
  - destruct (at_start prev []) eqn:E; [|discriminate]. injection H as <-.
    exists [], [], prev. repeat split; auto.
    intros a1 x a2 Ea. now destruct a1.
  - destruct (at_start prev (c :: r)) eqn:E.
    + injection H as <-. exists [], (c :: r), prev. repeat split; auto.
      intros a1 x a2 Ea. now destruct a1.
    + destruct (IH _ _ H) as (a & b & prev' & -> & Hb & Hearlier).
      exists (c :: a), b, prev'. repeat split; auto.
      intros a1 x a2 Ea. destruct a1 as [|y a1]; cbn [app] in Ea.
      * injection Ea as <- <-. now exists prev.
      * injection Ea as <- ->. now apply Hearlier with a1.
Qed.

Lemma startsWith_upper_split m : forall x,
  startsWith (toUpperCase m) (toUpperCase x) = true ->
  exists m' x2, x = m' ++ x2 /\ toUpperCase m' = toUpperCase m.
Proof.
  unfold toUpperCase. induction m as [|c m IH]; intros x H.
  - now exists [], x.
  - destruct x as [|d x]; [discriminate|]. cbn [map startsWith] in H.
    apply andb_prop in H. destruct H as [H1 H2].
    apply Ascii.eqb_eq in H1.
    destruct (IH _ H2) as (m' & x2 & -> & E).
    exists (d :: m'), x2. split; [reflexivity|]. cbn [map]. now rewrite E, H1.
Qed.

Lemma startsWith_exact_upper m : forall x,
  startsWith m x = true -> startsWith (toUpperCase m) (toUpperCase x) = true.
Proof.
  induction m as [|c m IH]; intros x H; [reflexivity|].
  destruct x as [|d x]; [discriminate|]. cbn [startsWith] in H.
  apply andb_prop in H. destruct H as [H1 H2].
  apply Ascii.eqb_eq in H1. subst d.
  cbn [toUpperCase map startsWith]. rewrite Ascii.eqb_refl. apply (IH _ H2).
Qed.

Lemma all_upper_eq (p : ascii -> bool) a b :
  (forall c, p (upper_char c) = p c) ->
  toUpperCase a = toUpperCase b -> all p b -> all p a.
Proof.
  unfold all. intros Hp E Hb.
  assert (Hu : Forall (fun c => p c = true) (toUpperCase a)).
  { rewrite E. unfold toUpperCase. apply Forall_map. revert Hb.
    apply Forall_impl. intros c Hc. now rewrite Hp. }
  unfold toUpperCase in Hu. rewrite Forall_map in Hu. revert Hu.
  apply Forall_impl. intros c Hc. now rewrite Hp in Hc.
Qed.

Lemma prefixedRun_ci_occurrence p letters b m x :
  prefixedRun p letters b = Some m ->
  startsWith (toUpperCase m) (toUpperCase x) = true ->
  prefixedRun p letters x <> None.
Proof.
  intros Hm Hx.
  destruct (prefixedRun_shape _ _ _ Hm)
    as (pre & ws & num & l & rest & _ & -> & Hp & Hws & Hn & Hd & _).
  destruct (startsWith_upper_split _ _ Hx) as (m' & x2 & -> & E).
  rewrite !toUpperCase_app in E. unfold toUpperCase in E at 1.
  apply map_eq_app in E. destruct E as (pre' & t1 & -> & Epre & E).
  apply map_eq_app in E. destruct E as (ws' & t2 & -> & Ews & E).
  apply map_eq_app in E. destruct E as (num' & l' & -> & Enum & _).
  assert (Hws' : all is_space ws') by (apply (all_upper_eq _ is_space_upper Ews Hws)).
  assert (Hd' : all is_digit num') by (apply (all_upper_eq _ is_digit_upper Enum Hd)).
  assert (Hn' : num' <> []).
  { intros ->. destruct num; [congruence | discriminate Enum]. }
  unfold prefixedRun. rewrite <- !app_assoc.
  rewrite (@stripPrefixCI_ci p pre' _ (eq_trans Epre Hp)).
  rewrite dropWhile_app_all by assumption.
  destruct num' as [|c num']; [congruence|]. inversion Hd'; subst.
  cbn [app dropWhile takeWhile].
  rewrite (digit_not_space _ H1). cbn [takeWhile]. rewrite H1. discriminate.
Qed.

Lemma startsWith_digits_upper m :
  all is_digit m -> forall x, startsWith m (toUpperCase x) = startsWith m x.
Proof.
  induction 1 as [|c m Hc _ IH]; intros x; [now destruct x|].
  destruct x as [|d x]; [reflexivity|].
  cbn [toUpperCase map startsWith]. fold (toUpperCase x). rewrite IH. f_equal.
  destruct (Ascii.eqb_spec c d) as [->|Hn].
  - rewrite (digit_upper_fixed _ Hc). apply Ascii.eqb_refl.
  - destruct (Ascii.eqb_spec c (upper_char d)) as [E|]; [|reflexivity].
    exfalso. rewrite E, is_digit_upper in Hc.
    rewrite (digit_upper_fixed _ Hc) in E. congruence.
Qed.

Lemma replaceFirst_digits_upper m by_ :
  all is_digit m -> toUpperCase by_ = by_ ->
  forall s, replaceFirst m by_ (toUpperCase s)
            = toUpperCase (replaceFirst m by_ s).
Proof.
  intros Hm Hby. induction s as [|c r IH].
  - cbn [toUpperCase map]. rewrite replaceFirst_unfold.
    destruct (startsWith m []); [|reflexivity].
    fold (toUpperCase (by_ ++ skipn (List.length m) [])).
    rewrite toUpperCase_app, Hby. now destruct (List.length m).
  - rewrite (replaceFirst_unfold m by_ (c :: r)), replaceFirst_unfold.
    rewrite (startsWith_digits_upper Hm).
    destruct (startsWith m (c :: r)).
    + rewrite toUpperCase_app, Hby. unfold toUpperCase. now rewrite skipn_map.
    + cbn [toUpperCase map]. fold (toUpperCase r). now rewrite IH.
Qed.

Lemma replaceFirst_ci m by_ rest :
  toUpperCase by_ = by_ ->
  forall a,
    (forall a1 x a2, a = a1 ++ x :: a2 ->
       startsWith (toUpperCase m) (toUpperCase (x :: a2 ++ m ++ rest)) = false) ->
    replaceFirst (toUpperCase m) by_ (toUpperCase (a ++ m ++ rest))
    = toUpperCase (replaceFirst m by_ (a ++ m ++ rest)).
Proof.
  intros Hby. induction a as [|x a IH]; intros H.
  - cbn [app]. now rewrite toUpperCase_app, !replaceFirst_here, toUpperCase_app, Hby.
  - pose proof (H [] x a eq_refl) as Hx.
    assert (Hx' : startsWith m (x :: a ++ m ++ rest) = false).
    { destruct (startsWith m (x :: a ++ m ++ rest)) eqn:E; [|reflexivity].
      apply startsWith_exact_upper in E. congruence. }
    cbn [app]. rewrite (replaceFirst_unfold m), replaceFirst_unfold, Hx, Hx'.
    cbn [toUpperCase map]. fold (toUpperCase (a ++ m ++ rest)).
    fold (toUpperCase (replaceFirst m by_ (a ++ m ++ rest))).
    rewrite IH; [reflexivity|].
    intros a1 y a2 ->. now apply (H (x :: a1) y a2).
Qed.

Lemma match_replace_upper at_start text prev m :
  (forall prev b m, at_start prev b = Some m ->
     all is_digit m
     \/ exists p letters,
          prefixedRun p letters b = Some m
          /\ forall prev' x, at_start prev' x = None ->
                             prefixedRun p letters x = None) ->
  firstMatch at_start prev text = Some m ->
  replaceFirst (toUpperCase m) (lit " ") (toUpperCase text)
  = toUpperCase (replaceFirst m (lit " ") text).
Proof.
  intros Hk H.
  destruct (firstMatch_split _ _ _ H) as (a & b & prev' & -> & Hb & Hearlier).
  destruct (Hk _ _ _ Hb) as [Hd | (p & letters & Hp & Hnone)].
  - rewrite (all_digit_upper Hd). now apply replaceFirst_digits_upper.
  - destruct (prefixedRun_shape _ _ _ Hp)
      as (pre & ws & num & l & rest & Eb & _).
    subst b. apply replaceFirst_ci; [reflexivity|].
    intros a1 x a2 Ea. destruct (Hearlier _ _ _ Ea) as [prev'' Hn].
    destruct (startsWith (toUpperCase m) (toUpperCase (x :: a2 ++ m ++ rest)))
      eqn:S; [|reflexivity].
    exfalso. apply (prefixedRun_ci_occurrence _ _ _ _ Hp S).
    apply (Hnone _ _ Hn).
Qed.

Lemma shelfAt_kind (prev : option ascii) b m :
  shelfAt b = Some m ->
  all is_digit m
  \/ exists p letters,
       prefixedRun p letters b = Some m
       /\ forall (prev' : option ascii) x, shelfAt x = None ->
                                            prefixedRun p letters x = None.
Proof.
  unfold shelfAt. intros H. right.
  destruct (prefixedRun (lit "SHELF") true b) as [m1|] eqn:E1.
  - injection H as <-. exists (lit "SHELF"), true. split; [exact E1|].
    intros _ x Hx. now destruct (prefixedRun (lit "SHELF") true x).
  - exists (lit "S"), true. split; [exact H|].
    intros _ x Hx. now destruct (prefixedRun (lit "SHELF") true x).
Qed.

Lemma boxAt_kind prev b m :
  boxAt prev b = Some m ->
  all is_digit m
  \/ exists p letters,
       prefixedRun p letters b = Some m
       /\ forall prev' x, boxAt prev' x = None ->
                          prefixedRun p letters x = None.
Proof.
  unfold boxAt. intros H.
  destruct (prefixedRun (lit "BOX") false b) as [m1|] eqn:E1.
  - injection H as <-. right. exists (lit "BOX"), false. split; [exact E1|].
    intros prev' x Hx. now destruct (prefixedRun (lit "BOX") false x).
  - destruct (prefixedRun (lit "B") false b) as [m2|] eqn:E2.
    + injection H as <-. right. exists (lit "B"), false. split; [exact E2|].
      intros prev' x Hx. destruct (prefixedRun (lit "BOX") false x); [discriminate|].
      now destruct (prefixedRun (lit "B") false x).
    + left. now apply bareNumberAt_digits in H.
Qed.

Lemma normalizeShelfLocation_upper m :
  normalizeShelfLocation (Some (toUpperCase m)) = normalizeShelfLocation (Some m).
Proof.
  destruct m as [|c m]; [reflexivity|].
  unfold normalizeShelfLocation.
  change (toUpperCase (c :: m)) with (upper_char c :: toUpperCase m).
  cbv beta iota zeta.
  change (upper_char c :: toUpperCase m) with (toUpperCase (c :: m)).
  now rewrite toUpperCase_idem.
Qed.

Lemma normalizeBoxNumber_upper m :
  normalizeBoxNumber (Some (toUpperCase m)) = normalizeBoxNumber (Some m).
Proof.
  destruct m as [|c m]; [reflexivity|].
  unfold normalizeBoxNumber.
  change (toUpperCase (c :: m)) with (upper_char c :: toUpperCase m).
  cbv beta iota zeta.
  change (upper_char c :: toUpperCase m) with (toUpperCase (c :: m)).
  now rewrite toUpperCase_idem.
Qed.

Lemma parseLocationInput_blank v :
  trim v = [] -> parseLocationInput (Some v) = None.
Proof.
  intros H. unfold parseLocationInput. destruct v; [reflexivity|]. now rewrite H.
Qed.

Lemma parseLocationInput_upper v :
  parseLocationInput (Some (toUpperCase v)) = parseLocationInput (Some v).
Proof.
  destruct (trim v) as [|c t] eqn:Et.
  - rewrite !parseLocationInput_blank; auto.
    rewrite trim_toUpperCase, Et. reflexivity.
  - rewrite (@parseLocationInput_text v (c :: t) Et) by discriminate.
    rewrite (@parseLocationInput_text (toUpperCase v) (toUpperCase (c :: t)))
      by (try discriminate; now rewrite trim_toUpperCase, Et).
    cbv zeta. set (text := c :: t).
    pose proof (@firstMatch_upper (fun _ => shelfAt)
                  (fun _ s => shelfAt_upper s) text None) as Es.
    cbn [option_map] in Es. rewrite Es.
    assert (Er : match option_map toUpperCase
                         (firstMatch (fun _ => shelfAt) None text) with
                 | Some m => replaceFirst m (lit " ") (toUpperCase text)
                 | None => toUpperCase text
                 end
                 = toUpperCase
                     match firstMatch (fun _ => shelfAt) None text with
                     | Some m => replaceFirst m (lit " ") text
                     | None => text
                     end).
    { destruct (firstMatch (fun _ => shelfAt) None text) as [m|] eqn:Em;
        [|reflexivity].
      cbn [option_map].
      apply (@match_replace_upper (fun _ => shelfAt) text None m);
        [|exact Em].
      intros prev b m0 H0. now apply shelfAt_kind. }
    rewrite Er.
    assert (Esh : match option_map toUpperCase
                          (firstMatch (fun _ => shelfAt) None text) with
                  | Some m => normalizeShelfLocation (Some m)
                  | None => None
                  end
                  = match firstMatch (fun _ => shelfAt) None text with
                    | Some m => normalizeShelfLocation (Some m)
                    | None => None
                    end).
    { destruct (firstMatch (fun _ => shelfAt) None text); [|reflexivity].
      apply normalizeShelfLocation_upper. }
    rewrite Esh.
    set (remaining := match firstMatch (fun _ => shelfAt) None text with
                      | Some m => replaceFirst m (lit " ") text
                      | None => text
                      end).
    pose proof (@firstMatch_upper boxAt boxAt_upper remaining None) as Eb.
    cbn [option_map] in Eb. rewrite Eb.
    assert (Er2 : match option_map toUpperCase (firstMatch boxAt None remaining) with
                  | Some m => replaceFirst m (lit " ") (toUpperCase remaining)
                  | None => toUpperCase remaining
                  end
                  = toUpperCase
                      match firstMatch boxAt None remaining with
                      | Some m => replaceFirst m (lit " ") remaining
                      | None => remaining
                      end).
    { destruct (firstMatch boxAt None remaining) as [m|] eqn:Em; [|reflexivity].
      cbn [option_map].
      apply (@match_replace_upper boxAt remaining None m); [|exact Em].
      intros prev b m0 H0. now apply boxAt_kind with prev. }
    rewrite Er2.
    assert (Ebx : match option_map toUpperCase (firstMatch boxAt None remaining) with
                  | Some m => normalizeBoxNumber (Some m)
                  | None => None
                  end
                  = match firstMatch boxAt None remaining with
                    | Some m => normalizeBoxNumber (Some m)
                    | None => None
                    end).
    { destruct (firstMatch boxAt None remaining); [|reflexivity].
      apply normalizeBoxNumber_upper. }
    rewrite Ebx, trim_toUpperCase.
    match goal with
    | |- context [toUpperCase (trim ?x)] => destruct (trim x)
    end; reflexivity.
Qed.

(** X28: the location field does not depend on the case of the letters.
    On a text of ASCII characters [parseLocationInput] gives the same
    result for the text and for its upper-case form.  So the second
    attempt of [handleInputKeyDown], on the upper-cased text, never
    finds a location the first one missed: outside editing a text that
    [parseLocationInput] rejects, with or without digits, is added as an
    item when a location is active, and otherwise the user is told to
    enter a location first and nothing else changes. *)
Theorem location_ignores_case (inputValue now : str) (newId : Z)
  (tags : option (list str)) (w : World) :
  all is_ascii inputValue ->
  parseLocationInput (Some (toUpperCase inputValue))
  = parseLocationInput (Some inputValue)
  /\ (trim inputValue <> [] -> editingItemId w = None ->
        parseLocationInput (Some (trim inputValue)) = None ->
        handleEnter inputValue now newId tags w
        = if truthy (currentBox w)
          then addItem (trim inputValue) now newId tags w
          else Return (report w (Alert
                 (lit "Please enter a BOX or SHELF location first"))) tt).
Proof.
  intros _. split; [apply parseLocationInput_upper|].
  intros Hv He Hp. unfold handleEnter.
  destruct (trim inputValue) as [|c v]; [congruence|].
  rewrite He, parseLocationInput_upper, Hp. cbn [withPrimary].
  now destruct (truthy (currentBox w)).
Qed.

Lemma location_ignores_case_witness :
  parseLocationInput (Some (toUpperCase (lit "12 apples")))
  = parseLocationInput (Some (lit "12 apples"))
  /\ handleEnter (lit "12 apples") (lit "2024-01-01T00:00:00.000Z") 1 None
                 (initialWorld None)
     = Return (report (initialWorld None)
                      (Alert (lit "Please enter a BOX or SHELF location first"))) tt.
Proof.
  assert (Ha : all is_ascii (lit "12 apples")) by (repeat constructor).
  destruct (@location_ignores_case (lit "12 apples")
              (lit "2024-01-01T00:00:00.000Z") 1 None (initialWorld None) Ha)
    as [H1 H2].
  split; [exact H1|].
  apply H2; [discriminate | reflexivity | reflexivity].
Defined.

(* ================================================================== *)
(** * The history in every state the page can reach *)

Lemma historyWf_initial cfg : historyWf (initialWorld cfg).
Proof. split; [cbn; lia | constructor]. Qed.

Lemma historyIndex_saveStateToHistory w :
  historyIndex (saveStateToHistory w)
  = (Z.of_nat (List.length (history (saveStateToHistory w))) - 1)%Z.
Proof.
  unfold saveStateToHistory.
  set (h2 := slice0 (historyIndex w + 1) (history w) ++ [jsonCopy (currentSession w)]).
  assert (L : List.length h2 <> 0%nat).
  { unfold h2. rewrite length_app. simpl. lia. }
  clearbody h2.
  destruct (_ <? _)%N; cbn; [|reflexivity].
  destruct h2 as [|x h2']; [now elim L|]. cbn [tl List.length]. lia.
Qed.

Lemma historyWf_saveStateToHistory w :
  Forall jsonStable (history w) -> historyWf (saveStateToHistory w).
Proof.
  intros Hj. split.
  - rewrite historyIndex_saveStateToHistory. lia.
  - apply history_saveStateToHistory; [assumption | apply jsonCopy_idem].
Qed.

Lemma historyStep_wf w w' : historyWf w -> historyStep w w' -> historyWf w'.
Proof.
  intros (Hi & Hj)
         [(E1 & E2 & E3)|[(w0 & E1 & E2 & E3 & E4 & E5 & E6)|(E1 & E3 & E2)]].
  - unfold historyWf. rewrite E1, E2. auto.
  - assert (H0 : Forall jsonStable (history w0)) by (now rewrite E1).
    destruct (@historyWf_saveStateToHistory w0 H0) as (A & B).
    unfold historyWf. rewrite E4, E5. auto.
  - unfold historyWf. rewrite E1. split; [lia | assumption].
Qed.

Lemma historyStep_bounded w w' :
  historyWf w ->
  historyBounded w /\ (history w <> [] -> 0 <= historyIndex w)%Z ->
  historyStep w w' ->
  historyBounded w' /\ (history w' <> [] -> 0 <= historyIndex w')%Z.
Proof.
  intros (Hi & _) [Hb Hn] Hs.
  destruct Hs as [(E1 & E2 & E3)|[(w0 & E1 & E2 & E3 & E4 & E5 & E6)|(E1 & E3 & E2)]].
  - unfold historyBounded. rewrite E1, E2, E3. auto.
  - assert (Hi0 : (-1 <= historyIndex w0 < Z.of_nat (List.length (history w0)))%Z)
      by (rewrite E1, E2; exact Hi).
    assert (Hb0 : historyBounded w0)
      by (unfold historyBounded; rewrite E1, E3; exact Hb).
    destruct (@saveStateToHistory_length w0 Hi0 Hb0) as [Hb1 Hp].
    unfold historyBounded in *. rewrite E4, E5, E6.
    destruct (@saveStateToHistory_spec w0 ltac:(lia)) as (_ & _ & _ & _ & H3 & _).
    rewrite H3, E3 in Hb1. split; [exact Hb1 | intros _; exact Hp].
  - unfold historyBounded. rewrite E1, E3. split; [exact Hb | intros _; lia].
Qed.

Lemma historyStep_markExisting now done w :
  historyStep w (markExistingBoxesAsCompleted now done w).
Proof.
  unfold markExistingBoxesAsCompleted.
  destruct done; [history_step | apply historyStep_updateCurrent].
Qed.

Lemma step_historyStep D w w' : historyWf w -> step D w w' -> historyStep w w'.
Proof.
  intros Hw Hs. destruct Hs.
  - apply historyStep_switchBox.
  - apply historyStep_setSecondaryLocation.
  - apply historyStep_saveSecondaryLocation.
  - apply historyStep_toggleBoxComplete.
  - apply historyStep_addItem.
  - apply historyStep_deleteItem.
  - apply historyStep_startEditItem.
  - apply historyStep_saveEditedItem.
  - history_step.
  - apply historyStep_save; reflexivity.
  - now apply historyStep_undo.
  - now apply historyStep_redo.
  - apply historyStep_updateCurrent.
  - apply historyStep_markExisting.
  - apply historyStep_loadSessionData.
  - history_step.
  - history_step.
  - history_step.
  - history_step.
Qed.

Lemma step_historyWf D w w' : historyWf w -> step D w w' -> historyWf w'.
Proof.
  intros Hw Hs. apply (@historyStep_wf w w' Hw). now apply step_historyStep with D.
Qed.

Lemma reachable_history w :
  reachable w ->
  historyWf w
  /\ historyBounded w /\ (history w <> [] -> 0 <= historyIndex w)%Z.
Proof.
  induction 1 as [cfg|w w' Hr (Hw & Hb) Hs].
  - split; [apply historyWf_initial|]. split; [|now intros []].
    unfold historyBounded. cbn. pose proof (historyLimit_pos cfg). lia.
  - pose proof (@step_historyStep _ w w' Hw Hs) as Hh.
    split; [now apply (@historyStep_wf w w' Hw)|].
    now apply (@historyStep_bounded w w' Hw).
Qed.

(* ================================================================== *)
(** * The pages and the states the page can reach *)

Lemma world_saveFinally p : world (saveFinally p) = world p.
Proof. unfold saveFinally. cbn. now destruct (savePending p). Qed.

Lemma saveToStorage_world env p :
  world (saveToStorage env p) = world p
  \/ exists msg, world (saveToStorage env p) = report (world p) (SaveError msg).
Proof.
  unfold saveToStorage. destruct (saveInProgress p); [now left|].
  rewrite world_saveFinally.
  destruct (electron env), (localWritable env); cbn; auto.
  - destruct (backupFailure env); cbn; right; eexists; reflexivity.
Qed.

Lemma reachable_saveToStorage env p :
  reachable (world p) -> reachable (world (saveToStorage env p)).
Proof.
  intros H. destruct (saveToStorage_world env p) as [-> | (msg & ->)];
    [assumption | now apply reach_report].
Qed.

Lemma reachable_startNewSession now env p :
  reachable (world p) -> reachable (world (startNewSession now env p)).
Proof.
  intros H. unfold startNewSession. apply reachable_saveToStorage.
  cbn [world setWorld]. apply (@reach_step _ _ H). apply step_startNewSession.
Qed.

Lemma reachable_markExistingBoxes now env p :
  now <> [] -> reachable (world p) ->
  match markExistingBoxes now env p with
  | Done p' _ => reachable (world p')
  | Thrown p' => reachable (world p')
  end.
Proof.
  intros Hn H. unfold markExistingBoxes.
  destruct (migrationFlag p); [assumption|].
  assert (H1 : reachable (markExistingBoxesAsCompleted now false (world p))).
  { apply (@reach_step _ _ H). now apply step_markExistingBoxesAsCompleted. }
  destruct (localWritable env); [|exact H1].
  destruct (someUnmarked _); [|exact H1].
  apply reachable_saveToStorage. exact H1.
Qed.

Lemma reachable_loadFromBackup p :
  reachable (world p) -> reachable (world (pageOf (loadFromBackup p))).
Proof.
  intros H. unfold loadFromBackup.
  destruct (present (sessionBackup p)); [|assumption].
  destruct (sessionBackup p) as [[s| | | |]|]; cbn [pageOf world setWorld];
    try assumption.
  apply (@reach_step _ _ H). now apply step_loadFromBackup.
Qed.

Lemma readStored_world env p :
  match readStored env p with
  | Done p' _ => world p' = world p
  | Thrown p' => world p' = world p
  end.
Proof.
  unfold readStored. destruct (electron env); [reflexivity|].
  destruct (localSession p) as [[s| | | |]|]; cbn; try reflexivity;
    destruct (sessionBackup p) as [[s'| | | |]|]; cbn; try reflexivity;
    destruct (localWritable env); reflexivity.
Qed.

Lemma reachable_loadSession now env p :
  now <> [] -> reachable (world p) ->
  reachable (world (pageOf (loadSession now env p))).
Proof.
  intros Hn H. unfold loadSession.
  pose proof (readStored_world env p) as Hw.
  destruct (readStored env p) as [p1 data|p1].
  - assert (H1 : reachable (world p1)) by (now rewrite Hw).
    assert (Hacc : forall s,
              reachable (world (pageOf
                match markExistingBoxes now env
                        (saveToStorage env
                           (setWorld p1 (loadSessionData s now true (world p1)))) with
                | Done p4 _ => LoadReturned p4 true
                | Thrown p4 => loadFromBackup p4
                end))).
    { intros s.
      assert (H2 : reachable (world (saveToStorage env
                     (setWorld p1 (loadSessionData s now true (world p1)))))).
      { apply reachable_saveToStorage. cbn [world setWorld].
        apply (@reach_step _ _ H1). now apply step_loadSessionData. }
      pose proof (@reachable_markExistingBoxes now env _ Hn H2) as H3.
      destruct (markExistingBoxes now env _) as [p4 u|p4]; cbn [pageOf].
      - exact H3.
      - now apply reachable_loadFromBackup. }
    destruct data; cbn [pageOf]; try apply Hacc;
      now apply reachable_startNewSession.
  - apply reachable_loadFromBackup. now rewrite Hw.
Qed.

Lemma reachable_init now now' env p :
  now <> [] -> reachable (world p) -> reachable (world (init now now' env p)).
Proof.
  intros Hn H. unfold init.
  pose proof (@reachable_loadSession now env p Hn H) as H1.
  set (p1 := pageOf (loadSession now env p)) in *.
  assert (H2 : reachable (world (if falsy (Session.id (windowSession (world p1)))
                                 then startNewSession now' env p1 else p1))).
  { destruct (falsy _); [now apply reachable_startNewSession | assumption]. }
  set (p2 := if falsy _ then _ else p1) in *.
  destruct (rev (map fst (windowBoxes (world p2)))) as [|lastKey keys] eqn:E;
    [assumption|].
  cbn [world setWorld]. apply (@reach_step _ _ H2).
  now apply step_selectLast with keys.
Qed.

Lemma reachable_handleEnter inputValue now newId tags w :
  now <> [] -> reachable w ->
  reachable (worldOf (handleEnter inputValue now newId tags w)).
Proof.
  intros Hn H. unfold handleEnter.
  assert (Hloc : forall loc, reachable (applyLocation loc w)).
  { intros loc. unfold applyLocation.
    destruct (truthy _); [apply reach_setSecondaryLocation|]; now apply reach_switchBox. }
  destruct (trim inputValue); [assumption|].
  destruct (editingItemId w); [now apply reach_saveEditedItem|].
  destruct (withPrimary (parseLocationInput (Some (a :: l)))); [apply Hloc|].
  destruct (truthy (currentBox w)); [now apply reach_addItem|].
  destruct (withPrimary _); [apply Hloc | now apply reach_report].
Qed.

Lemma OnPage_switchBox_cases env boxNumber p :
  (lookup (propKey (normalizeBoxNumber boxNumber)) (windowBoxes (world p)) = None
   /\ falsy (normalizeBoxNumber boxNumber) = false
   /\ OnPage.switchBox env boxNumber p
      = saveToStorage env (setWorld p (switchBox boxNumber (world p))))
  \/ ((lookup (propKey (normalizeBoxNumber boxNumber)) (windowBoxes (world p)) <> None
       \/ falsy (normalizeBoxNumber boxNumber) = true)
      /\ OnPage.switchBox env boxNumber p
         = setWorld p (switchBox boxNumber (world p))).
Proof.
  unfold OnPage.switchBox, switchBox.
  destruct (falsy (normalizeBoxNumber boxNumber)) eqn:F; [right; auto|].
  change (windowBoxes (setCurrentBox (world p) (normalizeBoxNumber boxNumber)))
    with (windowBoxes (world p)).
  destruct (lookup _ _) eqn:L; [right | left]; auto.
  split; [left; discriminate | reflexivity].
Qed.

Lemma reachable_OnPage_switchBox env boxNumber p :
  reachable (world p) -> reachable (world (OnPage.switchBox env boxNumber p)).
Proof.
  intros H.
  destruct (OnPage_switchBox_cases env boxNumber p) as [(_ & _ & ->)|(_ & ->)].
  - apply reachable_saveToStorage. cbn [world setWorld]. now apply reach_switchBox.
  - cbn [world setWorld]. now apply reach_switchBox.
Qed.

(* ================================================================== *)
(** * Undo and redo *)

Lemma entryAt_bounds h i e :
  entryAt h i = Some e -> (0 <= i < Z.of_nat (List.length h))%Z.
Proof.
  unfold entryAt. destruct (i <? 0)%Z eqn:E; [discriminate|].
  apply Z.ltb_ge in E. intros H.
  assert (Hn : nth_error h (Z.to_nat i) <> None) by congruence.
  apply nth_error_Some in Hn. lia.
Qed.

(** C8: in every state where [undo] succeeds (index above 0) and the
    session equals the snapshot at the current index, [undo] followed by
    [redo] both return true and give back the session, the history and
    the index.  This holds in every state the page can reach, whatever
    session was read from storage, and more generally in every state
    where that snapshot is a JSON value, as every snapshot is that
    [saveStateToHistory] has recorded.  [redo] returns true and moves
    the index up by one whenever the index is below the last position.
    The history is well formed (the index between -1 and the last
    position, every snapshot a JSON value) in the initial state and
    stays so under every step of the page: it is well formed in every
    state the page can reach. *)
Theorem undo_redo_restores :
  (forall w, reachable w -> (0 < historyIndex w)%Z ->
     entryAt (history w) (historyIndex w) = Some (currentSession w) ->
     exists w1 w2,
       undo w = Return w1 true /\ redo w1 = Return w2 true
       /\ currentSession w2 = currentSession w
       /\ history w2 = history w /\ historyIndex w2 = historyIndex w)
  /\ (forall w, (0 < historyIndex w)%Z ->
     entryAt (history w) (historyIndex w) = Some (currentSession w) ->
     jsonStable (currentSession w) ->
     exists w1 w2,
       undo w = Return w1 true /\ redo w1 = Return w2 true
       /\ currentSession w2 = currentSession w
       /\ history w2 = history w /\ historyIndex w2 = historyIndex w)
  /\ (forall w,
        (-1 <= historyIndex w < Z.of_nat (List.length (history w)) - 1)%Z ->
        exists w', redo w = Return w' true
                   /\ historyIndex w' = (historyIndex w + 1)%Z)
  /\ (forall cfg, historyWf (initialWorld cfg))
  /\ (forall D w w', historyWf w -> step D w w' -> historyWf w')
  /\ (forall w, reachable w -> historyWf w).
Proof.
  assert (Hgen : forall w, (0 < historyIndex w)%Z ->
     entryAt (history w) (historyIndex w) = Some (currentSession w) ->
     jsonStable (currentSession w) ->
     exists w1 w2,
       undo w = Return w1 true /\ redo w1 = Return w2 true
       /\ currentSession w2 = currentSession w
       /\ history w2 = history w /\ historyIndex w2 = historyIndex w).
  { intros w Hpos Hcur Hst.
    pose proof (entryAt_bounds _ _ Hcur) as Hb.
    destruct (@entryAt_some (history w) (historyIndex w - 1) ltac:(lia)) as (e & He).
    unfold undo. apply Z.ltb_lt in Hpos. rewrite Hpos. apply Z.ltb_lt in Hpos.
    unfold restore at 1. rewrite He.
    eexists. eexists. split; [reflexivity|].
    unfold redo. cbn [historyIndex history rebind setHistory].
    replace (historyIndex w - 1 <? Z.of_nat (List.length (history w)) - 1)%Z
      with true by (symmetry; apply Z.ltb_lt; lia).
    unfold restore. cbn [historyIndex history rebind setHistory].
    replace (historyIndex w - 1 + 1)%Z with (historyIndex w) by lia.
    rewrite Hcur. split; [reflexivity|]. cbn.
    repeat split. exact Hst. }
  split; [|split; [exact Hgen|split; [|split; [|split]]]].
  - intros w Hr Hpos Hcur. apply (Hgen w Hpos Hcur).
    destruct (reachable_history Hr) as ((_ & Hst) & _).
    rewrite Forall_forall in Hst. apply Hst. now apply entryAt_In in Hcur.
  - intros w Hlt.
    destruct (@entryAt_some (history w) (historyIndex w + 1) ltac:(lia)) as (e & He).
    unfold redo. replace (historyIndex w <? _)%Z with true
      by (symmetry; apply Z.ltb_lt; lia).
    unfold restore. rewrite He. eexists. split; reflexivity.
  - exact historyWf_initial.
  - exact step_historyWf.
  - intros w Hr. apply (reachable_history Hr).
Qed.

(** Box 7 with "pen", then "cup": undo gives the box with "pen" alone,
    redo gives back both.  And after [startNewSession], with the session
    that has an id recorded twice. *)
Lemma undo_redo_restores_witness :
  (let t := lit "2024-05-01T10:00:00.000Z" in
   let w0 := switchBox (Some (lit "7")) (initialWorld None) in
   let w := worldOf (addItem (lit "cup") t 2 None
                       (worldOf (addItem (lit "pen") t 1 None w0))) in
   exists w1 w2,
     undo w = Return w1 true /\ redo w1 = Return w2 true
     /\ currentSession w2 = currentSession w
     /\ history w2 = history w /\ historyIndex w2 = historyIndex w)
  /\ (let t := lit "2024-05-01T10:00:00.000Z" in
      let started := rebind (initialWorld None)
                       (Session.mk (Some (lit "session-" ++ dashed t)) (Some t) []) in
      let w := saveStateToHistory (saveStateToHistory started) in
      exists w1 w2,
        undo w = Return w1 true /\ redo w1 = Return w2 true
        /\ currentSession w2 = currentSession w
        /\ history w2 = history w /\ historyIndex w2 = historyIndex w).
Proof.
  destruct undo_redo_restores as (Hreach & H & _).
  split; intros t; cbv zeta.
  - apply Hreach; [|vm_compute; reflexivity..].
    repeat (apply reach_addItem; [|discriminate]).
    apply reach_switchBox, reach_init.
  - apply H; vm_compute; reflexivity.
Defined.

(** X1: in every state the page can reach the history holds at most the
    configured number of snapshots (the configured [MAX_HISTORY_SIZE]
    when that is a positive number, 50 otherwise), the index lies
    between -1 and the last position, and it designates a snapshot as
    soon as the history is not empty.  The states the page can reach
    include the state of every page that [init], [loadSession],
    [startNewSession], [saveToStorage] and the Enter handler lead to,
    whatever session storage holds. *)
Theorem history_never_exceeds_limit :
  (forall w, reachable w ->
     (N.of_nat (List.length (history w)) <= historyLimit (maxHistorySize w))%N
     /\ (forall n, maxHistorySize w = Some n -> (0 < n)%N ->
           (N.of_nat (List.length (history w)) <= n)%N)
     /\ (maxHistorySize w = None \/ maxHistorySize w = Some 0%N ->
           (List.length (history w) <= 50)%nat)
     /\ (-1 <= historyIndex w < Z.of_nat (List.length (history w)))%Z
     /\ (history w <> [] -> 0 <= historyIndex w)%Z)
  /\ (forall now now' env p,
        now <> [] -> reachable (world p) ->
        reachable (world (init now now' env p))
        /\ reachable (world (pageOf (loadSession now env p)))
        /\ reachable (world (startNewSession now env p))
        /\ reachable (world (saveToStorage env p)))
  /\ (forall inputValue now newId tags w,
        now <> [] -> reachable w ->
        reachable (worldOf (handleEnter inputValue now newId tags w))).
Proof.
  split; [|split].
  - intros w Hr.
    destruct (reachable_history Hr) as ((Hi & _) & Hb & Hn).
    unfold historyBounded in Hb.
    split; [exact Hb|]. split; [|split; [|split; assumption]].
    + intros n E Hpos. rewrite E in Hb.
      destruct n; [lia | exact Hb].
    + intros [E | E]; rewrite E in Hb; cbn in Hb; lia.
  - intros now now' env p Hn Hr. repeat split.
    + now apply reachable_init.
    + now apply reachable_loadSession.
    + now apply reachable_startNewSession.
    + now apply reachable_saveToStorage.
  - intros. now apply reachable_handleEnter.
Qed.

(** Under a limit of 2, after [init] on a page whose storage holds a
    session and three recordings: the history holds the last two
    snapshots. *)
Lemma history_never_exceeds_limit_witness :
  let t := lit "2024-05-01T10:00:00.000Z" in
  let stored := Session.mk (Some (lit "session-1")) (Some t)
                  [(lit "BOX001", BoxData.mk [] true (Some t) None)] in
  let p := init t t (mkEnv false true None)
             (initialPage (Some 2%N) (Some (Written stored)) None true) in
  let w := saveStateToHistory
             (saveStateToHistory (saveStateToHistory (world p))) in
  reachable w
  /\ List.length (history w) = 2%nat
  /\ (N.of_nat (List.length (history w)) <= 2)%N
  /\ (-1 <= historyIndex w < Z.of_nat (List.length (history w)))%Z.
Proof.
  intros t stored p w.
  destruct history_never_exceeds_limit as (H1 & H2 & _).
  assert (Ht : t <> []) by discriminate.
  assert (Hp : reachable (world p)).
  { apply (H2 t t (mkEnv false true None)
              (initialPage (Some 2%N) (Some (Written stored)) None true) Ht).
    apply reach_init. }
  assert (Hr : reachable w).
  { now repeat apply reach_saveStateToHistory. }
  destruct (H1 w Hr) as (_ & Hn & _ & Hi & _).
  split; [exact Hr|]. split; [vm_compute; reflexivity|].
  split; [apply (Hn 2%N); [vm_compute; reflexivity | lia] | exact Hi].
Defined.

Lemma last_entry (h : list Session.t) c :
  entryAt (h ++ [c]) (Z.of_nat (List.length (h ++ [c])) - 1) = Some c.
Proof.
  unfold entryAt. rewrite length_app. cbn [List.length].
  replace (Z.of_nat (List.length h + 1) - 1 <? 0)%Z with false
    by (symmetry; apply Z.ltb_ge; lia).
  replace (Z.to_nat (Z.of_nat (List.length h + 1) - 1)) with (List.length h) by lia.
  rewrite nth_error_app2 by lia. now rewrite Nat.sub_diag.
Qed.

(** X2: a recording discards the redo branch.  In every state, right
    after [saveStateToHistory] the index is on the last snapshot, that
    snapshot is the JSON copy of the session, and [redo] returns false
    and changes nothing. *)
Theorem record_discards_redo (w : World) :
  redo (saveStateToHistory w) = Return (saveStateToHistory w) false
  /\ historyIndex (saveStateToHistory w)
     = (Z.of_nat (List.length (history (saveStateToHistory w))) - 1)%Z
  /\ entryAt (history (saveStateToHistory w)) (historyIndex (saveStateToHistory w))
     = Some (jsonCopy (currentSession w)).
Proof.
  pose proof (historyIndex_saveStateToHistory w) as Hi.
  split; [|split; [exact Hi|]].
  - unfold redo. rewrite Hi. now rewrite Z.ltb_irrefl.
  - rewrite Hi. unfold saveStateToHistory.
    set (h1 := slice0 (historyIndex w + 1) (history w)).
    pose proof (last_entry h1 (jsonCopy (currentSession w))) as Hl.
    pose proof (historyLimit_pos (maxHistorySize w)) as Hp.
    destruct (N.ltb_spec (historyLimit (maxHistorySize w))
                (N.of_nat (List.length (h1 ++ [jsonCopy (currentSession w)]))))
      as [E|E]; cbn [history setHistory]; [|exact Hl].
    destruct (h1 ++ [jsonCopy (currentSession w)]) as [|x r] eqn:Er;
      [discriminate Hl|].
    cbn [tl List.length] in *.
    unfold entryAt in *.
    destruct (Z.of_nat (S (List.length r)) - 1 <? 0)%Z eqn:E1; [discriminate|].
    replace (Z.of_nat (List.length r) - 1 <? 0)%Z with false
      by (symmetry; apply Z.ltb_ge; lia).
    rewrite <- Hl.
    replace (Z.to_nat (Z.of_nat (S (List.length r)) - 1))
      with (S (Z.to_nat (Z.of_nat (List.length r) - 1))) by lia.
    reflexivity.
Qed.

Lemma redo_undo_general (w : World) :
  (historyIndex w < Z.of_nat (List.length (history w)) - 1)%Z ->
  entryAt (history w) (historyIndex w) = Some (currentSession w) ->
  jsonStable (currentSession w) ->
  exists w1 w2,
    redo w = Return w1 true /\ undo w1 = Return w2 true
    /\ currentSession w2 = currentSession w
    /\ history w2 = history w /\ historyIndex w2 = historyIndex w
    /\ windowSession w2 = windowSession w.
Proof.
  intros Hlt Hcur Hst.
  pose proof (entryAt_bounds _ _ Hcur) as H0.
  destruct (@entryAt_some (history w) (historyIndex w + 1) ltac:(lia)) as (e & He).
  unfold redo. replace (historyIndex w <? _)%Z with true
    by (symmetry; apply Z.ltb_lt; lia).
  unfold restore at 1. rewrite He.
  eexists. eexists. split; [reflexivity|].
  unfold undo. cbn [historyIndex history rebind setHistory].
  replace (0 <? historyIndex w + 1)%Z with true by (symmetry; apply Z.ltb_lt; lia).
  unfold restore. cbn [historyIndex history rebind setHistory].
  replace (historyIndex w + 1 - 1)%Z with (historyIndex w) by lia.
  rewrite Hcur. split; [reflexivity|]. cbn.
  repeat split. exact Hst.
Qed.

(** X3: in every state the page can reach whose session equals the
    snapshot at the current index and whose index is below the last
    position, [redo] followed by [undo] both return true and give back
    the session, the history and the index; the exported session object
    is not touched.  The same holds in every state where that snapshot
    is a JSON value, as every recorded snapshot is. *)
Theorem redo_undo_restores :
  (forall w, reachable w ->
     (historyIndex w < Z.of_nat (List.length (history w)) - 1)%Z ->
     entryAt (history w) (historyIndex w) = Some (currentSession w) ->
     exists w1 w2,
       redo w = Return w1 true /\ undo w1 = Return w2 true
       /\ currentSession w2 = currentSession w
       /\ history w2 = history w /\ historyIndex w2 = historyIndex w
       /\ windowSession w2 = windowSession w)
  /\ (forall w,
        (historyIndex w < Z.of_nat (List.length (history w)) - 1)%Z ->
        entryAt (history w) (historyIndex w) = Some (currentSession w) ->
        jsonStable (currentSession w) ->
        exists w1 w2,
          redo w = Return w1 true /\ undo w1 = Return w2 true
          /\ currentSession w2 = currentSession w
          /\ history w2 = history w /\ historyIndex w2 = historyIndex w
          /\ windowSession w2 = windowSession w).
Proof.
  split; [|exact redo_undo_general].
  intros w Hr Hlt Hcur. apply (@redo_undo_general w Hlt Hcur).
  destruct (reachable_history Hr) as ((_ & Hst) & _).
  rewrite Forall_forall in Hst. apply Hst. now apply entryAt_In in Hcur.
Qed.

(** Box 7 with "pen", then "cup", then one [undo]: [redo] and [undo]
    again give back the box with "pen" alone. *)
Lemma redo_undo_restores_witness :
  let t := lit "2024-05-01T10:00:00.000Z" in
  let w0 := switchBox (Some (lit "7")) (initialWorld None) in
  let w := worldOf (undo (worldOf (addItem (lit "cup") t 2 None
                                     (worldOf (addItem (lit "pen") t 1 None w0))))) in
  exists w1 w2,
    redo w = Return w1 true /\ undo w1 = Return w2 true
    /\ currentSession w2 = currentSession w
    /\ history w2 = history w /\ historyIndex w2 = historyIndex w
    /\ windowSession w2 = windowSession w.
Proof.
  intros t w0 w. destruct redo_undo_restores as (H & _). apply H.
  - apply reach_undo. repeat (apply reach_addItem; [|discriminate]).
    apply reach_switchBox, reach_init.
  - vm_compute. reflexivity.
  - vm_compute. reflexivity.
Defined.

Lemma undo_after_record_general (w : World) :
  historyWf w ->
  (0 <= historyIndex w)%Z ->
  (2 <= historyLimit (maxHistorySize w))%N ->
  exists w' e,
    undo (saveStateToHistory w) = Return w' true
    /\ entryAt (history w) (historyIndex w) = Some e
    /\ currentSession w' = e
    /\ windowSession w' = windowSession w.
Proof.
  intros ((Hlo & Hhi) & Hst) H0 Hlim.
  destruct (@entryAt_some (history w) (historyIndex w) ltac:(lia)) as (e & He).
  assert (Hje : jsonCopy e = e).
  { rewrite Forall_forall in Hst. apply Hst. now apply entryAt_In in He. }
  destruct (@saveStateToHistory_spec w ltac:(lia)) as (H1 & H2 & H3 & _).
  cbv zeta in H1.
  pose proof (@entryAt_record (history w) (historyIndex w)
                (jsonCopy (currentSession w)) ltac:(lia)) as Hrec.
  remember (firstn (Z.to_nat (historyIndex w + 1)) (history w)
            ++ [jsonCopy (currentSession w)]) as h2 eqn:Eh.
  assert (L : List.length h2 = S (Z.to_nat (historyIndex w + 1))).
  { rewrite Eh, length_app, length_firstn. simpl. lia. }
  clear Eh.
  exists (rebind (setHistory (saveStateToHistory w) (history (saveStateToHistory w))
                             (historyIndex (saveStateToHistory w) - 1)) e), e.
  assert (Hentry : entryAt (history (saveStateToHistory w))
                           (historyIndex (saveStateToHistory w) - 1) = Some e
                   /\ (0 < historyIndex (saveStateToHistory w))%Z).
  { rewrite H2, H1.
    destruct (N.ltb_spec (historyLimit (maxHistorySize w)) (N.of_nat (List.length h2)))
      as [E|E].
    - destruct h2 as [|x h2]; [discriminate|].
      cbn [tl List.length] in *.
      split; [|lia].
      rewrite <- He, <- Hrec. unfold entryAt.
      replace (Z.of_nat (List.length h2) - 1 - 1 <? 0)%Z with false
        by (symmetry; apply Z.ltb_ge; lia).
      replace (historyIndex w <? 0)%Z with false
        by (symmetry; apply Z.ltb_ge; lia).
      replace (Z.to_nat (historyIndex w))
        with (S (Z.to_nat (Z.of_nat (List.length h2) - 1 - 1))) by lia.
      reflexivity.
    - split; [|lia].
      rewrite <- He, <- Hrec. f_equal. lia. }
  destruct Hentry as [Hentry Hpos].
  unfold undo. apply Z.ltb_lt in Hpos. rewrite Hpos.
  unfold restore. rewrite Hentry, Hje.
  repeat split; [exact He | cbn; exact H3].
Qed.

(** X4: in every state the page can reach whose index designates a
    snapshot, when the limit is at least 2, [undo] right after a
    recording succeeds and gives the data module the snapshot that was
    current before the recording; the exported session object is not
    touched.  The same holds in every state whose history is well
    formed. *)
Theorem undo_after_record :
  (forall w, reachable w ->
     (0 <= historyIndex w)%Z ->
     (2 <= historyLimit (maxHistorySize w))%N ->
     exists w' e,
       undo (saveStateToHistory w) = Return w' true
       /\ entryAt (history w) (historyIndex w) = Some e
       /\ currentSession w' = e
       /\ windowSession w' = windowSession w)
  /\ (forall w, historyWf w ->
        (0 <= historyIndex w)%Z ->
        (2 <= historyLimit (maxHistorySize w))%N ->
        exists w' e,
          undo (saveStateToHistory w) = Return w' true
          /\ entryAt (history w) (historyIndex w) = Some e
          /\ currentSession w' = e
          /\ windowSession w' = windowSession w).
Proof.
  split; [|exact undo_after_record_general].
  intros w Hr. apply undo_after_record_general.
  apply (reachable_history Hr).
Qed.

(** Box 7 with "pen" recorded, "cup" added without a recording: after
    the recording [undo] gives the box with "pen" alone. *)
Lemma undo_after_record_witness :
  let t := lit "2024-05-01T10:00:00.000Z" in
  let w := worldOf (addItem (lit "cup") t 2 None
                      (worldOf (addItem (lit "pen") t 1 None
                                  (switchBox (Some (lit "7")) (initialWorld None))))) in
  exists w' e,
    undo (saveStateToHistory w) = Return w' true
    /\ entryAt (history w) (historyIndex w) = Some e
    /\ currentSession w' = e
    /\ windowSession w' = windowSession w.
Proof.
  intros t w. destruct undo_after_record as (H & _). apply H.
  - repeat (apply reach_addItem; [|discriminate]).
    apply reach_switchBox, reach_init.
  - vm_compute. discriminate.
  - vm_compute. discriminate.
Defined.

(* ================================================================== *)
(** * Completion *)

(** C5, as stated, fails for shape repair on load: [ensureBoxDataShape]
    only replaces a falsy [completedAt] by null; it does not look at
    [completed].  A stored record that is completed and has no time
    stamp comes out of [loadSession] as it was stored: shape repair, key
    normalisation and the completion migration all keep it. *)
Lemma load_keeps_unstamped_completion :
  let now := lit "2024-05-01T10:00:00.000Z" in
  let b := BoxData.mk [] true None None in
  let stored := Session.mk (Some (lit "session-1")) (Some now) [(lit "BOX001", b)] in
  let env := mkEnv false true None in
  let p := initialPage None (Some (Written stored)) None false in
  let p' := pageOf (loadSession now env p) in
  loadSession now env p = LoadReturned p' true
  /\ reachable (world p')
  /\ repairShape b = b
  /\ lookup (lit "BOX001") (Session.boxes (currentSession (world p'))) = Some b
  /\ boxOfWorld (world p') b
  /\ BoxData.completed b = true
  /\ BoxData.completedAt b = None
  /\ ~ (BoxData.completedAt b <> None <-> BoxData.completed b = true).
Proof.
  intros now b stored env p p'.
  split; [reflexivity|]. split.
  { apply reachable_loadSession; [discriminate | apply reach_init]. }
  split; [reflexivity|]. split; [reflexivity|]. split.
  { right. left. exists (lit "BOX001"). vm_compute. now left. }
  split; [reflexivity|]. split; [reflexivity|].
  intros [_ H]. now apply H.
Qed.

(** C5, amended: [toggleBoxComplete] flips [completed], sets
    [completedAt] to the current time on the transition to true and to
    null on the transition to false, and does nothing when the box does
    not exist.  That [completedAt] is a time stamp when [completed]
    holds and null otherwise is an invariant of the page: it holds of
    every box record of the initial state, and when it holds of every
    box record of a state (of the exported session, of the session of
    the data module and of every snapshot) it holds again after every
    step, including key normalisation and merging, the completion
    migration, and the loading of stored data whose records satisfy it.
    In such a state [completedAt] is non-null exactly when [completed]
    is true.  (Shape repair does not establish it on stored data that
    do not satisfy it.) *)
Theorem completion_invariant :
  (forall cfg, completionInv (initialWorld cfg))
  /\ (forall w w', completionInv w -> step sessionOk w w' -> completionInv w')
  /\ (forall w b, completionInv w -> boxOfWorld w b ->
        (BoxData.completedAt b <> None <-> BoxData.completed b = true))
  /\ (forall boxNumber now w box,
        lookup (propKey (normalizeBoxNumber boxNumber)) (windowBoxes w) = Some box ->
        lookup (propKey (normalizeBoxNumber boxNumber))
               (windowBoxes (toggleBoxComplete boxNumber now w))
        = Some (BoxData.mk (BoxData.items box) (negb (BoxData.completed box))
                  (if BoxData.completed box then None else Some now)
                  (BoxData.secondaryLocation box)))
  /\ (forall boxNumber now w,
        lookup (propKey (normalizeBoxNumber boxNumber)) (windowBoxes w) = None ->
        toggleBoxComplete boxNumber now w = w).
Proof.
  split; [exact inv_initial|]. split; [|split; [|split]].
  - intros w w' H Hs. exact (step_completionInv Hs H).
  - intros w b H Hb. apply completionOk_iff. exact (completionInv_boxes H Hb).
  - intros bn now w box E. unfold toggleBoxComplete. rewrite E.
    unfold windowBoxes. rewrite windowSession_saveStateToHistory. cbn.
    rewrite lookup_assign_same. now destruct (BoxData.completed box).
  - intros bn now w E. unfold toggleBoxComplete. now rewrite E.
Qed.

(** The invariant in the state reached by selecting box 7, marking it
    completed and then loading a session whose box 1 is completed and
    stamped: it holds of the record of box 7 in the exported session
    and of the record of box 1 that was loaded. *)
Lemma completion_invariant_witness :
  let t := lit "2024-05-01T10:00:00.000Z" in
  let stored := Session.mk (Some (lit "session-1")) (Some t)
                  [(lit "BOX001", BoxData.mk [] true (Some t) None)] in
  let w1 := switchBox (Some (lit "7")) (initialWorld None) in
  let w2 := toggleBoxComplete (Some (lit "7")) t w1 in
  let w := loadSessionData (jsonCopy stored) t true w2 in
  let b7 := BoxData.mk [] true (Some t) None in
  let b1 := BoxData.mk [] true (Some t) None in
  completionInv w
  /\ boxOfWorld w b7
  /\ lookup (lit "BOX001") (Session.boxes (currentSession w)) = Some b1
  /\ (BoxData.completedAt b7 <> None <-> BoxData.completed b7 = true).
Proof.
  intros t stored w1 w2 w b7 b1.
  destruct completion_invariant as (H0 & Hstep & Hiff & _).
  assert (Ht : t <> []) by discriminate.
  assert (Hs : sessionOk (jsonCopy stored)).
  { repeat constructor. }
  assert (H1 : completionInv w1).
  { apply (Hstep (initialWorld None)); [apply H0 | apply step_switchBox]. }
  assert (H2 : completionInv w2).
  { apply (Hstep w1); [exact H1 | now apply step_toggleBoxComplete]. }
  assert (H3 : completionInv w).
  { apply (Hstep w2); [exact H2 | now apply step_loadSessionData]. }
  assert (Hb : boxOfWorld w b7).
  { left. exists (lit "BOX007"). vm_compute. now left. }
  split; [exact H3|]. split; [exact Hb|]. split; [reflexivity|].
  exact (Hiff w b7 H3 Hb).
Defined.

(* ================================================================== *)
(** * switchBox with its write to storage *)

Lemma switchBox_world_spec (boxNumber : option str) (w : World) s :
  boxNumber = Some s -> nonBlank s ->
  let w' := switchBox boxNumber w in
  currentBox w' = normalizeBoxNumber boxNumber
  /\ truthy (currentBox w') = true
  /\ history w' = history w /\ historyIndex w' = historyIndex w
  /\ ui w' = ui w /\ editingItemId w' = editingItemId w
  /\ (forall k, itemsAt k (windowBoxes w') = itemsAt k (windowBoxes w))
  /\ (binding w = Exported ->
      lookup (propKey (normalizeBoxNumber boxNumber)) (windowBoxes w') <> None).
Proof.
  intros -> Hs w'.
  pose proof (normalizeBoxNumber_truthy Hs) as Ht.
  unfold w', switchBox, falsy. rewrite Ht. cbn [negb].
  destruct (lookup _ _) eqn:L.
  + repeat split; auto.
    intros _. unfold windowBoxes in *. cbn [setCurrentBox windowSession] in *.
    congruence.
  + unfold updateCurrent. cbn [binding setCurrentBox].
    unfold windowBoxes in *. cbn [setCurrentBox windowSession] in L.
    destruct (binding w) eqn:B.
    * cbn [setWindowSession setCurrentBox currentBox history historyIndex ui
             editingItemId windowSession].
      repeat split; auto.
      -- intros k. apply itemsAt_ensureBoxExists.
      -- intros _. unfold ensureBoxExists. rewrite L.
         cbn [Session.boxes Session.with_boxes]. rewrite lookup_assign_same.
         discriminate.
    * cbn [rebind setCurrentBox currentBox history historyIndex ui
             editingItemId windowSession].
      repeat split; auto. discriminate.
Qed.

Lemma saveToStorage_fields env p :
  let w := world p in
  let w' := world (saveToStorage env p) in
  windowSession w' = windowSession w /\ binding w' = binding w
  /\ history w' = history w /\ historyIndex w' = historyIndex w
  /\ currentBox w' = currentBox w /\ editingItemId w' = editingItemId w
  /\ (ui w' = ui w \/ exists msg, ui w' = ui w ++ [SaveError msg]).
Proof.
  intros w w'. unfold w'.
  destruct (saveToStorage_world env p) as [-> | (msg & ->)].
  - repeat split; auto.
  - cbn. repeat split; auto. right. now exists msg.
Qed.

Lemma saveToStorage_reports env p :
  saveInProgress p = false -> electron env = false -> localWritable env = false ->
  ui (world (saveToStorage env p))
  = ui (world p)
    ++ [SaveError
          match backupFailure env with
          | None => lit "Data saved to session backup only (Persistence failed)."
          | Some message => lit "Error saving: " ++ message
          end].
Proof.
  intros Hp He Hl. unfold saveToStorage. rewrite Hp, He, Hl.
  rewrite world_saveFinally. now destruct (backupFailure env).
Qed.

Lemma saveToStorage_silent env p :
  saveInProgress p = true \/ localWritable env = true ->
  world (saveToStorage env p) = world p.
Proof.
  intros H. unfold saveToStorage.
  destruct (saveInProgress p); [reflexivity|].
  destruct H as [H|H]; [discriminate|]. rewrite H, world_saveFinally.
  now destruct (electron env).
Qed.

(** X25: [switchBox] on null, the empty text or white space alone only
    shows the alert and writes nothing.  On any other text it makes the
    normalised key the active location without recording a snapshot or
    changing the items of any box or the item being edited, and, while
    the variable of [js/data.js] still holds the exported session, the
    exported session then has a record under that key.  When the
    exported session already had a record under the key nothing is
    written and no message is shown.  Otherwise [saveToStorage] is
    called, and the only message that can appear is its save error:
    none when a save is running or [localStorage] can be written; when
    neither is the case and there is no Electron bridge, the error of
    the failed write is shown. *)
Theorem switchBox_spec (env : Env) (boxNumber : option str) (p : Page) :
  (boxNumber = None \/ (exists s, boxNumber = Some s /\ all is_space s) ->
   OnPage.switchBox env boxNumber p
   = setWorld p (report (world p) (Alert (lit "Invalid box number"))))
  /\ (forall s, boxNumber = Some s -> nonBlank s ->
        let key := propKey (normalizeBoxNumber boxNumber) in
        let w := world p in
        let p' := OnPage.switchBox env boxNumber p in
        let w' := world p' in
        currentBox w' = normalizeBoxNumber boxNumber
        /\ truthy (currentBox w') = true
        /\ history w' = history w /\ historyIndex w' = historyIndex w
        /\ editingItemId w' = editingItemId w
        /\ (forall k, itemsAt k (windowBoxes w') = itemsAt k (windowBoxes w))
        /\ (binding w = Exported -> lookup key (windowBoxes w') <> None)
        /\ (lookup key (windowBoxes w) <> None ->
              p' = setWorld p (setCurrentBox w (normalizeBoxNumber boxNumber)))
        /\ (lookup key (windowBoxes w) = None ->
              p' = saveToStorage env (setWorld p (switchBox boxNumber w))
              /\ (saveInProgress p = true \/ localWritable env = true ->
                    ui w' = ui w)
              /\ (saveInProgress p = false -> electron env = false ->
                  localWritable env = false ->
                    ui w'
                    = ui w
                      ++ [SaveError
                            match backupFailure env with
                            | None =>
                                lit "Data saved to session backup only (Persistence failed)."
                            | Some message => lit "Error saving: " ++ message
                            end]))
        /\ (ui w' = ui w \/ exists msg, ui w' = ui w ++ [SaveError msg])).
Proof.
  split.
  - intros H.
    assert (E : normalizeBoxNumber boxNumber = None
                \/ normalizeBoxNumber boxNumber = Some []).
    { destruct H as [->|(s & -> & Hs)]; [now left|].
      destruct s as [|a s]; [now left|]. right.
      unfold normalizeBoxNumber.
      assert (Et : trim (toUpperCase (a :: s)) = []).
      { rewrite trim_toUpperCase, (all_space_trim Hs). reflexivity. }
      rewrite Et. reflexivity. }
    unfold OnPage.switchBox. destruct E as [-> | ->]; reflexivity.
  - intros s Eb Hs key w p' w'.
    destruct (@switchBox_world_spec boxNumber w s Eb Hs)
      as (A1 & A2 & A3 & A4 & A5 & A6 & A7 & A8).
    assert (Ht : falsy (normalizeBoxNumber boxNumber) = false).
    { unfold falsy. rewrite Eb. now rewrite (normalizeBoxNumber_truthy Hs). }
    destruct (OnPage_switchBox_cases env boxNumber p) as [(L & _ & E)|([L|F] & E)];
      [| |congruence].
    + (* a new location: the record is created and saved *)
      fold key w in L. fold p' in E.
      set (q := setWorld p (switchBox boxNumber w)) in *.
      destruct (saveToStorage_fields env q)
        as (B1 & B2 & B3 & B4 & B5 & B6 & B7).
      change (world q) with (switchBox boxNumber w) in *.
      assert (E' : p' = saveToStorage env q) by exact E.
      clear E. unfold w'. rewrite E'.
      unfold windowBoxes. rewrite B1, B3, B4, B5, B6.
      split; [exact A1|]. split; [exact A2|]. split; [exact A3|].
      split; [exact A4|]. split; [exact A6|]. split; [exact A7|].
      split; [exact A8|].
      split; [intros Hne; now elim Hne|].
      split.
      * intros _. split; [reflexivity|]. split.
        -- intros H. rewrite (@saveToStorage_silent env q H). exact A5.
        -- intros Hp He Hl.
           rewrite (@saveToStorage_reports env q Hp He Hl).
           change (world q) with (switchBox boxNumber w). now rewrite A5.
      * destruct B7 as [B7 | (msg & B7)]; rewrite B7, A5; [now left|].
        right. now exists msg.
    + (* a location the exported session holds *)
      fold key w in L. fold p' in E.
      assert (E' : p' = setWorld p (switchBox boxNumber w)) by exact E.
      clear E. unfold w'. rewrite E'. cbn [world setWorld].
      split; [exact A1|]. split; [exact A2|]. split; [exact A3|].
      split; [exact A4|]. split; [exact A6|]. split; [exact A7|].
      split; [exact A8|].
      split.
      * intros _. f_equal. unfold switchBox. rewrite Ht.
        change (windowBoxes (setCurrentBox w (normalizeBoxNumber boxNumber)))
          with (windowBoxes w).
        fold key. destruct (lookup key (windowBoxes w)); [reflexivity | now elim L].
      * split; [intros Hn; now elim L | now left].
Qed.

(** Box 7 on a fresh page whose [localStorage] cannot be written: the
    location becomes active, its record is created, the session goes to
    the backup and the user is told so. *)
Lemma switchBox_spec_witness :
  let env := mkEnv false false None in
  let p := initialPage None None None true in
  let p' := OnPage.switchBox env (Some (lit "7")) p in
  currentBox (world p') = Some (lit "BOX007")
  /\ lookup (lit "BOX007") (windowBoxes (world p')) <> None
  /\ ui (world p')
     = [SaveError (lit "Data saved to session backup only (Persistence failed).")].
Proof.
  intros env p p'.
  destruct (switchBox_spec env (Some (lit "7")) p) as (_ & H).
  assert (Hn : nonBlank (lit "7")).
  { exists "7"%char. split; [now left | reflexivity]. }
  destruct (H (lit "7") eq_refl Hn) as (A1 & _ & _ & _ & _ & _ & A7 & _ & A9 & _).
  split; [exact A1|]. split; [apply A7; reflexivity|].
  destruct A9 as (_ & _ & A9); [reflexivity|].
  apply A9; reflexivity.
Defined.
